(** * Chroma-key vision utilities: background model, density scanner, blob finder

    A shallow embedding of the three C libraries of the repository
    (utils.c, mmm.c "Multi Modal Mean" and rollers.c "Rollers (Lite)")
    together with the properties proved about them.

    Conventions of the embedding.
    - A C [int] is a [Z]; the arithmetic that can leave the 32-bit range
      ([+], [-], [*], [abs], [<<]) is wrapped to two's complement by
      [Int.wrap].  Division is C's truncating division and is undefined on a
      zero divisor; undefined behaviour is the result [None].
    - An [unsigned char] is a [Z] in [0, 255].
    - A singly linked list threaded through a [Next] field is a Rocq list,
      in link order.  Cells are owned by exactly one list, so a cell set is a
      [list Cell].  Blobs are shared (column table, row blob, forwarding
      pointers), so they live in an explicit heap and the lists hold
      addresses.
    - A pointer is an [option]: [None] is [NULL]. *)

From Stdlib Require Import ZArith List Lia Bool.
From stdpp Require Import base option list.

Local Open Scope Z_scope.

(** ** Machine integers *)

Module Int.

Definition min_int : Z := -2147483648.

Definition max_int : Z := 2147483647.

Definition in_range (z : Z) : Prop := min_int <= z <= max_int.

(** Two's complement reduction to 32 bits. *)
Definition wrap (z : Z) : Z := (z + 2147483648) mod 4294967296 - 2147483648.

Definition add (a b : Z) : Z := wrap (a + b).

Definition sub (a b : Z) : Z := wrap (a - b).

Definition mul (a b : Z) : Z := wrap (a * b).

Definition abs (a : Z) : Z := wrap (Z.abs a).

(** [a / b]: truncation toward zero; a zero divisor and [INT_MIN / -1] trap. *)
Definition div (a b : Z) : option Z :=
  if b =? 0 then None
  else if (a =? min_int) && (b =? -1) then None
  else Some (Z.quot a b).

(** [a % b]: the remainder of the truncating division. *)
Definition rem (a b : Z) : option Z :=
  if b =? 0 then None
  else if (a =? min_int) && (b =? -1) then None
  else Some (Z.rem a b).

(** [a >> 1] on a signed int: arithmetic shift. *)
Definition shr1 (a : Z) : Z := Z.shiftr a 1.

(** [1 << n]: defined for a shift count in [0, 31]. *)
Definition shl1 (n : Z) : option Z :=
  if (0 <=? n) && (n <=? 31) then Some (wrap (Z.shiftl 1 n)) else None.

End Int.

(** ** Counted loops *)

(** [for (i = ...; ...; i++) body]: the body is run at each index in turn; an
    undefined step makes the loop undefined. *)
Fixpoint for_each {S : Type} (body : S -> nat -> option S) (Is : list nat)
    (s : S) : option S :=
  match Is with
  | [] => Some s
  | i :: Is' =>
      match body s i with
      | None => None
      | Some s' => for_each body Is' s'
      end
  end.

(** ** utils.h: pixels and frame buffers *)

Module Utils.

(** [typedef struct Pixel { unsigned char R, G, B; }]. *)
Record Pixel := mkPixel { R : Z; G : Z; B : Z }.

Definition byte_ok (z : Z) : Prop := 0 <= z <= 255.

Definition Pixel_ok (P : Pixel) : Prop :=
  byte_ok (R P) /\ byte_ok (G P) /\ byte_ok (B P).

(** [FrmBuf]: the packed byte array [Frm] holds pixel [I] in bytes
    [3*I .. 3*I+2]; the libraries read it either as [Frm[3*I+k]] or through a
    [(Pixel * )] cast of [&Frm[3*I]], so it is kept here as the list of its
    pixels. *)
Record FrmBuf := mkFrmBuf { Frm : list Pixel; Height : Z; Width : Z }.

Definition black : Pixel := mkPixel 0 0 0.

(** The conversion of an int to [unsigned char]. *)
Definition to_byte (z : Z) : Z := z mod 256.

(** [a << n] on an int. *)
Definition shl (a n : Z) : Z := Int.wrap (Z.shiftl a n).

(** [Rainbow]: [X] is an unsigned char; [X % 64] is the remainder of a
    non-zero constant. *)
Definition Rainbow (X : Z) : Pixel :=
  if X <? 64 then mkPixel 0 (to_byte (shl X 2)) 255
  else if X <? 128 then mkPixel 0 255 (to_byte (Int.sub 255 (shl (Z.rem X 64) 2)))
  else if X <? 192 then mkPixel (to_byte (shl (Z.rem X 64) 2)) 255 0
  else mkPixel 255 (to_byte (Int.sub 255 (shl (Z.rem X 64) 2))) 0.

(** [RainbowMod]: the three channels are rewritten in turn. *)
Definition RainbowMod (X Y : Z) : Pixel :=
  let P := Rainbow X in
  mkPixel (to_byte (shl (Int.mul (R P) Y) 8))
          (to_byte (shl (Int.mul (G P) Y) 8))
          (to_byte (shl (Int.mul (B P) Y) 8)).

End Utils.

(** ** mmm.c: the multimodal mean background model *)

Module MMM.

(** [typedef struct Cell { int R, G, B, Count; struct Cell *Next; }]. *)
Record Cell := mkCell { R : Z; G : Z; B : Z; Count : Z }.

Definition FREECELLSBLOCKSIZE : nat := 100.

(** The contents of memory fresh from [malloc]; every field of a cell is
    written before it is read. *)
Definition uninit : Cell := mkCell 0 0 0 0.

(** [Allocate_Cell]: pops the free list [FreeCells], refilling it with a
    block of [FREECELLSBLOCKSIZE] cells when it is empty. *)
Definition Allocate_Cell (FreeCells : list Cell) : Cell * list Cell :=
  let FreeCells :=
    match FreeCells with
    | [] => replicate FREECELLSBLOCKSIZE uninit
    | _ => FreeCells
    end in
  match FreeCells with
  | NewCell :: rest => (NewCell, rest)
  | [] => (uninit, [])
  end.

(** [Last_Cell]: dereferences its argument, so the empty set is undefined. *)
Fixpoint Last_Cell (ThisCell : list Cell) : option Cell :=
  match ThisCell with
  | [] => None
  | [c] => Some c
  | _ :: rest => Last_Cell rest
  end.

Definition Length (ThisCell : list Cell) : Z := Z.of_nat (length ThisCell).

(** [Free_Cell]: pushes the cell on the free list. *)
Definition Free_Cell (ThisCell : Cell) (FreeCells : list Cell) : list Cell :=
  ThisCell :: FreeCells.

(** The seed of a new mode: the pixel's channels with [Count = 1]. *)
Definition seed (P : Utils.Pixel) : Cell :=
  mkCell (Utils.R P) (Utils.G P) (Utils.B P) 1.

(** The loop of [Create_Initial_BGM]: one cell per pixel, in raster order. *)
Fixpoint Create_Initial_BGM_loop (Is : list nat) (Frm : list Utils.Pixel)
    (FreeCells : list Cell) : option (list (list Cell) * list Cell) :=
  match Is with
  | [] => Some ([], FreeCells)
  | i :: Is' =>
      match Frm !! i with
      | None => None
      | Some P =>
          let '(_, FreeCells1) := Allocate_Cell FreeCells in
          match Create_Initial_BGM_loop Is' Frm FreeCells1 with
          | None => None
          | Some (BGM, FreeCells2) => Some ([seed P] :: BGM, FreeCells2)
          end
      end
  end.

(** How a call ends: it returns, or it ends the program with [exit]. *)
Inductive Outcome (A : Type) : Type :=
  | Returned (a : A)
  | Exited (status : Z).

Arguments Returned {A} a.
Arguments Exited {A} status.

(** The argument of [malloc] is a [size_t]: an int is converted modulo
    [2 ^ 64] before it is multiplied by the element size. *)
Definition size_t (z : Z) : Z := z mod 2 ^ 64.

Definition PTRDIFF_MAX : Z := 2 ^ 63 - 1.

(** [malloc (n * size)] returns [NULL] when the request is larger than
    [PTRDIFF_MAX], as it is for every negative [n]; a request it can hold is
    taken to be granted, like the blocks of [Allocate_Cell]. *)
Definition malloc_refuses (n size : Z) : bool :=
  PTRDIFF_MAX <? size_t (size_t n * size).

(** The size of a pointer to a cell. *)
Definition sizeof_ptr : Z := 8.

(** [Create_Initial_BGM]: the table of [Width * Height] sets is allocated
    first, and the program exits with status 1 when [malloc] returns
    [NULL]. *)
Definition Create_Initial_BGM (FB : Utils.FrmBuf) (FreeCells : list Cell)
    : option (Outcome (list (list Cell) * list Cell)) :=
  let NumSets := Int.mul (Utils.Width FB) (Utils.Height FB) in
  if malloc_refuses NumSets sizeof_ptr then Some (Exited 1)
  else
    Returned <$>
      Create_Initial_BGM_loop (seq 0 (Z.to_nat NumSets)) (Utils.Frm FB) FreeCells.

(** One conjunct of the match test:
    [abs(P->c - ThisCell->c / ThisCell->Count) <= Epsilon]. *)
Definition channel_close (p sum count Epsilon : Z) : option bool :=
  match Int.div sum count with
  | None => None
  | Some mean => Some (Int.abs (Int.sub p mean) <=? Epsilon)
  end.

(** The three conjuncts, with the short circuit of [&&]. *)
Definition cell_close (P : Utils.Pixel) (c : Cell) (Epsilon : Z) : option bool :=
  match channel_close (Utils.R P) (R c) (Count c) Epsilon with
  | None => None
  | Some false => Some false
  | Some true =>
      match channel_close (Utils.G P) (G c) (Count c) Epsilon with
      | None => None
      | Some false => Some false
      | Some true => channel_close (Utils.B P) (B c) (Count c) Epsilon
      end
  end.

(** Assimilation of a pixel into the matched cell. *)
Definition assimilate (P : Utils.Pixel) (c : Cell) : Cell :=
  mkCell (Int.add (R c) (Utils.R P)) (Int.add (G c) (Utils.G P))
         (Int.add (B c) (Utils.B P)) (Int.add (Count c) 1).

(** [Ratio_Match_Pixel]: the returned pointer is the position of the matched
    cell in the set ([None] for [NULL]); the set is returned with it since the
    matched cell is updated in place. *)
Fixpoint Ratio_Match_Pixel (P : Utils.Pixel) (Cells : list Cell) (Epsilon : Z)
    : option (option nat * list Cell) :=
  match Cells with
  | [] => Some (None, [])
  | ThisCell :: rest =>
      match cell_close P ThisCell Epsilon with
      | None => None
      | Some true => Some (Some 0%nat, assimilate P ThisCell :: rest)
      | Some false =>
          match Ratio_Match_Pixel P rest Epsilon with
          | None => None
          | Some (r, rest') => Some (S <$> r, ThisCell :: rest')
          end
      end
  end.

(** [Add_Cell]: the set with its tail either followed by a new cell or
    overwritten.  [Last_Cell] makes the empty set undefined. *)
Definition Add_Cell (P : Utils.Pixel) (Set_ : list Cell) (Cth : Z)
    (FreeCells : list Cell) : option (list Cell * list Cell) :=
  match Last_Cell Set_ with
  | None => None
  | Some LastCell =>
      if Cth <=? Count LastCell then
        let '(_, FreeCells') := Allocate_Cell FreeCells in
        Some (Set_ ++ [seed P], FreeCells')
      else
        Some (removelast Set_ ++ [seed P], FreeCells)
  end.

(** The four right shifts of [Decimate_BGM]. *)
Definition halve (c : Cell) : Cell :=
  mkCell (Int.shr1 (R c)) (Int.shr1 (G c)) (Int.shr1 (B c)) (Int.shr1 (Count c)).

Definition is_nil {A} (l : list A) : bool :=
  match l with [] => true | _ => false end.

(** The inner [while] of [Decimate_BGM] over one set.  [at_head] is the test
    [ThisCell == BGM[I]]: the slot points at the current cell exactly when
    every earlier cell has been spliced out. *)
Fixpoint Decimate_Set (Cth : Z) (at_head : bool) (ThisCell : list Cell)
    (FreeCells : list Cell) (Freed : Z) : list Cell * list Cell * Z :=
  match ThisCell with
  | [] => ([], FreeCells, Freed)
  | c :: Next =>
      let c := if Cth <=? Count c then halve c else c in
      if (Count c <? Cth) && (negb (is_nil Next) || negb at_head) then
        Decimate_Set Cth at_head Next (Free_Cell c FreeCells) (Int.add Freed 1)
      else
        let '(Next', FreeCells', Freed') :=
          Decimate_Set Cth false Next FreeCells Freed in
        (c :: Next', FreeCells', Freed')
  end.

Fixpoint Decimate_loop (Cth : Z) (Is : list nat) (BGM : list (list Cell))
    (FreeCells : list Cell) (Freed : Z)
    : option (list (list Cell) * list Cell * Z) :=
  match Is with
  | [] => Some (BGM, FreeCells, Freed)
  | i :: Is' =>
      match BGM !! i with
      | None => None
      | Some set =>
          let '(set', FreeCells', Freed') :=
            Decimate_Set Cth true set FreeCells Freed in
          Decimate_loop Cth Is' (<[i := set']> BGM) FreeCells' Freed'
      end
  end.

(** [Decimate_BGM]: the new model, the new free list and the return value. *)
Definition Decimate_BGM (BGM : list (list Cell)) (Cth NumSets : Z)
    (FreeCells : list Cell) : option (list (list Cell) * list Cell * Z) :=
  Decimate_loop Cth (seq 0 (Z.to_nat NumSets)) BGM FreeCells 0.

(** The state the frame drivers work on. *)
Record World := mkWorld {
  wBGM : list (list Cell);
  wFrm : list Utils.Pixel;
  wFree : list Cell
}.

(** The body of the loop of [Process_Frame_FG] at pixel [i]. *)
Definition Process_Pixel_FG (Epsilon Cth : Z) (w : World) (i : nat)
    : option World :=
  match wFrm w !! i, wBGM w !! i with
  | Some P, Some set =>
      match Ratio_Match_Pixel P set Epsilon with
      | None => None
      | Some (None, _) =>
          match Add_Cell P set Cth (wFree w) with
          | None => None
          | Some (set', FreeCells') =>
              Some (mkWorld (<[i := set']> (wBGM w)) (wFrm w) FreeCells')
          end
      | Some (Some k, set') =>
          match set' !! k with
          | None => None
          | Some Result =>
              Some (mkWorld (<[i := set']> (wBGM w))
                      (if Cth <=? Count Result
                       then <[i := Utils.black]> (wFrm w) else wFrm w)
                      (wFree w))
          end
      end
  | _, _ => None
  end.

(** [Process_Frame_FG]. *)
Definition Process_Frame_FG (BGM : list (list Cell)) (FB : Utils.FrmBuf)
    (Epsilon Cth : Z) (FreeCells : list Cell) : option World :=
  let n := Z.to_nat (Int.mul (Utils.Width FB) (Utils.Height FB)) in
  for_each (Process_Pixel_FG Epsilon Cth) (seq 0 n)
    (mkWorld BGM (Utils.Frm FB) FreeCells).

(** *** Decimation, declaratively

    The spec's description of decimation, one set at a time: every cell whose
    [Count] reaches [Cth] is halved by floor division; the cells that are then
    still at or above [Cth] survive; the others are evicted, except that a set
    with no survivor keeps one cell, its last. *)

Definition age (Cth : Z) (c : Cell) : Cell :=
  if Cth <=? Count c
  then mkCell (R c / 2) (G c / 2) (B c / 2) (Count c / 2)
  else c.

Definition viable (Cth : Z) (c : Cell) : bool := Cth <=? Count c.

Definition decimated (Cth : Z) (set : list Cell) : list Cell :=
  let aged := map (age Cth) set in
  match List.filter (viable Cth) aged with
  | [] => match last aged with Some c => [c] | None => [] end
  | survivors => survivors
  end.

Definition evicted (Cth : Z) (set : list Cell) : list Cell :=
  let aged := map (age Cth) set in
  match List.filter (viable Cth) aged with
  | [] => removelast aged
  | _ => List.filter (fun c => negb (viable Cth c)) aged
  end.

(** A driver that decimates again and again, each call with its own [Cth] and
    [NumSets]. *)
Fixpoint Decimate_repeatedly (calls : list (Z * Z)) (BGM : list (list Cell))
    (FreeCells : list Cell) : option (list (list Cell) * list Cell) :=
  match calls with
  | [] => Some (BGM, FreeCells)
  | (Cth, NumSets) :: calls' =>
      match Decimate_BGM BGM Cth NumSets FreeCells with
      | None => None
      | Some (BGM', FreeCells', _) => Decimate_repeatedly calls' BGM' FreeCells'
      end
  end.

(** *** Matching, declaratively

    The match test in exact arithmetic: the mean is the truncated quotient
    [sum ÷ Count], and a cell matches when all three channels of the pixel lie
    within [Epsilon] of it. *)

Definition within (p sum count Epsilon : Z) : bool :=
  Z.abs (p - sum ÷ count) <=? Epsilon.

Definition cube_match (P : Utils.Pixel) (c : Cell) (Epsilon : Z) : bool :=
  within (Utils.R P) (R c) (Count c) Epsilon &&
  within (Utils.G P) (G c) (Count c) Epsilon &&
  within (Utils.B P) (B c) (Count c) Epsilon.

(** A cell of the accumulating representation: a positive count and
    non-negative sums, all of them ints. *)
Definition Cell_ok (c : Cell) : Prop :=
  0 < Count c <= Int.max_int /\
  0 <= R c <= Int.max_int /\ 0 <= G c <= Int.max_int /\ 0 <= B c <= Int.max_int.

(** *** Growing a set *)

(** The step the frame drivers share at one pixel position:
    [Ratio_Match_Pixel], and [Add_Cell] when it returns [NULL]. *)
Definition Learn_Pixel (Epsilon Cth : Z) (P : Utils.Pixel)
    (set FreeCells : list Cell) : option (list Cell * list Cell) :=
  match Ratio_Match_Pixel P set Epsilon with
  | None => None
  | Some (None, _) => Add_Cell P set Cth FreeCells
  | Some (Some _, set') => Some (set', FreeCells)
  end.

(** The same position over a sequence of frames. *)
Fixpoint Learn_Pixels (Epsilon Cth : Z) (Ps : list Utils.Pixel)
    (set FreeCells : list Cell) : option (list Cell * list Cell) :=
  match Ps with
  | [] => Some (set, FreeCells)
  | P :: Ps' =>
      match Learn_Pixel Epsilon Cth P set FreeCells with
      | None => None
      | Some (set', FreeCells') => Learn_Pixels Epsilon Cth Ps' set' FreeCells'
      end
  end.

(** A cell that has assimilated [n] observations of the colour [A]. *)
Definition scaled (n : Z) (A : Utils.Pixel) : Cell :=
  mkCell (n * Utils.R A) (n * Utils.G A) (n * Utils.B A) n.

(** [B] differs from [A] by more than [Epsilon] in some channel. *)
Definition apart (A B : Utils.Pixel) (Epsilon : Z) : Prop :=
  Epsilon < Z.abs (Utils.R B - Utils.R A) \/
  Epsilon < Z.abs (Utils.G B - Utils.G A) \/
  Epsilon < Z.abs (Utils.B B - Utils.B A).

(** *** Foreground extraction *)

(** What [Process_Frame_FG] does to pixel [P] and its set [set]: [frm_i] and
    [bgm_i] are the pixel and the set found at that position afterwards. *)
Definition FG_outcome (Epsilon Cth : Z) (P : Utils.Pixel) (set : list Cell)
    (frm_i : option Utils.Pixel) (bgm_i : option (list Cell)) : Prop :=
  match Ratio_Match_Pixel P set Epsilon with
  | None => False
  | Some (Some k, set') =>
      bgm_i = Some set' /\
      exists Result : Cell,
        set' !! k = Some Result /\
        frm_i = Some (if Cth <=? Count Result then Utils.black else P)
  | Some (None, _) =>
      frm_i = Some P /\
      exists (set' FreeCells FreeCells' : list Cell),
        Add_Cell P set Cth FreeCells = Some (set', FreeCells') /\
        bgm_i = Some set'
  end.

(** *** The other matchers *)

(** The match test of [Scalar_Match_Pixel]: the cell holds a colour, not
    sums. *)
Definition scalar_close (P : Utils.Pixel) (c : Cell) (Epsilon : Z) : bool :=
  (Int.abs (Int.sub (Utils.R P) (R c)) <=? Epsilon) &&
  (Int.abs (Int.sub (Utils.G P) (G c)) <=? Epsilon) &&
  (Int.abs (Int.sub (Utils.B P) (B c)) <=? Epsilon).

(** [Scalar_Match_Pixel]: the matched cell's [Count] is decremented. *)
Fixpoint Scalar_Match_Pixel (P : Utils.Pixel) (Cells : list Cell) (Epsilon : Z)
    : option nat * list Cell :=
  match Cells with
  | [] => (None, [])
  | ThisCell :: rest =>
      if scalar_close P ThisCell Epsilon then
        (Some 0%nat,
         mkCell (R ThisCell) (G ThisCell) (B ThisCell)
                (Int.sub (Count ThisCell) 1) :: rest)
      else
        let '(r, rest') := Scalar_Match_Pixel P rest Epsilon in
        (S <$> r, ThisCell :: rest')
  end.

(** One conjunct of the test of [Match_Cell]:
    [abs(NewCell->c / NewCell->Count - ThisCell->c / ThisCell->Count) <= Epsilon]. *)
Definition ratio_close (new count_new sum count Epsilon : Z) : option bool :=
  match Int.div new count_new, Int.div sum count with
  | Some m1, Some m2 => Some (Int.abs (Int.sub m1 m2) <=? Epsilon)
  | _, _ => None
  end.

Definition cells_close (NewCell c : Cell) (Epsilon : Z) : option bool :=
  match ratio_close (R NewCell) (Count NewCell) (R c) (Count c) Epsilon with
  | None => None
  | Some false => Some false
  | Some true =>
      match ratio_close (G NewCell) (Count NewCell) (G c) (Count c) Epsilon with
      | None => None
      | Some false => Some false
      | Some true =>
          ratio_close (B NewCell) (Count NewCell) (B c) (Count c) Epsilon
      end
  end.

(** [Match_Cell]: the matched cell takes the sums and the count of the new
    cell. *)
Fixpoint Match_Cell (NewCell : Cell) (Cells : list Cell) (Epsilon : Z)
    : option (option nat * list Cell) :=
  match Cells with
  | [] => Some (None, [])
  | ThisCell :: rest =>
      match cells_close NewCell ThisCell Epsilon with
      | None => None
      | Some true =>
          Some (Some 0%nat,
                mkCell (Int.add (R ThisCell) (R NewCell))
                       (Int.add (G ThisCell) (G NewCell))
                       (Int.add (B ThisCell) (B NewCell))
                       (Int.add (Count ThisCell) (Count NewCell)) :: rest)
      | Some false =>
          match Match_Cell NewCell rest Epsilon with
          | None => None
          | Some (r, rest') => Some (S <$> r, ThisCell :: rest')
          end
      end
  end.

(** [Color_Lock]: every cell goes from sums to a colour; its count is
    cleared or negated. *)
Fixpoint Color_Lock (Cells : list Cell) (Clear : Z) : option (list Cell) :=
  match Cells with
  | [] => Some []
  | c :: rest =>
      match Int.div (R c) (Count c), Int.div (G c) (Count c),
            Int.div (B c) (Count c) with
      | Some r, Some g, Some b =>
          cons (mkCell r g b
                  (if Clear =? 0 then Int.sub 0 (Count c) else 0))
            <$> Color_Lock rest Clear
      | _, _, _ => None
      end
  end.

(** *** The predominant cell *)

(** The sum of the counts of a set, in exact arithmetic. *)
Definition total_count (Cells : list Cell) : Z :=
  fold_right (fun c t => Count c + t) 0 Cells.

(** The loop of [Predominant_Cell] from position [i]: the position of the
    cell with the largest count so far, that count, and the total. *)
Fixpoint Predominant_loop (Cells : list Cell) (i MaxCell : nat)
    (MaxCount TotalCount : Z) : nat * Z :=
  match Cells with
  | [] => (MaxCell, TotalCount)
  | c :: rest =>
      let TotalCount := Int.add TotalCount (Count c) in
      if MaxCount <? Count c
      then Predominant_loop rest (S i) i (Count c) TotalCount
      else Predominant_loop rest (S i) MaxCell MaxCount TotalCount
  end.

(** [Predominant_Cell]: the position of the returned cell and [*TotalCount].
    [Cells->Count] is read first, so the empty set is undefined. *)
Definition Predominant_Cell (Cells : list Cell) : option (nat * Z) :=
  match Cells with
  | [] => None
  | c :: _ => Some (Predominant_loop Cells 0 0 (Count c) 0)
  end.

(** The colour a frame driver writes for a cell: the three quotients,
    converted to [unsigned char]. *)
Definition mean_pixel (c : Cell) : option Utils.Pixel :=
  match Int.div (R c) (Count c), Int.div (G c) (Count c),
        Int.div (B c) (Count c) with
  | Some r, Some g, Some b =>
      Some (Utils.mkPixel (Utils.to_byte r) (Utils.to_byte g) (Utils.to_byte b))
  | _, _, _ => None
  end.

(** The last three statements of the loops of [Process_Frame_BG] and
    [Create_BG_Frame]: the pixel takes the colour of the predominant cell. *)
Definition paint_predominant (set : list Cell) (Frm : list Utils.Pixel)
    (i : nat) : option (list Utils.Pixel) :=
  match Predominant_Cell set with
  | None => None
  | Some (k, _) =>
      match set !! k with
      | None => None
      | Some Result =>
          match mean_pixel Result with
          | None => None
          | Some P =>
              if decide (i < length Frm)%nat then Some (<[i := P]> Frm)
              else None
          end
      end
  end.


(** The body of the loop of [Process_Frame_BG] at pixel [i]. *)
Definition Process_Pixel_BG (Epsilon Cth : Z) (w : World) (i : nat)
    : option World :=
  match wFrm w !! i, wBGM w !! i with
  | Some P, Some set =>
      match Learn_Pixel Epsilon Cth P set (wFree w) with
      | None => None
      | Some (set', FreeCells') =>
          match paint_predominant set' (wFrm w) i with
          | None => None
          | Some Frm' => Some (mkWorld (<[i := set']> (wBGM w)) Frm' FreeCells')
          end
      end
  | _, _ => None
  end.

(** [Process_Frame_BG]. *)
Definition Process_Frame_BG (BGM : list (list Cell)) (FB : Utils.FrmBuf)
    (Epsilon Cth : Z) (FreeCells : list Cell) : option World :=
  let n := Z.to_nat (Int.mul (Utils.Width FB) (Utils.Height FB)) in
  for_each (Process_Pixel_BG Epsilon Cth) (seq 0 n)
    (mkWorld BGM (Utils.Frm FB) FreeCells).


(** *** A model over a sequence of calls *)

(** The calls a driver makes on a model, with one [Epsilon] and one [Cth]. *)
Inductive Call :=
  | Foreground (FB : Utils.FrmBuf)
  | Background (FB : Utils.FrmBuf)
  | Decimation (NumSets : Z).

Fixpoint Drive (Epsilon Cth : Z) (calls : list Call) (BGM : list (list Cell))
    (FreeCells : list Cell) : option (list (list Cell) * list Cell) :=
  match calls with
  | [] => Some (BGM, FreeCells)
  | Foreground FB :: calls' =>
      match Process_Frame_FG BGM FB Epsilon Cth FreeCells with
      | None => None
      | Some w => Drive Epsilon Cth calls' (wBGM w) (wFree w)
      end
  | Background FB :: calls' =>
      match Process_Frame_BG BGM FB Epsilon Cth FreeCells with
      | None => None
      | Some w => Drive Epsilon Cth calls' (wBGM w) (wFree w)
      end
  | Decimation NumSets :: calls' =>
      match Decimate_BGM BGM Cth NumSets FreeCells with
      | None => None
      | Some (BGM', FreeCells', _) => Drive Epsilon Cth calls' BGM' FreeCells'
      end
  end.

(** A set the matchers can work on: it has a cell, and every count is
    positive and at most [N]. *)
Definition sound_set (N : Z) (set : list Cell) : Prop :=
  set <> [] /\ Forall (fun c => 0 < Count c <= N) set.

(** A call within a model of [n] sets: the frame has its [Width * Height]
    pixels and the model a set for each. *)
Definition fits (n : nat) (call : Call) : Prop :=
  match call with
  | Foreground FB | Background FB =>
      (Z.to_nat (Int.mul (Utils.Width FB) (Utils.Height FB)) <= n)%nat /\
      (Z.to_nat (Int.mul (Utils.Width FB) (Utils.Height FB))
         <= length (Utils.Frm FB))%nat
  | Decimation NumSets => (Z.to_nat NumSets <= n)%nat
  end.

(** *** TrimSort *)







End MMM.

(** ** rollers.c: density scans and blob finding *)

Module Rollers.

(** *** Horizontal density *)

(** The pixel test [(Frm[3*I] | Frm[3*I+1] | Frm[3*I+2]) != 0]. *)
Definition nonblack (P : Utils.Pixel) : bool :=
  negb (Z.lor (Z.lor (Utils.R P) (Utils.G P)) (Utils.B P) =? 0).

(** The scanner's variables and the map it writes. *)
Record Roller := mkRoller { Sum : Z; Wheel : Z; Map : list Z }.

(** [DensityMap[idx] = v]; a write outside the map is undefined. *)
Definition write (DensityMap : list Z) (idx v : Z) : option (list Z) :=
  if (0 <=? idx) && (idx <? Z.of_nat (length DensityMap))
  then Some (<[Z.to_nat idx := v]> DensityMap)
  else None.

(** [Sum -= Wheel & 1; Wheel >>= 1]. *)
Definition shift_out (r : Roller) : Roller :=
  mkRoller (Int.sub (Sum r) (Z.land (Wheel r) 1)) (Int.shr1 (Wheel r)) (Map r).

(** The loop that writes out the end of a row, for [J] in [Js]. *)
Fixpoint drain (Js : list nat) (I WheelOff : Z) (r : Roller) : option Roller :=
  match Js with
  | [] => Some r
  | J :: Js' =>
      let r := shift_out r in
      match write (Map r) (I - WheelOff + Z.of_nat J) (Sum r) with
      | None => None
      | Some m => drain Js' I WheelOff (mkRoller (Sum r) (Wheel r) m)
      end
  end.

(** The body of the loop of [Horizontal_Image_Density] at pixel [i]. *)
Definition roll (FB : Utils.FrmBuf) (Edge WheelOff : Z) (r : Roller) (i : nat)
    : option Roller :=
  match Utils.Frm FB !! i with
  | None => None
  | Some P =>
      let r := shift_out r in
      let r := if nonblack P
               then mkRoller (Int.add (Sum r) 1) (Z.lor (Wheel r) Edge) (Map r)
               else r in
      match Int.rem (Z.of_nat i) (Utils.Width FB) with
      | None => None
      | Some x =>
          match (if WheelOff <=? x
                 then write (Map r) (Z.of_nat i - WheelOff) (Sum r)
                 else Some (Map r)) with
          | None => None
          | Some m =>
              let r := mkRoller (Sum r) (Wheel r) m in
              if x =? Int.sub (Utils.Width FB) 1 then
                match drain (seq 1 (Z.to_nat WheelOff)) (Z.of_nat i) WheelOff r with
                | None => None
                | Some r => Some (mkRoller 0 0 (Map r))
                end
              else Some r
          end
      end
  end.

(** [Horizontal_Image_Density]: the density map after the scan. *)
Definition Horizontal_Image_Density (FB : Utils.FrmBuf) (DensityMap : list Z)
    (WheelSize : Z) : option (list Z) :=
  match Int.shl1 (Int.sub WheelSize 1) with
  | None => None
  | Some Edge =>
      let WheelOff := Int.shr1 WheelSize in
      let n := Z.to_nat (Int.mul (Utils.Width FB) (Utils.Height FB)) in
      Map <$> for_each (roll FB Edge WheelOff) (seq 0 n) (mkRoller 0 0 DensityMap)
  end.

Definition white : Utils.Pixel := Utils.mkPixel 255 255 255.

(** The sum and the wheel after [j] shifts without a reload. *)
Fixpoint shifts (j : nat) (s w : Z) : Z * Z :=
  match j with
  | O => (s, w)
  | S j' => shifts j' (Int.sub s (Z.land w 1)) (Int.shr1 w)
  end.

(** **** The wheel on a run of non-black pixels

    After [k] non-black pixels of a row the wheel holds [k] ones at its left
    end (all ones from [k = WheelSize] on).  Window sizes are bounded by the
    width of an int, so the facts about the bit operations are checked by
    enumeration. *)

Definition ones_left (WheelSize k : Z) : Z := 2 ^ WheelSize - 2 ^ (WheelSize - k).

Definition check_wheel (WheelSize k : Z) : bool :=
  (Int.add (Int.sub k (Z.land (ones_left WheelSize k) 1)) 1
     =? Z.min (k + 1) WheelSize) &&
  (Z.lor (Int.shr1 (ones_left WheelSize k)) (2 ^ (WheelSize - 1))
     =? ones_left WheelSize (Z.min (k + 1) WheelSize)) &&
  (fst (shifts (Z.to_nat k) WheelSize (ones_left WheelSize WheelSize))
     =? WheelSize - k) &&
  match Int.shl1 (Int.sub WheelSize 1) with
  | Some Edge => Edge =? 2 ^ (WheelSize - 1)
  | None => false
  end.

Definition small : list Z := map Z.of_nat (seq 0 32).

(** The density the scan leaves at position [x] of a row of [L] non-black
    pixels: the number of pixels of the row under the window centred there. *)
Definition row_density (L : nat) (WheelSize : Z) (x : nat) : Z :=
  Z.min (Z.min (Z.of_nat x + WheelSize / 2 + 1) WheelSize)
        (Z.of_nat L - 1 - Z.of_nat x + (WheelSize - WheelSize / 2)).

(** The pixel step without the map: shift, then load a non-black pixel. *)
Definition advance (Edge : Z) (P : Utils.Pixel) (s w : Z) : Z * Z :=
  let s1 := Int.sub s (Z.land w 1) in
  let w1 := Int.shr1 w in
  if nonblack P then (Int.add s1 1, Z.lor w1 Edge) else (s1, w1).

(** *** Blobs

    Blobs are shared: the column table, the row blob and the forwarding
    pointers all refer to the same objects.  They live in a heap indexed by
    address; the active list and the free list, both threaded through [Next]
    in the source, are lists of addresses. *)

(** An address is an index in the blob memory. *)
Abbreviation addr := nat (only parsing).

(** [typedef struct Blob { int ID, Xsum, ..., Expire; struct Blob *FP, *Next; }]. *)
Record Blob := mkBlob {
  ID : Z; Xsum : Z; Ysum : Z; Xmin : Z; Ymin : Z; Xmax : Z; Ymax : Z;
  Count : Z; Xreg : Z; Yreg : Z; Expire : Z;
  FP : option addr
}.

Definition FREEBLOBSBLOCKSIZE : nat := 20.

(** The contents of a blob fresh from [malloc]; [New_Blob] writes every field
    before the blob is used. *)
Definition blank : Blob := mkBlob 0 0 0 0 0 0 0 0 0 0 0 None.

(** The blob memory and the free list [FreeBlobs]. *)
Record Store := mkStore { heap : list Blob; FreeBlobs : list addr }.

(** [New_Blob]: refills the free list with a block of [FREEBLOBSBLOCKSIZE]
    blobs when it is empty, then pops and initialises its head. *)
Definition New_Blob (X Y ID_ : Z) (st : Store) : option (addr * Store) :=
  let st :=
    match FreeBlobs st with
    | [] => mkStore (heap st ++ replicate FREEBLOBSBLOCKSIZE blank)
                    (seq (length (heap st)) FREEBLOBSBLOCKSIZE)
    | _ => st
    end in
  match FreeBlobs st with
  | [] => None
  | NewBlob :: rest =>
      match heap st !! NewBlob with
      | None => None
      | Some _ =>
          Some (NewBlob,
                mkStore (<[NewBlob := mkBlob ID_ 0 0 0 0 0 0 0 X Y (-1) None]>
                           (heap st)) rest)
      end
  end.

(** [Free_Blobs]: the whole list goes in front of the free list. *)
Definition Free_Blobs (Blobs : list addr) (st : Store) : Store :=
  mkStore (heap st) (Blobs ++ FreeBlobs st).

(** [Number_Blobs]: the blobs that are not forwarded are numbered in list
    order, from [ID_]. *)
Fixpoint Number_Blobs (Blobs : list addr) (ID_ : Z) (h : list Blob)
    : option (list Blob) :=
  match Blobs with
  | [] => Some h
  | b :: Next =>
      match h !! b with
      | None => None
      | Some B =>
          match FP B with
          | None =>
              Number_Blobs Next (Int.add ID_ 1)
                (<[b := mkBlob ID_ (Xsum B) (Ysum B) (Xmin B) (Ymin B) (Xmax B)
                          (Ymax B) (Count B) (Xreg B) (Yreg B) (Expire B) (FP B)]> h)
          | Some _ => Number_Blobs Next ID_ h
          end
      end
  end.

Definition Blob_List_Length (Blobs : list addr) : Z := Z.of_nat (length Blobs).

(** [Reduce_FP]: follows the forwarding pointers.  The recursion is bounded
    by [fuel]; [None] is a recursion that needs more, or a wild pointer. *)
Fixpoint Reduce_FP (fuel : nat) (h : list Blob) (ThisBlob : addr) : option addr :=
  match fuel with
  | O => None
  | S fuel' =>
      match h !! ThisBlob with
      | None => None
      | Some B =>
          match FP B with
          | Some next => Reduce_FP fuel' h next
          | None => Some ThisBlob
          end
      end
  end.

(** The test that picks the registration point in [Merge_Blobs]. *)
Definition reg_before (B1 B2 : Blob) : bool :=
  (Yreg B1 <? Yreg B2) || ((Yreg B1 =? Yreg B2) && (Xreg B1 <? Yreg B2)).

(** [Merge_Blobs]. *)
Definition Merge_Blobs (Blob1 Blob2 : addr) (Expire_ : Z) (h : list Blob)
    : option (list Blob) :=
  if decide (Blob1 = Blob2) then Some h
  else
    match h !! Blob1, h !! Blob2 with
    | Some B1, Some B2 =>
        let B2' :=
          mkBlob (ID B2)
            (Int.add (Xsum B2) (Xsum B1)) (Int.add (Ysum B2) (Ysum B1))
            (if Xmin B1 <? Xmin B2 then Xmin B1 else Xmin B2)
            (if Ymin B1 <? Ymin B2 then Ymin B1 else Ymin B2)
            (if Xmax B2 <? Xmax B1 then Xmax B1 else Xmax B2)
            (if Ymax B2 <? Ymax B1 then Ymax B1 else Ymax B2)
            (Int.add (Count B2) (Count B1))
            (if reg_before B1 B2 then Xreg B1 else Xreg B2)
            (if reg_before B1 B2 then Yreg B1 else Yreg B2)
            (Expire B2) (FP B2) in
        let B1' :=
          mkBlob (ID B1) (Xsum B1) (Ysum B1) (Xmin B1) (Ymin B1) (Xmax B1)
            (Ymax B1) (Count B1) (Xreg B1) (Yreg B1) Expire_ (Some Blob2) in
        Some (<[Blob1 := B1']> (<[Blob2 := B2']> h))
    | _, _ => None
    end.

(** [Add_Position]. *)
Definition Add_Position (ThisBlob : addr) (X Y : Z) (h : list Blob)
    : option (list Blob) :=
  match h !! ThisBlob with
  | None => None
  | Some B =>
      let first := Count B =? 0 in
      Some (<[ThisBlob :=
                mkBlob (ID B) (Int.add (Xsum B) X) (Int.add (Ysum B) Y)
                  (if first then X else if X <? Xmin B then X else Xmin B)
                  (if first then Y else if Y <? Ymin B then Y else Ymin B)
                  (if first then X else if Xmax B <? X then X else Xmax B)
                  (if first then Y else if Ymax B <? Y then Y else Ymax B)
                  (Int.add (Count B) 1) (Xreg B) (Yreg B) (Expire B) (FP B)]> h)
  end.

(** [Reap_Expired_Blobs]: the active list without the blobs that expire
    [Now], and the free list with them pushed on, one by one. *)
Fixpoint Reap_Expired_Blobs (Blobs : list addr) (Now : Z) (h : list Blob)
    (Free : list addr) : option (list addr * list addr) :=
  match Blobs with
  | [] => Some ([], Free)
  | b :: Next =>
      match h !! b with
      | None => None
      | Some B =>
          if Now =? Expire B then Reap_Expired_Blobs Next Now h (b :: Free)
          else
            match Reap_Expired_Blobs Next Now h Free with
            | None => None
            | Some (Blobs', Free') => Some (b :: Blobs', Free')
            end
      end
  end.

(** [Reap_FP_Blobs]: the same for the forwarded blobs. *)
Fixpoint Reap_FP_Blobs (Blobs : list addr) (h : list Blob) (Free : list addr)
    : option (list addr * list addr) :=
  match Blobs with
  | [] => Some ([], Free)
  | b :: Next =>
      match h !! b with
      | None => None
      | Some B =>
          match FP B with
          | Some _ => Reap_FP_Blobs Next h (b :: Free)
          | None =>
              match Reap_FP_Blobs Next h Free with
              | None => None
              | Some (Blobs', Free') => Some (b :: Blobs', Free')
              end
          end
      end
  end.

(** An entry of the density map: a density, or, in the map variant, the
    blob pointer stored in its place. *)
Inductive MapCell := Density (d : Z) | Handle (b : addr).

(** The state of a scan: the blob memory, the active list [Blobs], the row
    blob, the column table and the map. *)
Record Scan := mkScan {
  store : Store;
  Blobs : list addr;
  RowBlob : option addr;
  ColBlobs : list (option addr);
  DMap : list MapCell
}.

(** [if (ColBlobs[X] && ColBlobs[X]->FP) ColBlobs[X] = Reduce_FP(ColBlobs[X])]:
    the value of [ColBlobs[X]] afterwards. *)
Definition resolve (fuel : nat) (h : list Blob) (cb : option addr)
    : option (option addr) :=
  match cb with
  | None => Some None
  | Some c =>
      match h !! c with
      | None => None
      | Some B =>
          match FP B with
          | None => Some (Some c)
          | Some _ => Some <$> Reduce_FP fuel h c
          end
      end
  end.

(** The blob-worthy branch: merge, adopt or create, then add the position
    and record the row blob in the column table. *)
Definition touch (Expire_ : Z) (X Y : nat) (cb : option addr) (s : Scan)
    : option Scan :=
  match
    match RowBlob s, cb with
    | Some r, Some c =>
        match Merge_Blobs c r Expire_ (heap (store s)) with
        | None => None
        | Some h => Some (r, mkStore h (FreeBlobs (store s)), Blobs s)
        end
    | None, Some c => Some (c, store s, Blobs s)
    | None, None =>
        match New_Blob (Z.of_nat X) (Z.of_nat Y) 0 (store s) with
        | None => None
        | Some (b, st) => Some (b, st, b :: Blobs s)
        end
    | Some r, None => Some (r, store s, Blobs s)
    end
  with
  | None => None
  | Some (r, st, bs) =>
      match Add_Position r (Z.of_nat X) (Z.of_nat Y) (heap st) with
      | None => None
      | Some h =>
          if decide (X < length (ColBlobs s))%nat then
            Some (mkScan (mkStore h (FreeBlobs st)) bs (Some r)
                    (<[X := Some r]> (ColBlobs s)) (DMap s))
          else None
      end
  end.

(** The body of the inner loop of the two finders at column [X] of row [Y].
    [Blob_Finder] ([mapped = false]) merges with the expiry [Y + 1] and
    leaves the map alone; [Blob_Finder_Map] ([mapped = true]) merges with
    the expiry 0 and overwrites the entry with the row blob or with zero.
    [Y] is below [Height], so [Y + 1] is an int. *)
Definition find_pixel (mapped : bool) (fuel : nat) (Width : nat) (Bth : Z)
    (Y : nat) (s : Scan) (X : nat) : option Scan :=
  match ColBlobs s !! X, DMap s !! (Y * Width + X)%nat with
  | Some cb, Some (Density d) =>
      match resolve fuel (heap (store s)) cb with
      | None => None
      | Some cb =>
          if Bth <=? d then
            match touch (if mapped then 0 else Z.of_nat Y + 1) X Y cb s with
            | None => None
            | Some s' =>
                Some (mkScan (store s') (Blobs s') (RowBlob s') (ColBlobs s')
                        (if mapped
                         then match RowBlob s' with
                              | Some r => <[(Y * Width + X)%nat := Handle r]> (DMap s')
                              | None => DMap s'
                              end
                         else DMap s'))
            end
          else
            Some (mkScan (store s) (Blobs s) None (<[X := None]> (ColBlobs s))
                    (if mapped
                     then <[(Y * Width + X)%nat := Density 0]> (DMap s)
                     else DMap s))
      end
  | _, _ => None
  end.

(** The first [n] columns of row [Y]. *)
Definition find_row_prefix (mapped : bool) (fuel Width : nat) (Bth : Z)
    (Y n : nat) (s : Scan) : option Scan :=
  for_each (find_pixel mapped fuel Width Bth Y) (seq 0 n)
    (mkScan (store s) (Blobs s) None (ColBlobs s) (DMap s)).

(** A whole row; [Blob_Finder] reaps the blobs that expire at [Y] after it. *)
Definition find_row (mapped : bool) (fuel Width : nat) (Bth : Z)
    (s : Scan) (Y : nat) : option Scan :=
  match find_row_prefix mapped fuel Width Bth Y Width s with
  | None => None
  | Some s' =>
      if mapped then Some s'
      else
        match Reap_Expired_Blobs (Blobs s') (Z.of_nat Y) (heap (store s'))
                (FreeBlobs (store s')) with
        | None => None
        | Some (bs, free) =>
            Some (mkScan (mkStore (heap (store s')) free) bs (RowBlob s')
                    (ColBlobs s') (DMap s'))
        end
  end.

(** The state before the first row. *)
Definition scan_start (Width : nat) (DensityMap : list Z) (st : Store) : Scan :=
  mkScan st [] None (replicate Width None) (Density <$> DensityMap).

(** The first [n] rows. *)
Definition find_rows (mapped : bool) (Width Height : nat) (Bth : Z)
    (DensityMap : list Z) (st : Store) (n : nat) : option Scan :=
  for_each (find_row mapped (Width * Height) Width Bth) (seq 0 n)
    (scan_start Width DensityMap st).

(** [Blob_Finder]: the returned list and the blob memory.  A forwarding chain
    grows by at most one hop per pixel, so the recursion of [Reduce_FP] is
    given [Width * Height] calls. *)
Definition Blob_Finder (DensityMap : list Z) (Width Height Bth : Z) (st : Store)
    : option (list addr * Store) :=
  let W := Z.to_nat Width in
  let H := Z.to_nat Height in
  match find_rows false W H Bth DensityMap st H with
  | None => None
  | Some s =>
      match Reap_FP_Blobs (Blobs s) (heap (store s)) (FreeBlobs (store s)) with
      | None => None
      | Some (bs, free) =>
          match Number_Blobs bs 1 (heap (store s)) with
          | None => None
          | Some h => Some (bs, mkStore h free)
          end
      end
  end.



(** The blobs a finder returns, read from the memory it leaves. *)
Definition blobs_of (r : option (list addr * Store)) : option (list Blob) :=
  match r with
  | None => None
  | Some (bs, st) => Some (omap (fun b => heap st !! b) bs)
  end.

Definition empty_store : Store := mkStore [] [].

(** *** Forwarding chains *)

Definition is_root (h : list Blob) (b : addr) : Prop :=
  exists B, h !! b = Some B /\ FP B = None.

(** What the list structure of a scan depends on: the forwarding pointer and
    the expiry of each blob. *)
Definition link (h : list Blob) (b : addr) : option (option addr * Z) :=
  (fun B => (FP B, Expire B)) <$> h !! b.

(** A set of blobs closed under forwarding. *)
Definition closed (h : list Blob) (L : list addr) : Prop :=
  forall (b : addr) (B : Blob) (t : addr),
    b ∈ L -> h !! b = Some B -> FP B = Some t -> t ∈ L.

(** *** The invariants of a scan

    [shape k]: the active list [L] and the free list [F] are disjoint lists
    of allocated blobs; the column table, the row blob and the forwarding
    pointers of active blobs refer to active blobs only, a forwarding pointer
    never to its own blob; the row blob is not forwarded; and from every
    active blob [Reduce_FP] reaches a blob that is not forwarded within [k]
    hops. *)
Record shape (k : nat) (h : list Blob) (F L : list addr)
    (rb : option addr) (cbs : list (option addr)) : Prop := mk_shape {
  shape_nodup : NoDup (L ++ F);
  shape_valid : forall b, b ∈ L ++ F -> (b < length h)%nat;
  shape_cols : forall x c, cbs !! x = Some (Some c) -> c ∈ L;
  shape_row : forall r, rb = Some r -> r ∈ L /\ is_root h r;
  shape_fp : forall b B t,
    b ∈ L -> h !! b = Some B -> FP B = Some t -> t ∈ L /\ t <> b;
  shape_depth : forall b,
    b ∈ L -> exists d r, (d <= k)%nat /\ Reduce_FP (S d) h b = Some r
}.

(** [dated Y X]: while [Blob_Finder] is in row [Y] with [X] columns done, a
    blob that is not forwarded has the expiry -1; a forwarded blob expires at
    [Y] (forwarded in the row before) or at [Y + 1] (forwarded in this row);
    a blob forwarded in this row forwards to a blob that does not expire at
    [Y]; and the columns already done refer to blobs that do not expire at
    [Y]. *)
Record dated (Y : Z) (X : nat) (h : list Blob) (L : list addr)
    (cbs : list (option addr)) : Prop := mk_dated {
  dated_root : forall b B,
    b ∈ L -> h !! b = Some B -> FP B = None -> Expire B = -1;
  dated_stub : forall b B t,
    b ∈ L -> h !! b = Some B -> FP B = Some t ->
    Expire B = Y \/ Expire B = Y + 1;
  dated_next : forall b B t T,
    b ∈ L -> h !! b = Some B -> FP B = Some t -> Expire B <> Y ->
    h !! t = Some T -> Expire T <> Y;
  dated_cols : forall x c C,
    (x < X)%nat -> cbs !! x = Some (Some c) -> h !! c = Some C ->
    Expire C <> Y
}.

(** **** Reaping *)

Definition expires (h : list Blob) (Now : Z) (b : addr) : bool :=
  match h !! b with
  | Some B => Now =? Expire B
  | None => false
  end.

(** **** One pixel *)

Definition shape_of (k : nat) (s : Scan) : Prop :=
  shape k (heap (store s)) (FreeBlobs (store s)) (Blobs s) (RowBlob s)
    (ColBlobs s).

Definition dated_of (Y : Z) (X : nat) (s : Scan) : Prop :=
  dated Y X (heap (store s)) (Blobs s) (ColBlobs s).

(** **** Rows *)

(** The map still holds a density at each position from [lo] up to [hi]. *)
Definition tail_density (m : list MapCell) (lo hi : nat) : Prop :=
  forall i : nat, (lo <= i < hi)%nat -> exists d, m !! i = Some (Density d).

(** The pool a scan may start from: the free list holds distinct allocated
    blobs. *)
Definition store_ok (st : Store) : Prop :=
  NoDup (FreeBlobs st) /\
  forall b, b ∈ FreeBlobs st -> (b < length (heap st))%nat.

(** **** The states of a scan *)

(** The states a finder goes through: between two rows (in [Blob_Finder],
    after the reaping), and inside a row after each pixel. *)
Definition scanning (mapped : bool) (W H : nat) (Bth : Z)
    (DensityMap : list Z) (st : Store) (s' : Scan) : Prop :=
  (exists Y : nat,
     (Y <= H)%nat /\ find_rows mapped W H Bth DensityMap st Y = Some s') \/
  (exists (Y X : nat) (s : Scan),
     (Y < H)%nat /\ (X <= W)%nat /\
     find_rows mapped W H Bth DensityMap st Y = Some s /\
     find_row_prefix mapped (W * H) W Bth Y X s = Some s').

(** The scan of the map [1 0 1 / 1 1 1] at the end of its second row, where
    the blob of the right column has just been merged into the row blob. *)
Definition merged_row : Scan :=
  Eval vm_compute in
    default (scan_start 0 [] empty_store)
      (s ← find_rows false 3 2 1 [1; 0; 1; 1; 1; 1] empty_store 1;
       find_row_prefix false (3 * 2) 3 1 1 3 s).

(** **** The end of the scan *)

Definition forwarded (h : list Blob) (b : addr) : bool :=
  match h !! b with
  | Some B => match FP B with Some _ => true | None => false end
  | None => false
  end.

(** *** Rendering a density map *)

(** The palette [W2C16up]. *)
Definition W2C16up : list Utils.Pixel :=
  [Utils.mkPixel 0 0 0; Utils.mkPixel 0 0 128; Utils.mkPixel 128 0 0;
   Utils.mkPixel 0 128 0; Utils.mkPixel 128 0 128; Utils.mkPixel 128 128 0;
   Utils.mkPixel 0 128 128; Utils.mkPixel 128 128 128; Utils.mkPixel 0 0 255;
   Utils.mkPixel 192 192 192; Utils.mkPixel 255 0 255; Utils.mkPixel 0 255 255;
   Utils.mkPixel 0 255 0; Utils.mkPixel 255 255 0; Utils.mkPixel 255 0 0;
   Utils.mkPixel 255 255 255].

(** [W2C16up[idx]]; an index outside the table is undefined. *)
Definition palette (idx : Z) : option Utils.Pixel :=
  if (0 <=? idx) && (idx <? 16) then W2C16up !! Z.to_nat idx else None.

(** The loop the four renderers share: pixel [I] of the frame is rewritten
    from [DensityMap[I]], for [I] below [Width * Height]. *)
Definition render (color : Z -> option Utils.Pixel) (FB : Utils.FrmBuf)
    (DensityMap : list Z) : option (list Utils.Pixel) :=
  let n := Z.to_nat (Int.mul (Utils.Width FB) (Utils.Height FB)) in
  for_each (fun Frm i =>
              match DensityMap !! i with
              | None => None
              | Some d =>
                  match color d with
                  | None => None
                  | Some P =>
                      if decide (i < length Frm)%nat then Some (<[i := P]> Frm)
                      else None
                  end
              end)
    (seq 0 n) (Utils.Frm FB).

(** [Paint_Frame]: the colour [W2C16up[DensityMap[I] * 15 / MaxCount]]. *)
Definition Paint_Frame (FB : Utils.FrmBuf) (MaxCount : Z) (DensityMap : list Z)
    : option (list Utils.Pixel) :=
  render (fun d => match Int.div (Int.mul d 15) MaxCount with
                   | None => None
                   | Some idx => palette idx
                   end) FB DensityMap.

(** [Paint_Frame_Mod]: the colour [W2C16up[DensityMap[I] % 15]]. *)
Definition Paint_Frame_Mod (FB : Utils.FrmBuf) (DensityMap : list Z)
    : option (list Utils.Pixel) :=
  render (fun d => match Int.rem d 15 with
                   | None => None
                   | Some idx => palette idx
                   end) FB DensityMap.

(** [Grayscale_Frame]: the three bytes take [DensityMap[I] * 255 / MaxCount],
    converted to [unsigned char]. *)
Definition Grayscale_Frame (FB : Utils.FrmBuf) (MaxCount : Z)
    (DensityMap : list Z) : option (list Utils.Pixel) :=
  render (fun d => match Int.div (Int.mul d 255) MaxCount with
                   | None => None
                   | Some v =>
                       Some (Utils.mkPixel (Utils.to_byte v) (Utils.to_byte v)
                               (Utils.to_byte v))
                   end) FB DensityMap.

(** [Threshold_Frame]. *)
Definition Threshold_Frame (FB : Utils.FrmBuf) (Threshold : Z)
    (DensityMap : list Z) : option (list Utils.Pixel) :=
  render (fun d => Some (if Threshold <=? d then white else Utils.black))
    FB DensityMap.

(** The mask test of the driver's [WriteOutOutputImage] on a painted pixel:
    [P->R + P->G + P->B > 175]. *)
Definition bright (P : Utils.Pixel) : bool :=
  175 <? Int.add (Int.add (Utils.R P) (Utils.G P)) (Utils.B P).

(** *** Area density *)

(** The arrays and the variables of [Area_Image_Density]: [Wheels] and [Sums]
    have [FB->Height] entries, [Vwheel] has [WheelSize]. *)
Record Area := mkArea {
  Wheels : list Z; Sums : list Z; Vwheel : list Z;
  Vsum : Z; Vptr : Z; AreaMap : list Z
}.

(** [a[idx]] as an rvalue; an index outside the array is undefined. *)
Definition at_index (a : list Z) (idx : Z) : option Z :=
  if 0 <=? idx then a !! Z.to_nat idx else None.

(** The pixel whose bytes are [Frm[3*I], Frm[3*I+1], Frm[3*I+2]]. *)
Definition pixel_at (FB : Utils.FrmBuf) (I : Z) : option Utils.Pixel :=
  if 0 <=? I then Utils.Frm FB !! Z.to_nat I else None.

(** The body of the inner loop of [Area_Image_Density] at row [Y] of
    column [X]. *)
Definition area_step (FB : Utils.FrmBuf) (WheelSize Edge HalfWheel WheelOff : Z)
    (X : nat) (a : Area) (Y : nat) : option Area :=
  let I := Int.add (Z.of_nat X) (Int.mul (Z.of_nat Y) (Utils.Width FB)) in
  match Sums a !! Y, Wheels a !! Y with
  | Some s, Some w =>
      let s := Int.sub s (Z.land w 1) in
      let w := Int.shr1 w in
      match at_index (Vwheel a) (Vptr a) with
      | None => None
      | Some v =>
          let vsum := Int.sub (Vsum a) v in
          match
            (if Z.of_nat Y <? Utils.Height FB then
               match
                 (if Z.of_nat X <? Utils.Width FB then
                    match pixel_at FB I with
                    | None => None
                    | Some P =>
                        Some (if nonblack P
                              then (Int.add s 1, Z.lor w Edge) else (s, w))
                    end
                  else Some (s, w))
               with
               | None => None
               | Some (s, w) =>
                   match write (Vwheel a) (Vptr a) s with
                   | None => None
                   | Some vwheel => Some (s, w, vwheel, Int.add vsum s)
                   end
               end
             else Some (s, w, Vwheel a, vsum))
          with
          | None => None
          | Some (s, w, vwheel, vsum) =>
              match Int.rem (Int.add (Vptr a) 1) WheelSize with
              | None => None
              | Some vptr =>
                  match
                    (if (HalfWheel <=? Z.of_nat X) && (HalfWheel <=? Z.of_nat Y)
                     then write (AreaMap a) (Int.sub I WheelOff) vsum
                     else Some (AreaMap a))
                  with
                  | None => None
                  | Some m =>
                      Some (mkArea (<[Y := w]> (Wheels a)) (<[Y := s]> (Sums a))
                              vwheel vsum vptr m)
                  end
              end
          end
      end
  | _, _ => None
  end.

(** The body of the outer loop at column [X]: the vertical wheel is cleared,
    then the rows are scanned. *)
Definition area_column (FB : Utils.FrmBuf) (WheelSize Edge HalfWheel WheelOff : Z)
    (a : Area) (X : nat) : option Area :=
  for_each (area_step FB WheelSize Edge HalfWheel WheelOff X)
    (seq 0 (Z.to_nat (Int.add (Utils.Height FB) HalfWheel)))
    (mkArea (Wheels a) (Sums a) (replicate (Z.to_nat WheelSize) 0) 0 0
            (AreaMap a)).

(** [Area_Image_Density]: the density map after the scan.  The three arrays
    are variable length arrays, so their sizes must be positive. *)
Definition Area_Image_Density (FB : Utils.FrmBuf) (DensityMap : list Z)
    (WheelSize : Z) : option (list Z) :=
  if (0 <? Utils.Height FB) && (0 <? WheelSize) then
    match Int.shl1 (Int.sub WheelSize 1) with
    | None => None
    | Some Edge =>
        let HalfWheel := Int.shr1 WheelSize in
        let WheelOff := Int.mul HalfWheel (Int.add (Utils.Width FB) 1) in
        let rows := Z.to_nat (Utils.Height FB) in
        AreaMap <$>
          for_each (area_column FB WheelSize Edge HalfWheel WheelOff)
            (seq 0 (Z.to_nat (Int.add (Utils.Width FB) HalfWheel)))
            (mkArea (replicate rows 0) (replicate rows 0) [] 0 0 DensityMap)
    end
  else None.

(** *** What a scan has counted *)

(** The part a blob takes in a sum over the blobs of a scan: the value of
    the field [f] when the blob is not forwarded (a forwarded blob has given
    its sums to the blob it forwards to). *)
Definition share (f : Blob -> Z) (h : list Blob) (b : addr) : Z :=
  match h !! b with
  | Some B => match FP B with None => f B | Some _ => 0 end
  | None => 0
  end.

Definition total (f : Blob -> Z) (h : list Blob) (L : list addr) : Z :=
  foldr (fun b t => share f h b + t) 0 L.

(** A blob that holds positions of the rows up to [Y] of a map [W] wide: a
    non-empty bounding box within those rows, coordinate sums between
    [Count] times the lowest and the highest coordinate, and a registration
    point on the top row of the box. *)
Record boxed (W Y : Z) (B : Blob) : Prop := mk_boxed {
  boxed_count : 1 <= Count B;
  boxed_x : 0 <= Xmin B /\ Xmin B <= Xmax B /\ Xmax B < W;
  boxed_y : 0 <= Ymin B /\ Ymin B <= Ymax B /\ Ymax B <= Y;
  boxed_xsum : Count B * Xmin B <= Xsum B /\ Xsum B <= Count B * Xmax B;
  boxed_ysum : Count B * Ymin B <= Ysum B /\ Ysum B <= Count B * Ymax B;
  boxed_reg : Yreg B = Ymin B /\ Xmin B <= Xreg B /\ Xreg B <= Xmax B
}.

(** The active blobs of a scan are boxed, and the blobs that are not
    forwarded hold [N] positions between them, with coordinate sums [SX]
    and [SY]. *)
Record measured (W Y N SX SY : Z) (h : list Blob) (L : list addr) : Prop :=
  mk_measured {
  measured_boxed : forall b B, b ∈ L -> h !! b = Some B -> boxed W Y B;
  measured_count : total Count h L = N;
  measured_xsum : total Xsum h L = SX;
  measured_ysum : total Ysum h L = SY
}.

(** The blob-worthy positions among the first [n] of a map. *)
Definition worthy (Bth : Z) (DensityMap : list Z) (n : nat) : list nat :=
  List.filter (fun i => match DensityMap !! i with
                        | Some d => Bth <=? d
                        | None => false
                        end) (seq 0 n).

Definition sumZ (l : list Z) : Z := foldr Z.add 0 l.

(** The column and the row of position [i] of a map [W] wide. *)
Definition column (W i : nat) : Z := Z.of_nat (i mod W).
Definition row (W i : nat) : Z := Z.of_nat (i / W).

(** The entries of the map from [lo] on still hold the densities of
    [DensityMap]. *)
Definition pending (DensityMap : list Z) (m : list MapCell) (lo : nat) : Prop :=
  forall i : nat, (lo <= i)%nat -> m !! i = Density <$> DensityMap !! i.

(** What the first [n] positions of a map [W] wide add up to: the number of
    blob-worthy positions, the sum of their columns and the sum of their
    rows. *)
Definition census_count (Bth : Z) (DensityMap : list Z) (n : nat) : Z :=
  Z.of_nat (length (worthy Bth DensityMap n)).
Definition census_columns (Bth : Z) (DensityMap : list Z) (W n : nat) : Z :=
  sumZ (map (column W) (worthy Bth DensityMap n)).
Definition census_rows (Bth : Z) (DensityMap : list Z) (W n : nat) : Z :=
  sumZ (map (row W) (worthy Bth DensityMap n)).

(** *** What a blob map says *)

(** The blob a blob forwards to in the end: [Reduce_FP] with enough calls. *)
Definition owner (h : list Blob) (b r : addr) : Prop :=
  exists n : nat, Reduce_FP n h b = Some r.

(** Entry [i] of the map holds a pointer to a blob that forwards to [r]. *)
Definition holder (h : list Blob) (dm : list MapCell) (i : nat) (r : addr) : Prop :=
  exists b : addr, dm !! i = Some (Handle b) /\ owner h b r.

(** In a map [W] wide, position [j] is the right or the lower neighbour of
    position [i]. *)
Definition beside (W i j : nat) : Prop :=
  (j = S i /\ (j mod W)%nat <> 0%nat) \/ j = (i + W)%nat.

(** Two positions of the set [A] joined by a chain of neighbours in [A]. *)
Inductive joined (W : nat) (A : nat -> Prop) : nat -> nat -> Prop :=
  | joined_refl (i : nat) : A i -> joined W A i i
  | joined_beside (i j : nat) : A i -> A j -> beside W i j -> joined W A i j
  | joined_sym (i j : nat) : joined W A i j -> joined W A j i
  | joined_trans (i j k : nat) :
      joined W A i j -> joined W A j k -> joined W A i k.

(** The blob [R] describes the positions [P] of a map [W] wide: their
    number, the sums of their columns and rows, and their bounding box, which
    is tight. *)
Record extent (W : nat) (P : list nat) (R : Blob) : Prop := mk_extent {
  extent_count : Count R = Z.of_nat (length P);
  extent_xsum : Xsum R = sumZ (map (column W) P);
  extent_ysum : Ysum R = sumZ (map (row W) P);
  extent_box : forall i : nat, i ∈ P ->
    Xmin R <= column W i <= Xmax R /\ Ymin R <= row W i <= Ymax R;
  extent_left : exists i : nat, i ∈ P /\ column W i = Xmin R;
  extent_right : exists i : nat, i ∈ P /\ column W i = Xmax R;
  extent_top : exists i : nat, i ∈ P /\ row W i = Ymin R;
  extent_bottom : exists i : nat, i ∈ P /\ row W i = Ymax R
}.

(** The last position of column [x] that has been scanned when the scan is
    at column [X] of row [Y]. *)
Definition above (W Y X x : nat) : option nat :=
  if (x <? X)%nat then Some (Y * W + x)%nat
  else if (Y =? 0)%nat then None
  else Some ((Y - 1) * W + x)%nat.

(** The first [k] entries of the map: a blob of the list [L] where the
    density reaches [Bth], zero elsewhere. *)
Definition marked (Bth : Z) (DensityMap : list Z) (k : nat) (L : list addr)
    (dm : list MapCell) : Prop :=
  forall (i : nat) (d : Z),
    (i < k)%nat -> DensityMap !! i = Some d ->
    if Bth <=? d then exists b : addr, dm !! i = Some (Handle b) /\ b ∈ L
    else dm !! i = Some (Density 0).

(** [P] lists the positions among the first [k] that refer to [r]. *)
Definition members (h : list Blob) (dm : list MapCell) (k : nat) (r : addr)
    (P : list nat) : Prop :=
  NoDup P /\ forall i : nat, i ∈ P <-> (i < k)%nat /\ holder h dm i r.

(** Neighbours among the first [k] positions refer to the same blob. *)
Definition agreed (W : nat) (h : list Blob) (dm : list MapCell) (k : nat) : Prop :=
  forall (i j : nat) (ri rj : addr),
    (j < k)%nat -> beside W i j ->
    holder h dm i ri -> holder h dm j rj -> ri = rj.

Definition connected (W : nat) (P : list nat) : Prop :=
  forall i j : nat, i ∈ P -> j ∈ P -> joined W (fun x => x ∈ P) i j.

(** The map after [k] positions: every blob that is not forwarded describes
    the positions that refer to it, and these are connected. *)
Record charted (W : nat) (Bth : Z) (DensityMap : list Z) (k : nat)
    (h : list Blob) (L : list addr) (dm : list MapCell) : Prop := mk_charted {
  charted_cells : marked Bth DensityMap k L dm;
  charted_roots : forall r : addr, r ∈ L -> is_root h r ->
    exists (P : list nat) (R : Blob),
      h !! r = Some R /\ members h dm k r P /\ extent W P R /\ connected W P;
  charted_beside : agreed W h dm k
}.

(** The same before [Add_Position] adds position [k] to the row blob [r],
    which may be new, or the result of a merge: its positions are then
    connected through the neighbours of [k]. *)
Record staged (W : nat) (Bth : Z) (DensityMap : list Z) (k : nat)
    (h : list Blob) (L : list addr) (dm : list MapCell) (r : addr) : Prop :=
  mk_staged {
  staged_cells : marked Bth DensityMap k L dm;
  staged_roots : forall r' : addr, r' ∈ L -> is_root h r' -> r' <> r ->
    exists (P : list nat) (R : Blob),
      h !! r' = Some R /\ members h dm k r' P /\ extent W P R /\ connected W P;
  staged_row : exists (P : list nat) (R : Blob),
    h !! r = Some R /\ FP R = None /\ members h dm k r P /\
    (extent W P R \/ (P = [] /\ Count R = 0 /\ Xsum R = 0 /\ Ysum R = 0)) /\
    (forall i : nat, i ∈ P ->
       exists p : nat, p ∈ P /\ beside W p k /\ joined W (fun x => x ∈ P) p i);
  staged_beside : agreed W h dm k;
  staged_near : forall (i : nat) (x : addr),
    beside W i k -> holder h dm i x -> x = r
}.

(** What the row blob and the column table say at column [X] of row [Y]:
    the row blob is the blob of the position to the left, a column blob
    forwards to the same blob as the last position of its column, and both
    are null where that position is not blob-worthy. *)
Record tied (W Y X : nat) (s : Scan) : Prop := mk_tied {
  tied_row : forall r : addr, RowBlob s = Some r ->
    (0 < X)%nat /\ DMap s !! (Y * W + X - 1)%nat = Some (Handle r);
  tied_row_none : RowBlob s = None -> (0 < X)%nat ->
    DMap s !! (Y * W + X - 1)%nat = Some (Density 0);
  tied_col : forall (x : nat) (c : addr),
    ColBlobs s !! x = Some (Some c) ->
    exists (p : nat) (r : addr),
      above W Y X x = Some p /\ holder (heap (store s)) (DMap s) p r /\
      owner (heap (store s)) c r;
  tied_col_none : forall x p : nat,
    ColBlobs s !! x = Some None -> above W Y X x = Some p ->
    DMap s !! p = Some (Density 0)
}.

(** The scan state with the row blob cleared, as at the start of a row. *)
Definition row_start (s : Scan) : Scan :=
  mkScan (store s) (Blobs s) None (ColBlobs s) (DMap s).



(** A scan with another map in the place of its own. *)
Definition with_map (dm : list MapCell) (s : Scan) : Scan :=
  mkScan (store s) (Blobs s) (RowBlob s) (ColBlobs s) dm.

(** A map entry with its blob pointer replaced by the blob it forwards
    to. *)
Definition settled_cell (h : list Blob) (c c' : MapCell) : Prop :=
  match c with
  | Density d => c' = Density d
  | Handle b => exists r : addr, c' = Handle r /\ owner h b r
  end.

Definition settles (h : list Blob) (dm dm' : list MapCell) : Prop :=
  Forall2 (settled_cell h) dm dm'.

(** [Blob_Finder] builds no blob map.  [surveyed] keeps one beside its scan:
    the map [dm] holds, for each position scanned, zero or the blob that
    describes the position now, a blob that is not forwarded. *)
Record surveyed (W : nat) (Bth : Z) (DensityMap : list Z) (Y X : nat)
    (s : Scan) (dm : list MapCell) : Prop := mk_surveyed {
  surveyed_chart :
    charted W Bth DensityMap (Y * W + X) (heap (store s)) (Blobs s) dm;
  surveyed_tied : tied W Y X (with_map dm s);
  surveyed_roots : forall (i : nat) (b : addr),
    dm !! i = Some (Handle b) -> is_root (heap (store s)) b;
  surveyed_rest : pending DensityMap dm (Y * W + X)
}.

(** The place of a blob in a list. *)
Fixpoint place (r : addr) (bs : list addr) : nat :=
  match bs with
  | [] => 0
  | b :: bs' => if decide (b = r) then 0 else S (place r bs')
  end.

(** The place in [bs] of the blob a map refers to at position [i]. *)
Definition label (dm : list MapCell) (bs : list addr) (i : nat) : nat :=
  match dm !! i with
  | Some (Handle r) => place r bs
  | _ => 0
  end.

End Rollers.

(** * Properties *)

(** ** The machine integers *)

Module IntFacts.

Import Int.

Lemma wrap_small (z : Z) : in_range z -> wrap z = z.
Proof.
  unfold in_range, wrap, min_int, max_int. intros Hz.
  rewrite Z.mod_small by lia. lia.
Qed.

Lemma wrap_in_range (z : Z) : in_range (wrap z).
Proof.
  unfold in_range, wrap, min_int, max_int.
  pose proof (Z.mod_pos_bound (z + 2147483648) 4294967296 ltac:(lia)). lia.
Qed.

Lemma wrap_add_l (a b : Z) : wrap (wrap a + b) = wrap (a + b).
Proof.
  unfold wrap. f_equal.
  replace ((a + 2147483648) mod 4294967296 - 2147483648 + b + 2147483648)
    with ((a + 2147483648) mod 4294967296 + b) by lia.
  rewrite Zplus_mod_idemp_l. f_equal. lia.
Qed.

(** Counting up from zero in machine arithmetic. *)
Lemma add_count (n : nat) : add (wrap (Z.of_nat n)) 1 = wrap (Z.of_nat (S n)).
Proof. unfold add. rewrite wrap_add_l. f_equal. lia. Qed.

(** The arithmetic right shift by one is the floor division by two. *)
Lemma shr1_div2 (a : Z) : shr1 a = a / 2.
Proof. unfold shr1. rewrite Z.shiftr_div_pow2 by lia. reflexivity. Qed.

End IntFacts.

Lemma for_each_app {S : Type} (body : S -> nat -> option S)
    (Is Js : list nat) (s : S) :
  for_each body (Is ++ Js) s =
  match for_each body Is s with
  | None => None
  | Some s' => for_each body Js s'
  end.
Proof.
  revert s. induction Is as [|i Is IH]; intros s; [reflexivity|].
  cbn [app for_each]. destruct (body s i); [apply IH|reflexivity].
Qed.

(** ** The background model *)

Module MMMFacts.

Import MMM.

(** *** Facts about decimation *)

Lemma halve_age (Cth : Z) (c : Cell) :
  (if Cth <=? Count c then halve c else c) = age Cth c.
Proof.
  unfold age, halve. destruct (Cth <=? Count c); [|reflexivity].
  rewrite !IntFacts.shr1_div2. reflexivity.
Qed.

Lemma below_not_viable (Cth : Z) (c : Cell) :
  (Count c <? Cth) = negb (viable Cth c).
Proof. unfold viable. destruct (Z.leb_spec Cth (Count c)), (Z.ltb_spec (Count c) Cth); simpl; lia || reflexivity. Qed.

(** Once a cell has been kept, the rest of the set is a plain filter. *)
Lemma Decimate_Set_tail (Cth : Z) (cells FreeCells : list Cell) (k : nat) :
  Decimate_Set Cth false cells FreeCells (Int.wrap (Z.of_nat k)) =
  (List.filter (viable Cth) (map (age Cth) cells),
   rev (List.filter (fun c => negb (viable Cth c)) (map (age Cth) cells)) ++ FreeCells,
   Int.wrap (Z.of_nat (k + length (List.filter (fun c => negb (viable Cth c)) (map (age Cth) cells))))).
Proof.
  revert FreeCells k. induction cells as [|c Next IH]; intros FreeCells k.
  - simpl. rewrite Nat.add_0_r. reflexivity.
  - cbn [Decimate_Set map List.filter]. rewrite halve_age, below_not_viable.
    rewrite orb_true_r, andb_true_r.
    destruct (viable Cth (age Cth c)); cbn [negb].
    + rewrite IH. reflexivity.
    + unfold Free_Cell. rewrite IntFacts.add_count, IH.
      cbn [rev length]. rewrite <- app_assoc. cbn [app].
      do 2 f_equal. lia.
Qed.

Lemma filter_nil_last {A} (f : A -> bool) (x : A) (l : list A) :
  l <> [] -> last (x :: l) = last l /\ removelast (x :: l) = x :: removelast l.
Proof. destruct l; [congruence|]. intros _. split; reflexivity. Qed.

(** From the head of the slot, the loop computes [decimated] and frees
    [evicted], in the order the cells are met. *)
Lemma Decimate_Set_head (Cth : Z) (cells FreeCells : list Cell) (k : nat) :
  Decimate_Set Cth true cells FreeCells (Int.wrap (Z.of_nat k)) =
  (decimated Cth cells, rev (evicted Cth cells) ++ FreeCells,
   Int.wrap (Z.of_nat (k + length (evicted Cth cells)))).
Proof.
  revert FreeCells k. induction cells as [|c Next IH]; intros FreeCells k.
  - cbn. rewrite Nat.add_0_r. reflexivity.
  - cbn [Decimate_Set]. rewrite halve_age, below_not_viable.
    unfold decimated, evicted. cbn [map List.filter].
    destruct (viable Cth (age Cth c)) eqn:Hv; cbn [negb andb].
    + rewrite Decimate_Set_tail. reflexivity.
    + rewrite orb_false_r.
      destruct Next as [|c' Next'].
      * cbn. rewrite Nat.add_0_r. reflexivity.
      * cbn [is_nil negb]. unfold Free_Cell. rewrite IntFacts.add_count, IH.
        unfold decimated, evicted.
        assert (Hne : map (age Cth) (c' :: Next') <> []) by (cbn; congruence).
        destruct (filter_nil_last (viable Cth) (age Cth c) _ Hne) as [Hl Hr].
        rewrite Hl, Hr.
        destruct (List.filter (viable Cth) (map (age Cth) (c' :: Next')));
          cbn [rev length]; rewrite <- app_assoc; cbn [app];
          do 2 f_equal; lia.
Qed.

Lemma decimated_nonempty (Cth : Z) (set : list Cell) :
  set <> [] -> decimated Cth set <> [].
Proof.
  intros Hne. unfold decimated.
  destruct (List.filter (viable Cth) (map (age Cth) set)) eqn:Hf; [|congruence].
  destruct set as [|c set']; [congruence|].
  destruct (last (map (age Cth) (c :: set'))) eqn:Hl; [congruence|].
  apply last_None in Hl. discriminate.
Qed.

Lemma length_removelast {A} (l : list A) :
  length (removelast l) = Nat.pred (length l).
Proof.
  induction l as [|x [|y l] IH]; [reflexivity..|].
  change (removelast (x :: y :: l)) with (x :: removelast (y :: l)).
  cbn [length] in *. rewrite IH. reflexivity.
Qed.

Lemma length_filter_split {A} (f : A -> bool) (l : list A) :
  (length (List.filter f l) + length (List.filter (fun x => negb (f x)) l)
   = length l)%nat.
Proof.
  induction l as [|x l IH]; [reflexivity|]. cbn [List.filter].
  destruct (f x); cbn [negb length]; lia.
Qed.

(** Every cell of a set is either kept or evicted. *)
Lemma decimated_evicted_length (Cth : Z) (set : list Cell) :
  (length (decimated Cth set) + length (evicted Cth set) = length set)%nat.
Proof.
  unfold decimated, evicted.
  pose proof (length_filter_split (viable Cth) (map (age Cth) set)) as Hsplit.
  rewrite length_map in Hsplit.
  destruct (List.filter (viable Cth) (map (age Cth) set)) eqn:Hf; [|exact Hsplit].
  rewrite length_removelast, length_map.
  destruct set as [|c set']; [reflexivity|].
  destruct (last (map (age Cth) (c :: set'))) eqn:Hl.
  - cbn [length]. lia.
  - apply last_None in Hl. discriminate.
Qed.

(** The loop over the slots [a .. a+m-1]. *)
Lemma Decimate_loop_spec (Cth : Z) (m : nat) :
  forall (a : nat) (BGM : list (list Cell)) (FreeCells : list Cell) (k : nat),
  (a + m <= length BGM)%nat ->
  Decimate_loop Cth (seq a m) BGM FreeCells (Int.wrap (Z.of_nat k)) =
  Some (take a BGM ++ map (decimated Cth) (take m (drop a BGM)) ++ drop (a + m) BGM,
        rev (concat (map (evicted Cth) (take m (drop a BGM)))) ++ FreeCells,
        Int.wrap (Z.of_nat (k + length (concat (map (evicted Cth) (take m (drop a BGM))))))).
Proof.
  induction m as [|m IH]; intros a BGM FreeCells k Hlen.
  - rewrite take_0. cbn [seq Decimate_loop map concat rev length app].
    rewrite !Nat.add_0_r, take_drop. reflexivity.
  - cbn [seq Decimate_loop].
    destruct (lookup_lt_is_Some_2 BGM a ltac:(lia)) as [set Hset].
    rewrite Hset, Decimate_Set_head.
    rewrite IH by (rewrite length_insert; lia).
    rewrite (take_S_r _ a (decimated Cth set))
      by (apply list_lookup_insert_eq; lia).
    rewrite take_insert_ge by lia.
    rewrite !drop_insert_lt by lia.
    rewrite (drop_S BGM set a Hset).
    cbn [take map concat]. rewrite rev_app_distr, length_app.
    rewrite <- !app_assoc. cbn [app].
    replace (S a + m)%nat with (a + S m)%nat by lia.
    rewrite Nat.add_assoc. reflexivity.
Qed.

(** What [Decimate_BGM] computes on the first [NumSets] slots. *)
Lemma Decimate_BGM_eq (BGM : list (list Cell)) (Cth NumSets : Z)
    (FreeCells : list Cell) :
  (Z.to_nat NumSets <= length BGM)%nat ->
  Decimate_BGM BGM Cth NumSets FreeCells =
  Some (map (decimated Cth) (take (Z.to_nat NumSets) BGM)
          ++ drop (Z.to_nat NumSets) BGM,
        rev (concat (map (evicted Cth) (take (Z.to_nat NumSets) BGM)))
          ++ FreeCells,
        Int.wrap (Z.of_nat (length
          (concat (map (evicted Cth) (take (Z.to_nat NumSets) BGM)))))).
Proof.
  intros Hlen. unfold Decimate_BGM.
  change 0 with (Int.wrap (Z.of_nat 0)).
  rewrite Decimate_loop_spec by (simpl; lia).
  rewrite drop_0. reflexivity.
Qed.

Lemma evicted_below (Cth : Z) (set : list Cell) (c : Cell) :
  In c (evicted Cth set) -> Count c < Cth.
Proof.
  unfold evicted.
  assert (Hnv : forall l x, In x l -> List.filter (viable Cth) l = [] ->
                            Count x < Cth).
  { intros l x Hin Hnil.
    destruct (Z.ltb_spec (Count x) Cth) as [|Hge]; [assumption|].
    assert (Hx : In x (List.filter (viable Cth) l)).
    { apply filter_In. split; [assumption|]. unfold viable. lia. }
    rewrite Hnil in Hx. destruct Hx. }
  destruct (List.filter (viable Cth) (map (age Cth) set)) eqn:Hf.
  - intros Hin. apply (Hnv (map (age Cth) set)); [|assumption].
    destruct (map (age Cth) set) as [|y l] eqn:Hm; [destruct Hin|].
    rewrite <- Hm in *. clear Hm.
    assert (Hne : map (age Cth) set <> []) by (destruct set; [destruct Hin|discriminate]).
    rewrite (app_removelast_last y Hne). apply in_or_app. left. exact Hin.
  - intros Hin. apply filter_In in Hin as [_ Hv].
    unfold viable in Hv. lia.
Qed.

(** C1: decimation never empties a slot.  Starting from a model whose
    slots all hold at least one cell, any sequence of calls of
    [Decimate_BGM], each with any [Cth] and any [NumSets] within the model,
    returns, and leaves every slot with at least one cell. *)
Theorem Decimate_BGM_never_empties (calls : list (Z * Z))
    (BGM : list (list Cell)) (FreeCells : list Cell) :
  Forall (fun set => 1 <= Length set) BGM ->
  Forall (fun call => (Z.to_nat (snd call) <= length BGM)%nat) calls ->
  exists BGM' FreeCells',
    Decimate_repeatedly calls BGM FreeCells = Some (BGM', FreeCells') /\
    length BGM' = length BGM /\
    Forall (fun set => 1 <= Length set) BGM'.
Proof.
  revert BGM FreeCells.
  induction calls as [|[Cth NumSets] calls IH]; intros BGM FreeCells Hne Hcalls.
  - exists BGM, FreeCells. cbn. auto.
  - apply Forall_cons in Hcalls as [Hn Hcalls]. cbn [snd] in Hn.
    cbn [Decimate_repeatedly]. rewrite Decimate_BGM_eq by exact Hn.
    set (BGM1 := map (decimated Cth) (take (Z.to_nat NumSets) BGM)
                   ++ drop (Z.to_nat NumSets) BGM).
    assert (Hlen1 : length BGM1 = length BGM).
    { unfold BGM1. rewrite length_app, length_map, length_take, length_drop. lia. }
    assert (Hne1 : Forall (fun set => 1 <= Length set) BGM1).
    { unfold BGM1. apply Forall_app. split.
      - apply Forall_map. eapply Forall_impl; [apply Forall_take, Hne|].
        intros set Hset. cbn. unfold Length in *.
        pose proof (decimated_nonempty Cth set) as Hd.
        destruct set; [cbn in Hset; lia|].
        destruct (decimated Cth (c :: set)); [exfalso; apply Hd; congruence|].
        cbn [length]. lia.
      - apply Forall_drop, Hne. }
    match goal with
    | |- context [Decimate_repeatedly calls BGM1 ?F] =>
        destruct (IH BGM1 F Hne1) as (BGM' & F' & Hrun & Hlen & Hok)
    end.
    { rewrite Hlen1. exact Hcalls. }
    exists BGM', F'. rewrite Hrun. split; [reflexivity|]. split; [lia|exact Hok].
Qed.

Lemma Decimate_BGM_never_empties_witness :
  exists BGM' FreeCells',
    Decimate_repeatedly [(3, 2); (1, 2); (0, 1)]
      [[mkCell 40 44 48 4; mkCell 9 9 9 1]; [mkCell 5 6 7 1]] [] =
      Some (BGM', FreeCells') /\
    length BGM' = 2%nat /\
    Forall (fun set => 1 <= Length set) BGM'.
Proof.
  apply (Decimate_BGM_never_empties [(3, 2); (1, 2); (0, 1)]
           [[mkCell 40 44 48 4; mkCell 9 9 9 1]; [mkCell 5 6 7 1]] []).
  - repeat constructor; vm_compute; discriminate.
  - repeat constructor; simpl; lia.
Defined.

(** C5: for every model, [Cth] and free list, [Decimate_BGM] halves by floor
    division the sums and the count of every cell whose [Count] is at least
    [Cth] ([age]); in each processed slot the cells then at or above [Cth]
    stay, the others leave, except that a slot left without any keeps its
    last cell ([decimated]); the cells that leave are pushed on the free list
    in the order they are met ([evicted]); the value returned is their number
    as an int (their number itself when it fits an int). *)
Theorem Decimate_BGM_halves_and_evicts (BGM : list (list Cell))
    (Cth NumSets : Z) (FreeCells : list Cell) :
  (Z.to_nat NumSets <= length BGM)%nat ->
  let sets := take (Z.to_nat NumSets) BGM in
  let gone := concat (map (evicted Cth) sets) in
  Decimate_BGM BGM Cth NumSets FreeCells =
    Some (map (decimated Cth) sets ++ drop (Z.to_nat NumSets) BGM,
          rev gone ++ FreeCells,
          Int.wrap (Z.of_nat (length gone))) /\
  (Z.of_nat (length gone) <= Int.max_int ->
   Int.wrap (Z.of_nat (length gone)) = Z.of_nat (length gone)) /\
  (forall c, In c gone -> Count c < Cth) /\
  (length (concat (map (decimated Cth) sets)) + length gone
   = length (concat sets))%nat.
Proof.
  intros Hlen sets gone. split; [apply Decimate_BGM_eq, Hlen|].
  split; [|split].
  - intros Hfit. apply IntFacts.wrap_small.
    unfold Int.in_range, Int.min_int, Int.max_int in *. lia.
  - intros c Hin. unfold gone in Hin. apply in_concat in Hin as (l & Hl & Hc).
    apply in_map_iff in Hl as (set & <- & _). eapply evicted_below, Hc.
  - subst gone. generalize sets as ss. clear.
    induction ss as [|set ss IH]; [reflexivity|].
    cbn [map concat]. rewrite !length_app.
    pose proof (decimated_evicted_length Cth set). lia.
Qed.

Lemma Decimate_BGM_halves_and_evicts_witness :
  Decimate_BGM [[mkCell 41 44 48 4; mkCell 9 9 9 1]; [mkCell 5 6 7 1]] 2 2
    [mkCell 0 0 0 0] =
  Some ([[mkCell 20 22 24 2]; [mkCell 5 6 7 1]],
        [mkCell 9 9 9 1; mkCell 0 0 0 0], 1).
Proof.
  exact (proj1 (Decimate_BGM_halves_and_evicts
    [[mkCell 41 44 48 4; mkCell 9 9 9 1]; [mkCell 5 6 7 1]] 2 2
    [mkCell 0 0 0 0] ltac:(simpl; lia))).
Defined.

(** *** Facts about matching *)

Lemma channel_close_within (p sum count Epsilon : Z) :
  Utils.byte_ok p -> 0 <= sum <= Int.max_int -> 0 < count <= Int.max_int ->
  channel_close p sum count Epsilon = Some (within p sum count Epsilon).
Proof.
  unfold Utils.byte_ok, Int.max_int. intros Hp Hsum Hcount.
  unfold channel_close, Int.div, within.
  destruct (Z.eqb_spec count 0) as [|_]; [lia|].
  destruct (Z.eqb_spec sum Int.min_int) as [Hmin|_];
    [unfold Int.min_int in Hmin; lia|].
  cbn [andb]. f_equal.
  assert (Hq : 0 <= sum ÷ count <= sum).
  { split; [apply Z.quot_pos; lia|].
    rewrite Z.quot_div_nonneg by lia.
    apply Z.div_le_upper_bound; nia. }
  unfold Int.sub, Int.abs.
  rewrite (IntFacts.wrap_small (p - sum ÷ count))
    by (unfold Int.in_range, Int.min_int, Int.max_int; lia).
  rewrite IntFacts.wrap_small
    by (unfold Int.in_range, Int.min_int, Int.max_int; lia).
  reflexivity.
Qed.

Lemma cell_close_cube (P : Utils.Pixel) (c : Cell) (Epsilon : Z) :
  Utils.Pixel_ok P -> Cell_ok c ->
  cell_close P c Epsilon = Some (cube_match P c Epsilon).
Proof.
  intros (HR & HG & HB) (HC & HcR & HcG & HcB). unfold cell_close, cube_match.
  rewrite !channel_close_within by assumption.
  destruct (within (Utils.R P) (R c) (Count c) Epsilon); [|reflexivity].
  destruct (within (Utils.G P) (G c) (Count c) Epsilon); reflexivity.
Qed.

(** C4: on a set of cells of the accumulating representation,
    [Ratio_Match_Pixel] returns the first cell, in list order, whose three
    truncated means all lie within [Epsilon] of the pixel's channels, after
    adding the pixel's channels to its sums and one to its count; the other
    cells are untouched.  When no cell passes the test it returns [NULL] and
    the set is unchanged. *)
Theorem Ratio_Match_Pixel_first_match (P : Utils.Pixel) (Cells : list Cell)
    (Epsilon : Z) :
  Utils.Pixel_ok P ->
  Forall Cell_ok Cells ->
  (forall (k : nat) (c : Cell),
     Cells !! k = Some c ->
     cube_match P c Epsilon = true ->
     (forall (j : nat) (c' : Cell),
        (j < k)%nat -> Cells !! j = Some c' -> cube_match P c' Epsilon = false) ->
     Ratio_Match_Pixel P Cells Epsilon =
       Some (Some k,
             <[k := mkCell (Int.add (R c) (Utils.R P))
                           (Int.add (G c) (Utils.G P))
                           (Int.add (B c) (Utils.B P))
                           (Int.add (Count c) 1)]> Cells)) /\
  ((forall c : Cell, In c Cells -> cube_match P c Epsilon = false) ->
   Ratio_Match_Pixel P Cells Epsilon = Some (None, Cells)).
Proof.
  intros HP Hok. induction Hok as [|c0 rest Hc0 Hrest [IHhit IHmiss]].
  - split; [intros k c Hk; discriminate|reflexivity].
  - split.
    + intros k c Hk Hm Hfirst. cbn [Ratio_Match_Pixel].
      rewrite cell_close_cube by assumption.
      destruct k as [|k].
      * cbn in Hk. injection Hk as ->. rewrite Hm. reflexivity.
      * rewrite (Hfirst 0%nat c0) by (reflexivity || lia).
        cbn in Hk. rewrite (IHhit k c Hk Hm).
        { reflexivity. }
        intros j c' Hj Hc'. apply (Hfirst (S j)); [lia|exact Hc'].
    + intros Hnone. cbn [Ratio_Match_Pixel].
      rewrite cell_close_cube by assumption.
      rewrite (Hnone c0) by (left; reflexivity).
      rewrite IHmiss by (intros c Hc; apply Hnone; right; exact Hc).
      reflexivity.
Qed.

Lemma Ratio_Match_Pixel_first_match_witness :
  Ratio_Match_Pixel (Utils.mkPixel 100 50 25)
    [mkCell 90 50 25 1; mkCell 297 153 78 3; mkCell 100 50 25 1] 2 =
  Some (Some 1%nat,
        [mkCell 90 50 25 1; mkCell 397 203 103 4; mkCell 100 50 25 1]).
Proof.
  refine (proj1 (Ratio_Match_Pixel_first_match (Utils.mkPixel 100 50 25)
    [mkCell 90 50 25 1; mkCell 297 153 78 3; mkCell 100 50 25 1] 2 _ _)
    1%nat (mkCell 297 153 78 3) eq_refl eq_refl _).
  - unfold Utils.Pixel_ok, Utils.byte_ok. simpl. lia.
  - repeat constructor; simpl; unfold Int.max_int; lia.
  - intros [|j] c' Hj Hc'; [|lia]. injection Hc' as <-. reflexivity.
Defined.

Lemma Last_Cell_snoc (init : list Cell) (tail : Cell) :
  Last_Cell (init ++ [tail]) = Some tail.
Proof.
  induction init as [|c init IH]; [reflexivity|].
  cbn [app Last_Cell]. destruct (init ++ [tail]) eqn:Hs; [|exact IH].
  destruct init; discriminate.
Qed.

Lemma scaled_ok (n : Z) (A : Utils.Pixel) :
  Utils.Pixel_ok A -> 1 <= n -> n * 255 <= Int.max_int -> Cell_ok (scaled n A).
Proof.
  unfold Utils.Pixel_ok, Utils.byte_ok, Cell_ok, scaled, Int.max_int. cbn.
  intros (HR & HG & HB) Hn Hmax. repeat split; nia.
Qed.

Lemma scaled_matches (n : Z) (A : Utils.Pixel) (Epsilon : Z) :
  Utils.Pixel_ok A -> 0 <= Epsilon -> 1 <= n ->
  cube_match A (scaled n A) Epsilon = true.
Proof.
  intros _ Heps Hn. unfold cube_match, within, scaled. cbn.
  rewrite !(Z.mul_comm n), !Z.quot_mul by lia. rewrite !Z.sub_diag.
  change (Z.abs 0) with 0.
  destruct (Z.leb_spec 0 Epsilon); [reflexivity|lia].
Qed.

Lemma scaled_apart (n : Z) (A B : Utils.Pixel) (Epsilon : Z) :
  1 <= n -> apart A B Epsilon -> cube_match B (scaled n A) Epsilon = false.
Proof.
  intros Hn Hap. unfold cube_match, within, scaled. cbn.
  rewrite !(Z.mul_comm n), !Z.quot_mul by lia.
  destruct Hap as [H|[H|H]].
  - destruct (Z.leb_spec (Z.abs (Utils.R B - Utils.R A)) Epsilon); [lia|reflexivity].
  - destruct (Z.leb_spec (Z.abs (Utils.G B - Utils.G A)) Epsilon); [lia|].
    apply andb_false_intro1, andb_false_intro2. reflexivity.
  - destruct (Z.leb_spec (Z.abs (Utils.B B - Utils.B A)) Epsilon); [lia|].
    apply andb_false_intro2. reflexivity.
Qed.

Lemma scaled_learns (n : Z) (A : Utils.Pixel) (Epsilon Cth : Z)
    (FreeCells : list Cell) :
  Utils.Pixel_ok A -> 0 <= Epsilon -> 1 <= n -> (n + 1) * 255 <= Int.max_int ->
  Learn_Pixel Epsilon Cth A [scaled n A] FreeCells =
  Some ([scaled (n + 1) A], FreeCells).
Proof.
  intros HA Heps Hn Hmax. unfold Learn_Pixel. cbn [Ratio_Match_Pixel].
  rewrite cell_close_cube, scaled_matches; try assumption.
  2:{ apply scaled_ok; [assumption|lia|lia]. }
  unfold assimilate, scaled, Int.add. cbn.
  destruct HA as (HR & HG & HB). unfold Utils.byte_ok, Int.max_int in *.
  rewrite !IntFacts.wrap_small
    by (unfold Int.in_range, Int.min_int, Int.max_int; nia).
  do 3 f_equal. f_equal; lia.
Qed.

(** C6: on a non-empty set, [Add_Cell] appends a new tail cell that holds
    the pixel's [R], [G], [B] and [Count = 1] when the tail's [Count] is at
    least [Cth], and otherwise overwrites the tail with that cell, the length
    unchanged.  In particular, with [Cth = 3], a one-cell set of colour [A]
    that is shown [A], [A], [A] and then a colour [B] apart from [A] matches
    three times and then grows to two cells, the new tail holding the
    channels of [B] and [Count = 1]. *)
Theorem Add_Cell_appends_or_recycles (P : Utils.Pixel) (Set_ : list Cell)
    (Cth : Z) (FreeCells : list Cell) :
  Set_ <> [] ->
  (exists (init : list Cell) (tail : Cell),
     Set_ = init ++ [tail] /\
     (Cth <= Count tail ->
      Add_Cell P Set_ Cth FreeCells =
        Some (init ++ [tail; mkCell (Utils.R P) (Utils.G P) (Utils.B P) 1],
              snd (Allocate_Cell FreeCells))) /\
     (Count tail < Cth ->
      Add_Cell P Set_ Cth FreeCells =
        Some (init ++ [mkCell (Utils.R P) (Utils.G P) (Utils.B P) 1],
              FreeCells))) /\
  (forall (A B : Utils.Pixel) (Epsilon n : Z),
     Utils.Pixel_ok A -> Utils.Pixel_ok B -> 0 <= Epsilon ->
     1 <= n -> (n + 3) * 255 <= Int.max_int -> apart A B Epsilon ->
     Learn_Pixels Epsilon 3 [A; A; A; B] [scaled n A] FreeCells =
       Some ([scaled (n + 3) A;
              mkCell (Utils.R B) (Utils.G B) (Utils.B B) 1],
             snd (Allocate_Cell FreeCells))).
Proof.
  intros Hne. split.
  - destruct (exists_last Hne) as (init & tail & ->). exists init, tail.
    split; [reflexivity|]. unfold Add_Cell. rewrite Last_Cell_snoc. split.
    + intros Hge. destruct (Z.leb_spec Cth (Count tail)); [|lia].
      destruct (Allocate_Cell FreeCells). rewrite <- app_assoc. reflexivity.
    + intros Hlt. destruct (Z.leb_spec Cth (Count tail)); [lia|].
      rewrite removelast_last. reflexivity.
  - intros A B Epsilon n HA HB Heps Hn Hmax Hap. cbn [Learn_Pixels].
    rewrite scaled_learns by (assumption || lia).
    rewrite scaled_learns by (assumption || lia).
    rewrite scaled_learns by (assumption || lia).
    replace (n + 1 + 1 + 1) with (n + 3) by lia.
    unfold Learn_Pixel. cbn [Ratio_Match_Pixel].
    rewrite cell_close_cube, scaled_apart; try assumption; try lia.
    2:{ apply scaled_ok; [assumption|lia|lia]. }
    unfold Add_Cell. cbn [Last_Cell scaled Count].
    destruct (Z.leb_spec 3 (n + 3)); [|lia].
    destruct (Allocate_Cell FreeCells). reflexivity.
Qed.

Lemma Add_Cell_appends_or_recycles_witness :
  (exists (init : list Cell) (tail : Cell),
     [mkCell 40 40 40 4; mkCell 7 8 9 1] = init ++ [tail] /\
     (2 <= Count tail ->
      Add_Cell (Utils.mkPixel 1 2 3) [mkCell 40 40 40 4; mkCell 7 8 9 1] 2 [] =
        Some (init ++ [tail; mkCell 1 2 3 1],
              snd (Allocate_Cell []))) /\
     (Count tail < 2 ->
      Add_Cell (Utils.mkPixel 1 2 3) [mkCell 40 40 40 4; mkCell 7 8 9 1] 2 [] =
        Some (init ++ [mkCell 1 2 3 1], []))) /\
  Learn_Pixels 33 3
    [Utils.mkPixel 10 20 30; Utils.mkPixel 10 20 30; Utils.mkPixel 10 20 30;
     Utils.mkPixel 200 20 30]
    [scaled 1 (Utils.mkPixel 10 20 30)] [] =
  Some ([scaled 4 (Utils.mkPixel 10 20 30); mkCell 200 20 30 1],
        snd (Allocate_Cell [])).
Proof.
  destruct (Add_Cell_appends_or_recycles (Utils.mkPixel 1 2 3)
              [mkCell 40 40 40 4; mkCell 7 8 9 1] 2 [] ltac:(discriminate))
    as [Hgen Hscn].
  split; [exact Hgen|].
  apply (Hscn (Utils.mkPixel 10 20 30) (Utils.mkPixel 200 20 30) 33 1);
    unfold Utils.Pixel_ok, Utils.byte_ok, apart, Int.max_int; simpl; lia.
Defined.

Lemma Process_Pixel_FG_step (Epsilon Cth : Z) (w w' : World) (i : nat) :
  Process_Pixel_FG Epsilon Cth w i = Some w' ->
  (forall j : nat, j <> i ->
     wFrm w' !! j = wFrm w !! j /\ wBGM w' !! j = wBGM w !! j) /\
  (exists (P : Utils.Pixel) (set : list Cell),
     wFrm w !! i = Some P /\ wBGM w !! i = Some set /\
     FG_outcome Epsilon Cth P set (wFrm w' !! i) (wBGM w' !! i)).
Proof.
  unfold Process_Pixel_FG, FG_outcome.
  destruct (wFrm w !! i) as [P|] eqn:HP; [|discriminate].
  destruct (wBGM w !! i) as [set|] eqn:Hset; [|discriminate].
  pose proof (lookup_lt_Some _ _ _ HP) as HiF.
  pose proof (lookup_lt_Some _ _ _ Hset) as HiB.
  destruct (Ratio_Match_Pixel P set Epsilon) as [[[k|] set']|] eqn:HM;
    [| |discriminate].
  - destruct (set' !! k) as [Result|] eqn:HR; [|discriminate].
    intros [= <-]. cbn [wFrm wBGM]. split.
    + intros j Hj. rewrite list_lookup_insert_ne by congruence.
      destruct (Cth <=? Count Result);
        [rewrite list_lookup_insert_ne by congruence|]; auto.
    + exists P, set. rewrite HM. repeat split.
      * apply list_lookup_insert_eq, HiB.
      * exists Result. split; [exact HR|].
        destruct (Cth <=? Count Result);
          [apply list_lookup_insert_eq, HiF|exact HP].
  - destruct (Add_Cell P set Cth (wFree w)) as [[set1 F1]|] eqn:HA; [|discriminate].
    intros [= <-]. cbn [wFrm wBGM]. split.
    + intros j Hj. rewrite list_lookup_insert_ne by congruence. auto.
    + exists P, set. rewrite HM. repeat split; [exact HP|].
      exists set1, (wFree w), F1. split; [exact HA|].
      apply list_lookup_insert_eq, HiB.
Qed.

Lemma for_each_FG (Epsilon Cth : Z) (m : nat) :
  forall (a : nat) (w w' : World),
  for_each (Process_Pixel_FG Epsilon Cth) (seq a m) w = Some w' ->
  (forall j : nat, (j < a \/ a + m <= j)%nat ->
     wFrm w' !! j = wFrm w !! j /\ wBGM w' !! j = wBGM w !! j) /\
  (forall i : nat, (a <= i < a + m)%nat ->
     exists (P : Utils.Pixel) (set : list Cell),
       wFrm w !! i = Some P /\ wBGM w !! i = Some set /\
       FG_outcome Epsilon Cth P set (wFrm w' !! i) (wBGM w' !! i)).
Proof.
  induction m as [|m IH]; intros a w w' Hrun.
  - cbn in Hrun. injection Hrun as <-. split; [auto|]. intros i Hi. lia.
  - cbn [seq for_each] in Hrun.
    destruct (Process_Pixel_FG Epsilon Cth w a) as [w1|] eqn:Hstep; [|discriminate].
    apply Process_Pixel_FG_step in Hstep as [Hother (P & set & HP & Hset & Hout)].
    apply IH in Hrun as [Hrest Hdone]. split.
    + intros j Hj. destruct (Hrest j ltac:(lia)) as [-> ->].
      apply Hother. lia.
    + intros i Hi. destruct (Nat.eq_dec i a) as [->|Hne].
      * exists P, set. destruct (Hrest a ltac:(lia)) as [-> ->]. auto.
      * destruct (Hdone i ltac:(lia)) as (P' & set' & HP' & Hset' & Hout').
        destruct (Hother i Hne) as [HF HB]. rewrite HF in HP'. rewrite HB in Hset'.
        exists P', set'. auto.
Qed.

(** [Ratio_Match_Pixel] is defined on a set whose counts are positive, and
    the cell it returns is a cell of the set. *)
Lemma Ratio_Match_Pixel_defined (P : Utils.Pixel) (Cells : list Cell)
    (Epsilon : Z) :
  Forall (fun c => 0 < Count c) Cells ->
  exists (r : option nat) (Cells' : list Cell),
    Ratio_Match_Pixel P Cells Epsilon = Some (r, Cells') /\
    forall k : nat, r = Some k -> is_Some (Cells' !! k).
Proof.
  induction 1 as [|c rest Hc _ IH].
  - exists None, []. split; [reflexivity|]. intros k [=].
  - destruct IH as (r & rest' & Hrun & Hk). cbn [Ratio_Match_Pixel].
    assert (Hdiv : forall sum, Int.div sum (Count c) = Some (sum ÷ Count c)).
    { intros sum. unfold Int.div.
      destruct (Z.eqb_spec (Count c) 0) as [|_]; [lia|].
      destruct (Z.eqb_spec (Count c) (-1)) as [|_]; [lia|].
      rewrite andb_false_r. reflexivity. }
    assert (Hclose : exists b, cell_close P c Epsilon = Some b).
    { unfold cell_close, channel_close. rewrite !Hdiv.
      repeat match goal with |- context [if ?b then _ else _] => destruct b end;
        eauto. }
    destruct Hclose as [[|] ->].
    + eexists (Some 0%nat), _. split; [reflexivity|].
      intros k [= <-]. eexists. reflexivity.
    + rewrite Hrun. eexists (S <$> r), _. split; [reflexivity|].
      intros k Hr. destruct r as [k'|]; [|discriminate].
      injection Hr as <-. exact (Hk k' eq_refl).
Qed.

(** [Process_Frame_FG] is defined on a frame and a model that both hold the
    [Width * Height] positions, when every set of the model is non-empty and
    holds positive counts. *)
Lemma for_each_FG_defined (Epsilon Cth : Z) (m : nat) :
  forall (a : nat) (w : World),
  (forall i : nat, (a <= i < a + m)%nat ->
     is_Some (wFrm w !! i) /\
     exists set : list Cell,
       wBGM w !! i = Some set /\ set <> [] /\
       Forall (fun c => 0 < Count c) set) ->
  is_Some (for_each (Process_Pixel_FG Epsilon Cth) (seq a m) w).
Proof.
  induction m as [|m IH]; intros a w Hw.
  - eexists. reflexivity.
  - cbn [seq for_each].
    destruct (Hw a ltac:(lia)) as ([P HP] & set & Hset & Hne & Hpos).
    assert (Hstep : is_Some (Process_Pixel_FG Epsilon Cth w a)).
    { unfold Process_Pixel_FG. rewrite HP, Hset.
      destruct (Ratio_Match_Pixel_defined P set Epsilon Hpos)
        as (r & set' & -> & Hk).
      destruct r as [k|].
      - destruct (Hk k eq_refl) as [Result ->]. eexists. reflexivity.
      - unfold Add_Cell.
        destruct (Last_Cell set) as [LastCell|] eqn:HL.
        + destruct (Cth <=? Count LastCell);
            [destruct (Allocate_Cell (wFree w))|]; eexists; reflexivity.
        + exfalso. clear -Hne HL. induction set as [|c [|c' rest] IHs];
            [congruence|discriminate|]. apply IHs; [discriminate|exact HL]. }
    destruct Hstep as [w1 Hstep]. rewrite Hstep.
    apply IH. intros i Hi.
    destruct (Process_Pixel_FG_step _ _ _ _ _ Hstep) as [Hother _].
    destruct (Hother i ltac:(lia)) as [-> ->]. apply Hw. lia.
Qed.

Lemma Process_Frame_FG_defined (BGM : list (list Cell)) (FB : Utils.FrmBuf)
    (Epsilon Cth : Z) (FreeCells : list Cell) :
  let n := Z.to_nat (Int.mul (Utils.Width FB) (Utils.Height FB)) in
  (n <= length (Utils.Frm FB))%nat -> (n <= length BGM)%nat ->
  Forall (fun set => set <> [] /\ Forall (fun c => 0 < Count c) set) BGM ->
  is_Some (Process_Frame_FG BGM FB Epsilon Cth FreeCells).
Proof.
  intros n HF HB Hsets. unfold Process_Frame_FG. fold n.
  apply for_each_FG_defined. cbn [wFrm wBGM]. intros i Hi. split.
  - apply lookup_lt_is_Some_2. lia.
  - destruct (lookup_lt_is_Some_2 BGM i ltac:(lia)) as [set Hset].
    exists set. split; [exact Hset|].
    exact (proj1 (Forall_lookup _ _) Hsets i set Hset).
Qed.

(** C9, as the code has it: for every pixel of a frame that
    [Process_Frame_FG] processes, when the pixel matches a cell of its slot's
    set the set takes the assimilated cell, and the pixel is zeroed when that
    cell's [Count], after the assimilation, is at least [Cth] and is left
    unchanged when it is still below [Cth]; when the pixel matches no cell it
    is left unchanged and the slot's set becomes the result of [Add_Cell]. *)
Theorem Process_Frame_FG_per_pixel (BGM : list (list Cell)) (FB : Utils.FrmBuf)
    (Epsilon Cth : Z) (FreeCells : list Cell) (w' : World)
    (i : nat) (P : Utils.Pixel) (set : list Cell) :
  Process_Frame_FG BGM FB Epsilon Cth FreeCells = Some w' ->
  (i < Z.to_nat (Int.mul (Utils.Width FB) (Utils.Height FB)))%nat ->
  Utils.Frm FB !! i = Some P ->
  BGM !! i = Some set ->
  match Ratio_Match_Pixel P set Epsilon with
  | None => False
  | Some (Some k, set') =>
      wBGM w' !! i = Some set' /\
      exists Result : Cell,
        set' !! k = Some Result /\
        wFrm w' !! i = Some (if Cth <=? Count Result then Utils.black else P)
  | Some (None, _) =>
      wFrm w' !! i = Some P /\
      exists (set' FreeCells1 FreeCells2 : list Cell),
        Add_Cell P set Cth FreeCells1 = Some (set', FreeCells2) /\
        wBGM w' !! i = Some set'
  end.
Proof.
  unfold Process_Frame_FG. intros Hrun Hi HP Hset.
  apply for_each_FG in Hrun as [_ Hdone].
  destruct (Hdone i ltac:(lia)) as (P' & set' & HP' & Hset' & Hout).
  cbn [wFrm wBGM] in HP', Hset'.
  rewrite HP in HP'. rewrite Hset in Hset'.
  injection HP' as <-. injection Hset' as <-. exact Hout.
Qed.

Lemma Process_Frame_FG_per_pixel_witness :
  wBGM (mkWorld [[mkCell 40 80 120 4]; [mkCell 10 10 10 1; seed (Utils.mkPixel 90 90 90)]]
          [Utils.black; Utils.mkPixel 90 90 90] []) !! 0%nat =
    Some [mkCell 40 80 120 4] /\
  exists Result : Cell,
    [mkCell 40 80 120 4] !! 0%nat = Some Result /\
    wFrm (mkWorld [[mkCell 40 80 120 4]; [mkCell 10 10 10 1; seed (Utils.mkPixel 90 90 90)]]
            [Utils.black; Utils.mkPixel 90 90 90] []) !! 0%nat =
      Some (if 4 <=? Count Result then Utils.black else Utils.mkPixel 10 20 30).
Proof.
  exact (Process_Frame_FG_per_pixel
    [[mkCell 30 60 90 3]; [mkCell 10 10 10 1; mkCell 200 200 200 1]]
    (Utils.mkFrmBuf [Utils.mkPixel 10 20 30; Utils.mkPixel 90 90 90] 1 2)
    33 4 [] _ 0%nat (Utils.mkPixel 10 20 30) [mkCell 30 60 90 3]
    eq_refl ltac:(vm_compute; lia) eq_refl eq_refl).
Defined.

(** C9, as the claim has it, fails: with [Cth = 4] a pixel that matches a
    cell holding a single observation is assimilated ([Count] becomes 2) but
    stays in the frame. *)
Lemma Process_Frame_FG_match_not_zeroed :
  Ratio_Match_Pixel (Utils.mkPixel 10 20 30) [mkCell 10 20 30 1] 33 =
    Some (Some 0%nat, [mkCell 20 40 60 2]) /\
  Process_Frame_FG [[mkCell 10 20 30 1]]
    (Utils.mkFrmBuf [Utils.mkPixel 10 20 30] 1 1) 33 4 [] =
    Some (mkWorld [[mkCell 20 40 60 2]] [Utils.mkPixel 10 20 30] []) /\
  Utils.mkPixel 10 20 30 <> Utils.black.
Proof. split; [reflexivity|]. split; [reflexivity|discriminate]. Qed.

End MMMFacts.

(** ** The density scan and the blob finders *)

Module RollersFacts.

Import Rollers.

Example Horizontal_Image_Density_rows :
  Horizontal_Image_Density
    (Utils.mkFrmBuf (replicate 6 white ++ replicate 6 Utils.black ++
                     [white; Utils.black; white; white; Utils.black; white]) 3 6)
    (replicate 18 7) 2 =
  Some [2; 2; 2; 2; 2; 1;  0; 0; 0; 0; 0; 0;  1; 1; 2; 1; 1; 1].
Proof. reflexivity. Qed.

(** **** One row of the scan *)

Lemma write_in_range (m : list Z) (p : nat) (idx v : Z) :
  idx = Z.of_nat p -> (p < length m)%nat -> write m idx v = Some (<[p := v]> m).
Proof.
  intros -> Hp. unfold write.
  destruct (Z.leb_spec 0 (Z.of_nat p)); [|lia].
  destruct (Z.ltb_spec (Z.of_nat p) (Z.of_nat (length m))); [|lia].
  rewrite Nat2Z.id. reflexivity.
Qed.

(** The write-out loop started at [J = a] writes, for each [j < k], the sum
    after [j + 1] shifts at position [base + j], and nothing else. *)
Lemma drain_spec (I WheelOff : Z) (k : nat) :
  forall (a base : nat) (r : Roller),
  I - WheelOff + Z.of_nat a = Z.of_nat base ->
  (base + k <= length (Map r))%nat ->
  exists m' : list Z,
    drain (seq a k) I WheelOff r =
      Some (mkRoller (fst (shifts k (Sum r) (Wheel r)))
                     (snd (shifts k (Sum r) (Wheel r))) m') /\
    length m' = length (Map r) /\
    (forall j : nat, (j < k)%nat ->
       m' !! (base + j)%nat = Some (fst (shifts (S j) (Sum r) (Wheel r)))) /\
    (forall p : nat, (p < base \/ base + k <= p)%nat -> m' !! p = Map r !! p).
Proof.
  induction k as [|k IH]; intros a base r Hbase Hlen.
  - exists (Map r). destruct r. cbn. repeat split; auto. intros j Hj. lia.
  - cbn [seq drain]. unfold shift_out at 1 2 3 4. cbn [Sum Wheel Map].
    rewrite (write_in_range _ base) by (assumption || lia).
    destruct (IH (S a) (S base)
                (mkRoller (Int.sub (Sum r) (Z.land (Wheel r) 1))
                          (Int.shr1 (Wheel r))
                          (<[base := Int.sub (Sum r) (Z.land (Wheel r) 1)]> (Map r))))
      as (m' & Hrun & Hlen' & Hin & Hout).
    { lia. }
    { cbn [Map]. rewrite length_insert. lia. }
    cbn [Sum Wheel Map] in *. exists m'. split; [exact Hrun|].
    rewrite length_insert in Hlen'. split; [exact Hlen'|]. split.
    + intros [|j] Hj.
      * rewrite Nat.add_0_r, Hout by lia.
        apply list_lookup_insert_eq. lia.
      * replace (base + S j)%nat with (S base + j)%nat by lia.
        apply Hin. lia.
    + intros p Hp. rewrite Hout by lia.
      apply list_lookup_insert_ne. lia.
Qed.

Lemma small_In (z : Z) : 0 <= z <= 31 -> In z small.
Proof.
  intros Hz. unfold small. rewrite <- (Z2Nat.id z) by lia.
  apply in_map, in_seq. lia.
Qed.

Lemma wheel_table :
  forallb (fun WheelSize =>
    forallb (fun k => implb ((1 <=? WheelSize) && (k <=? WheelSize))
                            (check_wheel WheelSize k)) small) small = true.
Proof. vm_compute. reflexivity. Qed.

Lemma wheel_facts (WheelSize k : Z) :
  1 <= WheelSize <= 31 -> 0 <= k <= WheelSize ->
  Int.add (Int.sub k (Z.land (ones_left WheelSize k) 1)) 1
    = Z.min (k + 1) WheelSize /\
  Z.lor (Int.shr1 (ones_left WheelSize k)) (2 ^ (WheelSize - 1))
    = ones_left WheelSize (Z.min (k + 1) WheelSize) /\
  fst (shifts (Z.to_nat k) WheelSize (ones_left WheelSize WheelSize))
    = WheelSize - k /\
  Int.shl1 (Int.sub WheelSize 1) = Some (2 ^ (WheelSize - 1)).
Proof.
  intros HW Hk. pose proof wheel_table as Ht.
  assert (HinW : In WheelSize small) by (apply small_In; lia).
  assert (Hink : In k small) by (apply small_In; lia).
  rewrite forallb_forall in Ht. specialize (Ht WheelSize HinW).
  rewrite forallb_forall in Ht. specialize (Ht k Hink).
  destruct (Z.leb_spec 1 WheelSize); [|lia].
  destruct (Z.leb_spec k WheelSize); [|lia].
  cbn [andb implb] in Ht. unfold check_wheel in Ht.
  apply andb_prop in Ht as [Ht H4]. apply andb_prop in Ht as [Ht H3].
  apply andb_prop in Ht as [H1 H2].
  destruct (Int.shl1 (Int.sub WheelSize 1)) as [Edge|]; [|discriminate].
  apply Z.eqb_eq in H1, H2, H3, H4. subst Edge. auto.
Qed.

Lemma rem_row (L y x : nat) :
  (x < L)%nat -> Int.rem (Z.of_nat (y * L + x)) (Z.of_nat L) = Some (Z.of_nat x).
Proof.
  intros Hx. unfold Int.rem.
  destruct (Z.eqb_spec (Z.of_nat L) 0); [lia|].
  destruct (Z.eqb_spec (Z.of_nat (y * L + x)) Int.min_int) as [Hm|_];
    [unfold Int.min_int in Hm; lia|].
  cbn [andb]. f_equal. rewrite Z.rem_mod_nonneg by lia.
  rewrite Nat2Z.inj_add, Nat2Z.inj_mul, Z.add_comm, Z.mod_add by lia.
  apply Z.mod_small. lia.
Qed.

Section Frame.

Local Set Default Proof Using "All".

Variables (Frm : list Utils.Pixel) (L H : nat) (WheelSize : Z).

Hypothesis HW : 1 <= WheelSize <= 31.

Hypothesis HWL : WheelSize < Z.of_nat L.

Hypothesis Hfit : Z.of_nat (L * H) <= Int.max_int.

Hypothesis HFrm : length Frm = (L * H)%nat.

Local Abbreviation FB := (Utils.mkFrmBuf Frm (Z.of_nat H) (Z.of_nat L)).

Local Abbreviation Edge := (2 ^ (WheelSize - 1)).

Local Abbreviation WheelOff := (WheelSize / 2).

Local Abbreviation off := (Z.to_nat (WheelSize / 2)).

Lemma off_bounds : Z.of_nat off = WheelOff /\ (2 * off <= Z.to_nat WheelSize)%nat /\ (off < L)%nat.
Proof.
  pose proof (Z.div_pos WheelSize 2 ltac:(lia) ltac:(lia)).
  pose proof (Z.mul_div_le WheelSize 2 ltac:(lia)).
  repeat split; lia.
Qed.

Lemma pixel_exists (y x : nat) :
  (y < H)%nat -> (x < L)%nat -> exists P, Frm !! (y * L + x)%nat = Some P.
Proof.
  intros Hy Hx. apply lookup_lt_is_Some_2. rewrite HFrm. nia.
Qed.

(** A pixel that is not the last of its row. *)
Lemma roll_inner (r : Roller) (y x : nat) (P : Utils.Pixel) :
  (y < H)%nat -> (S x < L)%nat -> length (Map r) = (L * H)%nat ->
  Frm !! (y * L + x)%nat = Some P ->
  roll FB Edge WheelOff r (y * L + x) =
  Some (mkRoller (fst (advance Edge P (Sum r) (Wheel r)))
                 (snd (advance Edge P (Sum r) (Wheel r)))
                 (if (off <=? x)%nat
                  then <[(y * L + x - off)%nat :=
                           fst (advance Edge P (Sum r) (Wheel r))]> (Map r)
                  else Map r)).
Proof.
  intros Hy Hx Hlen HP. destruct off_bounds as (Hoff & _ & HoffL).
  unfold roll. cbn [Utils.Frm Utils.Width]. rewrite HP.
  rewrite rem_row by lia.
  assert (Hsub : Int.sub (Z.of_nat L) 1 = Z.of_nat L - 1).
  { apply IntFacts.wrap_small. unfold Int.in_range, Int.min_int, Int.max_int in *. nia. }
  rewrite Hsub. destruct (Z.eqb_spec (Z.of_nat x) (Z.of_nat L - 1)); [lia|].
  unfold advance, shift_out. cbn [Sum Wheel Map].
  destruct (nonblack P); cbn [Sum Wheel Map fst snd].
  all: destruct (Z.leb_spec WheelOff (Z.of_nat x)), (Nat.leb_spec off x); try lia.
  all: try reflexivity.
  all: rewrite (write_in_range _ (y * L + x - off)) by (rewrite ?Hlen; nia).
  all: reflexivity.
Qed.

(** The last pixel of a row: the write-out loop, then the reset. *)
Lemma roll_last (r : Roller) (y : nat) (P : Utils.Pixel) :
  (y < H)%nat -> length (Map r) = (L * H)%nat ->
  Frm !! (y * L + (L - 1))%nat = Some P ->
  let s := fst (advance Edge P (Sum r) (Wheel r)) in
  let w := snd (advance Edge P (Sum r) (Wheel r)) in
  exists m' : list Z,
    roll FB Edge WheelOff r (y * L + (L - 1)) = Some (mkRoller 0 0 m') /\
    length m' = (L * H)%nat /\
    m' !! (y * L + (L - 1) - off)%nat = Some s /\
    (forall j : nat, (j < off)%nat ->
       m' !! (y * L + (L - off) + j)%nat = Some (fst (shifts (S j) s w))) /\
    (forall p : nat, (p < y * L + (L - 1) - off \/ y * L + L <= p)%nat ->
       m' !! p = Map r !! p).
Proof.
  intros Hy Hlen HP s w. destruct off_bounds as (Hoff & _ & HoffL).
  unfold roll. cbn [Utils.Frm Utils.Width]. rewrite HP.
  rewrite rem_row by lia.
  assert (Hsub : Int.sub (Z.of_nat L) 1 = Z.of_nat L - 1).
  { apply IntFacts.wrap_small. unfold Int.in_range, Int.min_int, Int.max_int in *. nia. }
  rewrite Hsub. destruct (Z.eqb_spec (Z.of_nat (L - 1)) (Z.of_nat L - 1)); [|lia].
  destruct (Z.leb_spec WheelOff (Z.of_nat (L - 1))); [|lia].
  set (r1 := if nonblack P then _ else _).
  assert (Hr1 : r1 = mkRoller s w (Map r)).
  { subst r1 s w. unfold advance, shift_out. destruct (nonblack P); reflexivity. }
  rewrite Hr1. cbn [Sum Wheel Map].
  rewrite (write_in_range _ (y * L + (L - 1) - off)) by (rewrite ?Hlen; nia).
  destruct (drain_spec (Z.of_nat (y * L + (L - 1))) WheelOff off 1
              (y * L + (L - off))
              (mkRoller s w (<[(y * L + (L - 1) - off)%nat := s]> (Map r))))
    as (m' & Hrun & Hlen' & Hin & Hout).
  { lia. }
  { cbn [Map]. rewrite length_insert, Hlen. nia. }
  cbn [Sum Wheel Map] in *. rewrite Hrun. cbn [Map].
  rewrite length_insert in Hlen'.
  exists m'. split; [reflexivity|]. split; [lia|]. split; [|split].
  - rewrite Hout by lia. apply list_lookup_insert_eq. rewrite Hlen. nia.
  - exact Hin.
  - intros p Hp. rewrite Hout by lia. apply list_lookup_insert_ne. lia.
Qed.

(** Whatever a row holds, the pixels before its last one touch the map only
    inside the row. *)
Lemma inner_any (y k : nat) :
  forall (x : nat) (r : Roller),
  (y < H)%nat -> (x + k < L)%nat -> length (Map r) = (L * H)%nat ->
  exists r' : Roller,
    for_each (roll FB Edge WheelOff) (seq (y * L + x) k) r = Some r' /\
    length (Map r') = (L * H)%nat /\
    (forall p : nat, (p < y * L \/ y * L + L <= p)%nat ->
       Map r' !! p = Map r !! p).
Proof.
  induction k as [|k IH]; intros x r Hy Hx Hlen.
  - exists r. cbn. auto.
  - destruct (pixel_exists y x Hy ltac:(lia)) as [P HP].
    cbn [seq for_each]. rewrite (roll_inner r y x P) by (assumption || lia).
    replace (S (y * L + x)) with (y * L + S x)%nat by lia.
    edestruct (IH (S x)) as (r' & Hrun & Hlen' & Hout); [exact Hy|lia| |].
    2:{ exists r'. split; [exact Hrun|]. split; [exact Hlen'|].
        intros p Hp. rewrite Hout by exact Hp. cbn [Map].
        destruct (Nat.leb_spec off x); [|reflexivity].
        apply list_lookup_insert_ne. lia. }
    cbn [Map]. destruct (off <=? x)%nat; [rewrite length_insert|]; exact Hlen.
Qed.

Lemma seq_last (a n : nat) :
  (0 < n)%nat -> seq a n = seq a (n - 1) ++ [(a + (n - 1))%nat].
Proof.
  intros Hn. replace n with (S (n - 1)) at 1 by lia. apply seq_S.
Qed.

(** A whole row starts and ends with an empty wheel and writes only inside
    itself. *)
Lemma row_any (y : nat) (m : list Z) :
  (y < H)%nat -> length m = (L * H)%nat ->
  exists m' : list Z,
    for_each (roll FB Edge WheelOff) (seq (y * L) L) (mkRoller 0 0 m) =
      Some (mkRoller 0 0 m') /\
    length m' = (L * H)%nat /\
    (forall p : nat, (p < y * L \/ y * L + L <= p)%nat -> m' !! p = m !! p).
Proof.
  intros Hy Hlen. destruct off_bounds as (Hoff & _ & HoffL).
  rewrite seq_last, for_each_app by lia.
  destruct (inner_any y (L - 1)%nat 0%nat (mkRoller 0 0 m) Hy ltac:(lia) Hlen)
    as (r1 & Hrun & Hlen1 & Hout1).
  rewrite Nat.add_0_r in Hrun. rewrite Hrun. cbn [for_each].
  destruct (pixel_exists y (L - 1)%nat Hy ltac:(lia)) as [P HP].
  destruct (roll_last r1 y P Hy Hlen1 HP) as (m' & Hroll & Hlen' & _ & _ & Hout).
  rewrite Hroll. exists m'. split; [reflexivity|]. split; [exact Hlen'|].
  intros p Hp. rewrite Hout by lia. apply Hout1. exact Hp.
Qed.

(** Any number of consecutive rows. *)
Lemma rows_any (k : nat) :
  forall (y : nat) (m : list Z),
  (y + k <= H)%nat -> length m = (L * H)%nat ->
  exists m' : list Z,
    for_each (roll FB Edge WheelOff) (seq (y * L) (k * L)) (mkRoller 0 0 m) =
      Some (mkRoller 0 0 m') /\
    length m' = (L * H)%nat /\
    (forall p : nat, (p < y * L \/ (y + k) * L <= p)%nat -> m' !! p = m !! p).
Proof.
  induction k as [|k IH]; intros y m Hy Hlen.
  - exists m. cbn. auto.
  - replace (S k * L)%nat with (L + k * L)%nat by lia.
    rewrite seq_app, for_each_app.
    destruct (row_any y m ltac:(lia) Hlen) as (m1 & Hrun1 & Hlen1 & Hout1).
    rewrite Hrun1. replace (y * L + L)%nat with (S y * L)%nat by lia.
    destruct (IH (S y) m1 ltac:(lia) Hlen1) as (m' & Hrun & Hlen' & Hout).
    exists m'. split; [exact Hrun|]. split; [exact Hlen'|].
    intros p Hp. rewrite Hout by lia. apply Hout1. lia.
Qed.

(** **** A row without a black pixel *)

Variable y : nat.

Hypothesis Hy : (y < H)%nat.

Hypothesis Hrow : forall x : nat, (x < L)%nat ->
  exists P, Frm !! (y * L + x)%nat = Some P /\ nonblack P = true.

Lemma advance_nonblack (P : Utils.Pixel) (k : Z) :
  nonblack P = true -> 0 <= k <= WheelSize ->
  advance Edge P k (ones_left WheelSize k) =
  (Z.min (k + 1) WheelSize, ones_left WheelSize (Z.min (k + 1) WheelSize)).
Proof.
  intros HP Hk. unfold advance. rewrite HP.
  destruct (wheel_facts WheelSize k HW Hk) as (-> & -> & _). reflexivity.
Qed.

(** After [x] pixels of the row the sum is [min x WheelSize], and every
    position at least [WheelOff] behind the scan holds its final value. *)
Lemma inner_nonblack (x : nat) :
  forall m : list Z,
  (x < L)%nat -> length m = (L * H)%nat ->
  exists m' : list Z,
    for_each (roll FB Edge WheelOff) (seq (y * L) x) (mkRoller 0 0 m) =
      Some (mkRoller (Z.min (Z.of_nat x) WheelSize)
                     (ones_left WheelSize (Z.min (Z.of_nat x) WheelSize)) m') /\
    length m' = (L * H)%nat /\
    (forall p : nat, (p + off < x)%nat ->
       m' !! (y * L + p)%nat =
         Some (Z.min (Z.of_nat p + WheelOff + 1) WheelSize)) /\
    (forall p : nat, (p < y * L \/ y * L + L <= p)%nat -> m' !! p = m !! p).
Proof.
  destruct off_bounds as (Hoff & _ & HoffL).
  induction x as [|x IH]; intros m Hx Hlen.
  - exists m. cbn [seq for_each]. rewrite Z.min_l by lia.
    unfold ones_left. rewrite Z.sub_0_r, Z.sub_diag.
    split; [reflexivity|]. split; [exact Hlen|]. split; [|auto].
    intros p Hp. lia.
  - destruct (IH m ltac:(lia) Hlen) as (m1 & Hrun & Hlen1 & Hin & Hout).
    rewrite seq_S, for_each_app, Hrun. cbn [for_each].
    destruct (Hrow x ltac:(lia)) as (P & HP & Hnb).
    rewrite (roll_inner _ y x P) by (assumption || lia).
    cbn [Sum Wheel Map]. rewrite advance_nonblack by (assumption || lia).
    cbn [fst snd].
    replace (Z.min (Z.min (Z.of_nat x) WheelSize + 1) WheelSize)
      with (Z.min (Z.of_nat (S x)) WheelSize) by lia.
    eexists. split; [reflexivity|].
    destruct (Nat.leb_spec off x) as [Hle|Hgt].
    + rewrite length_insert. split; [exact Hlen1|]. split.
      * intros p Hp. destruct (Nat.eq_dec (p + off)%nat x) as [Heq|Hne].
        -- replace (y * L + x - off)%nat with (y * L + p)%nat by lia.
           rewrite list_lookup_insert_eq by (rewrite Hlen1; nia).
           f_equal. lia.
        -- rewrite list_lookup_insert_ne by lia. apply Hin. lia.
      * intros p Hp. rewrite list_lookup_insert_ne by lia. apply Hout, Hp.
    + split; [exact Hlen1|]. split; [|exact Hout].
      intros p Hp. lia.
Qed.

Lemma row_nonblack (m : list Z) :
  length m = (L * H)%nat ->
  exists m' : list Z,
    for_each (roll FB Edge WheelOff) (seq (y * L) L) (mkRoller 0 0 m) =
      Some (mkRoller 0 0 m') /\
    length m' = (L * H)%nat /\
    (forall x : nat, (x < L)%nat ->
       m' !! (y * L + x)%nat = Some (row_density L WheelSize x)) /\
    (forall p : nat, (p < y * L \/ y * L + L <= p)%nat -> m' !! p = m !! p).
Proof.
  intros Hlen. destruct off_bounds as (Hoff & Hoff2 & HoffL).
  rewrite seq_last, for_each_app by lia.
  destruct (inner_nonblack (L - 1)%nat m ltac:(lia) Hlen)
    as (m1 & Hrun & Hlen1 & Hin1 & Hout1).
  rewrite Hrun. cbn [for_each].
  destruct (Hrow (L - 1)%nat ltac:(lia)) as (P & HP & Hnb).
  match goal with
  | |- context [roll _ _ _ ?r _] =>
      destruct (roll_last r y P Hy Hlen1 HP)
        as (m' & Hroll & Hlen' & Hmid & Hend & Hout)
  end.
  cbn [Sum Wheel Map] in *. rewrite advance_nonblack in * by (assumption || lia).
  cbn [fst snd] in *.
  replace (Z.min (Z.min (Z.of_nat (L - 1)) WheelSize + 1) WheelSize)
    with WheelSize in * by lia.
  rewrite Hroll. exists m'. split; [reflexivity|]. split; [exact Hlen'|]. split.
  - intros x Hx. unfold row_density.
    destruct (Nat.lt_trichotomy (x + off)%nat (L - 1)%nat) as [Hlt|[Heq|Hgt]].
    + rewrite Hout by lia. rewrite Hin1 by lia. f_equal. lia.
    + replace (y * L + x)%nat with (y * L + (L - 1) - off)%nat by lia.
      rewrite Hmid. f_equal. lia.
    + replace (y * L + x)%nat with (y * L + (L - off) + (x - (L - off)))%nat by lia.
      rewrite Hend by lia. f_equal.
      destruct (wheel_facts WheelSize (Z.of_nat (S (x - (L - off)))) HW ltac:(lia))
        as (_ & _ & Hs & _).
      rewrite Nat2Z.id in Hs. rewrite Hs. lia.
  - intros p Hp. rewrite Hout by lia. apply Hout1, Hp.
Qed.

(** The whole frame: the rows before, the row itself, the rows after. *)
Lemma frame_nonblack (DensityMap : list Z) :
  length DensityMap = (L * H)%nat ->
  exists Map' : list Z,
    Horizontal_Image_Density FB DensityMap WheelSize = Some Map' /\
    length Map' = (L * H)%nat /\
    (forall x : nat, (x < L)%nat ->
       Map' !! (y * L + x)%nat = Some (row_density L WheelSize x)).
Proof.
  intros Hlen. unfold Horizontal_Image_Density.
  destruct (wheel_facts WheelSize 0 HW ltac:(lia)) as (_ & _ & _ & ->).
  rewrite IntFacts.shr1_div2. cbn [Utils.Width Utils.Height].
  assert (Hn : Z.to_nat (Int.mul (Z.of_nat L) (Z.of_nat H)) = (L * H)%nat).
  { unfold Int.mul. rewrite IntFacts.wrap_small; [lia|].
    unfold Int.in_range, Int.min_int, Int.max_int in *. lia. }
  rewrite Hn.
  assert (Hsplit : seq 0 (L * H) =
            seq 0 (y * L) ++ seq (y * L) L ++ seq (S y * L) ((H - S y) * L)).
  { replace (S y * L)%nat with (y * L + L)%nat by lia.
    rewrite <- !seq_app. f_equal. nia. }
  rewrite Hsplit, for_each_app.
  destruct (rows_any y 0%nat DensityMap ltac:(lia) Hlen) as (m1 & Hrun1 & Hlen1 & _).
  cbn [Nat.mul] in Hrun1. rewrite Hrun1, for_each_app.
  destruct (row_nonblack m1 Hlen1) as (m2 & Hrun2 & Hlen2 & Hin2 & _).
  rewrite Hrun2.
  destruct (rows_any (H - S y)%nat (S y) m2 ltac:(lia) Hlen2) as (m3 & Hrun3 & Hlen3 & Hout3).
  rewrite Hrun3.
  exists m3. cbn [fmap option_fmap option_map Map].
  split; [reflexivity|]. split; [exact Hlen3|].
  intros x Hx. rewrite Hout3 by lia. apply Hin2, Hx.
Qed.

End Frame.

(** C8, as the code has it: in a frame of width [L], for an even
    [WheelSize] from 2 to 30 (the wheel is an int) smaller than [L], every row
    without a black pixel gets, whatever the other rows hold, [WheelSize] at
    the positions [WheelSize/2 - 1 .. L - WheelSize/2 - 1]; before them the
    density rises by one per position from [WheelSize/2 + 1] at position 0,
    and after them it falls by one per position down to [WheelSize/2] at
    position [L - 1]. *)
Theorem Horizontal_Image_Density_nonblack_row (Frm : list Utils.Pixel)
    (L H : nat) (DensityMap : list Z) (WheelSize : Z) (y : nat) :
  Z.even WheelSize = true ->
  2 <= WheelSize <= 30 ->
  WheelSize < Z.of_nat L ->
  Z.of_nat (L * H) <= Int.max_int ->
  length Frm = (L * H)%nat ->
  length DensityMap = (L * H)%nat ->
  (y < H)%nat ->
  (forall x : nat, (x < L)%nat ->
     exists P, Frm !! (y * L + x)%nat = Some P /\ nonblack P = true) ->
  exists Map' : list Z,
    Horizontal_Image_Density (Utils.mkFrmBuf Frm (Z.of_nat H) (Z.of_nat L))
      DensityMap WheelSize = Some Map' /\
    forall x : nat, (x < L)%nat ->
      Map' !! (y * L + x)%nat =
      Some (if Z.of_nat x <? WheelSize / 2 - 1
            then Z.of_nat x + WheelSize / 2 + 1
            else if Z.of_nat x <=? Z.of_nat L - WheelSize / 2 - 1
                 then WheelSize
                 else Z.of_nat L - 1 - Z.of_nat x + WheelSize / 2).
Proof.
  intros Heven HW HWL Hfit HFrm Hmap Hy Hrow.
  destruct (frame_nonblack Frm L H WheelSize ltac:(lia) HWL Hfit HFrm y Hy Hrow
              DensityMap Hmap) as (Map' & Hrun & _ & Hval).
  exists Map'. split; [exact Hrun|]. intros x Hx. rewrite (Hval x Hx). f_equal.
  unfold row_density.
  apply Z.even_spec in Heven as [k Hk].
  assert (Hhalf : WheelSize / 2 = k)
    by (subst WheelSize; rewrite Z.mul_comm; apply Z.div_mul; lia).
  rewrite Hhalf.
  destruct (Z.ltb_spec (Z.of_nat x) (k - 1));
    [|destruct (Z.leb_spec (Z.of_nat x) (Z.of_nat L - k - 1))]; lia.
Qed.

Lemma Horizontal_Image_Density_nonblack_row_witness :
  exists Map' : list Z,
    Horizontal_Image_Density
      (Utils.mkFrmBuf (replicate 8 Utils.black ++ replicate 8 white)
         (Z.of_nat 2) (Z.of_nat 8))
      (replicate 16 0) 4 = Some Map' /\
    forall x : nat, (x < 8)%nat ->
      Map' !! (1 * 8 + x)%nat =
      Some (if Z.of_nat x <? 4 / 2 - 1
            then Z.of_nat x + 4 / 2 + 1
            else if Z.of_nat x <=? Z.of_nat 8 - 4 / 2 - 1
                 then 4
                 else Z.of_nat 8 - 1 - Z.of_nat x + 4 / 2).
Proof.
  apply (Horizontal_Image_Density_nonblack_row
           (replicate 8 Utils.black ++ replicate 8 white) 8 2
           (replicate 16 0) 4 1).
  - reflexivity.
  - lia.
  - simpl; lia.
  - unfold Int.max_int; simpl; lia.
  - reflexivity.
  - reflexivity.
  - lia.
  - intros x Hx. exists white. split; [|reflexivity].
    do 8 (destruct x as [|x]; [reflexivity|]). lia.
Defined.

(** C8, as the claim has it, fails: on a row of 8 non-black pixels with
    [WheelSize = 4] the edges are [3] on the left and [3; 2] on the right,
    neither a ramp from 1 nor symmetric; and an even [WheelSize] beyond the
    width of an int, here 34 on a row of 40 pixels, shifts by an undefined
    amount. *)
Lemma Horizontal_Image_Density_edges :
  Horizontal_Image_Density (Utils.mkFrmBuf (replicate 8 white) 1 8)
    (replicate 8 0) 4 = Some [3; 4; 4; 4; 4; 4; 3; 2] /\
  Horizontal_Image_Density (Utils.mkFrmBuf (replicate 40 white) 1 40)
    (replicate 40 0) 34 = None.
Proof. split; reflexivity. Qed.

Example Blob_Finder_row :
  blobs_of (Blob_Finder [5; 5; 5; 5] 4 1 3 empty_store) =
  Some [mkBlob 1 6 0 0 0 3 0 4 0 0 (-1) None].
Proof. reflexivity. Qed.

Example Blob_Finder_two_rectangles :
  blobs_of (Blob_Finder [9; 9; 0; 0; 0;
                         9; 9; 0; 9; 9;
                         0; 0; 0; 9; 9] 5 3 3 empty_store) =
  Some [mkBlob 1 14 6 3 1 4 2 4 3 1 (-1) None;
        mkBlob 2 2 2 0 0 1 1 4 0 0 (-1) None].
Proof. reflexivity. Qed.

Example Blob_Finder_merge :
  blobs_of (Blob_Finder [1; 0; 1;
                         1; 1; 1] 3 2 1 empty_store) =
  Some [mkBlob 1 5 3 0 0 2 1 5 0 0 (-1) None].
Proof. reflexivity. Qed.

Lemma link_Some (h : list Blob) (b : addr) (B : Blob) :
  h !! b = Some B -> link h b = Some (FP B, Expire B).
Proof. unfold link. intros ->. reflexivity. Qed.

Lemma link_inv (h h' : list Blob) (b : addr) (B : Blob) :
  link h b = link h' b -> h !! b = Some B ->
  exists B', h' !! b = Some B' /\ FP B' = FP B /\ Expire B' = Expire B.
Proof.
  unfold link. intros Hl HB. rewrite HB in Hl. cbn in Hl.
  destruct (h' !! b) as [B'|]; [|discriminate].
  cbn in Hl. injection Hl as HF HE. eauto.
Qed.

Lemma Reduce_FP_mono (h : list Blob) (n m : nat) (b r : addr) :
  Reduce_FP n h b = Some r -> (n <= m)%nat -> Reduce_FP m h b = Some r.
Proof.
  revert m b. induction n as [|n IH]; intros m b Hr Hle; [discriminate|].
  destruct m as [|m]; [lia|]. cbn [Reduce_FP] in *.
  destruct (h !! b) as [B|]; [|discriminate].
  destruct (FP B); [|exact Hr]. apply IH; [exact Hr|lia].
Qed.

Lemma Reduce_FP_root (h : list Blob) (n : nat) (b r : addr) :
  Reduce_FP n h b = Some r -> is_root h r.
Proof.
  revert b. induction n as [|n IH]; intros b Hr; [discriminate|].
  cbn [Reduce_FP] in Hr. destruct (h !! b) as [B|] eqn:HB; [|discriminate].
  destruct (FP B) eqn:HF; [eapply IH, Hr|].
  injection Hr as <-. exists B. auto.
Qed.

Lemma Reduce_FP_closed (h : list Blob) (L : list addr) (n : nat) (b r : addr) :
  closed h L -> b ∈ L -> Reduce_FP n h b = Some r -> r ∈ L.
Proof.
  intros Hc. revert b. induction n as [|n IH]; intros b Hb Hr; [discriminate|].
  cbn [Reduce_FP] in Hr. destruct (h !! b) as [B|] eqn:HB; [|discriminate].
  destruct (FP B) as [t|] eqn:HF.
  - apply (IH t); [eapply Hc; eassumption|exact Hr].
  - injection Hr as <-. exact Hb.
Qed.

(** Inside a closed set the reduction only reads the links of the set. *)
Lemma Reduce_FP_agree (h h' : list Blob) (L : list addr) (n : nat) (b : addr) :
  closed h L -> (forall a, a ∈ L -> link h a = link h' a) -> b ∈ L ->
  Reduce_FP n h' b = Reduce_FP n h b.
Proof.
  intros Hc Hl. revert b. induction n as [|n IH]; intros b Hb; [reflexivity|].
  cbn [Reduce_FP]. pose proof (Hl b Hb) as Hlb. unfold link in Hlb.
  destruct (h !! b) as [B|] eqn:HB, (h' !! b) as [B'|] eqn:HB';
    cbn in Hlb; try discriminate; [|reflexivity].
  injection Hlb as HF _. rewrite <- HF.
  destruct (FP B) as [t|] eqn:HFt; [|reflexivity].
  apply IH. eapply Hc; eassumption.
Qed.

(** Forwarding a root [c] to another root [r] lengthens a chain by at most
    one hop. *)
Lemma Reduce_FP_merge (h h' : list Blob) (c r : addr) (d : nat) :
  c <> r -> is_root h r ->
  (exists C', h' !! c = Some C' /\ FP C' = Some r) ->
  (forall a, a <> c -> FP <$> h' !! a = FP <$> h !! a) ->
  forall b x, Reduce_FP (S d) h b = Some x ->
  exists x', Reduce_FP (S (S d)) h' b = Some x'.
Proof.
  intros Hcr (R & HR & HRF) (C' & HC' & HCF) Hother.
  assert (Hr' : forall n, Reduce_FP (S n) h' r = Some r).
  { intros n. cbn [Reduce_FP]. pose proof (Hother r ltac:(congruence)) as Hl.
    rewrite HR in Hl. destruct (h' !! r) as [R'|]; [|discriminate].
    cbn in Hl. injection Hl as ->. rewrite HRF. reflexivity. }
  induction d as [|d IH]; intros b x Hx.
  - destruct (decide (b = c)) as [->|Hne].
    + exists r. cbn [Reduce_FP]. rewrite HC', HCF.
      pose proof (Hr' 0%nat) as H0. cbn [Reduce_FP] in H0. exact H0.
    + cbn [Reduce_FP] in Hx. pose proof (Hother b Hne) as Hl.
      destruct (h !! b) as [B|] eqn:HB; [|discriminate].
      destruct (h' !! b) as [B'|] eqn:HB'; [|discriminate].
      cbn in Hl. injection Hl as HF.
      destruct (FP B) eqn:HFB; [discriminate|].
      exists b. cbn [Reduce_FP]. rewrite HB', HF. reflexivity.
  - destruct (decide (b = c)) as [->|Hne].
    + exists r. change (Reduce_FP (S (S (S d))) h' c)
        with (match h' !! c with
              | Some B => match FP B with
                          | Some next => Reduce_FP (S (S d)) h' next
                          | None => Some c
                          end
              | None => None
              end).
      rewrite HC', HCF. apply Hr'.
    + change (Reduce_FP (S (S d)) h b)
        with (match h !! b with
              | Some B => match FP B with
                          | Some next => Reduce_FP (S d) h next
                          | None => Some b
                          end
              | None => None
              end) in Hx.
      pose proof (Hother b Hne) as Hl.
      destruct (h !! b) as [B|] eqn:HB; [|discriminate].
      destruct (h' !! b) as [B'|] eqn:HB'; [|discriminate].
      cbn in Hl. injection Hl as HF.
      change (Reduce_FP (S (S (S d))) h' b)
        with (match h' !! b with
              | Some B => match FP B with
                          | Some next => Reduce_FP (S (S d)) h' next
                          | None => Some b
                          end
              | None => None
              end).
      rewrite HB', HF.
      destruct (FP B) as [t|]; [apply (IH t x Hx)|eauto].
Qed.

Lemma shape_closed k h F L rb cbs : shape k h F L rb cbs -> closed h L.
Proof. intros Hs b B t Hb HB HF. eapply shape_fp; eassumption. Qed.

Lemma shape_lookup k h F L rb cbs b :
  shape k h F L rb cbs -> b ∈ L -> exists B, h !! b = Some B.
Proof.
  intros Hs Hb. apply lookup_lt_is_Some_2. eapply shape_valid; [exact Hs|].
  apply elem_of_app. left. exact Hb.
Qed.

(** An update that keeps every link keeps the invariants. *)
Lemma shape_relink k h h' F L rb cbs :
  shape k h F L rb cbs ->
  (forall a, link h a = link h' a) -> length h' = length h ->
  shape k h' F L rb cbs.
Proof.
  intros Hs Hl Hlen. constructor.
  - eapply shape_nodup, Hs.
  - intros b Hb. rewrite Hlen. eapply shape_valid; eassumption.
  - eapply shape_cols, Hs.
  - intros r Hr. destruct (shape_row _ _ _ _ _ _ Hs r Hr) as [Hin (R & HR & HF)].
    split; [exact Hin|].
    destruct (link_inv h h' r R (Hl r) HR) as (R' & HR' & HF' & _).
    exists R'. split; [exact HR'|congruence].
  - intros b B' t Hb HB' HF'.
    destruct (link_inv h' h b B' (eq_sym (Hl b)) HB') as (B & HB & HF & _).
    eapply shape_fp; [exact Hs|exact Hb|exact HB|congruence].
  - intros b Hb. destruct (shape_depth _ _ _ _ _ _ Hs b Hb) as (d & r & Hd & Hr).
    exists d, r. split; [exact Hd|].
    rewrite (Reduce_FP_agree h h' L); [exact Hr|eapply shape_closed, Hs| |exact Hb].
    intros a _. apply Hl.
Qed.

Lemma dated_relink Y X h h' L cbs :
  dated Y X h L cbs -> (forall a, link h a = link h' a) -> dated Y X h' L cbs.
Proof.
  intros Hd Hl.
  assert (Hback : forall b B', h' !! b = Some B' ->
            exists B, h !! b = Some B /\ FP B = FP B' /\ Expire B = Expire B').
  { intros b B' HB'. apply (link_inv h' h b B' (eq_sym (Hl b)) HB'). }
  constructor.
  - intros b B' Hb HB' HF'. destruct (Hback b B' HB') as (B & HB & HF & HE).
    rewrite <- HE. eapply dated_root; [exact Hd|exact Hb|exact HB|congruence].
  - intros b B' t Hb HB' HF'. destruct (Hback b B' HB') as (B & HB & HF & HE).
    rewrite <- HE.
    eapply dated_stub; [exact Hd|exact Hb|exact HB|rewrite HF; exact HF'].
  - intros b B' t T' Hb HB' HF' HE' HT'.
    destruct (Hback b B' HB') as (B & HB & HF & HE).
    destruct (Hback t T' HT') as (T & HT & _ & HET).
    rewrite <- HET.
    eapply (dated_next _ _ _ _ _ Hd b B t T);
      [exact Hb|exact HB|congruence|rewrite HE; exact HE'|exact HT].
  - intros x c C' Hx Hc HC'. destruct (Hback c C' HC') as (C & HC & _ & HE).
    rewrite <- HE. eapply dated_cols; eassumption.
Qed.

Lemma Add_Position_links (r : addr) (X Y : Z) (h : list Blob) :
  (r < length h)%nat ->
  exists h', Add_Position r X Y h = Some h' /\
             (forall a, link h a = link h' a) /\ length h' = length h.
Proof.
  intros Hr. unfold Add_Position.
  destruct (lookup_lt_is_Some_2 h r Hr) as [B HB]. rewrite HB.
  eexists. split; [reflexivity|]. split; [|apply length_insert].
  intros a. unfold link. destruct (decide (a = r)) as [Heq|Hne].
  - subst a. rewrite list_lookup_insert_eq by exact Hr. rewrite HB. reflexivity.
  - rewrite list_lookup_insert_ne by congruence. reflexivity.
Qed.

Lemma link_FP (h h' : list Blob) (a : addr) :
  link h' a = link h a -> FP <$> h' !! a = FP <$> h !! a.
Proof.
  unfold link. destruct (h' !! a), (h !! a); cbn; congruence.
Qed.

Lemma shape_weaken k k' h F L rb rb' cbs cbs' :
  shape k h F L rb cbs -> (k <= k')%nat ->
  (forall r, rb' = Some r -> r ∈ L /\ is_root h r) ->
  (forall x c, cbs' !! x = Some (Some c) -> c ∈ L) ->
  shape k' h F L rb' cbs'.
Proof.
  intros Hs Hk Hrb Hcbs. constructor; try assumption.
  - eapply shape_nodup, Hs.
  - eapply shape_valid, Hs.
  - eapply shape_fp, Hs.
  - intros b Hb. destruct (shape_depth _ _ _ _ _ _ Hs b Hb) as (d & r & Hd & Hr).
    exists d, r. split; [lia|exact Hr].
Qed.

(** **** Merging *)

Lemma Merge_Blobs_links (c r : addr) (e : Z) (h : list Blob) :
  c <> r -> (c < length h)%nat -> (r < length h)%nat ->
  exists h', Merge_Blobs c r e h = Some h' /\ length h' = length h /\
             link h' c = Some (Some r, e) /\
             (forall a, a <> c -> link h' a = link h a).
Proof.
  intros Hne Hc Hr. unfold Merge_Blobs.
  destruct (decide (c = r)) as [|_]; [contradiction|].
  destruct (lookup_lt_is_Some_2 h c Hc) as [C HC].
  destruct (lookup_lt_is_Some_2 h r Hr) as [R HR]. rewrite HC, HR.
  eexists. split; [reflexivity|]. split; [rewrite !length_insert; reflexivity|].
  split.
  - unfold link. rewrite list_lookup_insert_eq by (rewrite length_insert; exact Hc).
    reflexivity.
  - intros a Ha. unfold link. rewrite list_lookup_insert_ne by congruence.
    destruct (decide (a = r)) as [Heq|Hne'].
    + subst a. rewrite list_lookup_insert_eq by exact Hr. rewrite HR. reflexivity.
    + rewrite list_lookup_insert_ne by congruence. reflexivity.
Qed.

Lemma shape_merge k h h' F L r c cbs e :
  shape k h F L (Some r) cbs -> c ∈ L -> is_root h c -> c <> r ->
  length h' = length h -> link h' c = Some (Some r, e) ->
  (forall a, a <> c -> link h' a = link h a) ->
  shape (S k) h' F L (Some r) cbs.
Proof.
  intros Hs Hc Hroot Hne Hlen Hlc Hother.
  destruct (shape_row _ _ _ _ _ _ Hs r eq_refl) as [Hr Hrroot].
  assert (HC' : exists C', h' !! c = Some C' /\ FP C' = Some r /\ Expire C' = e).
  { unfold link in Hlc. destruct (h' !! c) as [C'|]; [|discriminate].
    cbn in Hlc. injection Hlc as HF HE. eauto. }
  constructor.
  - eapply shape_nodup, Hs.
  - intros b Hb. rewrite Hlen. eapply shape_valid; eassumption.
  - eapply shape_cols, Hs.
  - intros r0 [= <-]. split; [exact Hr|].
    destruct Hrroot as (R & HR & HRF).
    destruct (link_inv h h' r R (eq_sym (Hother r ltac:(congruence))) HR)
      as (R' & HR' & HF' & _).
    exists R'. split; [exact HR'|congruence].
  - intros b B' t Hb HB' HF'. destruct (decide (b = c)) as [Heq|Hbc].
    + subst b. destruct HC' as (C' & HC' & HCF & _).
      rewrite HC' in HB'. injection HB' as <-. rewrite HCF in HF'.
      injection HF' as <-. auto.
    + destruct (link_inv h' h b B' (Hother b Hbc) HB') as (B & HB & HF & _).
      eapply shape_fp; [exact Hs|exact Hb|exact HB|congruence].
  - intros b Hb. destruct (shape_depth _ _ _ _ _ _ Hs b Hb) as (d & x & Hd & Hx).
    destruct (Reduce_FP_merge h h' c r d Hne Hrroot) with (b := b) (x := x)
      as [x' Hx'].
    + destruct HC' as (C' & HC' & HCF & _). eauto.
    + intros a Ha. apply link_FP, Hother, Ha.
    + exact Hx.
    + exists (S d), x'. split; [lia|exact Hx'].
Qed.

Lemma dated_merge k Y X h h' F L r c cbs :
  0 <= Y ->
  shape k h F L (Some r) cbs -> dated Y X h L cbs ->
  c ∈ L -> is_root h c -> c <> r ->
  link h' c = Some (Some r, Y + 1) ->
  (forall a, a <> c -> link h' a = link h a) ->
  dated Y X h' L cbs.
Proof.
  intros HY Hs Hd Hc (C & HC & HCF) Hne Hlc Hother.
  destruct (shape_row _ _ _ _ _ _ Hs r eq_refl) as [Hr (R & HR & HRF)].
  assert (HC' : forall C', h' !! c = Some C' -> FP C' = Some r /\ Expire C' = Y + 1).
  { intros C' HC'. unfold link in Hlc. rewrite HC' in Hlc. cbn in Hlc.
    injection Hlc as HF HE. auto. }
  assert (Hback : forall b B', b <> c -> h' !! b = Some B' ->
            exists B, h !! b = Some B /\ FP B = FP B' /\ Expire B = Expire B').
  { intros b B' Hb HB'. apply (link_inv h' h b B' (Hother b Hb) HB'). }
  constructor.
  - intros b B' Hb HB' HF'. destruct (decide (b = c)) as [Heq|Hbc].
    + subst b. destruct (HC' B' HB') as [HF _]. congruence.
    + destruct (Hback b B' Hbc HB') as (B & HB & HF & HE). rewrite <- HE.
      eapply dated_root; [exact Hd|exact Hb|exact HB|congruence].
  - intros b B' t Hb HB' HF'. destruct (decide (b = c)) as [Heq|Hbc].
    + subst b. destruct (HC' B' HB') as [_ HE]. right. exact HE.
    + destruct (Hback b B' Hbc HB') as (B & HB & HF & HE). rewrite <- HE.
      eapply dated_stub; [exact Hd|exact Hb|exact HB|rewrite HF; exact HF'].
  - intros b B' t T' Hb HB' HF' HE' HT'.
    destruct (decide (t = c)) as [Heq|Htc].
    + subst t. destruct (HC' T' HT') as [_ HE]. lia.
    + destruct (Hback t T' Htc HT') as (T & HT & HTF & HTE). rewrite <- HTE.
      destruct (decide (b = c)) as [Heq|Hbc].
      * subst b. destruct (HC' B' HB') as [HF _].
        assert (t = r) by congruence. subst t.
        rewrite HR in HT. injection HT as <-.
        rewrite (dated_root _ _ _ _ _ Hd r R Hr HR HRF). lia.
      * destruct (Hback b B' Hbc HB') as (B & HB & HF & HE).
        eapply (dated_next _ _ _ _ _ Hd b B t T);
          [exact Hb|exact HB|congruence|rewrite HE; exact HE'|exact HT].
  - intros x c0 C0' Hx Hc0 HC0'. destruct (decide (c0 = c)) as [Heq|Hcc].
    + subst c0. destruct (HC' C0' HC0') as [_ HE]. lia.
    + destruct (Hback c0 C0' Hcc HC0') as (C0 & HC0 & _ & HE). rewrite <- HE.
      eapply dated_cols; eassumption.
Qed.

(** **** Allocation *)

Lemma seq_block (n : nat) :
  seq n FREEBLOBSBLOCKSIZE = n :: seq (S n) (FREEBLOBSBLOCKSIZE - 1).
Proof. reflexivity. Qed.

Lemma New_Blob_spec (X Y : Z) k h F L rb cbs :
  shape k h F L rb cbs ->
  exists b h' F',
    New_Blob X Y 0 (mkStore h F) = Some (b, mkStore h' F') /\
    (b ∉ L) /\
    link h' b = Some (None, -1) /\
    (forall a, a ∈ L -> link h' a = link h a) /\
    NoDup ((b :: L) ++ F') /\
    (forall a, a ∈ (b :: L) ++ F' -> (a < length h')%nat).
Proof.
  intros Hs. pose proof (shape_nodup _ _ _ _ _ _ Hs) as Hnd.
  pose proof (shape_valid _ _ _ _ _ _ Hs) as Hval.
  unfold New_Blob. cbn [FreeBlobs heap]. destruct F as [|b rest].
  - cbn [FreeBlobs heap]. rewrite seq_block.
    rewrite lookup_app_r by lia. rewrite Nat.sub_diag.
    rewrite lookup_replicate_2 by (unfold FREEBLOBSBLOCKSIZE; lia).
    eexists _, _, _. split; [reflexivity|].
    rewrite app_nil_r in Hnd.
    assert (HL : forall a, a ∈ L -> (a < length h)%nat).
    { intros a Ha. apply Hval. rewrite app_nil_r. exact Ha. }
    assert (Hfresh : length h ∉ L) by (intros Hin; apply HL in Hin; lia).
    unfold FREEBLOBSBLOCKSIZE.
    split; [exact Hfresh|]. split; [|split; [|split]].
    + unfold link. rewrite list_lookup_insert_eq; [reflexivity|].
      rewrite length_app, length_replicate. lia.
    + intros a Ha. pose proof (HL a Ha). unfold link.
      rewrite list_lookup_insert_ne by lia. rewrite lookup_app_l by lia.
      reflexivity.
    + apply NoDup_app. split; [|split].
      * apply NoDup_cons. auto.
      * intros a Ha Hin. apply elem_of_seq in Hin.
        apply elem_of_cons in Ha as [->|Ha]; [lia|]. apply HL in Ha. lia.
      * apply NoDup_seq.
    + intros a Ha. rewrite length_insert, length_app, length_replicate.
      apply elem_of_app in Ha as [Ha|Ha].
      * apply elem_of_cons in Ha as [->|Ha]; [lia|]. apply HL in Ha. lia.
      * apply elem_of_seq in Ha. lia.
  - cbn [FreeBlobs heap].
    assert (Hb : (b < length h)%nat).
    { apply Hval, elem_of_app. right. apply elem_of_cons. auto. }
    destruct (lookup_lt_is_Some_2 h b Hb) as [B0 HB0]. rewrite HB0.
    apply NoDup_app in Hnd as (HndL & Hdisj & HndF).
    apply NoDup_cons in HndF as [Hbrest Hndrest].
    assert (Hfresh : b ∉ L).
    { intros Hin. apply (Hdisj b Hin), elem_of_cons. auto. }
    eexists _, _, _. split; [reflexivity|].
    split; [exact Hfresh|]. split; [|split; [|split]].
    + unfold link. rewrite list_lookup_insert_eq by exact Hb. reflexivity.
    + intros a Ha. unfold link. rewrite list_lookup_insert_ne; [reflexivity|].
      intros ->. contradiction.
    + apply NoDup_app. split; [|split].
      * apply NoDup_cons. auto.
      * intros a Ha Hin. apply elem_of_cons in Ha as [->|Ha]; [contradiction|].
        apply (Hdisj a Ha), elem_of_cons. auto.
      * exact Hndrest.
    + intros a Ha. rewrite length_insert. apply Hval.
      apply elem_of_app in Ha as [Ha|Ha].
      * apply elem_of_cons in Ha as [->|Ha];
          apply elem_of_app; [right; apply elem_of_cons|left]; auto.
      * apply elem_of_app. right. apply elem_of_cons. auto.
Qed.

Lemma shape_new k h h' F F' L rb cbs b :
  shape k h F L rb cbs ->
  b ∉ L -> link h' b = Some (None, -1) ->
  (forall a, a ∈ L -> link h' a = link h a) ->
  NoDup ((b :: L) ++ F') ->
  (forall a, a ∈ (b :: L) ++ F' -> (a < length h')%nat) ->
  shape k h' F' (b :: L) (Some b) cbs.
Proof.
  intros Hs Hfresh Hlb Hold Hnd Hval.
  assert (Hroot : is_root h' b).
  { unfold link in Hlb. destruct (h' !! b) as [B|] eqn:HB; [|discriminate].
    cbn in Hlb. injection Hlb as HF _. exists B. auto. }
  constructor.
  - exact Hnd.
  - exact Hval.
  - intros x c Hc. apply elem_of_cons. right. eapply shape_cols; eassumption.
  - intros r [= <-]. split; [apply elem_of_cons; auto|exact Hroot].
  - intros a A' t Ha HA' HF'. apply elem_of_cons in Ha as [->|Ha].
    + destruct Hroot as (B & HB & HBF). congruence.
    + destruct (link_inv h' h a A' (Hold a Ha) HA') as (A & HA & HF & _).
      destruct (shape_fp _ _ _ _ _ _ Hs a A t Ha HA ltac:(congruence)) as [Ht Hne].
      split; [apply elem_of_cons; auto|exact Hne].
  - intros a Ha. apply elem_of_cons in Ha as [->|Ha].
    + exists 0%nat, b. split; [lia|]. destruct Hroot as (B & HB & HBF).
      cbn [Reduce_FP]. rewrite HB, HBF. reflexivity.
    + destruct (shape_depth _ _ _ _ _ _ Hs a Ha) as (d & r & Hd & Hr).
      exists d, r. split; [exact Hd|].
      rewrite (Reduce_FP_agree h h' L); [exact Hr|eapply shape_closed, Hs| |exact Ha].
      intros a' Ha'. symmetry. apply Hold, Ha'.
Qed.

Lemma dated_new k Y X h h' F L rb cbs b :
  shape k h F L rb cbs -> dated Y X h L cbs ->
  link h' b = Some (None, -1) ->
  (forall a, a ∈ L -> link h' a = link h a) ->
  dated Y X h' (b :: L) cbs.
Proof.
  intros Hs Hd Hlb Hold.
  assert (HB : forall B, h' !! b = Some B -> FP B = None /\ Expire B = -1).
  { intros B HB. unfold link in Hlb. rewrite HB in Hlb. cbn in Hlb.
    injection Hlb as HF HE. auto. }
  assert (Hback : forall a A', a ∈ L -> h' !! a = Some A' ->
            exists A, h !! a = Some A /\ FP A = FP A' /\ Expire A = Expire A').
  { intros a A' Ha HA'. apply (link_inv h' h a A' (Hold a Ha) HA'). }
  constructor.
  - intros a A' Ha HA' HF'. apply elem_of_cons in Ha as [->|Ha].
    + apply (HB A' HA').
    + destruct (Hback a A' Ha HA') as (A & HA & HF & HE). rewrite <- HE.
      eapply dated_root; [exact Hd|exact Ha|exact HA|congruence].
  - intros a A' t Ha HA' HF'. apply elem_of_cons in Ha as [->|Ha].
    + destruct (HB A' HA') as [HF _]. congruence.
    + destruct (Hback a A' Ha HA') as (A & HA & HF & HE). rewrite <- HE.
      eapply dated_stub; [exact Hd|exact Ha|exact HA|rewrite HF; exact HF'].
  - intros a A' t T' Ha HA' HF' HE' HT'. apply elem_of_cons in Ha as [->|Ha].
    + destruct (HB A' HA') as [HF _]. congruence.
    + destruct (Hback a A' Ha HA') as (A & HA & HF & HE).
      assert (Ht : t ∈ L).
      { eapply shape_fp; [exact Hs|exact Ha|exact HA|congruence]. }
      destruct (Hback t T' Ht HT') as (T & HT & _ & HTE). rewrite <- HTE.
      eapply (dated_next _ _ _ _ _ Hd a A t T);
        [exact Ha|exact HA|congruence|rewrite HE; exact HE'|exact HT].
  - intros x c C' Hx Hc HC'.
    assert (Hin : c ∈ L) by (eapply shape_cols; eassumption).
    destruct (Hback c C' Hin HC') as (C & HC & _ & HE). rewrite <- HE.
    eapply dated_cols; eassumption.
Qed.

Lemma Reap_Expired_Blobs_eq (h : list Blob) (Now : Z) (L : list addr) :
  forall F : list addr,
  (forall b, b ∈ L -> (b < length h)%nat) ->
  Reap_Expired_Blobs L Now h F =
  Some (List.filter (fun b => negb (expires h Now b)) L,
        rev (List.filter (expires h Now) L) ++ F).
Proof.
  induction L as [|b L IH]; intros F Hval; [reflexivity|].
  destruct (lookup_lt_is_Some_2 h b (Hval b ltac:(apply elem_of_cons; auto)))
    as [B HB].
  assert (He : expires h Now b = (Now =? Expire B))
    by (unfold expires; rewrite HB; reflexivity).
  assert (Hval' : forall a, a ∈ L -> (a < length h)%nat)
    by (intros a Ha; apply Hval, elem_of_cons; auto).
  cbn [Reap_Expired_Blobs List.filter]. rewrite HB, He.
  destruct (Now =? Expire B); cbn [negb].
  - rewrite IH by exact Hval'. cbn [rev]. rewrite <- (app_assoc _ [b] F).
    reflexivity.
  - rewrite IH by exact Hval'. reflexivity.
Qed.

Lemma reap_Permutation {A} (f : A -> bool) (L F : list A) :
  List.filter (fun b => negb (f b)) L ++ rev (List.filter f L) ++ F ≡ₚ L ++ F.
Proof.
  revert F. induction L as [|b L IH]; intros F; [reflexivity|].
  cbn [List.filter]. destruct (f b); cbn [negb rev app].
  - rewrite <- app_assoc. cbn [app]. rewrite IH.
    symmetry. apply Permutation_middle.
  - rewrite IH. reflexivity.
Qed.

Lemma shape_reap k Y h F L rb cbs :
  0 <= Y ->
  shape k h F L rb cbs -> dated Y (length cbs) h L cbs ->
  let L' := List.filter (fun b => negb (expires h Y b)) L in
  let F' := rev (List.filter (expires h Y) L) ++ F in
  shape k h F' L' rb cbs /\ dated (Y + 1) 0 h L' cbs.
Proof.
  intros HY Hs Hd L' F'.
  assert (Hin : forall b, b ∈ L' <-> b ∈ L /\ expires h Y b = false).
  { intros b. unfold L'. rewrite !list_elem_of_In, filter_In.
    destruct (expires h Y b); cbn; intuition congruence. }
  assert (Hkeep : forall b B, b ∈ L -> h !! b = Some B -> Expire B <> Y -> b ∈ L').
  { intros b B Hb HB HE. apply Hin. split; [exact Hb|].
    unfold expires. rewrite HB. apply Z.eqb_neq. congruence. }
  assert (Hkept : forall b B, b ∈ L' -> h !! b = Some B -> Expire B <> Y).
  { intros b B Hb HB. apply Hin in Hb as [_ He]. unfold expires in He.
    rewrite HB in He. apply Z.eqb_neq in He. congruence. }
  split.
  - constructor.
    + unfold L', F'. rewrite reap_Permutation. eapply shape_nodup, Hs.
    + intros b Hb. eapply shape_valid; [exact Hs|].
      unfold L', F' in Hb. rewrite reap_Permutation in Hb. exact Hb.
    + intros x c Hc.
      assert (HcL : c ∈ L) by (eapply shape_cols; eassumption).
      destruct (shape_lookup _ _ _ _ _ _ c Hs HcL) as [C HC].
      apply (Hkeep c C HcL HC).
      eapply dated_cols; [exact Hd| |exact Hc|exact HC].
      eapply lookup_lt_Some, Hc.
    + intros r Hr. destruct (shape_row _ _ _ _ _ _ Hs r Hr) as [HrL Hroot].
      split; [|exact Hroot]. destruct Hroot as (R & HR & HRF).
      apply (Hkeep r R HrL HR).
      rewrite (dated_root _ _ _ _ _ Hd r R HrL HR HRF). lia.
    + intros b B t Hb HB HF. pose proof (Hkept b B Hb HB) as HE.
      apply Hin in Hb as [HbL _].
      destruct (shape_fp _ _ _ _ _ _ Hs b B t HbL HB HF) as [HtL Hne].
      split; [|exact Hne].
      destruct (shape_lookup _ _ _ _ _ _ t Hs HtL) as [T HT].
      apply (Hkeep t T HtL HT).
      eapply (dated_next _ _ _ _ _ Hd b B t T); eassumption.
    + intros b Hb. apply Hin in Hb as [HbL _].
      eapply shape_depth; eassumption.
  - constructor.
    + intros b B Hb HB HF. apply Hin in Hb as [HbL _].
      eapply dated_root; eassumption.
    + intros b B t Hb HB HF. pose proof (Hkept b B Hb HB) as HE.
      apply Hin in Hb as [HbL _].
      destruct (dated_stub _ _ _ _ _ Hd b B t HbL HB HF); [contradiction|].
      left. assumption.
    + intros b B t T Hb HB HF HE' HT. pose proof (Hkept b B Hb HB) as HE.
      apply Hin in Hb as [HbL _].
      destruct (dated_stub _ _ _ _ _ Hd b B t HbL HB HF); [contradiction|].
      contradiction.
    + intros x c C Hx. lia.
Qed.

Lemma resolve_spec fuel k h F L rb cbs X cb :
  shape k h F L rb cbs -> cbs !! X = Some cb -> (k < fuel)%nat ->
  exists cb', resolve fuel h cb = Some cb' /\
              (forall c, cb' = Some c -> c ∈ L /\ is_root h c).
Proof.
  intros Hs Hcb Hk. destruct cb as [c|].
  2:{ exists None. split; [reflexivity|]. intros c [=]. }
  assert (Hc : c ∈ L) by (eapply shape_cols; eassumption).
  destruct (shape_lookup _ _ _ _ _ _ c Hs Hc) as [C HC].
  unfold resolve. rewrite HC. destruct (FP C) as [t|] eqn:HF.
  - destruct (shape_depth _ _ _ _ _ _ Hs c Hc) as (d & r & Hd & Hr).
    rewrite (Reduce_FP_mono h (S d) fuel c r Hr) by lia.
    exists (Some r). split; [reflexivity|]. intros c' [= <-]. split.
    + eapply Reduce_FP_closed; [eapply shape_closed, Hs|exact Hc|exact Hr].
    + eapply Reduce_FP_root, Hr.
  - exists (Some c). split; [reflexivity|]. intros c' [= <-].
    split; [exact Hc|]. exists C. auto.
Qed.

Lemma dated_set_col Y X h L cbs v :
  dated Y X h L cbs ->
  (forall c C, v = Some c -> h !! c = Some C -> Expire C <> Y) ->
  dated Y (S X) h L (<[X := v]> cbs).
Proof.
  intros Hd Hv. constructor.
  - eapply dated_root, Hd.
  - eapply dated_stub, Hd.
  - eapply dated_next, Hd.
  - intros x c C Hx Hc HC. destruct (decide (x = X)) as [Heq|Hne].
    + subst x. destruct (decide (X < length cbs)%nat) as [Hlt|Hge].
      * rewrite list_lookup_insert_eq in Hc by exact Hlt.
        injection Hc as Hc. eapply Hv; eassumption.
      * rewrite list_insert_ge in Hc by lia.
        apply lookup_lt_Some in Hc. lia.
    + rewrite list_lookup_insert_ne in Hc by congruence.
      eapply dated_cols; [exact Hd| |exact Hc|exact HC]. lia.
Qed.

Lemma set_col_in (L : list addr) (cbs : list (option addr)) (X : nat)
    (v : option addr) :
  (forall x c, cbs !! x = Some (Some c) -> c ∈ L) ->
  (forall c, v = Some c -> c ∈ L) ->
  forall x c, <[X := v]> cbs !! x = Some (Some c) -> c ∈ L.
Proof.
  intros Hcbs Hv x c Hc. destruct (decide (x = X)) as [Heq|Hne].
  - subst x. destruct (decide (X < length cbs)%nat) as [Hlt|Hge].
    + rewrite list_lookup_insert_eq in Hc by exact Hlt.
      injection Hc as Hc. apply Hv, Hc.
    + rewrite list_insert_ge in Hc by lia. eapply Hcbs, Hc.
  - rewrite list_lookup_insert_ne in Hc by congruence. eapply Hcbs, Hc.
Qed.

(** The blob-worthy branch keeps the invariants; the chains may grow by one
    hop. *)
Lemma touch_spec (e : Z) (Y : nat) (X : nat) (k : nat) (cb : option addr)
    (s : Scan) :
  shape_of k s ->
  (forall c, cb = Some c -> c ∈ Blobs s /\ is_root (heap (store s)) c) ->
  (X < length (ColBlobs s))%nat ->
  exists s',
    touch e X Y cb s = Some s' /\
    shape_of (S k) s' /\
    (e = Z.of_nat Y + 1 -> dated_of (Z.of_nat Y) X s ->
     dated_of (Z.of_nat Y) (S X) s') /\
    length (ColBlobs s') = length (ColBlobs s) /\
    DMap s' = DMap s /\
    (exists r, RowBlob s' = Some r).
Proof.
  destruct s as [[h F] L rb cbs dm]. unfold shape_of, dated_of.
  cbn [store heap FreeBlobs Blobs RowBlob ColBlobs DMap].
  intros Hs Hcb HX.
  (* the blob the position goes to, and the state it is found in *)
  assert (Hmid : exists r h1 F1 L1,
    match rb, cb with
    | Some r, Some c =>
        match Merge_Blobs c r e h with
        | None => None
        | Some h => Some (r, mkStore h F, L)
        end
    | None, Some c => Some (c, mkStore h F, L)
    | None, None =>
        match New_Blob (Z.of_nat X) (Z.of_nat Y) 0 (mkStore h F) with
        | None => None
        | Some (b, st) => Some (b, st, b :: L)
        end
    | Some r, None => Some (r, mkStore h F, L)
    end = Some (r, mkStore h1 F1, L1) /\
    shape (S k) h1 F1 L1 (Some r) cbs /\
    (e = Z.of_nat Y + 1 -> dated (Z.of_nat Y) X h L cbs ->
     dated (Z.of_nat Y) X h1 L1 cbs)).
  { destruct rb as [r|], cb as [c|].
    - destruct (Hcb c eq_refl) as [Hc Hroot].
      destruct (shape_row _ _ _ _ _ _ Hs r eq_refl) as [Hr Hrroot].
      destruct (decide (c = r)) as [Heq|Hne].
      + subst c. unfold Merge_Blobs. rewrite decide_True by reflexivity.
        exists r, h, F, L. split; [reflexivity|]. split; [|auto].
        eapply shape_weaken; [exact Hs|lia| |eapply shape_cols, Hs].
        eapply shape_row, Hs.
      + destruct (Merge_Blobs_links c r e h Hne) as (h' & Hm & Hlen & Hlc & Hother).
        { eapply shape_valid; [exact Hs|]. apply elem_of_app. auto. }
        { eapply shape_valid; [exact Hs|]. apply elem_of_app. auto. }
        rewrite Hm. exists r, h', F, L. split; [reflexivity|]. split.
        * apply (shape_merge k h h' F L r c cbs e Hs Hc Hroot Hne Hlen Hlc Hother).
        * intros He Hd. subst e.
          apply (dated_merge k (Z.of_nat Y) X h h' F L r c cbs ltac:(lia)
                   Hs Hd Hc Hroot Hne Hlc Hother).
    - exists r, h, F, L. split; [reflexivity|]. split; [|auto].
      eapply shape_weaken; [exact Hs|lia| |eapply shape_cols, Hs].
      eapply shape_row, Hs.
    - destruct (Hcb c eq_refl) as [Hc Hroot].
      exists c, h, F, L. split; [reflexivity|]. split; [|auto].
      eapply shape_weaken; [exact Hs|lia| |eapply shape_cols, Hs].
      intros r [= <-]. auto.
    - destruct (New_Blob_spec (Z.of_nat X) (Z.of_nat Y) _ _ _ _ _ _ Hs)
        as (b & h' & F' & Hn & Hfresh & Hlb & Hold & Hnd & Hval).
      rewrite Hn. exists b, h', F', (b :: L). split; [reflexivity|]. split.
      + eapply shape_weaken with (k := k); [|lia| |].
        * eapply shape_new; eassumption.
        * intros r [= <-].
          eapply (shape_row _ _ _ _ _ _ (shape_new _ _ _ _ _ _ _ _ _ Hs Hfresh Hlb Hold Hnd Hval)).
          reflexivity.
        * eapply (shape_cols _ _ _ _ _ _ (shape_new _ _ _ _ _ _ _ _ _ Hs Hfresh Hlb Hold Hnd Hval)).
      + intros _ Hd. eapply dated_new; eassumption. }
  destruct Hmid as (r & h1 & F1 & L1 & Hchoice & Hs1 & Hd1).
  unfold touch. cbn [store heap FreeBlobs Blobs RowBlob ColBlobs DMap].
  rewrite Hchoice. cbn [heap FreeBlobs].
  destruct (shape_row _ _ _ _ _ _ Hs1 r eq_refl) as [Hr Hrroot].
  destruct (Add_Position_links r (Z.of_nat X) (Z.of_nat Y) h1)
    as (h2 & Ha & Hlinks & Hlen).
  { eapply shape_valid; [exact Hs1|]. apply elem_of_app. auto. }
  rewrite Ha. rewrite decide_True by exact HX.
  eexists. split; [reflexivity|].
  cbn [store heap FreeBlobs Blobs RowBlob ColBlobs DMap].
  pose proof (shape_relink _ _ _ _ _ _ _ Hs1 Hlinks Hlen) as Hs2.
  split; [|split; [|split; [|split]]].
  - eapply shape_weaken; [exact Hs2|lia|eapply shape_row, Hs2|].
    apply set_col_in; [eapply shape_cols, Hs2|]. intros c [= <-]. exact Hr.
  - intros He Hd. apply dated_set_col.
    + eapply dated_relink; [apply Hd1; assumption|exact Hlinks].
    + intros c C [= <-] HC.
      pose proof (dated_relink _ _ _ _ _ _ (Hd1 He Hd) Hlinks) as Hd2.
      destruct (shape_row _ _ _ _ _ _ Hs2 r eq_refl) as [_ (R & HR & HRF)].
      rewrite HC in HR. injection HR as <-.
      rewrite (dated_root _ _ _ _ _ Hd2 r C Hr HC HRF). lia.
  - apply length_insert.
  - reflexivity.
  - eauto.
Qed.

Lemma find_pixel_spec (mapped : bool) (fuel W : nat) (Bth : Z) (Y X k : nat)
    (s : Scan) (d : Z) :
  shape_of k s -> (k < fuel)%nat ->
  (X < length (ColBlobs s))%nat ->
  DMap s !! (Y * W + X)%nat = Some (Density d) ->
  exists s',
    find_pixel mapped fuel W Bth Y s X = Some s' /\
    shape_of (S k) s' /\
    (mapped = false -> dated_of (Z.of_nat Y) X s ->
     dated_of (Z.of_nat Y) (S X) s') /\
    length (ColBlobs s') = length (ColBlobs s) /\
    (mapped = false -> DMap s' = DMap s) /\
    (forall j : nat, j <> (Y * W + X)%nat -> DMap s' !! j = DMap s !! j).
Proof.
  intros Hs Hk HX Hd. unfold find_pixel.
  destruct (lookup_lt_is_Some_2 _ _ HX) as [cb Hcb]. rewrite Hcb, Hd.
  destruct (resolve_spec fuel k _ _ _ _ _ X cb Hs Hcb Hk) as (cb' & Hres & Hcb').
  rewrite Hres. destruct (Bth <=? d).
  - destruct (touch_spec (if mapped then 0 else Z.of_nat Y + 1) Y X k cb' s Hs Hcb' HX)
      as (s' & Ht & Hs' & Hd' & Hlen & Hdm & r & Hr).
    rewrite Ht. eexists. split; [reflexivity|].
    unfold shape_of, dated_of in *.
    cbn [store heap FreeBlobs Blobs RowBlob ColBlobs DMap].
    split; [exact Hs'|]. split; [|split; [exact Hlen|split]].
    + intros -> Hdt. apply Hd'; [reflexivity|exact Hdt].
    + intros ->. exact Hdm.
    + intros j Hj. rewrite Hr, Hdm. destruct mapped; [|reflexivity].
      apply list_lookup_insert_ne. congruence.
  - eexists. split; [reflexivity|].
    unfold shape_of, dated_of in *.
    cbn [store heap FreeBlobs Blobs RowBlob ColBlobs DMap].
    split; [|split; [|split; [|split]]].
    + eapply shape_weaken; [exact Hs|lia|intros r [=]|].
      apply set_col_in; [eapply shape_cols, Hs|]. intros c [=].
    + intros _ Hdt. apply dated_set_col; [exact Hdt|]. intros c C [=].
    + apply length_insert.
    + intros ->. reflexivity.
    + intros j Hj. destruct mapped; [|reflexivity].
      apply list_lookup_insert_ne. congruence.
Qed.

(** The columns of a row, for either finder: every step is defined and
    keeps the invariants. *)
Lemma find_row_prefix_spec (mapped : bool) (fuel W : nat) (Bth : Z)
    (Y n : nat) (s : Scan) :
  (n <= W)%nat -> (Y * W + W <= fuel)%nat ->
  shape_of (Y * W) s -> (mapped = false -> dated_of (Z.of_nat Y) 0 s) ->
  length (ColBlobs s) = W -> tail_density (DMap s) (Y * W) fuel ->
  exists s',
    find_row_prefix mapped fuel W Bth Y n s = Some s' /\
    shape_of (Y * W + n) s' /\
    (mapped = false -> dated_of (Z.of_nat Y) n s') /\
    length (ColBlobs s') = W /\
    tail_density (DMap s') (Y * W + n) fuel /\
    (mapped = false -> DMap s' = DMap s).
Proof.
  intros Hn Hfuel Hs Hd Hlen Hdm. unfold find_row_prefix.
  induction n as [|n IH].
  - eexists. split; [reflexivity|]. rewrite Nat.add_0_r.
    unfold shape_of, dated_of in *.
    cbn [store heap FreeBlobs Blobs RowBlob ColBlobs DMap].
    split; [|auto].
    eapply shape_weaken; [exact Hs|lia|intros r [=]|eapply shape_cols, Hs].
  - destruct (IH ltac:(lia)) as (s1 & Hrun & Hs1 & Hd1 & Hlen1 & Hdm1 & Hsame1).
    rewrite seq_S, for_each_app, Hrun. cbn [for_each Nat.add].
    destruct (Hdm1 (Y * W + n)%nat ltac:(lia)) as [d Hdn].
    destruct (find_pixel_spec mapped fuel W Bth Y n (Y * W + n) s1 d Hs1
                ltac:(lia) ltac:(lia) Hdn)
      as (s2 & Hrun2 & Hs2 & Hd2 & Hlen2 & Hsame2 & Hother2).
    rewrite Hrun2. exists s2. split; [reflexivity|].
    replace (Y * W + S n)%nat with (S (Y * W + n)) by lia.
    split; [exact Hs2|]. split; [|split; [lia|split]].
    + intros Hm. apply Hd2; [exact Hm|apply Hd1, Hm].
    + intros i Hi. rewrite Hother2 by lia. apply Hdm1. lia.
    + intros Hm. rewrite Hsame2 by exact Hm. apply Hsame1, Hm.
Qed.

Lemma scan_start_shape (W : nat) (DensityMap : list Z) (st : Store) :
  store_ok st ->
  shape_of 0 (scan_start W DensityMap st) /\
  dated_of 0 0 (scan_start W DensityMap st).
Proof.
  intros [Hnd Hval]. unfold shape_of, dated_of, scan_start.
  cbn [store heap FreeBlobs Blobs RowBlob ColBlobs]. split.
  - constructor.
    + exact Hnd.
    + exact Hval.
    + intros x c Hc. apply lookup_replicate in Hc as [[=] _].
    + intros r [=].
    + intros b B t Hb. apply elem_of_nil in Hb. contradiction.
    + intros b Hb. apply elem_of_nil in Hb. contradiction.
  - constructor.
    + intros b B Hb. apply elem_of_nil in Hb. contradiction.
    + intros b B t Hb. apply elem_of_nil in Hb. contradiction.
    + intros b B t T Hb. apply elem_of_nil in Hb. contradiction.
    + intros x c C Hx. lia.
Qed.

(** The rows of a scan, for either finder. *)
Lemma find_rows_spec (mapped : bool) (W H : nat) (Bth : Z)
    (DensityMap : list Z) (st : Store) (n : nat) :
  store_ok st -> (W * H <= length DensityMap)%nat -> (n <= H)%nat ->
  exists s,
    find_rows mapped W H Bth DensityMap st n = Some s /\
    shape_of (n * W) s /\
    (mapped = false -> dated_of (Z.of_nat n) 0 s) /\
    length (ColBlobs s) = W /\
    tail_density (DMap s) (n * W) (W * H).
Proof.
  intros Hst Hdm Hn. unfold find_rows. induction n as [|n IH].
  - eexists. split; [reflexivity|].
    destruct (scan_start_shape W DensityMap st Hst) as [Hs Hd].
    split; [exact Hs|]. split; [intros _; exact Hd|].
    split; [apply length_replicate|].
    intros i Hi. unfold scan_start. cbn [DMap]. rewrite list_lookup_fmap.
    destruct (lookup_lt_is_Some_2 DensityMap i ltac:(lia)) as [d ->].
    exists d. reflexivity.
  - destruct (IH ltac:(lia)) as (s & Hrun & Hs & Hd & Hlen & Hmap).
    rewrite seq_S, for_each_app, Hrun. cbn [for_each Nat.add].
    unfold find_row.
    destruct (find_row_prefix_spec mapped (W * H) W Bth n W s) as
      (s1 & Hrun1 & Hs1 & Hd1 & Hlen1 & Hmap1 & _); try assumption.
    { lia. }
    { nia. }
    rewrite Hrun1.
    replace (S n * W)%nat with (n * W + W)%nat by lia.
    destruct mapped.
    + exists s1. split; [reflexivity|]. split; [exact Hs1|].
      split; [intros [=]|]. split; [exact Hlen1|exact Hmap1].
    + rewrite Reap_Expired_Blobs_eq.
      2:{ intros b Hb. eapply shape_valid; [exact Hs1|]. apply elem_of_app. auto. }
      eexists. split; [reflexivity|].
      unfold shape_of, dated_of in *.
      cbn [store heap FreeBlobs Blobs RowBlob ColBlobs DMap].
      specialize (Hd1 eq_refl). rewrite <- Hlen1 in Hd1.
      destruct (shape_reap _ (Z.of_nat n) _ _ _ _ _ ltac:(lia) Hs1 Hd1) as [Hs2 Hd2].
      replace (Z.of_nat (S n)) with (Z.of_nat n + 1) by lia.
      split; [exact Hs2|]. split; [intros _; exact Hd2|].
      split; [exact Hlen1|exact Hmap1].
Qed.

Lemma scanning_shape (mapped : bool) (W H : nat) (Bth : Z)
    (DensityMap : list Z) (st : Store) (s : Scan) :
  store_ok st -> (W * H <= length DensityMap)%nat ->
  scanning mapped W H Bth DensityMap st s ->
  exists k, shape_of k s.
Proof.
  intros Hst Hdm [(Y & HY & Hrun)|(Y & X & s0 & HY & HX & Hrun0 & Hrun)].
  - destruct (find_rows_spec mapped W H Bth DensityMap st Y Hst Hdm HY)
      as (s1 & Hrun1 & Hs1 & _).
    rewrite Hrun in Hrun1. injection Hrun1 as <-. eauto.
  - destruct (find_rows_spec mapped W H Bth DensityMap st Y Hst Hdm ltac:(lia))
      as (s1 & Hrun1 & Hs1 & Hd1 & Hlen1 & Hmap1).
    rewrite Hrun0 in Hrun1. injection Hrun1 as <-.
    destruct (find_row_prefix_spec mapped (W * H) W Bth Y X s0 HX ltac:(nia)
                Hs1 Hd1 Hlen1 Hmap1)
      as (s2 & Hrun2 & Hs2 & _).
    rewrite Hrun in Hrun2. injection Hrun2 as <-. eauto.
Qed.

(** Both scans are defined up to any row and any column of it. *)
Lemma scanning_defined (mapped : bool) (W H : nat) (Bth : Z)
    (DensityMap : list Z) (st : Store) (Y X : nat) :
  store_ok st -> (W * H <= length DensityMap)%nat ->
  (Y < H)%nat -> (X <= W)%nat ->
  exists s s',
    find_rows mapped W H Bth DensityMap st Y = Some s /\
    find_row_prefix mapped (W * H) W Bth Y X s = Some s'.
Proof.
  intros Hst Hdm HY HX.
  destruct (find_rows_spec mapped W H Bth DensityMap st Y Hst Hdm ltac:(lia))
    as (s & Hrun & Hs & Hd & Hlen & Hmap).
  destruct (find_row_prefix_spec mapped (W * H) W Bth Y X s HX ltac:(nia)
              Hs Hd Hlen Hmap)
    as (s' & Hrun' & _).
  eauto.
Qed.

Lemma Merge_Blobs_self (b : addr) (e : Z) (h : list Blob) :
  Merge_Blobs b b e h = Some h.
Proof. unfold Merge_Blobs. rewrite decide_True by reflexivity. reflexivity. Qed.

(** C10: [Merge_Blobs] with the same blob for both arguments changes
    nothing; and in every state of a [Blob_Finder] or [Blob_Finder_Map] scan
    the column table and the row blob refer to active blobs, the forwarding
    pointer of an active blob refers to another active blob, and from every
    active blob [Reduce_FP] returns, as soon as it is given enough calls, a
    blob whose forwarding pointer is [NULL].  The scan itself reaches every
    pixel of every row: each call of [Reduce_FP] it makes returns within the
    bound [Width * Height]. *)
Theorem forwarding_chains_end (mapped : bool) (W H : nat) (Bth : Z)
    (DensityMap : list Z) (st : Store) (s : Scan) :
  store_ok st -> (W * H <= length DensityMap)%nat ->
  scanning mapped W H Bth DensityMap st s ->
  (forall (b : addr) (e : Z),
     Merge_Blobs b b e (heap (store s)) = Some (heap (store s))) /\
  (forall (x : nat) (c : addr),
     ColBlobs s !! x = Some (Some c) -> c ∈ Blobs s) /\
  (forall r : addr, RowBlob s = Some r -> r ∈ Blobs s) /\
  (forall b : addr, b ∈ Blobs s ->
     (forall (B : Blob) (t : addr),
        heap (store s) !! b = Some B -> FP B = Some t ->
        t <> b /\ t ∈ Blobs s) /\
     (exists (n : nat) (r : addr),
        is_root (heap (store s)) r /\
        forall fuel : nat, (n <= fuel)%nat ->
          Reduce_FP fuel (heap (store s)) b = Some r)) /\
  (forall Y X : nat, (Y < H)%nat -> (X <= W)%nat ->
     exists s0 s1 : Scan,
       find_rows mapped W H Bth DensityMap st Y = Some s0 /\
       find_row_prefix mapped (W * H) W Bth Y X s0 = Some s1).
Proof.
  intros Hst Hdm Hscan.
  destruct (scanning_shape _ _ _ _ _ _ _ Hst Hdm Hscan) as [k Hs].
  unfold shape_of in Hs. split; [|split; [|split; [|split]]].
  5:{ intros Y X HY HX. apply scanning_defined; assumption. }
  - intros b e. apply Merge_Blobs_self.
  - eapply shape_cols, Hs.
  - intros r Hr. eapply shape_row; eassumption.
  - intros b Hb. split.
    + intros B t HB HF.
      destruct (shape_fp _ _ _ _ _ _ Hs b B t Hb HB HF). auto.
    + destruct (shape_depth _ _ _ _ _ _ Hs b Hb) as (d & r & _ & Hr).
      exists (S d), r. split; [eapply Reduce_FP_root, Hr|].
      intros fuel Hfuel. eapply Reduce_FP_mono; eassumption.
Qed.

Lemma merged_row_scanning :
  scanning false 3 2 1 [1; 0; 1; 1; 1; 1] empty_store merged_row.
Proof.
  right. exists 1%nat, 3%nat.
  exists (default (scan_start 0 [] empty_store)
            (find_rows false 3 2 1 [1; 0; 1; 1; 1; 1] empty_store 1)).
  split; [lia|]. split; [lia|]. split; vm_compute; reflexivity.
Defined.

Lemma empty_store_ok : store_ok empty_store.
Proof.
  split; [apply NoDup_nil; exact I|].
  intros b Hb. apply elem_of_nil in Hb. destruct Hb.
Defined.

Lemma forwarding_chains_end_witness :
  (forall (b : addr) (e : Z),
     Merge_Blobs b b e (heap (store merged_row)) =
       Some (heap (store merged_row))) /\
  (forall (x : nat) (c : addr),
     ColBlobs merged_row !! x = Some (Some c) -> c ∈ Blobs merged_row) /\
  (forall r : addr, RowBlob merged_row = Some r -> r ∈ Blobs merged_row) /\
  (forall b : addr, b ∈ Blobs merged_row ->
     (forall (B : Blob) (t : addr),
        heap (store merged_row) !! b = Some B -> FP B = Some t ->
        t <> b /\ t ∈ Blobs merged_row) /\
     (exists (n : nat) (r : addr),
        is_root (heap (store merged_row)) r /\
        forall fuel : nat, (n <= fuel)%nat ->
          Reduce_FP fuel (heap (store merged_row)) b = Some r)) /\
  (forall Y X : nat, (Y < 2)%nat -> (X <= 3)%nat ->
     exists s0 s1 : Scan,
       find_rows false 3 2 1 [1; 0; 1; 1; 1; 1] empty_store Y = Some s0 /\
       find_row_prefix false (3 * 2) 3 1 Y X s0 = Some s1).
Proof.
  apply (forwarding_chains_end false 3 2 1 [1; 0; 1; 1; 1; 1] empty_store
           merged_row empty_store_ok).
  - simpl. lia.
  - exact merged_row_scanning.
Defined.

(** **** What a pixel step does to the links *)

Lemma Merge_Blobs_inv (c r : addr) (e : Z) (h h' : list Blob) :
  Merge_Blobs c r e h = Some h' ->
  (c = r /\ h' = h) \/
  (c <> r /\ link h' c = Some (Some r, e) /\
   forall a, a <> c -> link h' a = link h a).
Proof.
  intros Hm. destruct (decide (c = r)) as [Heq|Hne].
  - left. subst c. rewrite Merge_Blobs_self in Hm. injection Hm as <-. auto.
  - right. split; [exact Hne|].
    assert (Hc : (c < length h)%nat /\ (r < length h)%nat).
    { unfold Merge_Blobs in Hm. rewrite decide_False in Hm by exact Hne.
      destruct (h !! c) eqn:HC; [|discriminate].
      destruct (h !! r) eqn:HR; [|discriminate].
      split; eapply lookup_lt_Some; eassumption. }
    destruct (Merge_Blobs_links c r e h Hne (proj1 Hc) (proj2 Hc))
      as (h1 & Hm1 & _ & Hlc & Hother).
    rewrite Hm in Hm1. injection Hm1 as <-. auto.
Qed.

Lemma Add_Position_inv (r : addr) (X Y : Z) (h h' : list Blob) :
  Add_Position r X Y h = Some h' -> forall a, link h a = link h' a.
Proof.
  intros Ha.
  assert (Hr : (r < length h)%nat).
  { unfold Add_Position in Ha. destruct (h !! r) eqn:HR; [|discriminate].
    eapply lookup_lt_Some, HR. }
  destruct (Add_Position_links r X Y h Hr) as (h1 & Ha1 & Hl & _).
  rewrite Ha in Ha1. injection Ha1 as <-. exact Hl.
Qed.

Lemma New_Blob_inv (X Y i : Z) (st st' : Store) (b : addr) :
  New_Blob X Y i st = Some (b, st') ->
  link (heap st') b = Some (None, -1) /\
  forall a, a <> b -> (a < length (heap st))%nat ->
    link (heap st') a = link (heap st) a.
Proof.
  unfold New_Blob. destruct st as [h F]. cbn [heap FreeBlobs].
  destruct F as [|b0 rest]; cbn [heap FreeBlobs].
  - rewrite seq_block.
    destruct ((h ++ replicate FREEBLOBSBLOCKSIZE blank) !! length h) eqn:Hl;
      [|discriminate].
    intros [= <- <-]. cbn [heap]. unfold link. split.
    + rewrite list_lookup_insert_eq by (eapply lookup_lt_Some, Hl). reflexivity.
    + intros a Ha Hlt. rewrite list_lookup_insert_ne by congruence.
      rewrite lookup_app_l by exact Hlt. reflexivity.
  - destruct (h !! b0) eqn:Hl; [|discriminate].
    intros [= <- <-]. cbn [heap]. unfold link. split.
    + rewrite list_lookup_insert_eq by (eapply lookup_lt_Some, Hl). reflexivity.
    + intros a Ha Hlt. rewrite list_lookup_insert_ne by congruence. reflexivity.
Qed.

(** A blob that a pixel step of [Blob_Finder] in row [Y] turns into a
    forwarding stub gets the expiry [Y + 1]. *)
Lemma find_pixel_stub (fuel W : nat) (Bth : Z) (Y X : nat) (s s' : Scan)
    (b : addr) (B B' : Blob) (t : addr) :
  find_pixel false fuel W Bth Y s X = Some s' ->
  heap (store s) !! b = Some B -> FP B = None ->
  heap (store s') !! b = Some B' -> FP B' = Some t ->
  Expire B' = Z.of_nat Y + 1.
Proof.
  intros Hrun HB HF HB' HF'.
  pose proof (link_Some _ _ _ HB) as Hl. rewrite HF in Hl.
  pose proof (link_Some _ _ _ HB') as Hl'. rewrite HF' in Hl'.
  assert (Hsame : link (heap (store s')) b = link (heap (store s)) b -> False).
  { intros Heq. rewrite Hl, Hl' in Heq. discriminate. }
  unfold find_pixel in Hrun.
  destruct (ColBlobs s !! X) as [cb|]; [|discriminate].
  destruct (DMap s !! (Y * W + X)%nat) as [[d|]|]; try discriminate.
  destruct (resolve fuel (heap (store s)) cb) as [cb'|]; [|discriminate].
  destruct (Bth <=? d).
  2:{ injection Hrun as <-. exfalso. apply Hsame. reflexivity. }
  destruct (touch (Z.of_nat Y + 1) X Y cb' s) as [s1|] eqn:Ht; [|discriminate].
  injection Hrun as <-. cbn [store] in *.
  unfold touch in Ht.
  destruct (RowBlob s) as [r|], cb' as [c|].
  - destruct (Merge_Blobs c r (Z.of_nat Y + 1) (heap (store s))) as [h1|] eqn:Hm;
      [|discriminate].
    cbn [heap] in Ht.
    destruct (Add_Position r (Z.of_nat X) (Z.of_nat Y) h1) as [h2|] eqn:Ha;
      [|discriminate].
    destruct (decide (X < length (ColBlobs s))%nat); [|discriminate].
    injection Ht as <-. cbn [store heap] in *.
    pose proof (Add_Position_inv _ _ _ _ _ Ha b) as Hl2.
    destruct (Merge_Blobs_inv _ _ _ _ _ Hm) as [[_ ->]|(Hne & Hlc & Hother)].
    + exfalso. apply Hsame. symmetry. exact Hl2.
    + destruct (decide (b = c)) as [Heq|Hbc].
      * subst b. rewrite <- Hl2, Hlc in Hl'. injection Hl' as _ HE. congruence.
      * exfalso. apply Hsame. rewrite <- Hl2. apply Hother, Hbc.
  - destruct (Add_Position r (Z.of_nat X) (Z.of_nat Y) (heap (store s)))
      as [h2|] eqn:Ha; [|discriminate].
    destruct (decide (X < length (ColBlobs s))%nat); [|discriminate].
    injection Ht as <-. cbn [store heap] in *.
    exfalso. apply Hsame. symmetry. eapply Add_Position_inv, Ha.
  - destruct (Add_Position c (Z.of_nat X) (Z.of_nat Y) (heap (store s)))
      as [h2|] eqn:Ha; [|discriminate].
    destruct (decide (X < length (ColBlobs s))%nat); [|discriminate].
    injection Ht as <-. cbn [store heap] in *.
    exfalso. apply Hsame. symmetry. eapply Add_Position_inv, Ha.
  - destruct (New_Blob (Z.of_nat X) (Z.of_nat Y) 0 (store s)) as [[b0 st1]|] eqn:Hn;
      [|discriminate].
    destruct (Add_Position b0 (Z.of_nat X) (Z.of_nat Y) (heap st1))
      as [h2|] eqn:Ha; [|discriminate].
    destruct (decide (X < length (ColBlobs s))%nat); [|discriminate].
    injection Ht as <-. cbn [store heap] in *.
    pose proof (Add_Position_inv _ _ _ _ _ Ha b) as Hl2.
    destruct (New_Blob_inv _ _ _ _ _ _ Hn) as [Hlb Hold].
    destruct (decide (b = b0)) as [Heq|Hne].
    + subst b. rewrite <- Hl2, Hlb in Hl'. discriminate.
    + exfalso. apply Hsame. rewrite <- Hl2. apply Hold; [exact Hne|].
      eapply lookup_lt_Some, HB.
Qed.

(** The reap that ends row [Y] of [Blob_Finder]: the state after the row is
    the state the pixels of the row leave, with the blobs that expire at [Y]
    moved from the active list to the free list.  Those blobs are forwarded,
    and nothing refers to them any more. *)
Lemma find_row_reaps (W H : nat) (Bth : Z) (DensityMap : list Z) (st : Store)
    (Y : nat) :
  store_ok st -> (W * H <= length DensityMap)%nat -> (Y < H)%nat ->
  exists s s1 : Scan,
    find_rows false W H Bth DensityMap st Y = Some s /\
    find_row_prefix false (W * H) W Bth Y W s = Some s1 /\
    find_rows false W H Bth DensityMap st (S Y) =
      Some (mkScan
              (mkStore (heap (store s1))
                 (rev (List.filter (expires (heap (store s1)) (Z.of_nat Y))
                         (Blobs s1)) ++ FreeBlobs (store s1)))
              (List.filter
                 (fun b => negb (expires (heap (store s1)) (Z.of_nat Y) b))
                 (Blobs s1))
              (RowBlob s1) (ColBlobs s1) (DMap s1)) /\
    (forall (b : addr) (B : Blob) (t : addr),
       b ∈ Blobs s1 -> heap (store s1) !! b = Some B -> FP B = Some t ->
       Expire B = Z.of_nat Y \/ Expire B = Z.of_nat Y + 1) /\
    (forall b : addr,
       b ∈ Blobs s1 -> expires (heap (store s1)) (Z.of_nat Y) b = true ->
       forwarded (heap (store s1)) b = true /\
       (forall x : nat, ColBlobs s1 !! x <> Some (Some b)) /\
       RowBlob s1 <> Some b /\
       (forall (a : addr) (A : Blob),
          a ∈ Blobs s1 -> expires (heap (store s1)) (Z.of_nat Y) a = false ->
          heap (store s1) !! a = Some A -> FP A <> Some b)).
Proof.
  intros Hst Hdm HY.
  destruct (find_rows_spec false W H Bth DensityMap st Y Hst Hdm ltac:(lia))
    as (s & Hrun & Hs & Hd & Hlen & Htail).
  destruct (find_row_prefix_spec false (W * H) W Bth Y W s ltac:(lia) ltac:(nia)
              Hs Hd Hlen Htail) as (s1 & Hpre & Hs1 & Hd1 & Hlen1 & _).
  specialize (Hd1 eq_refl). unfold shape_of in Hs1. unfold dated_of in Hd1.
  exists s, s1. split; [exact Hrun|]. split; [exact Hpre|].
  assert (Hval : forall b, b ∈ Blobs s1 -> (b < length (heap (store s1)))%nat).
  { intros b Hb. eapply shape_valid; [exact Hs1|]. apply elem_of_app. auto. }
  split; [|split].
  - unfold find_rows in *. rewrite seq_S, for_each_app, Hrun. cbn [Nat.add for_each].
    unfold find_row. rewrite Hpre, Reap_Expired_Blobs_eq by exact Hval.
    reflexivity.
  - intros b B t Hb HB HF. eapply dated_stub; eassumption.
  - intros b Hb He. unfold expires in He.
    destruct (heap (store s1) !! b) as [B|] eqn:HB; [|discriminate].
    apply Z.eqb_eq in He.
    assert (HF : FP B <> None).
    { intros HF. pose proof (dated_root _ _ _ _ _ Hd1 b B Hb HB HF). lia. }
    split; [|split; [|split]].
    + unfold forwarded. rewrite HB. destruct (FP B); [reflexivity|congruence].
    + intros x Hx.
      assert (Hxlen : (x < W)%nat) by (rewrite <- Hlen1; eapply lookup_lt_Some, Hx).
      apply (dated_cols _ _ _ _ _ Hd1 x b B Hxlen Hx HB). congruence.
    + intros Hr. destruct (shape_row _ _ _ _ _ _ Hs1 b Hr) as [_ (B0 & HB0 & HF0)].
      congruence.
    + intros a A Ha Hea HA HFA. unfold expires in Hea. rewrite HA in Hea.
      apply Z.eqb_neq in Hea.
      apply (dated_next _ _ _ _ _ Hd1 a A b B Ha HA HFA); congruence.
Qed.

(** C2: in [Blob_Finder], a blob that becomes a forwarding stub while row
    [Y] is processed gets the expiry [Y + 1].  [Reap_Expired_Blobs] takes off
    its list exactly the blobs whose expiry is [Now] and pushes them on the
    free list, and [Blob_Finder] runs it at the end of every row [Y] with
    [Now = Y] on the active list: the state after the row is the state its
    pixels leave with exactly the blobs of expiry [Y] reclaimed.  A forwarded
    blob of the list then has the expiry [Y] or [Y + 1], so a stub outlives
    the row it is made in by one row; and when a blob is reclaimed it is a
    stub that no entry of the column table, nor the row blob, nor the
    forwarding pointer of a blob that stays refers to.  In every state of
    the scan, after each reaping as well as inside a row, the column table,
    the row blob and the forwarding pointers of active blobs refer to blobs
    of the active list only, none of which is on the free list. *)
Theorem stubs_reaped_after_resolution (W H : nat) (Bth : Z)
    (DensityMap : list Z) (st : Store) :
  store_ok st -> (W * H <= length DensityMap)%nat ->
  (forall (Y X : nat) (s s' : Scan) (b : addr) (B B' : Blob) (t : addr),
     find_pixel false (W * H) W Bth Y s X = Some s' ->
     heap (store s) !! b = Some B -> FP B = None ->
     heap (store s') !! b = Some B' -> FP B' = Some t ->
     Expire B' = Z.of_nat Y + 1) /\
  (forall (L : list addr) (Now : Z) (h : list Blob) (F : list addr),
     (forall b, b ∈ L -> (b < length h)%nat) ->
     Reap_Expired_Blobs L Now h F =
       Some (List.filter (fun b => negb (expires h Now b)) L,
             rev (List.filter (expires h Now) L) ++ F)) /\
  (forall Y : nat,
     (Y < H)%nat ->
     exists s s1 : Scan,
       find_rows false W H Bth DensityMap st Y = Some s /\
       find_row_prefix false (W * H) W Bth Y W s = Some s1 /\
       find_rows false W H Bth DensityMap st (S Y) =
         Some (mkScan
                 (mkStore (heap (store s1))
                    (rev (List.filter (expires (heap (store s1)) (Z.of_nat Y))
                            (Blobs s1)) ++ FreeBlobs (store s1)))
                 (List.filter
                    (fun b => negb (expires (heap (store s1)) (Z.of_nat Y) b))
                    (Blobs s1))
                 (RowBlob s1) (ColBlobs s1) (DMap s1)) /\
       (forall (b : addr) (B : Blob) (t : addr),
          b ∈ Blobs s1 -> heap (store s1) !! b = Some B -> FP B = Some t ->
          Expire B = Z.of_nat Y \/ Expire B = Z.of_nat Y + 1) /\
       (forall b : addr,
          b ∈ Blobs s1 -> expires (heap (store s1)) (Z.of_nat Y) b = true ->
          forwarded (heap (store s1)) b = true /\
          (forall x : nat, ColBlobs s1 !! x <> Some (Some b)) /\
          RowBlob s1 <> Some b /\
          (forall (a : addr) (A : Blob),
             a ∈ Blobs s1 ->
             expires (heap (store s1)) (Z.of_nat Y) a = false ->
             heap (store s1) !! a = Some A -> FP A <> Some b))) /\
  (forall s : Scan,
     scanning false W H Bth DensityMap st s ->
     (forall b : addr, b ∈ Blobs s -> b ∉ FreeBlobs (store s)) /\
     (forall (x : nat) (c : addr),
        ColBlobs s !! x = Some (Some c) -> c ∈ Blobs s) /\
     (forall r : addr, RowBlob s = Some r -> r ∈ Blobs s) /\
     (forall (b : addr) (B : Blob) (t : addr),
        b ∈ Blobs s -> heap (store s) !! b = Some B -> FP B = Some t ->
        t ∈ Blobs s)).
Proof.
  intros Hst Hdm. split; [|split; [|split]].
  - intros Y X s s' b B B' t. apply find_pixel_stub.
  - intros L Now h F. apply Reap_Expired_Blobs_eq.
  - intros Y HY. apply find_row_reaps; assumption.
  - intros s Hscan.
    destruct (scanning_shape _ _ _ _ _ _ _ Hst Hdm Hscan) as [k Hs].
    unfold shape_of in Hs. split; [|split; [|split]].
    + pose proof (shape_nodup _ _ _ _ _ _ Hs) as Hnd.
      apply NoDup_app in Hnd as (_ & Hdisj & _). exact Hdisj.
    + eapply shape_cols, Hs.
    + intros r Hr. eapply shape_row; eassumption.
    + intros b B t Hb HB HF.
      destruct (shape_fp _ _ _ _ _ _ Hs b B t Hb HB HF). auto.
Qed.

(** On the map [1 0 1 / 1 1 1 / 0 0 1] the blob of the right column is
    merged in the second row and reclaimed at the end of the third. *)
Lemma stubs_reaped_after_resolution_witness :
  (exists s s1 : Scan,
     find_rows false 3 3 1 [1; 0; 1; 1; 1; 1; 0; 0; 1] empty_store 2 = Some s /\
     find_row_prefix false (3 * 3) 3 1 2 3 s = Some s1 /\
     find_rows false 3 3 1 [1; 0; 1; 1; 1; 1; 0; 0; 1] empty_store 3 =
       Some (mkScan
               (mkStore (heap (store s1))
                  (rev (List.filter (expires (heap (store s1)) 2) (Blobs s1))
                   ++ FreeBlobs (store s1)))
               (List.filter (fun b => negb (expires (heap (store s1)) 2 b))
                  (Blobs s1))
               (RowBlob s1) (ColBlobs s1) (DMap s1)) /\
     (forall (b : addr) (B : Blob) (t : addr),
        b ∈ Blobs s1 -> heap (store s1) !! b = Some B -> FP B = Some t ->
        Expire B = 2 \/ Expire B = 2 + 1) /\
     (forall b : addr,
        b ∈ Blobs s1 -> expires (heap (store s1)) 2 b = true ->
        forwarded (heap (store s1)) b = true /\
        (forall x : nat, ColBlobs s1 !! x <> Some (Some b)) /\
        RowBlob s1 <> Some b /\
        (forall (a : addr) (A : Blob),
           a ∈ Blobs s1 -> expires (heap (store s1)) 2 a = false ->
           heap (store s1) !! a = Some A -> FP A <> Some b))) /\
  (forall b : addr,
     b ∈ Blobs merged_row -> b ∉ FreeBlobs (store merged_row)) /\
  (forall (x : nat) (c : addr),
     ColBlobs merged_row !! x = Some (Some c) -> c ∈ Blobs merged_row) /\
  (forall r : addr, RowBlob merged_row = Some r -> r ∈ Blobs merged_row) /\
  (forall (b : addr) (B : Blob) (t : addr),
     b ∈ Blobs merged_row -> heap (store merged_row) !! b = Some B ->
     FP B = Some t -> t ∈ Blobs merged_row).
Proof.
  split.
  - apply (proj1 (proj2 (proj2
             (stubs_reaped_after_resolution 3 3 1 [1; 0; 1; 1; 1; 1; 0; 0; 1]
                empty_store empty_store_ok ltac:(simpl; lia))))).
    lia.
  - apply (stubs_reaped_after_resolution 3 2 1 [1; 0; 1; 1; 1; 1] empty_store
             empty_store_ok ltac:(simpl; lia)).
    exact merged_row_scanning.
Defined.

Lemma Reap_FP_Blobs_eq (h : list Blob) (L : list addr) :
  forall F : list addr,
  (forall b, b ∈ L -> (b < length h)%nat) ->
  Reap_FP_Blobs L h F =
  Some (List.filter (fun b => negb (forwarded h b)) L,
        rev (List.filter (forwarded h) L) ++ F).
Proof.
  induction L as [|b L IH]; intros F Hval; [reflexivity|].
  destruct (lookup_lt_is_Some_2 h b (Hval b ltac:(apply elem_of_cons; auto)))
    as [B HB].
  assert (He : forwarded h b = match FP B with Some _ => true | None => false end)
    by (unfold forwarded; rewrite HB; reflexivity).
  assert (Hval' : forall a, a ∈ L -> (a < length h)%nat)
    by (intros a Ha; apply Hval, elem_of_cons; auto).
  cbn [Reap_FP_Blobs List.filter]. rewrite HB, He.
  destruct (FP B); cbn [negb].
  - rewrite IH by exact Hval'. cbn [rev]. rewrite <- (app_assoc _ [b] F).
    reflexivity.
  - rewrite IH by exact Hval'. reflexivity.
Qed.

Lemma Number_Blobs_links (L : list addr) :
  forall (i : Z) (h : list Blob),
  (forall b, b ∈ L -> (b < length h)%nat) ->
  exists h', Number_Blobs L i h = Some h' /\
             (forall a, link h a = link h' a) /\ length h' = length h.
Proof.
  induction L as [|b L IH]; intros i h Hval.
  - exists h. auto.
  - assert (Hb : (b < length h)%nat) by (apply Hval, elem_of_cons; auto).
    destruct (lookup_lt_is_Some_2 h b Hb) as [B HB].
    cbn [Number_Blobs]. rewrite HB. destruct (FP B) as [t|] eqn:HF.
    + apply IH. intros a Ha. apply Hval, elem_of_cons. auto.
    + edestruct (IH (Int.add i 1)) as (h' & Hn & Hl & Hlen);
        [|exists h'; split; [exact Hn|]].
      * intros a Ha. rewrite length_insert. apply Hval, elem_of_cons. auto.
      * rewrite length_insert in Hlen. split; [|exact Hlen].
        intros a. rewrite <- Hl. unfold link.
        destruct (decide (a = b)) as [Heq|Hne].
        -- subst a. rewrite list_lookup_insert_eq by exact Hb. rewrite HB.
           cbn. rewrite HF. reflexivity.
        -- rewrite list_lookup_insert_ne by congruence. reflexivity.
Qed.

(** [Blob_Finder] returns, and returns the active blobs that are not
    forwarded; once the caller has released them with [Free_Blobs] the pool is
    fit for the next frame. *)
Lemma Blob_Finder_returns (DensityMap : list Z) (Width Height Bth : Z)
    (st : Store) :
  store_ok st ->
  (Z.to_nat Width * Z.to_nat Height <= length DensityMap)%nat ->
  exists (bs : list addr) (st' : Store),
    Blob_Finder DensityMap Width Height Bth st = Some (bs, st') /\
    NoDup bs /\
    (forall b, b ∈ bs -> is_root (heap st') b) /\
    store_ok (Free_Blobs bs st').
Proof.
  intros Hst Hdm. unfold Blob_Finder.
  destruct (find_rows_spec false (Z.to_nat Width) (Z.to_nat Height) Bth
              DensityMap st (Z.to_nat Height) Hst Hdm ltac:(lia))
    as (s & Hrun & Hs & _).
  rewrite Hrun. unfold shape_of in Hs.
  assert (Hval : forall b, b ∈ Blobs s -> (b < length (heap (store s)))%nat).
  { intros b Hb. eapply shape_valid; [exact Hs|]. apply elem_of_app. auto. }
  rewrite Reap_FP_Blobs_eq by exact Hval.
  set (bs := List.filter (fun b => negb (forwarded (heap (store s)) b)) (Blobs s)).
  assert (Hbs : forall b, b ∈ bs ->
            b ∈ Blobs s /\ forwarded (heap (store s)) b = false).
  { intros b Hb. unfold bs in Hb. apply list_elem_of_In, filter_In in Hb as [Hb Hf].
    split; [apply list_elem_of_In, Hb|]. destruct (forwarded _ b); [discriminate|auto]. }
  destruct (Number_Blobs_links bs 1 (heap (store s))) as (h' & Hn & Hl & Hlen).
  { intros b Hb. apply Hval, Hbs, Hb. }
  rewrite Hn. exists bs, (mkStore h' (rev (List.filter (forwarded (heap (store s))) (Blobs s))
                                      ++ FreeBlobs (store s))).
  split; [reflexivity|]. split; [|split].
  - unfold bs. apply NoDup_ListNoDup, List.NoDup_filter, NoDup_ListNoDup.
    pose proof (shape_nodup _ _ _ _ _ _ Hs) as Hnd.
    apply NoDup_app in Hnd as (Hnd & _). exact Hnd.
  - intros b Hb. destruct (Hbs b Hb) as [HbL Hf]. cbn [heap].
    destruct (lookup_lt_is_Some_2 _ _ (Hval b HbL)) as [B HB].
    unfold forwarded in Hf. rewrite HB in Hf.
    destruct (link_inv _ _ _ _ (Hl b) HB) as (B' & HB' & HF' & _).
    exists B'. split; [exact HB'|]. rewrite HF'.
    destruct (FP B); [discriminate|reflexivity].
  - unfold store_ok, Free_Blobs. cbn [heap FreeBlobs]. unfold bs. split.
    + rewrite reap_Permutation. eapply shape_nodup, Hs.
    + intros b Hb. rewrite reap_Permutation in Hb. rewrite Hlen.
      eapply shape_valid; eassumption.
Qed.

(** C3: the registration point kept by [Merge_Blobs] is not the
    lexicographically smaller one: the test compares [Blob1]'s [Xreg] with
    [Blob2]'s [Yreg].  Two blobs registered in row 3 at columns 0 and 2 that
    meet in row 4 are merged into a blob registered at (2, 3), both by
    [Merge_Blobs] alone and in a run of [Blob_Finder]. *)
Theorem Merge_Blobs_registration_defect :
  (map (fun B => (Xreg B, Yreg B))
     <$> Merge_Blobs 0 1 4
           [mkBlob 0 2 3 2 3 2 3 1 2 3 (-1) None;
            mkBlob 0 1 8 0 3 1 4 3 0 3 (-1) None]) =
    Some [(2, 3); (2, 3)] /\
  blobs_of (Blob_Finder [0; 0; 0;
                         0; 0; 0;
                         0; 0; 0;
                         1; 0; 1;
                         1; 1; 1] 3 5 1 empty_store) =
    Some [mkBlob 1 5 18 0 3 2 4 5 2 3 (-1) None].
Proof. split; reflexivity. Qed.

End RollersFacts.

Module UtilsFacts.
Import Utils.

Lemma wrap_mod_256 (z : Z) : Int.wrap z mod 256 = z mod 256.
Proof.
  unfold Int.wrap.
  pose proof (Z.div_mod (z + 2147483648) 4294967296 ltac:(lia)) as Hdm.
  replace ((z + 2147483648) mod 4294967296 - 2147483648)
    with (z + (- (16777216 * ((z + 2147483648) / 4294967296))) * 256) by lia.
  apply Z.mod_add. lia.
Qed.

Lemma shl2_small (a : Z) : 0 <= a <= 255 -> shl a 2 = 4 * a.
Proof.
  intros Ha. unfold shl. rewrite Z.shiftl_mul_pow2 by lia. change (2 ^ 2) with 4.
  rewrite IntFacts.wrap_small; [lia|]. unfold Int.in_range, Int.min_int, Int.max_int. lia.
Qed.

Lemma Rainbow_ramp (X : Z) :
  0 <= X <= 255 ->
  Rainbow X =
    if X <? 64 then mkPixel 0 (4 * X) 255
    else if X <? 128 then mkPixel 0 255 (255 - 4 * (X - 64))
    else if X <? 192 then mkPixel (4 * (X - 128)) 255 0
    else mkPixel 255 (255 - 4 * (X - 192)) 0.
Proof.
  intros HX. unfold Rainbow, to_byte, Int.sub.
  assert (Hrem : Z.rem X 64 = X mod 64) by (apply Z.rem_mod_nonneg; lia).
  rewrite Hrem.
  pose proof (Z.mod_pos_bound X 64 ltac:(lia)) as Hm.
  rewrite !wrap_mod_256, !shl2_small by lia.
  destruct (Z.ltb_spec X 64); [f_equal; rewrite Z.mod_small; lia|].
  destruct (Z.ltb_spec X 128).
  { replace (X mod 64) with (X - 64).
    - f_equal. rewrite Z.mod_small; lia.
    - apply Z.mod_unique with 1; lia. }
  destruct (Z.ltb_spec X 192).
  { replace (X mod 64) with (X - 128).
    - f_equal. rewrite Z.mod_small; lia.
    - apply Z.mod_unique with 2; lia. }
  replace (X mod 64) with (X - 192).
  - f_equal. rewrite Z.mod_small; lia.
  - apply Z.mod_unique with 3; lia.
Qed.

(** X1: for a byte [X], [Rainbow] gives a pixel of bytes at full intensity
    and full saturation (its largest channel is 255, its smallest 0): below
    128 red is off and blue is on, from 128 blue is off and green is on; and
    two different bytes get two different colours. *)
Theorem Rainbow_spectrum (X X' : Z) :
  0 <= X <= 255 -> 0 <= X' <= 255 ->
  Pixel_ok (Rainbow X) /\
  Z.max (R (Rainbow X)) (Z.max (G (Rainbow X)) (B (Rainbow X))) = 255 /\
  Z.min (R (Rainbow X)) (Z.min (G (Rainbow X)) (B (Rainbow X))) = 0 /\
  (X < 128 -> R (Rainbow X) = 0 /\ B (Rainbow X) <> 0) /\
  (128 <= X -> B (Rainbow X) = 0 /\ G (Rainbow X) <> 0) /\
  (Rainbow X = Rainbow X' -> X = X').
Proof.
  intros HX HX'. rewrite !Rainbow_ramp by assumption.
  unfold Pixel_ok, byte_ok.
  destruct (Z.ltb_spec X 64); [|destruct (Z.ltb_spec X 128);
                                 [|destruct (Z.ltb_spec X 192)]];
  cbn [R G B];
  (repeat split; try lia;
   destruct (Z.ltb_spec X' 64); [|destruct (Z.ltb_spec X' 128);
                                   [|destruct (Z.ltb_spec X' 192)]];
   intros [=]; lia).
Qed.

Lemma Rainbow_spectrum_witness :
  Pixel_ok (Rainbow 200) /\
  Z.max (R (Rainbow 200)) (Z.max (G (Rainbow 200)) (B (Rainbow 200))) = 255 /\
  Z.min (R (Rainbow 200)) (Z.min (G (Rainbow 200)) (B (Rainbow 200))) = 0 /\
  (200 < 128 -> R (Rainbow 200) = 0 /\ B (Rainbow 200) <> 0) /\
  (128 <= 200 -> B (Rainbow 200) = 0 /\ G (Rainbow 200) <> 0) /\
  (Rainbow 200 = Rainbow 7 -> 200 = 7).
Proof. apply (Rainbow_spectrum 200 7); lia. Defined.

Lemma shl8_byte (z : Z) : to_byte (shl z 8) = 0.
Proof.
  unfold to_byte, shl. rewrite wrap_mod_256, Z.shiftl_mul_pow2 by lia.
  change (2 ^ 8) with 256. apply Z.mod_mul. lia.
Qed.

(** X2: [RainbowMod] writes the black pixel whatever the hue [X] and the
    intensity [Y]: each channel is the low byte of a product shifted left by
    8 bits. *)
Theorem RainbowMod_black (X Y : Z) : RainbowMod X Y = black.
Proof. unfold RainbowMod. rewrite !shl8_byte. reflexivity. Qed.

End UtilsFacts.

Module ModelFacts.
Import MMM.

(** *** The predominant cell *)

Lemma Predominant_loop_spec (Cells : list Cell) :
  forall (i k0 : nat) (m0 t0 : Z),
  exists k : nat,
    Predominant_loop Cells i k0 m0 (Int.wrap t0) =
      (k, Int.wrap (t0 + total_count Cells)) /\
    ((k = k0 /\ Forall (fun c => Count c <= m0) Cells) \/
     (exists (j : nat) (c : Cell),
        k = (i + j)%nat /\ Cells !! j = Some c /\ m0 < Count c /\
        Forall (fun c' => Count c' <= Count c) Cells /\
        forall (j' : nat) (c' : Cell),
          (j' < j)%nat -> Cells !! j' = Some c' -> Count c' < Count c)).
Proof.
  induction Cells as [|c rest IH]; intros i k0 m0 t0.
  - exists k0. cbn. rewrite Z.add_0_r. split; [reflexivity|]. left. auto.
  - cbn [Predominant_loop total_count fold_right]. unfold Int.add at 1 2.
    rewrite IntFacts.wrap_add_l.
    replace (t0 + (Count c + fold_right (fun c t => Count c + t) 0 rest))
      with (t0 + Count c + total_count rest) by (unfold total_count; lia).
    destruct (Z.ltb_spec m0 (Count c)) as [Hlt|Hge].
    + destruct (IH (S i) i (Count c) (t0 + Count c)) as (k & -> & Hk).
      exists k. split; [reflexivity|]. right.
      destruct Hk as [[-> Hall]|(j & c1 & -> & Hj & Hlt1 & Hall & Hfirst)].
      * exists 0%nat, c. split; [lia|]. split; [reflexivity|]. split; [exact Hlt|].
        split; [constructor; [lia|exact Hall]|]. intros j' c' Hj'. lia.
      * exists (S j), c1. split; [lia|]. split; [exact Hj|]. split; [lia|].
        split; [constructor; [lia|exact Hall]|].
        intros [|j'] c' Hj' Hc'; [injection Hc' as <-; lia|].
        eapply Hfirst; [|exact Hc']. lia.
    + destruct (IH (S i) k0 m0 (t0 + Count c)) as (k & -> & Hk).
      exists k. split; [reflexivity|].
      destruct Hk as [[-> Hall]|(j & c1 & -> & Hj & Hlt1 & Hall & Hfirst)].
      * left. split; [reflexivity|]. constructor; [lia|exact Hall].
      * right. exists (S j), c1. split; [lia|]. split; [exact Hj|]. split; [lia|].
        split; [constructor; [lia|exact Hall]|].
        intros [|j'] c' Hj' Hc'; [injection Hc' as <-; lia|].
        eapply Hfirst; [|exact Hc']. lia.
Qed.

(** X3: [Predominant_Cell] is undefined on the empty set; on any other set
    it returns the first cell whose [Count] is the largest of the set (every
    cell before it has a smaller count), and [*TotalCount] is the sum of the
    counts as an int. *)
Theorem Predominant_Cell_first_largest (Cells : list Cell) :
  Predominant_Cell [] = None /\
  (Cells <> [] ->
   exists (k : nat) (c : Cell),
     Predominant_Cell Cells = Some (k, Int.wrap (total_count Cells)) /\
     Cells !! k = Some c /\
     (forall c' : Cell, In c' Cells -> Count c' <= Count c) /\
     (forall (j : nat) (c' : Cell),
        (j < k)%nat -> Cells !! j = Some c' -> Count c' < Count c)).
Proof.
  split; [reflexivity|]. intros Hne.
  destruct Cells as [|c0 rest]; [congruence|].
  unfold Predominant_Cell.
  destruct (Predominant_loop_spec (c0 :: rest) 0 0 (Count c0) 0)
    as (k & Hrun & Hk).
  change (Int.wrap 0) with 0 in Hrun. rewrite Hrun. cbn [Z.add].
  destruct Hk as [[-> Hall]|(j & c & -> & Hj & Hlt & Hall & Hfirst)].
  - exists 0%nat, c0. split; [reflexivity|]. split; [reflexivity|].
    split; [|intros j c' Hj; lia].
    intros c' Hin. exact (proj1 (List.Forall_forall _ _) Hall c' Hin).
  - exists j, c. split; [reflexivity|]. split; [exact Hj|].
    split; [|exact Hfirst].
    intros c' Hin. exact (proj1 (List.Forall_forall _ _) Hall c' Hin).
Qed.

Lemma Predominant_Cell_first_largest_witness :
  exists (k : nat) (c : Cell),
    Predominant_Cell [mkCell 10 10 10 2; mkCell 90 90 90 5; mkCell 7 7 7 5] =
      Some (k, Int.wrap (total_count
                  [mkCell 10 10 10 2; mkCell 90 90 90 5; mkCell 7 7 7 5])) /\
    [mkCell 10 10 10 2; mkCell 90 90 90 5; mkCell 7 7 7 5] !! k = Some c /\
    (forall c' : Cell,
       In c' [mkCell 10 10 10 2; mkCell 90 90 90 5; mkCell 7 7 7 5] ->
       Count c' <= Count c) /\
    (forall (j : nat) (c' : Cell),
       (j < k)%nat ->
       [mkCell 10 10 10 2; mkCell 90 90 90 5; mkCell 7 7 7 5] !! j = Some c' ->
       Count c' < Count c).
Proof.
  apply (Predominant_Cell_first_largest
           [mkCell 10 10 10 2; mkCell 90 90 90 5; mkCell 7 7 7 5]).
  discriminate.
Defined.

(** *** The other matchers *)

Lemma div_one (a : Z) : Int.div a 1 = Some a.
Proof.
  unfold Int.div. cbn [Z.eqb]. rewrite andb_false_r, Z.quot_1_r. reflexivity.
Qed.

Lemma cells_close_seed (P : Utils.Pixel) (c : Cell) (Epsilon : Z) :
  cells_close (seed P) c Epsilon = cell_close P c Epsilon.
Proof.
  unfold cells_close, cell_close, ratio_close, channel_close, seed.
  cbn [R G B Count]. rewrite !div_one.
  destruct (Int.div (R c) (Count c)); [|reflexivity].
  destruct (_ <=? _); [|reflexivity].
  destruct (Int.div (G c) (Count c)); [|reflexivity].
  destruct (_ <=? _); [|reflexivity].
  destruct (Int.div (B c) (Count c)); reflexivity.
Qed.

(** X4: [Match_Cell] given the one-observation cell of a pixel does exactly
    what [Ratio_Match_Pixel] does given the pixel: the same result, the same
    set afterwards, undefined on the same sets. *)
Theorem Match_Cell_seed (P : Utils.Pixel) (Cells : list Cell) (Epsilon : Z) :
  Match_Cell (seed P) Cells Epsilon = Ratio_Match_Pixel P Cells Epsilon.
Proof.
  induction Cells as [|c rest IH]; [reflexivity|].
  cbn [Match_Cell Ratio_Match_Pixel]. rewrite cells_close_seed, IH.
  reflexivity.
Qed.


Lemma scalar_close_locked (P : Utils.Pixel) (c : Cell) (Epsilon r g b n : Z) :
  Int.div (R c) (Count c) = Some r -> Int.div (G c) (Count c) = Some g ->
  Int.div (B c) (Count c) = Some b ->
  cell_close P c Epsilon = Some (scalar_close P (mkCell r g b n) Epsilon).
Proof.
  intros Hr Hg Hb. unfold cell_close, channel_close, scalar_close.
  rewrite Hr, Hg, Hb. cbn [R G B].
  destruct (_ <=? _); [|reflexivity].
  destruct (_ <=? _); reflexivity.
Qed.

(** X5: after [Color_Lock] has turned a set from sums to colours,
    [Scalar_Match_Pixel] picks the cell [Ratio_Match_Pixel] would have picked
    in the set before the lock (or none when it picks none); the picked cell
    keeps its colour and has its [Count] decremented, and no other cell
    changes. *)
Theorem Scalar_Match_Pixel_after_Color_Lock (P : Utils.Pixel)
    (Cells Locked : list Cell) (Clear Epsilon : Z) :
  Color_Lock Cells Clear = Some Locked ->
  length Locked = length Cells /\
  (exists Cells' : list Cell,
     Ratio_Match_Pixel P Cells Epsilon =
       Some (fst (Scalar_Match_Pixel P Locked Epsilon), Cells')) /\
  (forall (k : nat) (c : Cell),
     fst (Scalar_Match_Pixel P Locked Epsilon) = Some k ->
     Locked !! k = Some c ->
     snd (Scalar_Match_Pixel P Locked Epsilon) =
       <[k := mkCell (R c) (G c) (B c) (Int.sub (Count c) 1)]> Locked) /\
  (fst (Scalar_Match_Pixel P Locked Epsilon) = None ->
   snd (Scalar_Match_Pixel P Locked Epsilon) = Locked).
Proof.
  revert Locked. induction Cells as [|c rest IH]; intros Locked Hlock.
  - injection Hlock as <-. cbn. split; [reflexivity|].
    split; [eexists; reflexivity|]. split; [intros k c [=]|reflexivity].
  - cbn [Color_Lock] in Hlock.
    destruct (Int.div (R c) (Count c)) as [r|] eqn:Hr; [|discriminate].
    destruct (Int.div (G c) (Count c)) as [g|] eqn:Hg; [|discriminate].
    destruct (Int.div (B c) (Count c)) as [b|] eqn:Hb; [|discriminate].
    destruct (Color_Lock rest Clear) as [Locked'|]; [|discriminate].
    injection Hlock as <-.
    destruct (IH Locked' eq_refl) as (Hlen & [Cells' Hrun] & Hhit & Hmiss).
    cbn [Ratio_Match_Pixel Scalar_Match_Pixel].
    rewrite (scalar_close_locked P c Epsilon r g b
               (if Clear =? 0 then Int.sub 0 (Count c) else 0) Hr Hg Hb).
    destruct (scalar_close P _ Epsilon).
    + cbn [fst snd length]. split; [congruence|].
      split; [eexists; reflexivity|].
      split; [|discriminate].
      intros k c' [= <-] [= <-]. reflexivity.
    + rewrite Hrun.
      destruct (Scalar_Match_Pixel P Locked' Epsilon) as [r' rest'] eqn:Hs.
      cbn [fst snd length] in *. split; [congruence|].
      split; [eexists; reflexivity|]. split.
      * intros k c' Hk Hc'. destruct r' as [k'|]; [|discriminate].
        injection Hk as <-. cbn in Hc'.
        rewrite (Hhit k' c' eq_refl Hc'). reflexivity.
      * intros Hk. destruct r' as [k'|]; [discriminate|].
        rewrite (Hmiss eq_refl). reflexivity.
Qed.

Lemma Scalar_Match_Pixel_after_Color_Lock_witness :
  length [mkCell 30 20 10 (-3); mkCell 100 50 25 (-1)] =
    length [mkCell 90 60 30 3; mkCell 100 50 25 1] /\
  (exists Cells' : list Cell,
     Ratio_Match_Pixel (Utils.mkPixel 101 50 25)
       [mkCell 90 60 30 3; mkCell 100 50 25 1] 2 =
       Some (fst (Scalar_Match_Pixel (Utils.mkPixel 101 50 25)
                    [mkCell 30 20 10 (-3); mkCell 100 50 25 (-1)] 2), Cells')) /\
  (forall (k : nat) (c : Cell),
     fst (Scalar_Match_Pixel (Utils.mkPixel 101 50 25)
            [mkCell 30 20 10 (-3); mkCell 100 50 25 (-1)] 2) = Some k ->
     [mkCell 30 20 10 (-3); mkCell 100 50 25 (-1)] !! k = Some c ->
     snd (Scalar_Match_Pixel (Utils.mkPixel 101 50 25)
            [mkCell 30 20 10 (-3); mkCell 100 50 25 (-1)] 2) =
       <[k := mkCell (R c) (G c) (B c) (Int.sub (Count c) 1)]>
         [mkCell 30 20 10 (-3); mkCell 100 50 25 (-1)]) /\
  (fst (Scalar_Match_Pixel (Utils.mkPixel 101 50 25)
          [mkCell 30 20 10 (-3); mkCell 100 50 25 (-1)] 2) = None ->
   snd (Scalar_Match_Pixel (Utils.mkPixel 101 50 25)
          [mkCell 30 20 10 (-3); mkCell 100 50 25 (-1)] 2) =
     [mkCell 30 20 10 (-3); mkCell 100 50 25 (-1)]).
Proof.
  apply (Scalar_Match_Pixel_after_Color_Lock (Utils.mkPixel 101 50 25)
           [mkCell 90 60 30 3; mkCell 100 50 25 1]
           [mkCell 30 20 10 (-3); mkCell 100 50 25 (-1)] 0 2).
  reflexivity.
Defined.


(** *** From a frame to a model and back *)

Lemma Create_Initial_BGM_loop_spec (Frm : list Utils.Pixel) (m : nat) :
  forall (a : nat) (FreeCells : list Cell),
  (a + m <= length Frm)%nat ->
  exists FreeCells' : list Cell,
    Create_Initial_BGM_loop (seq a m) Frm FreeCells =
      Some (map (fun P => [seed P]) (take m (drop a Frm)), FreeCells').
Proof.
  induction m as [|m IH]; intros a FreeCells Ha.
  - eexists. reflexivity.
  - cbn [seq Create_Initial_BGM_loop].
    destruct (lookup_lt_is_Some_2 Frm a ltac:(lia)) as [P HP]. rewrite HP.
    destruct (Allocate_Cell FreeCells) as [c F1].
    destruct (IH (S a) F1 ltac:(lia)) as [F2 ->].
    exists F2. rewrite (drop_S _ _ _ HP). reflexivity.
Qed.

Lemma to_byte_small (z : Z) : Utils.byte_ok z -> Utils.to_byte z = z.
Proof. unfold Utils.byte_ok, Utils.to_byte. intros Hz. apply Z.mod_small. lia. Qed.




(** [malloc] refuses the table of sets exactly when the int number of sets
    is negative. *)
Lemma malloc_refuses_int (n : Z) :
  Int.in_range n -> malloc_refuses n sizeof_ptr = (n <? 0).
Proof.
  unfold Int.in_range, Int.min_int, Int.max_int, malloc_refuses, size_t,
    PTRDIFF_MAX, sizeof_ptr.
  change (2 ^ 64) with 18446744073709551616.
  change (2 ^ 63 - 1) with 9223372036854775807.
  intros Hn. destruct (Z.ltb_spec n 0) as [Hneg|Hpos].
  - rewrite <- (Z.mod_unique n 18446744073709551616 (-1) (n + 18446744073709551616))
      by lia.
    rewrite <- (Z.mod_unique ((n + 18446744073709551616) * 8) 18446744073709551616 7
                  (18446744073709551616 + 8 * n)) by lia.
    apply Z.ltb_lt. lia.
  - rewrite (Z.mod_small n) by lia. rewrite Z.mod_small by lia.
    apply Z.ltb_ge. lia.
Qed.



(** *** Decimation and the colour of a cell *)

Lemma div_pos (s n : Z) : 0 <= s <= Int.max_int -> 0 < n ->
  Int.div s n = Some (s / n).
Proof.
  intros Hs Hn. unfold Int.div.
  destruct (Z.eqb_spec n 0); [lia|].
  destruct (Z.eqb_spec n (-1)); [lia|]. rewrite andb_false_r.
  rewrite Z.quot_div_nonneg by lia. reflexivity.
Qed.





(** *** The counts over a run *)

Lemma wrap_succ (n N : Z) : 0 < n <= N -> N < Int.max_int ->
  Int.add n 1 = n + 1.
Proof.
  intros Hn HN. unfold Int.add. apply IntFacts.wrap_small.
  unfold Int.in_range, Int.min_int, Int.max_int in *. lia.
Qed.

Lemma Ratio_Match_Pixel_sound (P : Utils.Pixel) (Epsilon N : Z) (Cells : list Cell) :
  N < Int.max_int -> Forall (fun c => 0 < Count c <= N) Cells ->
  exists (r : option nat) (Cells' : list Cell),
    Ratio_Match_Pixel P Cells Epsilon = Some (r, Cells') /\
    length Cells' = length Cells /\
    Forall (fun c => 0 < Count c <= N + 1) Cells' /\
    (forall k, r = Some k -> is_Some (Cells' !! k)).
Proof.
  intros HN. induction 1 as [|c rest Hc Hrest IH].
  - exists None, []. repeat split; [constructor|intros k [=]].
  - destruct IH as (r & rest' & Hrun & Hlen & Hall & Hk).
    cbn [Ratio_Match_Pixel].
    assert (Hdiv : forall sum, Int.div sum (Count c) = Some (sum ÷ Count c)).
    { intros sum. unfold Int.div.
      destruct (Z.eqb_spec (Count c) 0) as [|_]; [lia|].
      destruct (Z.eqb_spec (Count c) (-1)) as [|_]; [lia|].
      rewrite andb_false_r. reflexivity. }
    assert (Hclose : exists b, cell_close P c Epsilon = Some b).
    { unfold cell_close, channel_close. rewrite !Hdiv.
      repeat match goal with |- context [if ?b then _ else _] => destruct b end;
        eauto. }
    assert (Hweak : Forall (fun c => 0 < Count c <= N + 1) rest).
    { eapply Forall_impl; [exact Hrest|]. cbn. intros; lia. }
    destruct Hclose as [[|] ->].
    + eexists (Some 0%nat), _. split; [reflexivity|]. split; [reflexivity|].
      split; [|intros k [= <-]; eexists; reflexivity].
      constructor; [|exact Hweak]. unfold assimilate. cbn [Count].
      rewrite (wrap_succ _ N) by lia. lia.
    + rewrite Hrun. eexists (S <$> r), _. split; [reflexivity|].
      split; [cbn; congruence|]. split; [constructor; [lia|exact Hall]|].
      intros k Hr. destruct r as [k'|]; [|discriminate].
      injection Hr as <-. exact (Hk k' eq_refl).
Qed.

Lemma Last_Cell_Some (set : list Cell) : set <> [] -> is_Some (Last_Cell set).
Proof.
  induction set as [|c [|c' rest] IH]; [congruence|eexists; reflexivity|].
  intros _. apply IH. discriminate.
Qed.

Lemma Forall_removelast {A} (Q : A -> Prop) (l : list A) :
  Forall Q l -> Forall Q (removelast l).
Proof.
  induction 1 as [|x [|y l] Hx Hl IH]; [constructor|constructor|].
  cbn [removelast]. constructor; [exact Hx|exact IH].
Qed.

Lemma Add_Cell_sound (P : Utils.Pixel) (set FreeCells : list Cell) (Cth N : Z) :
  0 <= N -> sound_set N set ->
  exists set' FreeCells',
    Add_Cell P set Cth FreeCells = Some (set', FreeCells') /\
    sound_set (N + 1) set'.
Proof.
  intros HN [Hne Hall]. unfold Add_Cell.
  destruct (Last_Cell_Some set Hne) as [LastCell ->].
  assert (Hweak : Forall (fun c => 0 < Count c <= N + 1) set).
  { eapply Forall_impl; [exact Hall|]. cbn. intros; lia. }
  assert (Hseed : Forall (fun c => 0 < Count c <= N + 1) [seed P]).
  { constructor; [cbn; lia|constructor]. }
  destruct (Cth <=? Count LastCell).
  - destruct (Allocate_Cell FreeCells) as [c F']. eexists _, _.
    split; [reflexivity|]. split; [destruct set; discriminate|].
    apply Forall_app. auto.
  - eexists _, _. split; [reflexivity|].
    split; [destruct (removelast set); discriminate|].
    apply Forall_app. split; [apply Forall_removelast, Hweak|exact Hseed].
Qed.

Lemma Learn_Pixel_sound (P : Utils.Pixel) (set FreeCells : list Cell)
    (Epsilon Cth N : Z) :
  N < Int.max_int -> sound_set N set ->
  exists set' FreeCells',
    Learn_Pixel Epsilon Cth P set FreeCells = Some (set', FreeCells') /\
    sound_set (N + 1) set'.
Proof.
  intros HN Hset. pose proof Hset as [Hne Hall]. unfold Learn_Pixel.
  destruct (Ratio_Match_Pixel_sound P Epsilon N set HN Hall)
    as (r & set' & -> & Hlen & Hall' & Hk).
  destruct r as [k|].
  - eexists _, _. split; [reflexivity|]. split; [|exact Hall'].
    destruct set'; [|discriminate]. destruct set; [congruence|discriminate].
  - apply Add_Cell_sound; [|exact Hset].
    destruct set as [|c ?]; [congruence|].
    apply Forall_cons in Hall as [Hc _]. lia.
Qed.

(** A loop over the pixels whose body works on the slot of its pixel only. *)
Section Slots.

Variable body : World -> nat -> option World.
Variable N : Z.
Hypothesis body_slot : forall (w : World) (i : nat) (set : list Cell),
  is_Some (wFrm w !! i) -> wBGM w !! i = Some set -> sound_set N set ->
  exists (w' : World) (set' : list Cell),
    body w i = Some w' /\ wBGM w' = <[i := set']> (wBGM w) /\
    length (wFrm w') = length (wFrm w) /\ sound_set (N + 1) set'.

Lemma for_each_slots (m : nat) :
  forall (a : nat) (w : World),
  (a + m <= length (wFrm w))%nat -> (a + m <= length (wBGM w))%nat ->
  Forall (sound_set (N + 1)) (take a (wBGM w)) ->
  Forall (sound_set N) (drop a (wBGM w)) ->
  exists w' : World,
    for_each body (seq a m) w = Some w' /\
    length (wBGM w') = length (wBGM w) /\
    Forall (sound_set (N + 1)) (take (a + m) (wBGM w')) /\
    Forall (sound_set N) (drop (a + m) (wBGM w')).
Proof.
  induction m as [|m IH]; intros a w HF HB Hdone Htodo.
  - exists w. rewrite Nat.add_0_r. cbn. auto.
  - cbn [seq for_each].
    destruct (lookup_lt_is_Some_2 (wBGM w) a ltac:(lia)) as [set Hset].
    rewrite (drop_S _ _ _ Hset) in Htodo. apply Forall_cons in Htodo as [Hs Htodo].
    destruct (body_slot w a set (lookup_lt_is_Some_2 (wFrm w) a ltac:(lia)) Hset Hs)
      as (w1 & set' & -> & HB1 & HF1 & Hs').
    destruct (IH (S a) w1) as (w' & Hrun & Hlen & Hdone' & Htodo').
    + lia.
    + rewrite HB1, length_insert. lia.
    + rewrite HB1. rewrite (take_S_r _ _ set').
      * rewrite take_insert_ge by lia. apply Forall_app. split; [exact Hdone|].
        constructor; [exact Hs'|constructor].
      * apply list_lookup_insert_eq. lia.
    + rewrite HB1, drop_insert_lt by lia. exact Htodo.
    + exists w'. split; [exact Hrun|].
      rewrite Hlen, HB1, length_insert.
      replace (a + S m)%nat with (S a + m)%nat by lia. auto.
Qed.

End Slots.

Lemma Process_Pixel_FG_slot (Epsilon Cth N : Z) :
  N < Int.max_int ->
  forall (w : World) (i : nat) (set : list Cell),
  is_Some (wFrm w !! i) -> wBGM w !! i = Some set -> sound_set N set ->
  exists (w' : World) (set' : list Cell),
    Process_Pixel_FG Epsilon Cth w i = Some w' /\
    wBGM w' = <[i := set']> (wBGM w) /\
    length (wFrm w') = length (wFrm w) /\ sound_set (N + 1) set'.
Proof.
  intros HN w i set [P HP] Hset Hs. unfold Process_Pixel_FG. rewrite HP, Hset.
  destruct (Learn_Pixel_sound P set (wFree w) Epsilon Cth N HN Hs)
    as (set' & F' & Hlearn & Hs').
  unfold Learn_Pixel in Hlearn.
  destruct (Ratio_Match_Pixel_sound P Epsilon N set HN (proj2 Hs))
    as (r & set1 & Hrun & _ & _ & Hk).
  rewrite Hrun in *. destruct r as [k|].
  - destruct (Hk k eq_refl) as [Result ->]. injection Hlearn as <- <-.
    eexists _, set1. split; [reflexivity|]. cbn [wBGM wFrm].
    split; [reflexivity|]. split; [|exact Hs'].
    destruct (Cth <=? Count Result); [apply length_insert|reflexivity].
  - rewrite Hlearn. eexists _, set'. split; [reflexivity|]. cbn [wBGM wFrm]. auto.
Qed.

Lemma paint_predominant_sound (set : list Cell) (Frm : list Utils.Pixel)
    (i : nat) (N : Z) :
  sound_set N set -> (i < length Frm)%nat ->
  exists Frm', paint_predominant set Frm i = Some Frm' /\
               length Frm' = length Frm.
Proof.
  intros [Hne Hall] Hi. unfold paint_predominant.
  destruct set as [|c0 rest]; [congruence|]. unfold Predominant_Cell.
  destruct (Predominant_loop_spec (c0 :: rest) 0 0 (Count c0) 0)
    as (k & Hrun & Hk).
  change (Int.wrap 0) with 0 in Hrun. rewrite Hrun.
  assert (Hc : exists c, (c0 :: rest) !! k = Some c).
  { destruct Hk as [[-> _]|(j & c & -> & Hj & _)]; eauto. }
  destruct Hc as [c Hc]. rewrite Hc.
  assert (Hpos : 0 < Count c <= N).
  { exact (proj1 (Forall_lookup _ _) Hall k c Hc). }
  assert (Hdiv : forall sum, Int.div sum (Count c) = Some (sum ÷ Count c)).
  { intros sum. unfold Int.div.
    destruct (Z.eqb_spec (Count c) 0) as [|_]; [lia|].
    destruct (Z.eqb_spec (Count c) (-1)) as [|_]; [lia|].
    rewrite andb_false_r. reflexivity. }
  unfold mean_pixel. rewrite !Hdiv, decide_True by exact Hi.
  eexists. split; [reflexivity|]. apply length_insert.
Qed.

Lemma Process_Pixel_BG_slot (Epsilon Cth N : Z) :
  N < Int.max_int ->
  forall (w : World) (i : nat) (set : list Cell),
  is_Some (wFrm w !! i) -> wBGM w !! i = Some set -> sound_set N set ->
  exists (w' : World) (set' : list Cell),
    Process_Pixel_BG Epsilon Cth w i = Some w' /\
    wBGM w' = <[i := set']> (wBGM w) /\
    length (wFrm w') = length (wFrm w) /\ sound_set (N + 1) set'.
Proof.
  intros HN w i set [P HP] Hset Hs. unfold Process_Pixel_BG. rewrite HP, Hset.
  destruct (Learn_Pixel_sound P set (wFree w) Epsilon Cth N HN Hs)
    as (set' & F' & -> & Hs').
  destruct (paint_predominant_sound set' (wFrm w) i (N + 1) Hs'
              (lookup_lt_Some _ _ _ HP)) as (Frm' & -> & Hlen).
  eexists _, set'. split; [reflexivity|]. cbn [wBGM wFrm]. auto.
Qed.

Lemma sound_set_weaken (N N' : Z) (set : list Cell) :
  N <= N' -> sound_set N set -> sound_set N' set.
Proof.
  intros HN [Hne Hall]. split; [exact Hne|].
  eapply Forall_impl; [exact Hall|]. cbn. intros; lia.
Qed.

Lemma frame_sound (body : World -> nat -> option World) (N : Z)
    (BGM : list (list Cell)) (Frm : list Utils.Pixel) (FreeCells : list Cell)
    (n : nat) :
  (forall (w : World) (i : nat) (set : list Cell),
     is_Some (wFrm w !! i) -> wBGM w !! i = Some set -> sound_set N set ->
     exists (w' : World) (set' : list Cell),
       body w i = Some w' /\ wBGM w' = <[i := set']> (wBGM w) /\
       length (wFrm w') = length (wFrm w) /\ sound_set (N + 1) set') ->
  (n <= length Frm)%nat -> (n <= length BGM)%nat ->
  Forall (sound_set N) BGM ->
  exists w' : World,
    for_each body (seq 0 n) (mkWorld BGM Frm FreeCells) = Some w' /\
    length (wBGM w') = length BGM /\
    Forall (sound_set (N + 1)) (wBGM w').
Proof.
  intros Hbody HF HB Hall.
  destruct (for_each_slots body N Hbody n 0 (mkWorld BGM Frm FreeCells))
    as (w' & Hrun & Hlen & Hdone & Htodo); cbn [wFrm wBGM]; try lia.
  - constructor.
  - exact Hall.
  - exists w'. split; [exact Hrun|]. split; [exact Hlen|].
    rewrite <- (take_drop n (wBGM w')). apply Forall_app. split; [exact Hdone|].
    eapply Forall_impl; [exact Htodo|]. intros set. apply sound_set_weaken. lia.
Qed.

Lemma age_sound (Cth N : Z) (c : Cell) :
  2 <= Cth -> 0 < Count c <= N -> 0 < Count (age Cth c) <= N.
Proof.
  intros HC Hc. unfold age. destruct (Z.leb_spec Cth (Count c)); [|exact Hc].
  cbn [Count].
  assert (1 <= Count c / 2) by (apply Z.div_le_lower_bound; lia).
  pose proof (Z.mul_div_le (Count c) 2 ltac:(lia)). lia.
Qed.

Lemma decimated_sound (Cth N : Z) (set : list Cell) :
  2 <= Cth -> sound_set N set -> sound_set N (decimated Cth set).
Proof.
  intros HC [Hne Hall]. split; [apply MMMFacts.decimated_nonempty, Hne|].
  assert (Haged : Forall (fun c => 0 < Count c <= N) (map (age Cth) set)).
  { apply Forall_fmap. eapply Forall_impl; [exact Hall|].
    intros c. apply age_sound, HC. }
  unfold decimated.
  destruct (List.filter (viable Cth) (map (age Cth) set)) as [|s0 ss] eqn:Hf.
  - destruct (last (map (age Cth) set)) as [c|] eqn:Hlast; [|constructor].
    constructor; [|constructor].
    apply last_Some in Hlast as [l' Hl']. rewrite Hl' in Haged.
    apply Forall_app in Haged as [_ Hc]. exact (proj1 (Forall_singleton _ _) Hc).
  - rewrite <- Hf. apply List.Forall_forall. intros c Hin.
    apply List.filter_In in Hin as [Hin _].
    exact (proj1 (List.Forall_forall _ _) Haged c Hin).
Qed.

(** A run of calls from a sound model. *)
Lemma Drive_sound (Epsilon Cth N : Z) (calls : list Call)
    (BGM : list (list Cell)) (FreeCells : list Cell) :
  2 <= Cth ->
  Forall (sound_set N) BGM ->
  N + Z.of_nat (length calls) <= Int.max_int ->
  Forall (fits (length BGM)) calls ->
  exists (BGM' : list (list Cell)) (FreeCells' : list Cell),
    Drive Epsilon Cth calls BGM FreeCells = Some (BGM', FreeCells') /\
    length BGM' = length BGM /\
    Forall (sound_set (N + Z.of_nat (length calls))) BGM'.
Proof.
  intros HC. revert N BGM FreeCells.
  induction calls as [|call calls IH]; intros N BGM FreeCells Hall HN Hfits.
  - exists BGM, FreeCells. cbn. rewrite Z.add_0_r. auto.
  - apply Forall_cons in Hfits as [Hfit Hfits].
    cbn [length] in HN. rewrite Nat2Z.inj_succ in HN.
    assert (Hnext : forall BGM1 F1,
              length BGM1 = length BGM -> Forall (sound_set (N + 1)) BGM1 ->
              exists BGM' FreeCells',
                Drive Epsilon Cth calls BGM1 F1 = Some (BGM', FreeCells') /\
                length BGM' = length BGM /\
                Forall (sound_set (N + Z.of_nat (length (call :: calls)))) BGM').
    { intros BGM1 F1 Hlen1 Hall1.
      destruct (IH (N + 1) BGM1 F1 Hall1 ltac:(lia)) as (BGM' & F' & Hrun & Hlen & Hall').
      { rewrite Hlen1. exact Hfits. }
      exists BGM', F'. split; [exact Hrun|]. split; [congruence|].
      cbn [length]. rewrite Nat2Z.inj_succ.
      replace (N + Z.succ (Z.of_nat (length calls)))
        with (N + 1 + Z.of_nat (length calls)) by lia. exact Hall'. }
    destruct call as [FB|FB|NumSets]; cbn [Drive fits] in *.
    + destruct Hfit as [HB HF].
      destruct (frame_sound (Process_Pixel_FG Epsilon Cth) N BGM (Utils.Frm FB)
                  FreeCells _ (Process_Pixel_FG_slot Epsilon Cth N ltac:(lia))
                  HF HB Hall) as (w' & Hrun & Hlen & Hall').
      unfold Process_Frame_FG. rewrite Hrun. apply Hnext; assumption.
    + destruct Hfit as [HB HF].
      destruct (frame_sound (Process_Pixel_BG Epsilon Cth) N BGM (Utils.Frm FB)
                  FreeCells _ (Process_Pixel_BG_slot Epsilon Cth N ltac:(lia))
                  HF HB Hall) as (w' & Hrun & Hlen & Hall').
      unfold Process_Frame_BG. rewrite Hrun. apply Hnext; assumption.
    + rewrite MMMFacts.Decimate_BGM_eq by exact Hfit. apply Hnext.
      * rewrite length_app, length_map, length_take, length_drop. lia.
      * rewrite <- (take_drop (Z.to_nat NumSets) BGM) in Hall.
        apply Forall_app in Hall as [Ht Hd]. apply Forall_app. split.
        -- apply Forall_fmap. eapply Forall_impl; [exact Ht|].
           intros set Hs. cbn. apply (sound_set_weaken N); [lia|].
           apply decimated_sound; assumption.
        -- eapply Forall_impl; [exact Hd|].
           intros set. apply sound_set_weaken. lia.
Qed.


Lemma Create_Initial_BGM_loop_sound (Frm : list Utils.Pixel) (Is : list nat) :
  forall (FreeCells : list Cell) (BGM : list (list Cell)) (FreeCells' : list Cell),
  Create_Initial_BGM_loop Is Frm FreeCells = Some (BGM, FreeCells') ->
  length BGM = length Is /\ Forall (sound_set 1) BGM.
Proof.
  induction Is as [|i Is' IH]; intros F BGM F' Hrun.
  - injection Hrun as <- <-. split; [reflexivity|constructor].
  - cbn [Create_Initial_BGM_loop] in Hrun.
    destruct (Frm !! i) as [P|]; [|discriminate].
    destruct (Allocate_Cell F) as [c F1].
    destruct (Create_Initial_BGM_loop Is' Frm F1) as [[BGM1 F2]|] eqn:Hrest;
      [|discriminate].
    injection Hrun as <- <-. destruct (IH _ _ _ Hrest) as [Hlen Hall].
    split; [cbn; congruence|]. constructor; [|exact Hall].
    split; [discriminate|]. constructor; [cbn; lia|constructor].
Qed.

(** X8: with [Cth >= 2] the model never reaches a division by zero.
    [Create_Initial_BGM], on a frame that holds its [Width * Height] pixels
    (a product that is not negative), returns a model of that many sets,
    each a single cell of count 1.  And from a model whose sets are not
    empty and hold counts between 1 and [N], every sequence of
    [Process_Frame_FG], [Process_Frame_BG] and [Decimate_BGM] calls that fit
    the model is defined, as long as [N] plus the number of calls is an int,
    and leaves a model of the same number of sets, not empty, with counts
    between 1 and [N] plus the number of calls. *)
Theorem Drive_defined (Epsilon Cth N : Z) (calls : list Call)
    (BGM : list (list Cell)) (FreeCells : list Cell) :
  2 <= Cth ->
  Forall (sound_set N) BGM ->
  N + Z.of_nat (length calls) <= Int.max_int ->
  Forall (fits (length BGM)) calls ->
  (forall (FB : Utils.FrmBuf) (F : list Cell),
     0 <= Int.mul (Utils.Width FB) (Utils.Height FB) ->
     (Z.to_nat (Int.mul (Utils.Width FB) (Utils.Height FB))
      <= length (Utils.Frm FB))%nat ->
     exists (BGM0 : list (list Cell)) (F0 : list Cell),
       Create_Initial_BGM FB F = Some (Returned (BGM0, F0)) /\
       length BGM0 = Z.to_nat (Int.mul (Utils.Width FB) (Utils.Height FB)) /\
       Forall (sound_set 1) BGM0) /\
  exists (BGM' : list (list Cell)) (FreeCells' : list Cell),
    Drive Epsilon Cth calls BGM FreeCells = Some (BGM', FreeCells') /\
    length BGM' = length BGM /\
    Forall (sound_set (N + Z.of_nat (length calls))) BGM'.
Proof.
  intros HC Hall HN Hfits. split; [|apply Drive_sound; assumption].
  intros FB F Hpos Hlen. unfold Create_Initial_BGM.
  rewrite malloc_refuses_int by apply IntFacts.wrap_in_range.
  destruct (Z.ltb_spec (Int.mul (Utils.Width FB) (Utils.Height FB)) 0); [lia|].
  destruct (Create_Initial_BGM_loop_spec (Utils.Frm FB)
              (Z.to_nat (Int.mul (Utils.Width FB) (Utils.Height FB))) 0 F
              ltac:(lia)) as [F0 Hrun].
  rewrite Hrun. eexists _, F0. split; [reflexivity|].
  destruct (Create_Initial_BGM_loop_sound _ _ _ _ _ Hrun) as [Hl Hs].
  rewrite length_seq in Hl. auto.
Qed.

Lemma Drive_defined_witness :
  (exists (BGM0 : list (list Cell)) (F0 : list Cell),
     Create_Initial_BGM
       (Utils.mkFrmBuf [Utils.mkPixel 9 9 9; Utils.black] 1 2) [] =
       Some (Returned (BGM0, F0)) /\
     length BGM0 = 2%nat /\ Forall (sound_set 1) BGM0) /\
  exists (BGM' : list (list Cell)) (FreeCells' : list Cell),
    Drive 33 4
      [Background (Utils.mkFrmBuf [Utils.mkPixel 9 9 9; Utils.black] 1 2);
       Decimation 2;
       Foreground (Utils.mkFrmBuf [Utils.mkPixel 9 9 9; Utils.mkPixel 200 0 0] 1 2)]
      [[mkCell 9 9 9 1]; [mkCell 0 0 0 1]] [] = Some (BGM', FreeCells') /\
    length BGM' = length [[mkCell 9 9 9 1]; [mkCell 0 0 0 1]] /\
    Forall (sound_set (1 + Z.of_nat (length
      [Background (Utils.mkFrmBuf [Utils.mkPixel 9 9 9; Utils.black] 1 2);
       Decimation 2;
       Foreground (Utils.mkFrmBuf [Utils.mkPixel 9 9 9; Utils.mkPixel 200 0 0] 1 2)])))
      BGM'.
Proof.
  destruct (Drive_defined 33 4 1
              [Background (Utils.mkFrmBuf [Utils.mkPixel 9 9 9; Utils.black] 1 2);
               Decimation 2;
               Foreground (Utils.mkFrmBuf [Utils.mkPixel 9 9 9; Utils.mkPixel 200 0 0] 1 2)]
              [[mkCell 9 9 9 1]; [mkCell 0 0 0 1]] [])
    as [Hinit Hrun].
  - lia.
  - repeat constructor; discriminate.
  - vm_compute. discriminate.
  - repeat constructor; vm_compute; lia.
  - split; [|exact Hrun].
    apply (Hinit (Utils.mkFrmBuf [Utils.mkPixel 9 9 9; Utils.black] 1 2) []).
    + vm_compute. discriminate.
    + vm_compute. lia.
Defined.

(** *** Decimation with a threshold below two *)

Lemma for_each_None {St : Type} (body : St -> nat -> option St) (n i : nat)
    (s : St) :
  (i < n)%nat ->
  (forall s', for_each body (seq 0 i) s = Some s' -> body s' i = None) ->
  for_each body (seq 0 n) s = None.
Proof.
  intros Hi Hbody.
  replace n with (i + S (n - S i))%nat by lia.
  rewrite seq_app, for_each_app. cbn [Nat.add seq for_each].
  destruct (for_each body (seq 0 i) s) as [s'|] eqn:Hrun; [|reflexivity].
  rewrite (Hbody s' eq_refl). reflexivity.
Qed.

(** X9: with [Cth <= 1], [Decimate_BGM] halves the count of a set's only
    cell from 1 to 0 and keeps the cell; [Ratio_Match_Pixel] then divides by
    that zero count for every pixel, so the next [Process_Frame_FG] over the
    position is undefined. *)
Theorem Decimate_BGM_low_threshold (BGM : list (list Cell)) (Cth NumSets : Z)
    (FreeCells : list Cell) (i : nat) (c : Cell) :
  Cth <= 1 -> (Z.to_nat NumSets <= length BGM)%nat ->
  (i < Z.to_nat NumSets)%nat -> BGM !! i = Some [c] -> Count c = 1 ->
  exists (BGM' : list (list Cell)) (FreeCells' : list Cell) (Freed : Z),
    Decimate_BGM BGM Cth NumSets FreeCells = Some (BGM', FreeCells', Freed) /\
    BGM' !! i = Some [halve c] /\ Count (halve c) = 0 /\
    (forall (P : Utils.Pixel) (Epsilon : Z),
       Ratio_Match_Pixel P [halve c] Epsilon = None) /\
    (forall (FB : Utils.FrmBuf) (Epsilon Cth' : Z) (F : list Cell),
       (i < Z.to_nat (Int.mul (Utils.Width FB) (Utils.Height FB)))%nat ->
       Process_Frame_FG BGM' FB Epsilon Cth' F = None).
Proof.
  intros HC HN Hi Hset Hone.
  rewrite MMMFacts.Decimate_BGM_eq by exact HN.
  assert (Hzero : Count (halve c) = 0) by (unfold halve; cbn; rewrite Hone; reflexivity).
  assert (Hdec : decimated Cth [c] = [halve c]).
  { unfold decimated. cbn [map]. rewrite <- MMMFacts.halve_age.
    destruct (Z.leb_spec Cth (Count c)); [|lia].
    cbn [List.filter]. unfold viable. rewrite Hzero.
    destruct (Cth <=? 0); reflexivity. }
  assert (Hmatch : forall P Epsilon, Ratio_Match_Pixel P [halve c] Epsilon = None).
  { intros P Epsilon. cbn [Ratio_Match_Pixel].
    unfold cell_close, channel_close. rewrite Hzero. reflexivity. }
  eexists _, _, _. split; [reflexivity|].
  assert (Hi' : (map (decimated Cth) (take (Z.to_nat NumSets) BGM)
                   ++ drop (Z.to_nat NumSets) BGM) !! i = Some [halve c]).
  { rewrite lookup_app_l by (rewrite length_map, length_take; lia).
    rewrite list_lookup_fmap, lookup_take_lt by lia. rewrite Hset. cbn.
    rewrite Hdec. reflexivity. }
  split; [exact Hi'|]. split; [exact Hzero|]. split; [exact Hmatch|].
  intros FB Epsilon Cth' F Hn. unfold Process_Frame_FG.
  apply (for_each_None _ _ i); [exact Hn|].
  intros w1 Hrun. apply MMMFacts.for_each_FG in Hrun as [Hother _].
  destruct (Hother i ltac:(lia)) as [_ HB]. cbn [wBGM] in HB.
  unfold Process_Pixel_FG. rewrite HB, Hi'.
  destruct (wFrm w1 !! i); [|reflexivity]. rewrite Hmatch. reflexivity.
Qed.

Lemma Decimate_BGM_low_threshold_witness :
  exists (BGM' : list (list Cell)) (FreeCells' : list Cell) (Freed : Z),
    Decimate_BGM [[mkCell 7 7 7 3]; [mkCell 10 20 30 1]] 1 2 [] =
      Some (BGM', FreeCells', Freed) /\
    BGM' !! 1%nat = Some [halve (mkCell 10 20 30 1)] /\
    Count (halve (mkCell 10 20 30 1)) = 0 /\
    (forall (P : Utils.Pixel) (Epsilon : Z),
       Ratio_Match_Pixel P [halve (mkCell 10 20 30 1)] Epsilon = None) /\
    (forall (FB : Utils.FrmBuf) (Epsilon Cth' : Z) (F : list Cell),
       (1 < Z.to_nat (Int.mul (Utils.Width FB) (Utils.Height FB)))%nat ->
       Process_Frame_FG BGM' FB Epsilon Cth' F = None).
Proof.
  apply (Decimate_BGM_low_threshold [[mkCell 7 7 7 3]; [mkCell 10 20 30 1]] 1 2 []
           1%nat (mkCell 10 20 30 1)).
  - lia.
  - simpl. lia.
  - simpl. lia.
  - reflexivity.
  - reflexivity.
Defined.

(** *** A scene that does not change *)

Lemma Ratio_Match_Pixel_scaled (n : Z) (A : Utils.Pixel) (Epsilon : Z) :
  Utils.Pixel_ok A -> 0 <= Epsilon -> 1 <= n -> (n + 1) * 255 <= Int.max_int ->
  Ratio_Match_Pixel A [scaled n A] Epsilon =
  Some (Some 0%nat, [scaled (n + 1) A]).
Proof.
  intros HA Heps Hn Hmax. cbn [Ratio_Match_Pixel].
  rewrite MMMFacts.cell_close_cube, MMMFacts.scaled_matches; try assumption.
  2:{ apply MMMFacts.scaled_ok; [assumption|lia|lia]. }
  unfold assimilate, scaled, Int.add. cbn.
  destruct HA as (HR & HG & HB). unfold Utils.byte_ok, Int.max_int in *.
  rewrite !IntFacts.wrap_small
    by (unfold Int.in_range, Int.min_int, Int.max_int; nia).
  do 3 f_equal. f_equal; lia.
Qed.

Lemma mean_pixel_scaled (n : Z) (A : Utils.Pixel) :
  Utils.Pixel_ok A -> 1 <= n -> n * 255 <= Int.max_int ->
  mean_pixel (scaled n A) = Some A.
Proof.
  intros (HR & HG & HB) Hn Hmax. unfold mean_pixel, scaled. cbn [R G B Count].
  unfold Utils.byte_ok, Int.max_int in *.
  rewrite !div_pos by (unfold Int.max_int; nia).
  rewrite !(Z.mul_comm n), !Z.div_mul by lia.
  rewrite !to_byte_small by assumption. destruct A; reflexivity.
Qed.

Lemma static_loop (body : World -> nat -> option World)
    (h h' : Utils.Pixel -> list Cell) (f : Utils.Pixel -> Utils.Pixel)
    (Frm : list Utils.Pixel) (FreeCells : list Cell) (m : nat) :
  (forall (w : World) (i : nat) (P : Utils.Pixel),
     Frm !! i = Some P -> wFrm w !! i = Some P -> wBGM w !! i = Some (h P) ->
     body w i = Some (mkWorld (<[i := h' P]> (wBGM w)) (<[i := f P]> (wFrm w))
                        (wFree w))) ->
  (m <= length Frm)%nat ->
  for_each body (seq 0 m) (mkWorld (map h Frm) Frm FreeCells) =
  Some (mkWorld (map h' (take m Frm) ++ map h (drop m Frm))
                (map f (take m Frm) ++ drop m Frm) FreeCells).
Proof.
  intros Hbody. induction m as [|m IH]; intros Hm.
  - cbn [seq for_each take map app]. rewrite drop_0. reflexivity.
  - destruct (lookup_lt_is_Some_2 Frm m ltac:(lia)) as [P HP].
    rewrite seq_S, for_each_app, IH by lia. cbn [for_each Nat.add].
    assert (Hlen : length (take m Frm) = m) by (rewrite length_take; lia).
    rewrite (Hbody _ m P HP); cbn [wBGM wFrm wFree].
    + rewrite (take_S_r _ _ _ HP), (drop_S _ _ _ HP).
      rewrite !insert_app_r_alt by (rewrite length_map; lia).
      rewrite !length_map, Hlen, Nat.sub_diag. cbn [insert list_insert map].
      rewrite !map_app, <- !app_assoc. reflexivity.
    + rewrite lookup_app_r by (rewrite length_map; lia).
      rewrite length_map, Hlen, Nat.sub_diag, (drop_S _ _ _ HP). reflexivity.
    + rewrite lookup_app_r by (rewrite length_map; lia).
      rewrite length_map, Hlen, Nat.sub_diag, (drop_S _ _ _ HP). reflexivity.
Qed.

(** X10: a scene that does not change.  When every set of the model is a
    single cell that has seen its pixel [n] times and the frame shows those
    pixels again, [Process_Frame_BG] returns the frame unchanged and
    [Process_Frame_FG] returns it all black when [Cth <= n + 1] and unchanged
    when [n + 1 < Cth]; both leave cells that have seen the pixel [n + 1]
    times, and the free list alone. *)
Theorem static_scene (FB : Utils.FrmBuf) (n Epsilon Cth : Z)
    (FreeCells : list Cell) :
  let Frm := Utils.Frm FB in
  Z.to_nat (Int.mul (Utils.Width FB) (Utils.Height FB)) = length Frm ->
  Forall Utils.Pixel_ok Frm ->
  0 <= Epsilon -> 1 <= n -> (n + 1) * 255 <= Int.max_int ->
  Process_Frame_BG (map (fun P => [scaled n P]) Frm) FB Epsilon Cth FreeCells =
    Some (mkWorld (map (fun P => [scaled (n + 1) P]) Frm) Frm FreeCells) /\
  Process_Frame_FG (map (fun P => [scaled n P]) Frm) FB Epsilon Cth FreeCells =
    Some (mkWorld (map (fun P => [scaled (n + 1) P]) Frm)
            (if Cth <=? n + 1 then map (fun _ => Utils.black) Frm else Frm)
            FreeCells).
Proof.
  intros Frm Hlen Hok Heps Hn Hmax. split.
  - unfold Process_Frame_BG. rewrite Hlen. fold Frm.
    rewrite (static_loop _ (fun P => [scaled n P]) (fun P => [scaled (n + 1) P])
               (fun P => P)).
    + rewrite take_ge, drop_ge by lia. rewrite !app_nil_r, map_id. reflexivity.
    + intros w i P HP HwF HwB. unfold Process_Pixel_BG. rewrite HwF, HwB.
      assert (HPok : Utils.Pixel_ok P).
      { exact (proj1 (Forall_lookup _ _) Hok i P HP). }
      rewrite MMMFacts.scaled_learns by assumption.
      unfold paint_predominant. cbn [Predominant_Cell Predominant_loop].
      rewrite Z.ltb_irrefl. cbn [lookup list_lookup].
      rewrite mean_pixel_scaled by (assumption || lia).
      rewrite decide_True by (eapply lookup_lt_Some, HwF). reflexivity.
    + lia.
  - unfold Process_Frame_FG. rewrite Hlen. fold Frm.
    rewrite (static_loop _ (fun P => [scaled n P]) (fun P => [scaled (n + 1) P])
               (fun P => if Cth <=? n + 1 then Utils.black else P)).
    + rewrite take_ge, drop_ge by lia. rewrite !app_nil_r.
      destruct (Cth <=? n + 1); [reflexivity|]. rewrite map_id. reflexivity.
    + intros w i P HP HwF HwB. unfold Process_Pixel_FG. rewrite HwF, HwB.
      assert (HPok : Utils.Pixel_ok P).
      { exact (proj1 (Forall_lookup _ _) Hok i P HP). }
      rewrite Ratio_Match_Pixel_scaled by assumption.
      cbn [lookup list_lookup scaled Count].
      destruct (Cth <=? n + 1); [reflexivity|].
      rewrite (list_insert_id _ _ _ HwF). reflexivity.
    + lia.
Qed.

Lemma static_scene_witness :
  Process_Frame_BG
    (map (fun P => [scaled 3 P]) [Utils.mkPixel 10 20 30; Utils.mkPixel 0 255 7])
    (Utils.mkFrmBuf [Utils.mkPixel 10 20 30; Utils.mkPixel 0 255 7] 1 2) 33 4 [] =
    Some (mkWorld
            (map (fun P => [scaled (3 + 1) P])
               [Utils.mkPixel 10 20 30; Utils.mkPixel 0 255 7])
            [Utils.mkPixel 10 20 30; Utils.mkPixel 0 255 7] []) /\
  Process_Frame_FG
    (map (fun P => [scaled 3 P]) [Utils.mkPixel 10 20 30; Utils.mkPixel 0 255 7])
    (Utils.mkFrmBuf [Utils.mkPixel 10 20 30; Utils.mkPixel 0 255 7] 1 2) 33 4 [] =
    Some (mkWorld
            (map (fun P => [scaled (3 + 1) P])
               [Utils.mkPixel 10 20 30; Utils.mkPixel 0 255 7])
            (if 4 <=? 3 + 1
             then map (fun _ => Utils.black)
                    [Utils.mkPixel 10 20 30; Utils.mkPixel 0 255 7]
             else [Utils.mkPixel 10 20 30; Utils.mkPixel 0 255 7]) []).
Proof.
  apply (static_scene
           (Utils.mkFrmBuf [Utils.mkPixel 10 20 30; Utils.mkPixel 0 255 7] 1 2)
           3 33 4 []).
  - reflexivity.
  - repeat constructor; discriminate.
  - lia.
  - lia.
  - vm_compute. discriminate.
Defined.

End ModelFacts.

Module SortFacts.
Import MMM.














End SortFacts.

Module RenderFacts.
Import Rollers.

(** The loop in closed form, for a colour function that is defined on the
    densities it meets. *)
Lemma render_loop (color : Z -> option Utils.Pixel) (c : Z -> Utils.Pixel)
    (DensityMap : list Z) (Frm : list Utils.Pixel) (m : nat) :
  (m <= length Frm)%nat -> (m <= length DensityMap)%nat ->
  (forall d, In d (take m DensityMap) -> color d = Some (c d)) ->
  for_each (fun Frm i =>
              match DensityMap !! i with
              | None => None
              | Some d =>
                  match color d with
                  | None => None
                  | Some P =>
                      if decide (i < length Frm)%nat then Some (<[i := P]> Frm)
                      else None
                  end
              end) (seq 0 m) Frm =
  Some (map c (take m DensityMap) ++ drop m Frm).
Proof.
  induction m as [|m IH]; intros HF HD Hc.
  - reflexivity.
  - destruct (lookup_lt_is_Some_2 DensityMap m ltac:(lia)) as [d Hd].
    destruct (lookup_lt_is_Some_2 Frm m ltac:(lia)) as [Q HQ].
    rewrite (take_S_r _ _ _ Hd) in *.
    rewrite seq_S, for_each_app, IH; [|lia|lia|].
    2:{ intros d' Hd'. apply Hc, in_or_app. auto. }
    cbn [for_each Nat.add]. rewrite Hd, (Hc d) by (apply in_or_app; right; left; reflexivity).
    assert (Hlen : length (map c (take m DensityMap)) = m)
      by (rewrite length_map, length_take; lia).
    rewrite decide_True by (rewrite length_app, length_drop; lia).
    f_equal. rewrite (drop_S _ _ _ HQ), insert_app_r_alt by lia.
    rewrite Hlen, Nat.sub_diag. cbn [insert list_insert].
    rewrite map_app, <- app_assoc. reflexivity.
Qed.

Lemma render_eq (color : Z -> option Utils.Pixel) (c : Z -> Utils.Pixel)
    (FB : Utils.FrmBuf) (DensityMap : list Z) :
  let n := Z.to_nat (Int.mul (Utils.Width FB) (Utils.Height FB)) in
  (n <= length (Utils.Frm FB))%nat -> (n <= length DensityMap)%nat ->
  (forall d, In d (take n DensityMap) -> color d = Some (c d)) ->
  render color FB DensityMap =
  Some (map c (take n DensityMap) ++ drop n (Utils.Frm FB)).
Proof. intros n HF HD Hc. unfold render. fold n. apply render_loop; assumption. Qed.

(** A density the colour function is undefined on makes the loop undefined. *)
Lemma render_None (color : Z -> option Utils.Pixel) (FB : Utils.FrmBuf)
    (DensityMap : list Z) (i : nat) (d : Z) :
  (i < Z.to_nat (Int.mul (Utils.Width FB) (Utils.Height FB)))%nat ->
  DensityMap !! i = Some d -> color d = None ->
  render color FB DensityMap = None.
Proof.
  intros Hi Hd Hc. unfold render.
  apply (ModelFacts.for_each_None _ _ i); [exact Hi|].
  intros Frm' _. rewrite Hd, Hc. reflexivity.
Qed.

(** X13: [Threshold_Frame] on a frame and a map that hold the
    [Width * Height] positions makes pixel [I] white when
    [DensityMap[I] >= Threshold] and black otherwise, and leaves the rest of
    the buffer alone; in the result the scanners' non-black test holds
    exactly at the positions whose density reaches the threshold. *)
Theorem Threshold_Frame_binary (FB : Utils.FrmBuf) (Threshold : Z)
    (DensityMap : list Z) :
  let n := Z.to_nat (Int.mul (Utils.Width FB) (Utils.Height FB)) in
  (n <= length (Utils.Frm FB))%nat -> (n <= length DensityMap)%nat ->
  exists Frm' : list Utils.Pixel,
    Threshold_Frame FB Threshold DensityMap = Some Frm' /\
    Frm' = map (fun d => if Threshold <=? d then white else Utils.black)
             (take n DensityMap) ++ drop n (Utils.Frm FB) /\
    map nonblack (take n Frm') = map (Z.leb Threshold) (take n DensityMap).
Proof.
  intros n HF HD. eexists. split; [|split; [reflexivity|]].
  - unfold Threshold_Frame. apply render_eq; [exact HF|exact HD|]. reflexivity.
  - rewrite take_app_length' by (rewrite length_map, length_take; lia).
    rewrite map_map. apply map_ext. intros d.
    destruct (Threshold <=? d); reflexivity.
Qed.

Lemma Threshold_Frame_binary_witness :
  exists Frm' : list Utils.Pixel,
    Threshold_Frame
      (Utils.mkFrmBuf [Utils.mkPixel 1 2 3; Utils.black; Utils.mkPixel 9 9 9] 1 2)
      5 [7; 4] = Some Frm' /\
    Frm' = map (fun d => if 5 <=? d then white else Utils.black)
             (take 2 [7; 4]) ++
           drop 2 [Utils.mkPixel 1 2 3; Utils.black; Utils.mkPixel 9 9 9] /\
    map nonblack (take 2 Frm') = map (Z.leb 5) (take 2 [7; 4]).
Proof.
  apply (Threshold_Frame_binary
           (Utils.mkFrmBuf [Utils.mkPixel 1 2 3; Utils.black; Utils.mkPixel 9 9 9] 1 2)
           5 [7; 4]); vm_compute; lia.
Defined.

Lemma palette_table (idx : Z) :
  0 <= idx < 16 ->
  exists P, palette idx = Some P /\ Utils.Pixel_ok P /\
            (bright P = (4 <=? idx)) /\
            (P = Utils.black <-> idx = 0) /\ (P = white <-> idx = 15).
Proof.
  intros Hidx.
  assert (Hcases : In idx (map Z.of_nat (seq 0 16))).
  { apply in_map_iff. exists (Z.to_nat idx). split; [lia|]. apply in_seq. lia. }
  cbn in Hcases.
  repeat (destruct Hcases as [<-|Hcases];
          [eexists; split; [reflexivity|];
           split; [repeat split; discriminate|];
           split; [reflexivity|];
           split; split; (discriminate || reflexivity || (intros; lia))|]).
  destruct Hcases.
Qed.

Lemma scaled_index (d MaxCount k : Z) :
  0 < MaxCount -> 0 <= d <= MaxCount -> 0 < k -> k * MaxCount <= Int.max_int ->
  Int.div (Int.mul d k) MaxCount = Some (d * k / MaxCount) /\
  0 <= d * k / MaxCount <= k /\
  (d * k / MaxCount = 0 <-> d * k < MaxCount) /\
  (d * k / MaxCount = k <-> d = MaxCount).
Proof.
  intros HM Hd Hk Hmax.
  assert (Hmul : Int.mul d k = d * k).
  { unfold Int.mul. apply IntFacts.wrap_small.
    unfold Int.in_range, Int.min_int, Int.max_int in *. nia. }
  rewrite Hmul, ModelFacts.div_pos by (unfold Int.max_int in *; nia).
  split; [reflexivity|].
  assert (Hlo : 0 <= d * k / MaxCount) by (apply Z.div_pos; nia).
  assert (Hhi : d * k / MaxCount <= k).
  { apply Z.div_le_upper_bound; [lia|nia]. }
  split; [lia|]. split.
  - split; [intros H0|intros Hlt; apply Z.div_small; nia].
    destruct (Z.lt_ge_cases (d * k) MaxCount) as [|Hge]; [assumption|].
    pose proof (Z.div_le_lower_bound (d * k) MaxCount 1 ltac:(lia) ltac:(lia)). lia.
  - split; [intros Hk'|intros ->; rewrite Z.mul_comm; apply Z.div_mul; lia].
    pose proof (Z.mul_div_le (d * k) MaxCount ltac:(lia)). nia.
Qed.

(** X14: [Paint_Frame] on densities between 0 and [MaxCount] is defined and
    paints pixel [I] with the palette colour of index
    [DensityMap[I] * 15 / MaxCount]: black exactly when
    [15 * density < MaxCount], white exactly at [MaxCount]; and the mask
    test of the driver, [R + G + B > 175], holds for a painted pixel exactly
    when [15 * density >= 4 * MaxCount]. *)
Theorem Paint_Frame_palette (FB : Utils.FrmBuf) (MaxCount : Z)
    (DensityMap : list Z) :
  let n := Z.to_nat (Int.mul (Utils.Width FB) (Utils.Height FB)) in
  (n <= length (Utils.Frm FB))%nat -> (n <= length DensityMap)%nat ->
  0 < MaxCount -> 15 * MaxCount <= Int.max_int ->
  Forall (fun d => 0 <= d <= MaxCount) (take n DensityMap) ->
  exists colour : Z -> Utils.Pixel,
    Paint_Frame FB MaxCount DensityMap =
      Some (map colour (take n DensityMap) ++ drop n (Utils.Frm FB)) /\
    forall d : Z, 0 <= d <= MaxCount ->
      palette (d * 15 / MaxCount) = Some (colour d) /\
      (colour d = Utils.black <-> d * 15 < MaxCount) /\
      (colour d = white <-> d = MaxCount) /\
      (bright (colour d) = true <-> 4 * MaxCount <= d * 15).
Proof.
  intros n HF HD HM Hmax Hall.
  exists (fun d => default Utils.black (palette (d * 15 / MaxCount))).
  assert (Hcol : forall d, 0 <= d <= MaxCount ->
            palette (d * 15 / MaxCount) =
              Some (default Utils.black (palette (d * 15 / MaxCount))) /\
            Int.div (Int.mul d 15) MaxCount = Some (d * 15 / MaxCount)).
  { intros d Hd.
    destruct (scaled_index d MaxCount 15 HM Hd ltac:(lia) Hmax) as (Hdiv & Hidx & _).
    destruct (palette_table (d * 15 / MaxCount)) as (P & HP & _); [lia|].
    rewrite HP. auto. }
  split.
  - unfold Paint_Frame. apply render_eq; [exact HF|exact HD|].
    intros d Hd. pose proof (proj1 (List.Forall_forall _ _) Hall d Hd) as Hr.
    destruct (Hcol d Hr) as [Hp ->]. exact Hp.
  - intros d Hd. destruct (Hcol d Hd) as [Hp _]. split; [exact Hp|].
    destruct (scaled_index d MaxCount 15 HM Hd ltac:(lia) Hmax)
      as (_ & Hidx & Hzero & Hfull).
    destruct (palette_table (d * 15 / MaxCount)) as (P & HP & _ & Hb & Hblack & Hwhite);
      [lia|].
    rewrite HP. cbn [from_option id]. rewrite Hb.
    split; [rewrite Hblack; exact Hzero|]. split; [rewrite Hwhite; exact Hfull|].
    rewrite Z.leb_le. split.
    + intros H4. pose proof (Z.mul_div_le (d * 15) MaxCount HM). nia.
    + intros H4. apply Z.div_le_lower_bound; lia.
Qed.

Lemma Paint_Frame_palette_witness :
  exists colour : Z -> Utils.Pixel,
    Paint_Frame (Utils.mkFrmBuf [white; white; white] 1 3) 49 [0; 14; 49] =
      Some (map colour (take 3 [0; 14; 49]) ++ drop 3 [white; white; white]) /\
    forall d : Z, 0 <= d <= 49 ->
      palette (d * 15 / 49) = Some (colour d) /\
      (colour d = Utils.black <-> d * 15 < 49) /\
      (colour d = white <-> d = 49) /\
      (bright (colour d) = true <-> 4 * 49 <= d * 15).
Proof.
  apply (Paint_Frame_palette (Utils.mkFrmBuf [white; white; white] 1 3) 49
           [0; 14; 49]).
  - vm_compute. lia.
  - vm_compute. lia.
  - lia.
  - vm_compute. discriminate.
  - repeat constructor; lia.
Defined.

(** X15: [Grayscale_Frame] on densities between 0 and [MaxCount] writes the
    gray level [density * 255 / MaxCount] to the three channels, with no
    truncation: a level between 0 and 255 that grows with the density, black
    exactly when [255 * density < MaxCount] and white exactly at
    [MaxCount]. *)
Theorem Grayscale_Frame_ramp (FB : Utils.FrmBuf) (MaxCount : Z)
    (DensityMap : list Z) :
  let n := Z.to_nat (Int.mul (Utils.Width FB) (Utils.Height FB)) in
  let gray := fun d => Utils.mkPixel (d * 255 / MaxCount) (d * 255 / MaxCount)
                         (d * 255 / MaxCount) in
  (n <= length (Utils.Frm FB))%nat -> (n <= length DensityMap)%nat ->
  0 < MaxCount -> 255 * MaxCount <= Int.max_int ->
  Forall (fun d => 0 <= d <= MaxCount) (take n DensityMap) ->
  Grayscale_Frame FB MaxCount DensityMap =
    Some (map gray (take n DensityMap) ++ drop n (Utils.Frm FB)) /\
  (forall d : Z, 0 <= d <= MaxCount ->
     Utils.Pixel_ok (gray d) /\
     (gray d = Utils.black <-> d * 255 < MaxCount) /\
     (gray d = white <-> d = MaxCount)) /\
  (forall d d' : Z, 0 <= d <= d' ->
     d * 255 / MaxCount <= d' * 255 / MaxCount).
Proof.
  intros n gray HF HD HM Hmax Hall. split; [|split].
  - unfold Grayscale_Frame. apply render_eq; [exact HF|exact HD|].
    intros d Hd. pose proof (proj1 (List.Forall_forall _ _) Hall d Hd) as Hr.
    destruct (scaled_index d MaxCount 255 HM Hr ltac:(lia) Hmax) as (-> & Hidx & _).
    unfold gray. rewrite ModelFacts.to_byte_small by (unfold Utils.byte_ok; lia).
    reflexivity.
  - intros d Hd.
    destruct (scaled_index d MaxCount 255 HM Hd ltac:(lia) Hmax)
      as (_ & Hidx & Hzero & Hfull).
    unfold gray, Utils.Pixel_ok, Utils.byte_ok, Utils.black, white. cbn.
    split; [lia|]. split.
    + rewrite <- Hzero. split; [intros [=]; assumption|intros ->; reflexivity].
    + rewrite <- Hfull. split; [intros [=]; assumption|intros ->; reflexivity].
  - intros d d' Hd. apply Z.div_le_mono; lia.
Qed.

Lemma Grayscale_Frame_ramp_witness :
  Grayscale_Frame (Utils.mkFrmBuf [white; white; white] 1 3) 4 [0; 1; 4] =
    Some (map (fun d => Utils.mkPixel (d * 255 / 4) (d * 255 / 4) (d * 255 / 4))
            (take 3 [0; 1; 4]) ++ drop 3 [white; white; white]) /\
  (forall d : Z, 0 <= d <= 4 ->
     Utils.Pixel_ok (Utils.mkPixel (d * 255 / 4) (d * 255 / 4) (d * 255 / 4)) /\
     (Utils.mkPixel (d * 255 / 4) (d * 255 / 4) (d * 255 / 4) = Utils.black
      <-> d * 255 < 4) /\
     (Utils.mkPixel (d * 255 / 4) (d * 255 / 4) (d * 255 / 4) = white
      <-> d = 4)) /\
  (forall d d' : Z, 0 <= d <= d' -> d * 255 / 4 <= d' * 255 / 4).
Proof.
  apply (Grayscale_Frame_ramp (Utils.mkFrmBuf [white; white; white] 1 3) 4
           [0; 1; 4]).
  - vm_compute. lia.
  - vm_compute. lia.
  - lia.
  - vm_compute. discriminate.
  - repeat constructor; lia.
Defined.

(** X16: [Paint_Frame_Mod] on non-negative map values paints the palette
    colour of index [value % 15]: the colours repeat with period 15, a
    multiple of 15 is painted black, like 0, and white is never used.  A
    negative value that is not a multiple of 15 indexes the palette below
    its start, which is undefined. *)
Theorem Paint_Frame_Mod_cycle (FB : Utils.FrmBuf) (DensityMap : list Z) :
  let n := Z.to_nat (Int.mul (Utils.Width FB) (Utils.Height FB)) in
  (n <= length (Utils.Frm FB))%nat -> (n <= length DensityMap)%nat ->
  (Forall (fun d => 0 <= d) (take n DensityMap) ->
   exists colour : Z -> Utils.Pixel,
     Paint_Frame_Mod FB DensityMap =
       Some (map colour (take n DensityMap) ++ drop n (Utils.Frm FB)) /\
     forall d : Z, 0 <= d ->
       palette (d mod 15) = Some (colour d) /\
       colour (d + 15) = colour d /\
       (colour d = Utils.black <-> d mod 15 = 0) /\
       colour d <> white) /\
  (forall (i : nat) (d : Z),
     (i < n)%nat -> DensityMap !! i = Some d -> d < 0 -> d mod 15 <> 0 ->
     Paint_Frame_Mod FB DensityMap = None).
Proof.
  intros n HF HD. split.
  - intros Hall.
    exists (fun d => default Utils.black (palette (d mod 15))).
    assert (Hrem : forall d, 0 <= d -> Int.rem d 15 = Some (d mod 15)).
    { intros d Hd. unfold Int.rem. cbn [Z.eqb]. rewrite andb_false_r.
      rewrite Z.rem_mod_nonneg by lia. reflexivity. }
    assert (Hcol : forall d, 0 <= d ->
              palette (d mod 15) = Some (default Utils.black (palette (d mod 15)))).
    { intros d Hd. pose proof (Z.mod_pos_bound d 15 ltac:(lia)).
      destruct (palette_table (d mod 15)) as (P & -> & _); [lia|]. reflexivity. }
    split.
    + unfold Paint_Frame_Mod. apply render_eq; [exact HF|exact HD|].
      intros d Hd. pose proof (proj1 (List.Forall_forall _ _) Hall d Hd) as Hr.
      cbn in Hr. rewrite (Hrem d Hr). apply Hcol, Hr.
    + intros d Hd. split; [apply Hcol, Hd|].
      pose proof (Z.mod_pos_bound d 15 ltac:(lia)) as Hm.
      destruct (palette_table (d mod 15)) as (P & HP & _ & _ & Hblack & Hwhite); [lia|].
      split.
      { replace (d + 15) with (d + 1 * 15) by lia. rewrite Z.mod_add by lia.
        reflexivity. }
      rewrite HP. cbn [from_option id]. split; [exact Hblack|].
      intros HPw. apply Hwhite in HPw. lia.
  - intros i d Hi Hd Hneg Hmod. unfold Paint_Frame_Mod.
    apply (render_None _ FB DensityMap i d Hi Hd).
    unfold Int.rem. cbn [Z.eqb]. rewrite andb_false_r.
    unfold palette.
    assert (Hlt : Z.rem d 15 < 0).
    { assert (Hr : Z.rem d 15 = - ((- d) mod 15)).
      { rewrite <- (Z.opp_involutive d) at 1.
        rewrite Z.rem_opp_l by lia. rewrite Z.rem_mod_nonneg by lia. reflexivity. }
      pose proof (Z.mod_pos_bound (- d) 15 ltac:(lia)) as Hb.
      assert ((- d) mod 15 <> 0); [|lia].
      intros H0. apply Hmod. apply Z.mod_opp_l_z in H0; [|lia].
      rewrite Z.opp_involutive in H0. exact H0. }
    destruct (Z.leb_spec 0 (Z.rem d 15)); [lia|]. reflexivity.
Qed.

Lemma Paint_Frame_Mod_cycle_witness :
  exists colour : Z -> Utils.Pixel,
    Paint_Frame_Mod (Utils.mkFrmBuf [white; white] 1 2) [3; 15] =
      Some (map colour (take 2 [3; 15]) ++ drop 2 [white; white]) /\
    forall d : Z, 0 <= d ->
      palette (d mod 15) = Some (colour d) /\
      colour (d + 15) = colour d /\
      (colour d = Utils.black <-> d mod 15 = 0) /\
      colour d <> white.
Proof.
  apply (proj1 (Paint_Frame_Mod_cycle (Utils.mkFrmBuf [white; white] 1 2) [3; 15]
                  ltac:(vm_compute; lia) ltac:(vm_compute; lia))).
  repeat constructor; lia.
Defined.

End RenderFacts.

Module AreaFacts.
Import Rollers.

Example Area_Image_Density_mask :
  Area_Image_Density
    (Utils.mkFrmBuf [white; Utils.black; Utils.black;
                     Utils.black; white; white] 2 3)
    (replicate 6 9) 1 = Some [1; 0; 0; 0; 1; 1].
Proof. reflexivity. Qed.

Lemma area_step_rows (FB : Utils.FrmBuf) (WheelSize Edge HalfWheel WheelOff : Z)
    (X : nat) (a a' : Area) (Y : nat) :
  area_step FB WheelSize Edge HalfWheel WheelOff X a Y = Some a' ->
  length (Sums a') = length (Sums a).
Proof.
  unfold area_step. intros Hstep.
  repeat match type of Hstep with
         | match ?x with _ => _ end = Some _ =>
             let H := fresh in destruct x eqn:H; try discriminate
         | (let '(_, _) := ?x in _) = Some _ => destruct x
         end.
  injection Hstep as <-. cbn [Sums]. apply length_insert.
Qed.

Lemma area_rows (FB : Utils.FrmBuf) (WheelSize Edge HalfWheel WheelOff : Z)
    (X : nat) (Ys : list nat) :
  forall a a' : Area,
  for_each (area_step FB WheelSize Edge HalfWheel WheelOff X) Ys a = Some a' ->
  length (Sums a') = length (Sums a).
Proof.
  induction Ys as [|Y Ys IH]; intros a a' Hrun.
  - injection Hrun as <-. reflexivity.
  - cbn [for_each] in Hrun.
    destruct (area_step FB WheelSize Edge HalfWheel WheelOff X a Y) as [a1|] eqn:Hs;
      [|discriminate].
    rewrite (IH _ _ Hrun). eapply area_step_rows, Hs.
Qed.

(** X17: [Area_Image_Density] with a window of two pixels or more runs off
    its arrays.  The inner loop reads and writes [Sums[Y]] and [Wheels[Y]]
    before it tests [Y < FB->Height], for [Y] up to
    [FB->Height + HalfWheel - 1], while both arrays have [FB->Height]
    entries: the step at [Y = FB->Height] of the first column is undefined,
    whatever the frame and the map. *)
Theorem Area_Image_Density_overruns (FB : Utils.FrmBuf) (DensityMap : list Z)
    (WheelSize : Z) :
  2 <= WheelSize ->
  0 <= Utils.Width FB -> Utils.Width FB + WheelSize / 2 <= Int.max_int ->
  Utils.Height FB + WheelSize / 2 <= Int.max_int ->
  (forall (Edge HalfWheel WheelOff : Z) (X Y : nat) (a : Area),
     (length (Sums a) <= Y)%nat ->
     area_step FB WheelSize Edge HalfWheel WheelOff X a Y = None) /\
  Area_Image_Density FB DensityMap WheelSize = None.
Proof.
  intros HW Hwidth HwidthMax HheightMax.
  assert (Hstep : forall Edge HalfWheel WheelOff X Y a,
            (length (Sums a) <= Y)%nat ->
            area_step FB WheelSize Edge HalfWheel WheelOff X a Y = None).
  { intros Edge HalfWheel WheelOff X Y a HY. unfold area_step.
    rewrite (lookup_ge_None_2 (Sums a) Y) by lia. reflexivity. }
  split; [exact Hstep|].
  unfold Area_Image_Density.
  destruct (Z.ltb_spec 0 (Utils.Height FB)) as [Hheight|]; [|reflexivity].
  destruct (0 <? WheelSize); [|reflexivity]. cbn [andb].
  destruct (Int.shl1 (Int.sub WheelSize 1)) as [Edge|]; [|reflexivity].
  rewrite IntFacts.shr1_div2.
  assert (Hhalf : 1 <= WheelSize / 2) by (apply Z.div_le_lower_bound; lia).
  set (HalfWheel := WheelSize / 2) in *.
  assert (HaddW : Int.add (Utils.Width FB) HalfWheel = Utils.Width FB + HalfWheel).
  { unfold Int.add. apply IntFacts.wrap_small.
    unfold Int.in_range, Int.min_int, Int.max_int in *. lia. }
  assert (HaddH : Int.add (Utils.Height FB) HalfWheel = Utils.Height FB + HalfWheel).
  { unfold Int.add. apply IntFacts.wrap_small.
    unfold Int.in_range, Int.min_int, Int.max_int in *. lia. }
  rewrite HaddW.
  rewrite (ModelFacts.for_each_None _ _ 0%nat); [reflexivity|lia|].
  intros a0 Hrun. cbn [seq for_each] in Hrun. injection Hrun as <-.
  unfold area_column. rewrite HaddH. cbn [Wheels Sums AreaMap].
  apply (ModelFacts.for_each_None _ _ (Z.to_nat (Utils.Height FB))); [lia|].
  intros a1 Hrun. apply area_rows in Hrun. cbn [Sums] in Hrun.
  apply Hstep. rewrite Hrun, length_replicate. lia.
Qed.

Lemma Area_Image_Density_overruns_witness :
  (forall (Edge HalfWheel WheelOff : Z) (X Y : nat) (a : Area),
     (length (Sums a) <= Y)%nat ->
     area_step (Utils.mkFrmBuf (replicate 12 white) 3 4) 7 Edge HalfWheel
       WheelOff X a Y = None) /\
  Area_Image_Density (Utils.mkFrmBuf (replicate 12 white) 3 4)
    (replicate 12 0) 7 = None.
Proof.
  apply (Area_Image_Density_overruns (Utils.mkFrmBuf (replicate 12 white) 3 4)
           (replicate 12 0) 7); vm_compute; discriminate.
Defined.

End AreaFacts.

Module FinderFacts.
Import Rollers RollersFacts.

(** *** Sums over the blobs *)

Lemma total_agree (f : Blob -> Z) (h h' : list Blob) (L : list addr) :
  (forall a, a ∈ L -> share f h' a = share f h a) ->
  total f h' L = total f h L.
Proof.
  induction L as [|b L IH]; intros Hag; [reflexivity|].
  cbn [total foldr]. fold (total f h' L). fold (total f h L).
  rewrite Hag by (apply elem_of_cons; auto).
  rewrite IH; [reflexivity|]. intros a Ha. apply Hag, elem_of_cons. auto.
Qed.

Lemma total_change (f : Blob -> Z) (h h' : list Blob) (L : list addr) (b : addr) :
  NoDup L -> b ∈ L ->
  (forall a, a ∈ L -> a <> b -> share f h' a = share f h a) ->
  total f h' L = total f h L + (share f h' b - share f h b).
Proof.
  induction L as [|a L IH]; intros Hnd Hb Hag.
  - apply elem_of_nil in Hb. destruct Hb.
  - apply NoDup_cons in Hnd as [Ha Hnd]. cbn [total foldr].
    fold (total f h' L). fold (total f h L).
    apply elem_of_cons in Hb as [->|Hb].
    + rewrite (total_agree f h h' L); [lia|].
      intros c Hc. apply Hag; [apply elem_of_cons; auto|]. intros ->. contradiction.
    + rewrite IH; [|exact Hnd|exact Hb|].
      * rewrite (Hag a); [lia|apply elem_of_cons; auto|]. intros ->. contradiction.
      * intros c Hc Hne. apply Hag; [apply elem_of_cons; auto|exact Hne].
Qed.

Lemma total_nonneg (f : Blob -> Z) (h : list Blob) (L : list addr) :
  (forall a, a ∈ L -> 0 <= share f h a) -> 0 <= total f h L.
Proof.
  induction L as [|b L IH]; intros Hpos; [cbn; lia|].
  cbn [total foldr]. fold (total f h L).
  pose proof (Hpos b ltac:(apply elem_of_cons; auto)).
  pose proof (IH ltac:(intros a Ha; apply Hpos, elem_of_cons; auto)). lia.
Qed.

Lemma share_le_total (f : Blob -> Z) (h : list Blob) (L : list addr) (b : addr) :
  (forall a, a ∈ L -> 0 <= share f h a) -> b ∈ L ->
  share f h b <= total f h L.
Proof.
  induction L as [|a L IH]; intros Hpos Hb.
  - apply elem_of_nil in Hb. destruct Hb.
  - cbn [total foldr]. fold (total f h L).
    assert (Hpos' : forall c, c ∈ L -> 0 <= share f h c)
      by (intros c Hc; apply Hpos, elem_of_cons; auto).
    pose proof (total_nonneg f h L Hpos').
    pose proof (Hpos a ltac:(apply elem_of_cons; auto)).
    apply elem_of_cons in Hb as [->|Hb]; [lia|].
    pose proof (IH Hpos' Hb). lia.
Qed.

Lemma two_shares_le_total (f : Blob -> Z) (h : list Blob) (L : list addr)
    (b c : addr) :
  (forall a, a ∈ L -> 0 <= share f h a) -> b ∈ L -> c ∈ L -> b <> c ->
  share f h b + share f h c <= total f h L.
Proof.
  induction L as [|a L IH]; intros Hpos Hb Hc Hne.
  - apply elem_of_nil in Hb. destruct Hb.
  - cbn [total foldr]. fold (total f h L).
    assert (Hpos' : forall c, c ∈ L -> 0 <= share f h c)
      by (intros x Hx; apply Hpos, elem_of_cons; auto).
    pose proof (Hpos a ltac:(apply elem_of_cons; auto)).
    apply elem_of_cons in Hb as [->|Hb]; apply elem_of_cons in Hc as [->|Hc].
    + congruence.
    + pose proof (share_le_total f h L c Hpos' Hc). lia.
    + pose proof (share_le_total f h L b Hpos' Hb). lia.
    + pose proof (IH Hpos' Hb Hc Hne). lia.
Qed.

Lemma total_filter (f : Blob -> Z) (h : list Blob) (g : addr -> bool)
    (L : list addr) :
  (forall a, a ∈ L -> g a = false -> share f h a = 0) ->
  total f h (List.filter g L) = total f h L.
Proof.
  induction L as [|b L IH]; intros Hz; [reflexivity|].
  assert (IH' : total f h (List.filter g L) = total f h L).
  { apply IH. intros a Ha. apply Hz, elem_of_cons. auto. }
  cbn [List.filter]. destruct (g b) eqn:Hg.
  - change (share f h b + total f h (List.filter g L) = share f h b + total f h L).
    rewrite IH'. reflexivity.
  - change (total f h (List.filter g L) = share f h b + total f h L).
    rewrite (Hz b), IH'; [reflexivity|apply elem_of_cons; auto|exact Hg].
Qed.


Lemma share_insert_eq (f : Blob -> Z) (h : list Blob) (b : addr) (B : Blob) :
  (b < length h)%nat ->
  share f (<[b := B]> h) b = match FP B with None => f B | Some _ => 0 end.
Proof. intros Hb. unfold share. rewrite list_lookup_insert_eq by exact Hb. reflexivity. Qed.

Lemma share_insert_ne (f : Blob -> Z) (h : list Blob) (a b : addr) (B : Blob) :
  a <> b -> share f (<[b := B]> h) a = share f h a.
Proof. intros Hne. unfold share. rewrite list_lookup_insert_ne by congruence. reflexivity. Qed.

Lemma share_root (f : Blob -> Z) (h : list Blob) (b : addr) (B : Blob) :
  h !! b = Some B -> FP B = None -> share f h b = f B.
Proof. intros HB HF. unfold share. rewrite HB, HF. reflexivity. Qed.

(** The sums of boxed blobs are not negative. *)
Lemma boxed_shares (W Y : Z) (h : list Blob) (L : list addr) :
  (forall b B, b ∈ L -> h !! b = Some B -> boxed W Y B \/ (Count B = 0 /\ Xsum B = 0 /\ Ysum B = 0)) ->
  forall a, a ∈ L ->
    0 <= share Count h a /\ 0 <= share Xsum h a /\ 0 <= share Ysum h a.
Proof.
  intros Hbox a Ha. unfold share. destruct (h !! a) as [B|] eqn:HB; [|lia].
  destruct (FP B); [lia|].
  destruct (Hbox a B Ha HB) as [[Hc (Hx0 & Hx1 & Hx2) (Hy0 & Hy1 & Hy2) [Hxs _] [Hys _] _]|(-> & -> & ->)];
    [|lia]. nia.
Qed.

Lemma add_small (a b : Z) :
  0 <= a -> 0 <= b -> a + b <= Int.max_int -> Int.add a b = a + b.
Proof.
  intros Ha Hb Hab. unfold Int.add. apply IntFacts.wrap_small.
  unfold Int.in_range, Int.min_int, Int.max_int in *. lia.
Qed.

(** [Add_Position] on the row blob, which is boxed or has just been
    allocated. *)
Lemma Add_Position_measured (W M N SX SY X Y : Z) (h h' : list Blob)
    (L : list addr) (r : addr) (R : Blob) :
  NoDup L -> r ∈ L -> h !! r = Some R -> FP R = None ->
  (forall b B, b ∈ L -> b <> r -> h !! b = Some B -> boxed W Y B) ->
  boxed W Y R \/
    (Count R = 0 /\ Xsum R = 0 /\ Ysum R = 0 /\ Xreg R = X /\ Yreg R = Y) ->
  total Count h L = N -> total Xsum h L = SX -> total Ysum h L = SY ->
  0 <= X < W -> 0 <= Y -> N < M -> M * W <= Int.max_int ->
  M * (Y + 1) <= Int.max_int ->
  Add_Position r X Y h = Some h' ->
  measured W Y (N + 1) (SX + X) (SY + Y) h' L.
Proof.
  intros Hnd Hr HR HF Hbox HRbox HN HSX HSY HX HY HM HMW HMY Hadd.
  unfold Add_Position in Hadd. rewrite HR in Hadd. injection Hadd as <-.
  assert (Hrlen : (r < length h)%nat) by (eapply lookup_lt_Some, HR).
  assert (Hall : forall b B, b ∈ L -> h !! b = Some B ->
            boxed W Y B \/ (Count B = 0 /\ Xsum B = 0 /\ Ysum B = 0)).
  { intros b B Hb HB. destruct (decide (b = r)) as [->|Hne].
    - rewrite HR in HB. injection HB as <-. destruct HRbox as [|(? & ? & ? & _)]; auto.
    - left. eapply Hbox; eassumption. }
  pose proof (boxed_shares W Y h L Hall) as Hpos.
  assert (HcR : 0 <= Count R <= N).
  { rewrite <- HN, <- (share_root Count h r R HR HF). split; [apply Hpos, Hr|].
    apply share_le_total; [intros a Ha; apply Hpos, Ha|exact Hr]. }
  assert (HxR : 0 <= Xsum R <= Count R * (W - 1)).
  { destruct HRbox as [[Hc (Hx0 & Hx1 & Hx2) _ [Hxs0 Hxs1] _ _]|(-> & -> & _)]; nia. }
  assert (HyR : 0 <= Ysum R <= Count R * Y).
  { destruct HRbox as [[Hc _ (Hy0 & Hy1 & Hy2) _ [Hys0 Hys1] _]|(-> & _ & -> & _)]; nia. }
  assert (Hc1 : Int.add (Count R) 1 = Count R + 1).
  { apply add_small; unfold Int.max_int in *; nia. }
  assert (Hx1 : Int.add (Xsum R) X = Xsum R + X).
  { apply add_small; unfold Int.max_int in *; nia. }
  assert (Hy1 : Int.add (Ysum R) Y = Ysum R + Y).
  { apply add_small; unfold Int.max_int in *; nia. }
  rewrite Hc1, Hx1, Hy1.
  split.
  - intros b B Hb HB. destruct (decide (b = r)) as [->|Hne].
    + rewrite list_lookup_insert_eq in HB by exact Hrlen. injection HB as <-.
      destruct HRbox as [[Hc (Hx0 & Hx2 & Hx3) (Hy0 & Hy2 & Hy3) [Hxs0 Hxs1] [Hys0 Hys1] (Hr0 & Hr1 & Hr2)]
                        |(Hc0 & Hx0 & Hy0 & Hxr & Hyr)].
      * destruct (Z.eqb_spec (Count R) 0) as [|_]; [lia|].
        destruct (Z.ltb_spec X (Xmin R)), (Z.ltb_spec Y (Ymin R)),
                 (Z.ltb_spec (Xmax R) X), (Z.ltb_spec (Ymax R) Y);
          split; cbn; try lia; nia.
      * rewrite Hc0, Hx0, Hy0. cbn [Z.eqb].
        split; cbn; lia.
    + rewrite list_lookup_insert_ne in HB by congruence. eapply Hbox; eassumption.
  - rewrite (total_change Count h _ L r Hnd Hr)
      by (intros a _ Hne; apply share_insert_ne, Hne).
    rewrite share_insert_eq by exact Hrlen. cbn [FP Count].
    rewrite HF, (share_root Count h r R HR HF). lia.
  - rewrite (total_change Xsum h _ L r Hnd Hr)
      by (intros a _ Hne; apply share_insert_ne, Hne).
    rewrite share_insert_eq by exact Hrlen. cbn [FP Xsum].
    rewrite HF, (share_root Xsum h r R HR HF). lia.
  - rewrite (total_change Ysum h _ L r Hnd Hr)
      by (intros a _ Hne; apply share_insert_ne, Hne).
    rewrite share_insert_eq by exact Hrlen. cbn [FP Ysum].
    rewrite HF, (share_root Ysum h r R HR HF). lia.
Qed.


(** [Merge_Blobs] of a column blob into a different row blob, both boxed and
    not forwarded: the sums over the blobs do not change. *)
Lemma Merge_Blobs_measured (W M N SX SY Y e : Z) (h h' : list Blob)
    (L : list addr) (c r : addr) :
  NoDup L -> c ∈ L -> r ∈ L -> c <> r -> is_root h c -> is_root h r ->
  measured W Y N SX SY h L ->
  N <= M -> 1 <= W -> 0 <= Y -> M * W <= Int.max_int ->
  M * (Y + 1) <= Int.max_int ->
  Merge_Blobs c r e h = Some h' ->
  measured W Y N SX SY h' L /\ is_root h' r.
Proof.
  intros Hnd Hc Hr Hne (C & HC & HCF) (R & HR & HRF) [Hbox HN HSX HSY]
    HM HW HY HMW HMY Hmerge.
  unfold Merge_Blobs in Hmerge. rewrite decide_False in Hmerge by exact Hne.
  rewrite HC, HR in Hmerge. injection Hmerge as <-.
  assert (Hclen : (c < length h)%nat) by (eapply lookup_lt_Some, HC).
  assert (Hrlen : (r < length h)%nat) by (eapply lookup_lt_Some, HR).
  pose proof (Hbox c C Hc HC) as [HCc (HCx0 & HCx1 & HCx2) (HCy0 & HCy1 & HCy2)
                                   [HCxs0 HCxs1] [HCys0 HCys1] (HCr0 & HCr1 & HCr2)].
  pose proof (Hbox r R Hr HR) as [HRc (HRx0 & HRx1 & HRx2) (HRy0 & HRy1 & HRy2)
                                   [HRxs0 HRxs1] [HRys0 HRys1] (HRr0 & HRr1 & HRr2)].
  assert (Hall : forall b B, b ∈ L -> h !! b = Some B ->
            boxed W Y B \/ (Count B = 0 /\ Xsum B = 0 /\ Ysum B = 0))
    by (intros b B Hb HB; left; eapply Hbox; eassumption).
  pose proof (boxed_shares W Y h L Hall) as Hpos.
  assert (Hcount : Count R + Count C <= N).
  { rewrite <- HN, <- (share_root Count h r R HR HRF), <- (share_root Count h c C HC HCF).
    apply two_shares_le_total; [intros a Ha; apply Hpos, Ha|assumption..|congruence]. }
  assert (Hc1 : Int.add (Count R) (Count C) = Count R + Count C).
  { apply add_small; unfold Int.max_int in *; nia. }
  assert (Hx1 : Int.add (Xsum R) (Xsum C) = Xsum R + Xsum C).
  { apply add_small; unfold Int.max_int in *; nia. }
  assert (Hy1 : Int.add (Ysum R) (Ysum C) = Ysum R + Ysum C).
  { apply add_small; unfold Int.max_int in *; nia. }
  rewrite Hc1, Hx1, Hy1.
  set (R' := mkBlob (ID R) (Xsum R + Xsum C) (Ysum R + Ysum C) _ _ _ _ _ _ _ _ _).
  set (C' := mkBlob (ID C) _ _ _ _ _ _ _ _ _ e (Some r)).
  assert (HR'box : boxed W Y R').
  { assert (Hlo : forall a b x y n m : Z,
              0 <= n -> 0 <= m -> n * a <= x -> m * b <= y ->
              (n + m) * (if a <? b then a else b) <= x + y).
    { intros a b x y n m Hn Hm Hx Hy. destruct (Z.ltb_spec a b).
      - pose proof (Z.mul_le_mono_nonneg_l a b m Hm ltac:(lia)). lia.
      - pose proof (Z.mul_le_mono_nonneg_l b a n Hn ltac:(lia)). lia. }
    assert (Hhi : forall a b x y n m : Z,
              0 <= n -> 0 <= m -> x <= n * a -> y <= m * b ->
              x + y <= (n + m) * (if a <? b then b else a)).
    { intros a b x y n m Hn Hm Hx Hy. destruct (Z.ltb_spec a b).
      - pose proof (Z.mul_le_mono_nonneg_l a b n Hn ltac:(lia)). lia.
      - pose proof (Z.mul_le_mono_nonneg_l b a m Hm ltac:(lia)). lia. }
    unfold R', reg_before.
    split; cbn [Count Xmin Xmax Ymin Ymax Xsum Ysum Xreg Yreg].
    - lia.
    - destruct (Z.ltb_spec (Xmin C) (Xmin R)), (Z.ltb_spec (Xmax R) (Xmax C)); lia.
    - destruct (Z.ltb_spec (Ymin C) (Ymin R)), (Z.ltb_spec (Ymax R) (Ymax C)); lia.
    - split.
      + rewrite (Z.add_comm (Count R)), (Z.add_comm (Xsum R)). apply Hlo; lia.
      + apply Hhi; lia.
    - split.
      + rewrite (Z.add_comm (Count R)), (Z.add_comm (Ysum R)). apply Hlo; lia.
      + apply Hhi; lia.
    - destruct (Z.ltb_spec (Xmin C) (Xmin R)), (Z.ltb_spec (Ymin C) (Ymin R)),
               (Z.ltb_spec (Xmax R) (Xmax C)),
               (Z.ltb_spec (Yreg C) (Yreg R)), (Z.eqb_spec (Yreg C) (Yreg R)),
               (Z.ltb_spec (Xreg C) (Yreg R));
        cbn [orb andb]; lia. }
  assert (Htot : forall f : Blob -> Z,
            f R' = f R + f C -> total f (<[c := C']> (<[r := R']> h)) L = total f h L).
  { intros f Hf.
    rewrite (total_change f (<[r := R']> h) _ L c Hnd Hc)
      by (intros a _ Hna; apply share_insert_ne, Hna).
    rewrite share_insert_eq by (rewrite length_insert; exact Hclen).
    rewrite (total_change f h _ L r Hnd Hr)
      by (intros a _ Hna; apply share_insert_ne, Hna).
    rewrite share_insert_eq by exact Hrlen.
    rewrite share_insert_ne by exact Hne.
    rewrite (share_root f h r R HR HRF), (share_root f h c C HC HCF).
    unfold C', R' at 1. cbn [FP]. rewrite HRF, Hf. lia. }
  split; [split|].
  - intros b B Hb HB. destruct (decide (b = c)) as [->|Hnc].
    + rewrite list_lookup_insert_eq in HB by (rewrite length_insert; exact Hclen).
      injection HB as <-. unfold C'. split; cbn; auto.
    + rewrite list_lookup_insert_ne in HB by congruence.
      destruct (decide (b = r)) as [->|Hnr].
      * rewrite list_lookup_insert_eq in HB by exact Hrlen. injection HB as <-.
        exact HR'box.
      * rewrite list_lookup_insert_ne in HB by congruence. eapply Hbox; eassumption.
  - rewrite Htot; [exact HN|reflexivity].
  - rewrite Htot; [exact HSX|reflexivity].
  - rewrite Htot; [exact HSY|reflexivity].
  - exists R'. split.
    + rewrite list_lookup_insert_ne by congruence.
      apply list_lookup_insert_eq, Hrlen.
    + exact HRF.
Qed.

Lemma New_Blob_data (X Y i : Z) (st st' : Store) (b : addr) :
  New_Blob X Y i st = Some (b, st') ->
  heap st' !! b = Some (mkBlob i 0 0 0 0 0 0 0 X Y (-1) None) /\
  forall a, a <> b -> (a < length (heap st))%nat ->
    heap st' !! a = heap st !! a.
Proof.
  unfold New_Blob. destruct st as [h F]. cbn [heap FreeBlobs].
  destruct F as [|b0 rest]; cbn [heap FreeBlobs].
  - rewrite seq_block.
    destruct ((h ++ replicate FREEBLOBSBLOCKSIZE blank) !! length h) eqn:Hl;
      [|discriminate].
    intros [= <- <-]. cbn [heap]. split.
    + apply list_lookup_insert_eq. eapply lookup_lt_Some, Hl.
    + intros a Ha Hlt. rewrite list_lookup_insert_ne by congruence.
      apply lookup_app_l, Hlt.
  - destruct (h !! b0) eqn:Hl; [|discriminate].
    intros [= <- <-]. cbn [heap]. split.
    + apply list_lookup_insert_eq. eapply lookup_lt_Some, Hl.
    + intros a Ha Hlt. apply list_lookup_insert_ne. congruence.
Qed.


(** The blob-worthy branch of a pixel step counts the position once. *)
Lemma touch_measured (e : Z) (X Y k : nat) (cb : option addr) (s s' : Scan)
    (W M N SX SY : Z) :
  shape_of k s ->
  (forall c, cb = Some c -> c ∈ Blobs s /\ is_root (heap (store s)) c) ->
  measured W (Z.of_nat Y) N SX SY (heap (store s)) (Blobs s) ->
  Z.of_nat X < W -> N < M -> M * W <= Int.max_int ->
  M * (Z.of_nat Y + 1) <= Int.max_int ->
  touch e X Y cb s = Some s' ->
  measured W (Z.of_nat Y) (N + 1) (SX + Z.of_nat X) (SY + Z.of_nat Y)
    (heap (store s')) (Blobs s').
Proof.
  destruct s as [[h F] L rb cbs dm]. unfold shape_of.
  cbn [store heap FreeBlobs Blobs RowBlob ColBlobs DMap].
  intros Hs Hcb Hm HX HN HMW HMY Htouch.
  pose proof (shape_nodup _ _ _ _ _ _ Hs) as Hnd.
  apply NoDup_app in Hnd as (HndL & Hdisj & HndF).
  assert (HvalL : forall a, a ∈ L -> (a < length h)%nat).
  { intros a Ha. eapply shape_valid; [exact Hs|]. apply elem_of_app. auto. }
  (* the state in which the position is added *)
  assert (Hmid : exists r R h1 F1 L1,
    match rb, cb with
    | Some r, Some c =>
        match Merge_Blobs c r e h with
        | None => None
        | Some h => Some (r, mkStore h F, L)
        end
    | None, Some c => Some (c, mkStore h F, L)
    | None, None =>
        match New_Blob (Z.of_nat X) (Z.of_nat Y) 0 (mkStore h F) with
        | None => None
        | Some (b, st) => Some (b, st, b :: L)
        end
    | Some r, None => Some (r, mkStore h F, L)
    end = Some (r, mkStore h1 F1, L1) /\
    NoDup L1 /\ r ∈ L1 /\ h1 !! r = Some R /\ FP R = None /\
    (forall b B, b ∈ L1 -> b <> r -> h1 !! b = Some B ->
       boxed W (Z.of_nat Y) B) /\
    (boxed W (Z.of_nat Y) R \/
     (Count R = 0 /\ Xsum R = 0 /\ Ysum R = 0 /\
      Xreg R = Z.of_nat X /\ Yreg R = Z.of_nat Y)) /\
    total Count h1 L1 = N /\ total Xsum h1 L1 = SX /\ total Ysum h1 L1 = SY).
  { assert (Hkeep : forall r, r ∈ L -> is_root h r ->
              exists R, NoDup L /\ r ∈ L /\ h !! r = Some R /\ FP R = None /\
                (forall b B, b ∈ L -> b <> r -> h !! b = Some B ->
                   boxed W (Z.of_nat Y) B) /\
                (boxed W (Z.of_nat Y) R \/
                 (Count R = 0 /\ Xsum R = 0 /\ Ysum R = 0 /\
                  Xreg R = Z.of_nat X /\ Yreg R = Z.of_nat Y)) /\
                total Count h L = N /\ total Xsum h L = SX /\
                total Ysum h L = SY).
    { intros r Hr (R & HR & HRF). destruct Hm as [Hbox HcN HxN HyN].
      exists R. split; [exact HndL|]. split; [exact Hr|]. split; [exact HR|].
      split; [exact HRF|].
      split; [intros b B Hb _ HB; eapply Hbox; eassumption|].
      split; [left; eapply Hbox; eassumption|]. auto. }
    destruct rb as [r|], cb as [c|]; unfold touch in Htouch;
      cbn [store heap FreeBlobs Blobs RowBlob ColBlobs DMap] in Htouch.
    - destruct (Hcb c eq_refl) as [Hc Hroot].
      destruct (shape_row _ _ _ _ _ _ Hs r eq_refl) as [Hr Hrroot].
      destruct (decide (c = r)) as [Heq|Hne].
      + subst c. rewrite Merge_Blobs_self in *.
        destruct (Hkeep r Hr Hrroot) as (R & Hk). exists r, R, h, F, L. auto.
      + destruct (Merge_Blobs c r e h) as [h1|] eqn:Hmerge; [|discriminate].
        destruct (Merge_Blobs_measured W M N SX SY (Z.of_nat Y) e h h1 L c r
                    HndL Hc Hr Hne Hroot Hrroot Hm ltac:(lia) ltac:(lia)
                    ltac:(lia) HMW HMY Hmerge) as [[Hbox HcN HxN HyN] (R & HR & HRF)].
        exists r, R, h1, F, L. split; [reflexivity|]. split; [exact HndL|].
        split; [exact Hr|]. split; [exact HR|]. split; [exact HRF|].
        split; [intros b B Hb _ HB; eapply Hbox; eassumption|].
        split; [left; eapply Hbox; eassumption|]. auto.
    - destruct (shape_row _ _ _ _ _ _ Hs r eq_refl) as [Hr Hrroot].
      destruct (Hkeep r Hr Hrroot) as (R & Hk). exists r, R, h, F, L. auto.
    - destruct (Hcb c eq_refl) as [Hc Hroot].
      destruct (Hkeep c Hc Hroot) as (R & Hk). exists c, R, h, F, L. auto.
    - destruct (New_Blob_spec (Z.of_nat X) (Z.of_nat Y) _ _ _ _ _ _ Hs)
        as (b & h1 & F1 & Hn & Hfresh & _ & _ & Hnd1 & _).
      destruct (New_Blob_data _ _ _ _ _ _ Hn) as [Hb Hold]. cbn [heap] in Hb, Hold.
      rewrite Hn. apply NoDup_app in Hnd1 as (Hnd1 & _).
      destruct Hm as [Hbox HcN HxN HyN].
      assert (Hsame : forall a, a ∈ L -> h1 !! a = h !! a).
      { intros a Ha. apply Hold; [intros ->; contradiction|apply HvalL, Ha]. }
      assert (Htot : forall f : Blob -> Z,
                f (mkBlob 0 0 0 0 0 0 0 0 (Z.of_nat X) (Z.of_nat Y) (-1) None) = 0 ->
                total f h1 (b :: L) = total f h L).
      { intros f Hf. cbn [total foldr]. fold (total f h1 L).
        rewrite (share_root f h1 b _ Hb eq_refl), Hf.
        rewrite (total_agree f h h1 L); [lia|].
        intros a Ha. unfold share. rewrite (Hsame a Ha). reflexivity. }
      eexists b, _, h1, F1, (b :: L). split; [reflexivity|].
      split; [exact Hnd1|]. split; [apply elem_of_cons; auto|].
      split; [exact Hb|]. split; [reflexivity|]. split.
      { intros a B Ha Hne HB. apply elem_of_cons in Ha as [->|Ha]; [congruence|].
        rewrite (Hsame a Ha) in HB. eapply Hbox; eassumption. }
      split; [right; cbn; auto|].
      rewrite !Htot by reflexivity. auto. }
  destruct Hmid as (r & R & h1 & F1 & L1 & Hchoice & Hnd1 & Hr & HR & HRF & Hbox
                      & HRbox & HcN & HxN & HyN).
  unfold touch in Htouch.
  cbn [store heap FreeBlobs Blobs RowBlob ColBlobs DMap] in Htouch.
  rewrite Hchoice in Htouch. cbn [heap FreeBlobs] in Htouch.
  destruct (Add_Position r (Z.of_nat X) (Z.of_nat Y) h1) as [h2|] eqn:Hadd;
    [|discriminate].
  destruct (decide (X < length cbs)%nat); [|discriminate].
  injection Htouch as <-. cbn [store heap Blobs].
  eapply (Add_Position_measured W M N SX SY (Z.of_nat X) (Z.of_nat Y) h1 h2 L1 r R);
    try eassumption; lia.
Qed.


(** *** The census along a scan *)

Lemma sumZ_app (l1 l2 : list Z) : sumZ (l1 ++ l2) = sumZ l1 + sumZ l2.
Proof.
  unfold sumZ. induction l1 as [|x l1 IH]; cbn [app foldr]; [lia|].
  rewrite IH. lia.
Qed.

Lemma worthy_S (Bth : Z) (DensityMap : list Z) (n : nat) (d : Z) :
  DensityMap !! n = Some d ->
  worthy Bth DensityMap (S n) =
  worthy Bth DensityMap n ++ (if Bth <=? d then [n] else []).
Proof.
  intros Hd. unfold worthy. rewrite seq_S, List.filter_app. cbn [List.filter Nat.add].
  rewrite Hd. reflexivity.
Qed.

Lemma worthy_length (Bth : Z) (DensityMap : list Z) (n : nat) :
  (length (worthy Bth DensityMap n) <= n)%nat.
Proof.
  unfold worthy. etransitivity; [apply List.filter_length_le|].
  rewrite length_seq. reflexivity.
Qed.

Lemma census_S (Bth : Z) (DensityMap : list Z) (W n : nat) (d : Z) :
  DensityMap !! n = Some d ->
  let w := if Bth <=? d then 1 else 0 in
  census_count Bth DensityMap (S n) = census_count Bth DensityMap n + w /\
  census_columns Bth DensityMap W (S n) =
    census_columns Bth DensityMap W n + w * column W n /\
  census_rows Bth DensityMap W (S n) =
    census_rows Bth DensityMap W n + w * row W n.
Proof.
  intros Hd. unfold census_count, census_columns, census_rows.
  rewrite (worthy_S _ _ _ _ Hd). rewrite length_app, !map_app, !sumZ_app.
  destruct (Bth <=? d); cbn; lia.
Qed.

Lemma find_pixel_measured (mapped : bool) (fuel Wn : nat) (Bth : Z) (Y X k : nat)
    (s s' : Scan) (d W M N SX SY : Z) :
  shape_of k s -> (k < fuel)%nat -> (X < length (ColBlobs s))%nat ->
  DMap s !! (Y * Wn + X)%nat = Some (Density d) ->
  measured W (Z.of_nat Y) N SX SY (heap (store s)) (Blobs s) ->
  Z.of_nat X < W -> N < M -> M * W <= Int.max_int ->
  M * (Z.of_nat Y + 1) <= Int.max_int ->
  find_pixel mapped fuel Wn Bth Y s X = Some s' ->
  let w := if Bth <=? d then 1 else 0 in
  measured W (Z.of_nat Y) (N + w) (SX + w * Z.of_nat X) (SY + w * Z.of_nat Y)
    (heap (store s')) (Blobs s').
Proof.
  intros Hs Hk HX Hd Hm HXW HN HMW HMY Hstep. unfold find_pixel in Hstep.
  destruct (lookup_lt_is_Some_2 _ _ HX) as [cb Hcb]. rewrite Hcb, Hd in Hstep.
  destruct (resolve_spec fuel k _ _ _ _ _ X cb Hs Hcb Hk) as (cb' & Hres & Hcb').
  rewrite Hres in Hstep. destruct (Bth <=? d).
  - destruct (touch _ X Y cb' s) as [s0|] eqn:Htouch; [|discriminate].
    injection Hstep as <-. cbn [store Blobs]. cbn zeta. rewrite !Z.mul_1_l.
    eapply touch_measured; eassumption.
  - injection Hstep as <-. cbn [store Blobs]. cbn zeta.
    rewrite !Z.mul_0_l, !Z.add_0_r. exact Hm.
Qed.

Lemma for_each_snoc {St : Type} (body : St -> nat -> option St) (n : nat)
    (s s2 : St) :
  for_each body (seq 0 (S n)) s = Some s2 ->
  exists s1, for_each body (seq 0 n) s = Some s1 /\ body s1 n = Some s2.
Proof.
  rewrite seq_S, for_each_app. cbn [Nat.add].
  destruct (for_each body (seq 0 n) s) as [s1|]; [|discriminate].
  cbn [for_each]. destruct (body s1 n) as [s2'|] eqn:Hb; [|discriminate].
  intros [= <-]. eauto.
Qed.

(** The columns of row [Y]. *)
Lemma find_row_prefix_measured (mapped : bool) (Wn Hn : nat) (Bth : Z)
    (DensityMap : list Z) (Y : nat) (s : Scan) :
  let W := Z.of_nat Wn in
  let M := Z.of_nat (Wn * Hn) in
  (Wn * Hn <= length DensityMap)%nat -> (Y < Hn)%nat ->
  M * W <= Int.max_int -> M * Z.of_nat Hn <= Int.max_int ->
  shape_of (Y * Wn) s -> (mapped = false -> dated_of (Z.of_nat Y) 0 s) ->
  length (ColBlobs s) = Wn -> tail_density (DMap s) (Y * Wn) (Wn * Hn) ->
  pending DensityMap (DMap s) (Y * Wn) ->
  measured W (Z.of_nat Y) (census_count Bth DensityMap (Y * Wn))
    (census_columns Bth DensityMap Wn (Y * Wn))
    (census_rows Bth DensityMap Wn (Y * Wn)) (heap (store s)) (Blobs s) ->
  forall (n : nat) (s' : Scan),
  (n <= Wn)%nat ->
  find_row_prefix mapped (Wn * Hn) Wn Bth Y n s = Some s' ->
  pending DensityMap (DMap s') (Y * Wn + n) /\
  measured W (Z.of_nat Y) (census_count Bth DensityMap (Y * Wn + n))
    (census_columns Bth DensityMap Wn (Y * Wn + n))
    (census_rows Bth DensityMap Wn (Y * Wn + n)) (heap (store s')) (Blobs s').
Proof.
  intros W M Hdm HY HMW HMH Hs Hd Hlen Htail Hpend Hm.
  induction n as [|n IH]; intros s' Hle Hrun.
  - unfold find_row_prefix in Hrun. cbn in Hrun. injection Hrun as <-.
    cbn [store heap Blobs DMap]. rewrite Nat.add_0_r. auto.
  - unfold find_row_prefix in Hrun. apply for_each_snoc in Hrun as (s1 & Hrun1 & Hstep).
    fold (find_row_prefix mapped (Wn * Hn) Wn Bth Y n s) in Hrun1.
    destruct (IH s1 ltac:(lia) Hrun1) as [Hpend1 Hm1].
    destruct (find_row_prefix_spec mapped (Wn * Hn) Wn Bth Y n s ltac:(lia)
                ltac:(nia) Hs Hd Hlen Htail)
      as (s1' & Hrun1' & Hs1 & Hd1 & Hlen1 & Htail1 & _).
    rewrite Hrun1 in Hrun1'. injection Hrun1' as <-.
    assert (Hin : (Y * Wn + n < Wn * Hn)%nat) by nia.
    destruct (lookup_lt_is_Some_2 DensityMap (Y * Wn + n) ltac:(lia)) as [d Hdn].
    assert (Hcell : DMap s1 !! (Y * Wn + n)%nat = Some (Density d)).
    { rewrite Hpend1 by lia. rewrite Hdn. reflexivity. }
    destruct (find_pixel_spec mapped (Wn * Hn) Wn Bth Y n (Y * Wn + n) s1 d Hs1
                ltac:(lia) ltac:(lia) Hcell)
      as (s2 & Hstep2 & _ & _ & _ & _ & Hother).
    rewrite Hstep in Hstep2. injection Hstep2 as <-.
    split.
    + intros i Hi. rewrite Hother by lia. apply Hpend1. lia.
    + replace (Y * Wn + S n)%nat with (S (Y * Wn + n)) by lia.
      destruct (census_S Bth DensityMap Wn (Y * Wn + n) d Hdn) as (-> & -> & ->).
      assert (Hcol : column Wn (Y * Wn + n) = Z.of_nat n).
      { unfold column. f_equal. rewrite Nat.add_comm, Nat.Div0.mod_add.
        apply Nat.mod_small. lia. }
      assert (Hrow : row Wn (Y * Wn + n) = Z.of_nat Y).
      { unfold row. f_equal. rewrite Nat.add_comm, Nat.div_add by lia.
        rewrite Nat.div_small by lia. reflexivity. }
      rewrite Hcol, Hrow.
      eapply (find_pixel_measured mapped (Wn * Hn) Wn Bth Y n (Y * Wn + n) s1 s'
                d W M); try eassumption; try lia.
      * unfold census_count. pose proof (worthy_length Bth DensityMap (Y * Wn + n)).
        unfold M. lia.
      * unfold M in *. nia.
Qed.


Lemma boxed_later (W Y Y' : Z) (B : Blob) : Y <= Y' -> boxed W Y B -> boxed W Y' B.
Proof. intros HY [Hc Hx (Hy0 & Hy1 & Hy2) Hxs Hys Hr]. split; auto. lia. Qed.

Lemma measured_later (W Y Y' N SX SY : Z) (h : list Blob) (L : list addr) :
  Y <= Y' -> measured W Y N SX SY h L -> measured W Y' N SX SY h L.
Proof.
  intros HY [Hbox HN HSX HSY]. split; auto.
  intros b B Hb HB. eapply boxed_later; [exact HY|]. eapply Hbox; eassumption.
Qed.

Lemma measured_filter (W Y N SX SY : Z) (h : list Blob) (g : addr -> bool)
    (L : list addr) :
  (forall a B, a ∈ L -> g a = false -> h !! a = Some B -> FP B <> None) ->
  measured W Y N SX SY h L -> measured W Y N SX SY h (List.filter g L).
Proof.
  intros Hg [Hbox HN HSX HSY].
  assert (Hz : forall f a, a ∈ L -> g a = false -> share f h a = 0).
  { intros f a Ha Hga. unfold share. destruct (h !! a) as [B|] eqn:HB; [|reflexivity].
    pose proof (Hg a B Ha Hga HB). destruct (FP B); [reflexivity|congruence]. }
  split.
  - intros b B Hb HB. apply list_elem_of_In, List.filter_In in Hb as [Hb _].
    eapply Hbox; [apply list_elem_of_In, Hb|exact HB].
  - rewrite total_filter; [exact HN|]. intros a. apply Hz.
  - rewrite total_filter; [exact HSX|]. intros a. apply Hz.
  - rewrite total_filter; [exact HSY|]. intros a. apply Hz.
Qed.

(** The rows of a scan. *)
Lemma find_rows_measured (mapped : bool) (Wn Hn : nat) (Bth : Z)
    (DensityMap : list Z) (st : Store) :
  let W := Z.of_nat Wn in
  let M := Z.of_nat (Wn * Hn) in
  store_ok st -> (Wn * Hn <= length DensityMap)%nat ->
  M * W <= Int.max_int -> M * Z.of_nat Hn <= Int.max_int ->
  forall (n : nat) (s : Scan),
  (n <= Hn)%nat ->
  find_rows mapped Wn Hn Bth DensityMap st n = Some s ->
  pending DensityMap (DMap s) (n * Wn) /\
  measured W (Z.of_nat n - 1) (census_count Bth DensityMap (n * Wn))
    (census_columns Bth DensityMap Wn (n * Wn))
    (census_rows Bth DensityMap Wn (n * Wn)) (heap (store s)) (Blobs s).
Proof.
  intros W M Hst Hdm HMW HMH. induction n as [|n IH]; intros s Hle Hrun.
  - unfold find_rows in Hrun. cbn in Hrun. injection Hrun as <-.
    cbn [store heap Blobs DMap]. split.
    + intros i _. apply list_lookup_fmap.
    + split; [|reflexivity..]. intros b B Hb. apply elem_of_nil in Hb. destruct Hb.
  - unfold find_rows in Hrun. apply for_each_snoc in Hrun as (s1 & Hrun1 & Hrow).
    fold (find_rows mapped Wn Hn Bth DensityMap st n) in Hrun1.
    destruct (IH s1 ltac:(lia) Hrun1) as [Hpend1 Hm1].
    destruct (find_rows_spec mapped Wn Hn Bth DensityMap st n Hst Hdm ltac:(lia))
      as (s1' & Hrun1' & Hs1 & Hd1 & Hlen1 & Htail1).
    rewrite Hrun1 in Hrun1'. injection Hrun1' as <-.
    unfold find_row in Hrow.
    destruct (find_row_prefix mapped (Wn * Hn) Wn Bth n Wn s1) as [s2|] eqn:Hpre;
      [|discriminate].
    pose proof (measured_later W (Z.of_nat n - 1) (Z.of_nat n) _ _ _ _ _
                  ltac:(lia) Hm1) as Hm1'.
    destruct (find_row_prefix_measured mapped Wn Hn Bth DensityMap n s1 Hdm
                ltac:(lia) HMW HMH Hs1 Hd1 Hlen1 Htail1 Hpend1 Hm1'
                Wn s2 ltac:(lia) Hpre) as [Hpend2 Hm2].
    replace (S n * Wn)%nat with (n * Wn + Wn)%nat by lia.
    replace (Z.of_nat (S n) - 1) with (Z.of_nat n) by lia.
    destruct mapped.
    + injection Hrow as <-. auto.
    + destruct (find_row_prefix_spec false (Wn * Hn) Wn Bth n Wn s1 ltac:(lia)
                  ltac:(nia) Hs1 Hd1 Hlen1 Htail1)
        as (s2' & Hpre' & Hs2 & Hd2 & _).
      rewrite Hpre in Hpre'. injection Hpre' as <-.
      specialize (Hd2 eq_refl). unfold shape_of, dated_of in Hs2, Hd2.
      rewrite Reap_Expired_Blobs_eq in Hrow.
      2:{ intros b Hb. eapply shape_valid; [exact Hs2|]. apply elem_of_app. auto. }
      injection Hrow as <-. cbn [store heap Blobs DMap]. split; [exact Hpend2|].
      apply measured_filter; [|exact Hm2].
      intros a B Ha Hga HB HF.
      pose proof (dated_root _ _ _ _ _ Hd2 a B Ha HB HF) as He.
      unfold expires in Hga. rewrite HB, He in Hga.
      destruct (Z.eqb_spec (Z.of_nat n) (-1)); [lia|discriminate].
Qed.

(** *** The blobs a finder returns *)

Lemma Number_Blobs_roots (L : list addr) :
  forall (i : Z) (h : list Blob),
  NoDup L -> (forall b, b ∈ L -> is_root h b) ->
  0 <= i -> i + Z.of_nat (length L) <= Int.max_int ->
  exists h',
    Number_Blobs L i h = Some h' /\
    (forall a, a ∉ L -> h' !! a = h !! a) /\
    (forall (j : nat) (b : addr) (B : Blob),
       L !! j = Some b -> h !! b = Some B ->
       h' !! b = Some (mkBlob (i + Z.of_nat j) (Xsum B) (Ysum B) (Xmin B) (Ymin B)
                         (Xmax B) (Ymax B) (Count B) (Xreg B) (Yreg B)
                         (Expire B) (FP B))).
Proof.
  induction L as [|b L IH]; intros i h Hnd Hroot Hi Hmax.
  - exists h. split; [reflexivity|]. split; [auto|]. intros j b B [=].
  - apply NoDup_cons in Hnd as [Hb Hnd].
    destruct (Hroot b ltac:(apply elem_of_cons; auto)) as (B & HB & HF).
    cbn [Number_Blobs]. rewrite HB, HF.
    assert (Hblen : (b < length h)%nat) by (eapply lookup_lt_Some, HB).
    assert (Hadd : Int.add i 1 = i + 1).
    { apply add_small; cbn [length] in Hmax; lia. }
    rewrite Hadd.
    set (h1 := <[b := _]> h).
    destruct (IH (i + 1) h1 Hnd) as (h' & Hrun & Hout & Hin).
    + intros a Ha. destruct (Hroot a ltac:(apply elem_of_cons; auto)) as (A & HA & HAF).
      exists A. split; [|exact HAF]. unfold h1.
      rewrite list_lookup_insert_ne; [exact HA|]. intros ->. contradiction.
    + lia.
    + cbn [length] in Hmax. lia.
    + exists h'. split; [exact Hrun|]. split.
      * intros a Ha. rewrite Hout by (intros Hin'; apply Ha, elem_of_cons; auto).
        unfold h1. apply list_lookup_insert_ne. intros ->. apply Ha, elem_of_cons. auto.
      * intros [|j] a A Hj HA.
        -- injection Hj as <-. rewrite HB in HA. injection HA as <-.
           rewrite Hout by exact Hb. unfold h1.
           rewrite list_lookup_insert_eq by exact Hblen. rewrite Z.add_0_r, HF.
           reflexivity.
        -- cbn in Hj.
           assert (Hne : a <> b).
           { intros ->. apply Hb. eapply list_elem_of_lookup_2, Hj. }
           rewrite (Hin j a A Hj).
           ++ do 2 f_equal. lia.
           ++ unfold h1. rewrite list_lookup_insert_ne by congruence. exact HA.
Qed.

Lemma length_le_total (h : list Blob) (L : list addr) :
  (forall b, b ∈ L -> 1 <= share Count h b) ->
  Z.of_nat (length L) <= total Count h L.
Proof.
  induction L as [|b L IH]; intros Hone; [cbn; lia|].
  cbn [length total foldr]. fold (total Count h L).
  pose proof (Hone b ltac:(apply elem_of_cons; auto)).
  pose proof (IH ltac:(intros a Ha; apply Hone, elem_of_cons; auto)). lia.
Qed.

Lemma total_roots (f : Blob -> Z) (h : list Blob) (bs : list addr)
    (Bs : list Blob) :
  Forall2 (fun b B => h !! b = Some B /\ FP B = None) bs Bs ->
  total f h bs = sumZ (map f Bs) /\ omap (fun b => h !! b) bs = Bs.
Proof.
  induction 1 as [|b B bs Bs [HB HF] _ [IH1 IH2]]; [split; reflexivity|]. split.
  - change (share f h b + total f h bs = f B + sumZ (map f Bs)).
    rewrite (share_root f h b B HB HF), IH1. reflexivity.
  - change (match h !! b with
            | Some y => y :: omap (fun b => h !! b) bs
            | None => omap (fun b => h !! b) bs
            end = B :: Bs).
    rewrite HB, IH2. reflexivity.
Qed.


Lemma Forall2_roots (h : list Blob) (bs : list addr) :
  (forall b, b ∈ bs -> is_root h b) ->
  exists Bs, Forall2 (fun b B => h !! b = Some B /\ FP B = None) bs Bs.
Proof.
  induction bs as [|b bs IH]; intros Hroot; [exists []; constructor|].
  destruct (Hroot b ltac:(apply elem_of_cons; auto)) as (B & HB & HF).
  destruct IH as [Bs HBs]; [intros a Ha; apply Hroot, elem_of_cons; auto|].
  exists (B :: Bs). constructor; auto.
Qed.

Lemma int_room (W H : Z) :
  0 <= W -> 0 <= H -> W * H * W <= Int.max_int -> W * H * H <= Int.max_int ->
  1 + W * H <= Int.max_int.
Proof.
  unfold Int.max_int. intros HW HH H1 H2.
  destruct (Z.le_gt_cases (W * H) 1) as [|Hbig]; [lia|].
  destruct (Z.le_gt_cases W 1) as [HW1|HW1]; [|nia].
  destruct (Z.le_gt_cases H 1) as [HH1|HH1]; nia.
Qed.

(** What [Blob_Finder] returns. *)
Lemma Blob_Finder_result (DensityMap : list Z) (Width Height Bth : Z)
    (st : Store) :
  let Wn := Z.to_nat Width in
  let Hn := Z.to_nat Height in
  store_ok st -> (Wn * Hn <= length DensityMap)%nat ->
  Z.of_nat (Wn * Hn) * Z.of_nat Wn <= Int.max_int ->
  Z.of_nat (Wn * Hn) * Z.of_nat Hn <= Int.max_int ->
  exists (bs : list addr) (st' : Store) (Bs : list Blob),
    Blob_Finder DensityMap Width Height Bth st = Some (bs, st') /\
    Forall2 (fun b B => heap st' !! b = Some B /\ FP B = None) bs Bs /\
    (forall (j : nat) (B : Blob),
       Bs !! j = Some B ->
       ID B = Z.of_nat j + 1 /\ boxed (Z.of_nat Wn) (Z.of_nat Hn - 1) B) /\
    total Count (heap st') bs = census_count Bth DensityMap (Wn * Hn) /\
    total Xsum (heap st') bs = census_columns Bth DensityMap Wn (Wn * Hn) /\
    total Ysum (heap st') bs = census_rows Bth DensityMap Wn (Wn * Hn).
Proof.
  intros Wn Hn Hst Hdm HMW HMH. unfold Blob_Finder. fold Wn Hn.
  destruct (find_rows_spec false Wn Hn Bth DensityMap st Hn Hst Hdm ltac:(lia))
    as (s & Hrun & Hs & _).
  destruct (find_rows_measured false Wn Hn Bth DensityMap st Hst Hdm HMW HMH
              Hn s ltac:(lia) Hrun) as [_ Hm].
  rewrite (Nat.mul_comm Hn Wn) in Hm.
  rewrite Hrun. unfold shape_of in Hs.
  set (h := heap (store s)) in *. set (L := Blobs s) in *.
  assert (Hval : forall b, b ∈ L -> (b < length h)%nat).
  { intros b Hb. eapply shape_valid; [exact Hs|]. apply elem_of_app. auto. }
  rewrite Reap_FP_Blobs_eq by exact Hval.
  set (bs := List.filter (fun b => negb (forwarded h b)) L).
  assert (Hbs : forall b, b ∈ bs -> b ∈ L /\ is_root h b).
  { intros b Hb. unfold bs in Hb. apply list_elem_of_In, filter_In in Hb as [Hb Hf].
    apply list_elem_of_In in Hb. split; [exact Hb|].
    destruct (lookup_lt_is_Some_2 _ _ (Hval b Hb)) as [B HB].
    exists B. split; [exact HB|]. unfold forwarded in Hf. rewrite HB in Hf.
    destruct (FP B); [discriminate|reflexivity]. }
  assert (Hmbs : measured (Z.of_nat Wn) (Z.of_nat Hn - 1)
                   (census_count Bth DensityMap (Wn * Hn))
                   (census_columns Bth DensityMap Wn (Wn * Hn))
                   (census_rows Bth DensityMap Wn (Wn * Hn)) h bs).
  { apply measured_filter; [|exact Hm].
    intros a B Ha Hga HB. unfold forwarded in Hga. rewrite HB in Hga.
    destruct (FP B); [discriminate|discriminate]. }
  destruct Hmbs as [Hbox HN HSX HSY].
  assert (Hnd : NoDup bs).
  { unfold bs. apply NoDup_ListNoDup, List.NoDup_filter, NoDup_ListNoDup.
    pose proof (shape_nodup _ _ _ _ _ _ Hs) as Hnd.
    apply NoDup_app in Hnd as (Hnd & _). exact Hnd. }
  assert (Hlen : 1 + Z.of_nat (length bs) <= Int.max_int).
  { assert (Z.of_nat (length bs) <= total Count h bs).
    { apply length_le_total. intros b Hb. destruct (Hbs b Hb) as [_ (B & HB & HF)].
      rewrite (share_root Count h b B HB HF).
      apply (boxed_count _ _ _ (Hbox b B Hb HB)). }
    pose proof (worthy_length Bth DensityMap (Wn * Hn)).
    unfold census_count in HN.
    pose proof (int_room (Z.of_nat Wn) (Z.of_nat Hn) ltac:(lia) ltac:(lia)
                  ltac:(rewrite <- Nat2Z.inj_mul; exact HMW)
                  ltac:(rewrite <- Nat2Z.inj_mul; exact HMH)).
    rewrite <- Nat2Z.inj_mul in *. lia. }
  destruct (Number_Blobs_roots bs 1 h Hnd ltac:(intros b Hb; apply Hbs, Hb)
              ltac:(lia) Hlen) as (h' & Hnum & Hout & Hin).
  rewrite Hnum.
  assert (Hroot' : forall b, b ∈ bs -> is_root h' b).
  { intros b Hb. destruct (Hbs b Hb) as [_ (B & HB & HF)].
    apply list_elem_of_lookup_1 in Hb as [j Hj].
    eexists. split; [apply (Hin j b B Hj HB)|exact HF]. }
  destruct (Forall2_roots h' bs Hroot') as [Bs HBs].
  assert (Hshare : forall f : Blob -> Z,
            (forall i B, f (mkBlob i (Xsum B) (Ysum B) (Xmin B) (Ymin B) (Xmax B)
                              (Ymax B) (Count B) (Xreg B) (Yreg B) (Expire B) (FP B))
                         = f B) ->
            total f h' bs = total f h bs).
  { intros f Hf. apply total_agree. intros b Hb.
    destruct (Hbs b Hb) as [_ (B & HB & HF)].
    pose proof Hb as Hb'. apply list_elem_of_lookup_1 in Hb' as [j Hj].
    unfold share. rewrite (Hin j b B Hj HB), HB. cbn [FP]. rewrite HF.
    rewrite <- (Hf (1 + Z.of_nat j) B), HF. reflexivity. }
  exists bs, (mkStore h' (rev (List.filter (forwarded h) L) ++ FreeBlobs (store s))), Bs.
  split; [reflexivity|]. cbn [heap]. split; [exact HBs|]. split.
  - intros j B' HB'.
    destruct (Forall2_lookup_r _ _ _ _ _ HBs HB') as (b & Hj & HB'' & _).
    destruct (Hbs b (list_elem_of_lookup_2 _ _ _ Hj)) as [_ (B & HB & HF)].
    rewrite (Hin j b B Hj HB) in HB''. injection HB'' as <-. cbn [ID].
    split; [lia|].
    destruct (Hbox b B (list_elem_of_lookup_2 _ _ _ Hj) HB) as [? ? ? ? ? ?].
    split; assumption.
  - rewrite !Hshare by reflexivity. auto.
Qed.

(** X18: on a pool in order, a map that covers [Width * Height] positions
    and sums that fit an int, [Blob_Finder] returns, and the blobs it returns
    account for every position whose density reaches [Bth] exactly once: their
    [Count]s add up to the number of those positions, their [Xsum]s to the
    sum of the columns and their [Ysum]s to the sum of the rows of those
    positions. *)
Theorem Blob_Finder_census (DensityMap : list Z) (Width Height Bth : Z)
    (st : Store) :
  let Wn := Z.to_nat Width in
  let Hn := Z.to_nat Height in
  store_ok st -> (Wn * Hn <= length DensityMap)%nat ->
  Z.of_nat (Wn * Hn) * Z.of_nat Wn <= Int.max_int ->
  Z.of_nat (Wn * Hn) * Z.of_nat Hn <= Int.max_int ->
  exists Bs : list Blob,
    blobs_of (Blob_Finder DensityMap Width Height Bth st) = Some Bs /\
    sumZ (map Count Bs) = census_count Bth DensityMap (Wn * Hn) /\
    sumZ (map Xsum Bs) = census_columns Bth DensityMap Wn (Wn * Hn) /\
    sumZ (map Ysum Bs) = census_rows Bth DensityMap Wn (Wn * Hn).
Proof.
  intros Wn Hn Hst Hdm HMW HMH.
  destruct (Blob_Finder_result DensityMap Width Height Bth st Hst Hdm HMW HMH)
    as (bs & st' & Bs & Hrun & HBs & _ & HN & HSX & HSY).
  exists Bs. rewrite Hrun. unfold blobs_of.
  rewrite (proj2 (total_roots Count _ _ _ HBs)).
  rewrite <- (proj1 (total_roots Count _ _ _ HBs)),
          <- (proj1 (total_roots Xsum _ _ _ HBs)),
          <- (proj1 (total_roots Ysum _ _ _ HBs)). auto.
Qed.

(** X19: under the same conditions every blob [Blob_Finder] returns is
    numbered by its place in the list, from 1 on, is not forwarded, holds at
    least one position, has a bounding box inside the map, a registration
    point on the top row of its box ([Yreg = Ymin]) and between its left and
    right edge, and a centre of mass ([Xsum / Count], [Ysum / Count], the
    divisions of [Mark_Blob_CoM], which are defined) inside its box. *)
Theorem Blob_Finder_blobs (DensityMap : list Z) (Width Height Bth : Z)
    (st : Store) :
  let Wn := Z.to_nat Width in
  let Hn := Z.to_nat Height in
  store_ok st -> (Wn * Hn <= length DensityMap)%nat ->
  Z.of_nat (Wn * Hn) * Z.of_nat Wn <= Int.max_int ->
  Z.of_nat (Wn * Hn) * Z.of_nat Hn <= Int.max_int ->
  exists Bs : list Blob,
    blobs_of (Blob_Finder DensityMap Width Height Bth st) = Some Bs /\
    forall (j : nat) (B : Blob),
      Bs !! j = Some B ->
      ID B = Z.of_nat j + 1 /\ FP B = None /\
      boxed (Z.of_nat Wn) (Z.of_nat Hn - 1) B /\
      Int.div (Xsum B) (Count B) = Some (Xsum B / Count B) /\
      Int.div (Ysum B) (Count B) = Some (Ysum B / Count B) /\
      Xmin B <= Xsum B / Count B <= Xmax B /\
      Ymin B <= Ysum B / Count B <= Ymax B.
Proof.
  intros Wn Hn Hst Hdm HMW HMH.
  destruct (Blob_Finder_result DensityMap Width Height Bth st Hst Hdm HMW HMH)
    as (bs & st' & Bs & Hrun & HBs & Hall & _).
  exists Bs. rewrite Hrun. unfold blobs_of.
  rewrite (proj2 (total_roots Count _ _ _ HBs)). split; [reflexivity|].
  intros j B HB. destruct (Hall j B HB) as [HID Hbox].
  destruct (Forall2_lookup_r _ _ _ _ _ HBs HB) as (b & _ & _ & HF).
  split; [exact HID|]. split; [exact HF|]. split; [exact Hbox|].
  destruct Hbox as [Hc (Hx0 & Hx1 & Hx2) (Hy0 & Hy1 & Hy2) [Hxs0 Hxs1]
                      [Hys0 Hys1] _].
  assert (Hdiv : forall s, 0 <= s -> Int.div s (Count B) = Some (s / Count B)).
  { intros s0 Hs0. unfold Int.div.
    destruct (Z.eqb_spec (Count B) 0); [lia|].
    destruct (Z.eqb_spec (Count B) (-1)); [lia|]. rewrite andb_false_r.
    rewrite Z.quot_div_nonneg by lia. reflexivity. }
  split; [apply Hdiv; nia|]. split; [apply Hdiv; nia|].
  split; (split; [apply Z.div_le_lower_bound; lia|apply Z.div_le_upper_bound; lia]).
Qed.

Lemma Blob_Finder_census_witness :
  exists Bs : list Blob,
    blobs_of (Blob_Finder [1; 0; 1; 1; 1; 1] 3 2 1 empty_store) = Some Bs /\
    sumZ (map Count Bs) = 5 /\ sumZ (map Xsum Bs) = 5 /\
    sumZ (map Ysum Bs) = 3.
Proof.
  apply (Blob_Finder_census [1; 0; 1; 1; 1; 1] 3 2 1 empty_store
           empty_store_ok ltac:(simpl; lia) ltac:(vm_compute; discriminate)
           ltac:(vm_compute; discriminate)).
Defined.

Lemma Blob_Finder_blobs_witness :
  exists Bs : list Blob,
    blobs_of (Blob_Finder [1; 0; 1; 1; 1; 1] 3 2 1 empty_store) = Some Bs /\
    forall (j : nat) (B : Blob),
      Bs !! j = Some B ->
      ID B = Z.of_nat j + 1 /\ FP B = None /\
      boxed 3 1 B /\
      Int.div (Xsum B) (Count B) = Some (Xsum B / Count B) /\
      Int.div (Ysum B) (Count B) = Some (Ysum B / Count B) /\
      Xmin B <= Xsum B / Count B <= Xmax B /\
      Ymin B <= Ysum B / Count B <= Ymax B.
Proof.
  apply (Blob_Finder_blobs [1; 0; 1; 1; 1; 1] 3 2 1 empty_store
           empty_store_ok ltac:(simpl; lia) ltac:(vm_compute; discriminate)
           ltac:(vm_compute; discriminate)).
Defined.

End FinderFacts.

Module MapFacts.
Import Rollers RollersFacts FinderFacts.

(** *** The blob a blob forwards to *)

Lemma Reduce_FP_S (n : nat) (h : list Blob) (b : addr) :
  Reduce_FP (S n) h b =
  match h !! b with
  | None => None
  | Some B => match FP B with
              | Some next => Reduce_FP n h next
              | None => Some b
              end
  end.
Proof. reflexivity. Qed.

Lemma owner_fun (h : list Blob) (b r r' : addr) :
  owner h b r -> owner h b r' -> r = r'.
Proof.
  intros [n Hn] [m Hm].
  pose proof (Reduce_FP_mono h n (Nat.max n m) b r Hn ltac:(lia)) as H1.
  pose proof (Reduce_FP_mono h m (Nat.max n m) b r' Hm ltac:(lia)) as H2.
  congruence.
Qed.

Lemma owner_root (h : list Blob) (b r : addr) : owner h b r -> is_root h r.
Proof. intros [n Hn]. eapply Reduce_FP_root, Hn. Qed.

Lemma owner_self (h : list Blob) (r : addr) : is_root h r -> owner h r r.
Proof.
  intros (R & HR & HF). exists 1%nat. rewrite Reduce_FP_S, HR, HF. reflexivity.
Qed.

Lemma owner_of_root (h : list Blob) (r x : addr) :
  is_root h r -> owner h r x -> x = r.
Proof. intros Hr Hx. eapply owner_fun; [exact Hx|apply owner_self, Hr]. Qed.

Lemma owner_in (h : list Blob) (L : list addr) (b r : addr) :
  closed h L -> b ∈ L -> owner h b r -> r ∈ L.
Proof. intros Hc Hb [n Hn]. eapply Reduce_FP_closed; eassumption. Qed.

Lemma owner_agree (h h' : list Blob) (L : list addr) (b r : addr) :
  closed h L -> (forall a, a ∈ L -> link h a = link h' a) -> b ∈ L ->
  owner h b r <-> owner h' b r.
Proof.
  intros Hc Hl Hb. split; intros [n Hn]; exists n.
  - rewrite (Reduce_FP_agree h h' L n b Hc Hl Hb). exact Hn.
  - rewrite <- (Reduce_FP_agree h h' L n b Hc Hl Hb). exact Hn.
Qed.

Lemma owner_links (h h' : list Blob) (b r : addr) :
  (forall a, link h a = link h' a) -> owner h b r -> owner h' b r.
Proof.
  intros Hl [n Hn]. exists n. revert b Hn.
  induction n as [|n IH]; intros b Hn; [discriminate|].
  rewrite Reduce_FP_S in *. pose proof (link_FP h h' b (eq_sym (Hl b))) as Hb.
  destruct (h !! b) as [B|]; [|discriminate].
  destruct (h' !! b) as [B'|]; [|discriminate].
  cbn in Hb. injection Hb as Hb. rewrite Hb.
  destruct (FP B); [apply IH, Hn|exact Hn].
Qed.

(** After [c] has been forwarded to [r], what forwarded to [c] forwards to
    [r], and nothing else changes. *)
Lemma owner_merge (h h' : list Blob) (c r : addr) :
  c <> r -> is_root h c -> is_root h r ->
  (exists C', h' !! c = Some C' /\ FP C' = Some r) ->
  (forall a, a <> c -> FP <$> h' !! a = FP <$> h !! a) ->
  forall b x, owner h b x -> owner h' b (if decide (x = c) then r else x).
Proof.
  intros Hne (C & HC & HCF) (R & HR & HRF) (C' & HC' & HFC') Hsame b x [n Hn].
  exists (S n). revert b Hn.
  induction n as [|n IH]; intros b Hn; [discriminate|].
  rewrite Reduce_FP_S in Hn. destruct (h !! b) as [B|] eqn:HB; [|discriminate].
  destruct (decide (b = c)) as [->|Hbc].
  - rewrite HB in HC. injection HC as ->. rewrite HCF in Hn. injection Hn as <-.
    rewrite decide_True by reflexivity.
    rewrite Reduce_FP_S, HC', HFC', Reduce_FP_S.
    pose proof (Hsame r ltac:(congruence)) as Hr. rewrite HR in Hr.
    destruct (h' !! r) as [R'|]; [|discriminate]. cbn in Hr. injection Hr as Hr.
    rewrite Hr, HRF. reflexivity.
  - pose proof (Hsame b Hbc) as Hb. rewrite HB in Hb.
    rewrite Reduce_FP_S.
    destruct (h' !! b) as [B'|]; [|discriminate]. cbn in Hb. injection Hb as Hb.
    rewrite Hb. destruct (FP B) as [t|].
    + apply IH, Hn.
    + injection Hn as <-. rewrite decide_False by exact Hbc. reflexivity.
Qed.

(** *** Chains of neighbours *)

Lemma joined_mono (W : nat) (A B : nat -> Prop) (i j : nat) :
  (forall x, A x -> B x) -> joined W A i j -> joined W B i j.
Proof.
  intros HAB Hj. induction Hj.
  - apply joined_refl; auto.
  - apply joined_beside; auto.
  - apply joined_sym; auto.
  - eapply joined_trans; eauto.
Qed.

Lemma joined_in (W : nat) (A : nat -> Prop) (i j : nat) :
  joined W A i j -> A i /\ A j.
Proof. intros Hj. induction Hj; tauto. Qed.

(** *** Extents *)

Lemma sumZ_bound {T : Type} (f : T -> Z) (B : Z) (l : list T) :
  (forall x, x ∈ l -> 0 <= f x <= B) ->
  0 <= sumZ (map f l) <= Z.of_nat (length l) * B.
Proof.
  unfold sumZ. induction l as [|x l IH]; intros Hf; cbn [map foldr length]; [lia|].
  pose proof (Hf x ltac:(apply elem_of_cons; auto)).
  pose proof (IH ltac:(intros y Hy; apply Hf, elem_of_cons; auto)). lia.
Qed.

Lemma sumZ_Permutation (l1 l2 : list Z) : l1 ≡ₚ l2 -> sumZ l1 = sumZ l2.
Proof.
  unfold sumZ. induction 1; cbn [foldr]; lia.
Qed.

Lemma NoDup_below (P : list nat) (k : nat) :
  NoDup P -> (forall i, i ∈ P -> (i < k)%nat) -> (length P <= k)%nat.
Proof.
  intros Hnd Hlt.
  apply Nat.le_trans with (length (seq 0 k)); [|rewrite length_seq; lia].
  apply submseteq_length.
  apply NoDup_submseteq; [exact Hnd|]. intros i Hi.
  apply elem_of_seq. pose proof (Hlt i Hi). lia.
Qed.

Lemma column_lt (W i : nat) : (0 < W)%nat -> 0 <= column W i <= Z.of_nat W - 1.
Proof.
  intros HW. unfold column. pose proof (Nat.mod_upper_bound i W ltac:(lia)). lia.
Qed.

Lemma row_lt (W H i : nat) : (i < W * H)%nat -> 0 <= row W i <= Z.of_nat H - 1.
Proof.
  intros Hi. unfold row. assert (i / W < H)%nat; [|lia].
  apply Nat.Div0.div_lt_upper_bound. lia.
Qed.

Lemma column_at (W Y X : nat) : (X < W)%nat -> column W (Y * W + X) = Z.of_nat X.
Proof.
  intros HX. unfold column. f_equal. rewrite Nat.add_comm, Nat.Div0.mod_add.
  apply Nat.mod_small. lia.
Qed.

Lemma row_at (W Y X : nat) : (X < W)%nat -> row W (Y * W + X) = Z.of_nat Y.
Proof.
  intros HX. unfold row. f_equal. rewrite Nat.add_comm, Nat.div_add by lia.
  rewrite Nat.div_small by lia. reflexivity.
Qed.

Lemma extent_sums (W Hn : nat) (P : list nat) (R : Blob) :
  (0 < W)%nat -> (forall i, i ∈ P -> (i < W * Hn)%nat) -> extent W P R ->
  1 <= Count R /\
  0 <= Xsum R <= Count R * (Z.of_nat W - 1) /\
  0 <= Ysum R <= Count R * (Z.of_nat Hn - 1).
Proof.
  intros HW Hin [Hc Hx Hy _ (i & Hi & _) _ _ _]. rewrite Hc, Hx, Hy.
  split; [destruct P; [apply elem_of_nil in Hi; destruct Hi|cbn [length]; lia]|].
  split; apply sumZ_bound; intros x Hx'.
  - apply column_lt, HW.
  - apply row_lt, Hin, Hx'.
Qed.

(** The blob [Merge_Blobs] leaves in [Blob2] describes the positions of the
    two blobs together. *)
Lemma extent_merge (W Hn : nat) (Pr Pc : list nat) (R C R' : Blob) (M : Z) :
  extent W Pr R -> extent W Pc C ->
  Count R' = Int.add (Count R) (Count C) ->
  Xsum R' = Int.add (Xsum R) (Xsum C) ->
  Ysum R' = Int.add (Ysum R) (Ysum C) ->
  Xmin R' = (if Xmin C <? Xmin R then Xmin C else Xmin R) ->
  Ymin R' = (if Ymin C <? Ymin R then Ymin C else Ymin R) ->
  Xmax R' = (if Xmax R <? Xmax C then Xmax C else Xmax R) ->
  Ymax R' = (if Ymax R <? Ymax C then Ymax C else Ymax R) ->
  (0 < W)%nat -> (forall i, i ∈ Pr ++ Pc -> (i < W * Hn)%nat) ->
  Z.of_nat (length (Pr ++ Pc)) <= M ->
  M * Z.of_nat W <= Int.max_int -> M * Z.of_nat Hn <= Int.max_int ->
  extent W (Pr ++ Pc) R'.
Proof.
  intros HR HC Hc Hx Hy Hx0 Hy0 Hx1 Hy1 HW Hin Hlen HMW HMH.
  destruct (extent_sums W Hn Pr R HW
              ltac:(intros i Hi; apply Hin, elem_of_app; auto) HR)
    as (HRc & HRx & HRy).
  destruct (extent_sums W Hn Pc C HW
              ltac:(intros i Hi; apply Hin, elem_of_app; auto) HC)
    as (HCc & HCx & HCy).
  destruct HR as [HRn HRxs HRys HRbox (rl & Hrl & Hrl') (rr & Hrr & Hrr')
                    (rt & Hrt & Hrt') (rb & Hrb & Hrb')].
  destruct HC as [HCn HCxs HCys HCbox (cl & Hcl & Hcl') (cr & Hcr & Hcr')
                    (ct & Hct & Hct') (cb & Hcb & Hcb')].
  rewrite length_app in Hlen.
  assert (Hn0 : (0 < Hn)%nat).
  { destruct Hn; [|lia]. specialize (Hin rl ltac:(apply elem_of_app; auto)). lia. }
  rewrite add_small in Hc by (unfold Int.max_int in *; nia).
  rewrite add_small in Hx by (unfold Int.max_int in *; nia).
  rewrite add_small in Hy by (unfold Int.max_int in *; nia).
  split.
  - rewrite Hc, length_app. lia.
  - rewrite Hx, map_app, sumZ_app. lia.
  - rewrite Hy, map_app, sumZ_app. lia.
  - intros i Hi. rewrite Hx0, Hy0, Hx1, Hy1.
    apply elem_of_app in Hi as [Hi|Hi];
      [pose proof (HRbox i Hi)|pose proof (HCbox i Hi)];
      destruct (Z.ltb_spec (Xmin C) (Xmin R)), (Z.ltb_spec (Ymin C) (Ymin R)),
               (Z.ltb_spec (Xmax R) (Xmax C)), (Z.ltb_spec (Ymax R) (Ymax C)); lia.
  - rewrite Hx0. destruct (Z.ltb_spec (Xmin C) (Xmin R));
      [exists cl|exists rl]; (split; [apply elem_of_app; auto|assumption]).
  - rewrite Hx1. destruct (Z.ltb_spec (Xmax R) (Xmax C));
      [exists cr|exists rr]; (split; [apply elem_of_app; auto|assumption]).
  - rewrite Hy0. destruct (Z.ltb_spec (Ymin C) (Ymin R));
      [exists ct|exists rt]; (split; [apply elem_of_app; auto|assumption]).
  - rewrite Hy1. destruct (Z.ltb_spec (Ymax R) (Ymax C));
      [exists cb|exists rb]; (split; [apply elem_of_app; auto|assumption]).
Qed.

(** The blob [Add_Position] leaves describes the positions of the blob and
    the new one. *)
Lemma extent_add (W Hn : nat) (P : list nat) (R R' : Blob) (k : nat) (X Y M : Z) :
  extent W P R \/ (P = [] /\ Count R = 0 /\ Xsum R = 0 /\ Ysum R = 0) ->
  Count R' = Int.add (Count R) 1 ->
  Xsum R' = Int.add (Xsum R) X ->
  Ysum R' = Int.add (Ysum R) Y ->
  Xmin R' = (if Count R =? 0 then X else if X <? Xmin R then X else Xmin R) ->
  Ymin R' = (if Count R =? 0 then Y else if Y <? Ymin R then Y else Ymin R) ->
  Xmax R' = (if Count R =? 0 then X else if Xmax R <? X then X else Xmax R) ->
  Ymax R' = (if Count R =? 0 then Y else if Ymax R <? Y then Y else Ymax R) ->
  column W k = X -> row W k = Y ->
  (0 < W)%nat -> (forall i, i ∈ P ++ [k] -> (i < W * Hn)%nat) ->
  Z.of_nat (length (P ++ [k])) <= M ->
  M * Z.of_nat W <= Int.max_int -> M * Z.of_nat Hn <= Int.max_int ->
  extent W (P ++ [k]) R'.
Proof.
  intros HR Hc Hx Hy Hx0 Hy0 Hx1 Hy1 HX HY HW Hin Hlen HMW HMH.
  rewrite length_app in Hlen. cbn [length] in Hlen.
  assert (Hk : (k < W * Hn)%nat)
    by (apply Hin, elem_of_app; right; apply list_elem_of_singleton; reflexivity).
  pose proof (column_lt W k HW) as HkX. pose proof (row_lt W Hn k Hk) as HkY.
  rewrite HX in HkX. rewrite HY in HkY.
  assert (Hn0 : (0 < Hn)%nat) by (destruct Hn; lia).
  assert (Hkin : k ∈ P ++ [k])
    by (apply elem_of_app; right; apply list_elem_of_singleton; reflexivity).
  destruct HR as [HR|(-> & Hc0 & Hx0' & Hy0')].
  - destruct (extent_sums W Hn P R HW
                ltac:(intros i Hi; apply Hin, elem_of_app; auto) HR)
      as (HRc & HRx & HRy).
    destruct HR as [HRn HRxs HRys HRbox (rl & Hrl & Hrl') (rr & Hrr & Hrr')
                      (rt & Hrt & Hrt') (rb & Hrb & Hrb')].
    rewrite add_small in Hc by (unfold Int.max_int in *; nia).
    rewrite add_small in Hx by (unfold Int.max_int in *; nia).
    rewrite add_small in Hy by (unfold Int.max_int in *; nia).
    destruct (Z.eqb_spec (Count R) 0) as [|_]; [lia|].
    split.
    + rewrite Hc, length_app. cbn [length]. lia.
    + rewrite Hx, map_app, sumZ_app. cbn. lia.
    + rewrite Hy, map_app, sumZ_app. cbn. lia.
    + intros i Hi. rewrite Hx0, Hy0, Hx1, Hy1.
      apply elem_of_app in Hi as [Hi|Hi];
        [pose proof (HRbox i Hi)
        |apply list_elem_of_singleton in Hi; subst i];
        destruct (Z.ltb_spec X (Xmin R)), (Z.ltb_spec Y (Ymin R)),
                 (Z.ltb_spec (Xmax R) X), (Z.ltb_spec (Ymax R) Y); lia.
    + rewrite Hx0. destruct (Z.ltb_spec X (Xmin R));
        [exists k; auto|exists rl; split; [apply elem_of_app; auto|assumption]].
    + rewrite Hx1. destruct (Z.ltb_spec (Xmax R) X);
        [exists k; auto|exists rr; split; [apply elem_of_app; auto|assumption]].
    + rewrite Hy0. destruct (Z.ltb_spec Y (Ymin R));
        [exists k; auto|exists rt; split; [apply elem_of_app; auto|assumption]].
    + rewrite Hy1. destruct (Z.ltb_spec (Ymax R) Y);
        [exists k; auto|exists rb; split; [apply elem_of_app; auto|assumption]].
  - rewrite Hc0 in *. rewrite Hx0' in Hx. rewrite Hy0' in Hy.
    rewrite add_small in Hc by (unfold Int.max_int in *; nia).
    rewrite add_small in Hx by (unfold Int.max_int in *; nia).
    rewrite add_small in Hy by (unfold Int.max_int in *; nia).
    cbn [Z.eqb] in *. cbn [app] in *.
    split; cbn [length map]; try (unfold sumZ; cbn [foldr]; lia).
    + intros i Hi. apply list_elem_of_singleton in Hi. subst i. lia.
    + exists k. split; [exact Hkin|lia].
    + exists k. split; [exact Hkin|lia].
    + exists k. split; [exact Hkin|lia].
    + exists k. split; [exact Hkin|lia].
Qed.

(** *** Map entries *)

Lemma holder_fun (h : list Blob) (dm : list MapCell) (i : nat) (r r' : addr) :
  holder h dm i r -> holder h dm i r' -> r = r'.
Proof.
  intros (b & Hb & Ho) (b' & Hb' & Ho'). rewrite Hb in Hb'. injection Hb' as <-.
  eapply owner_fun; eassumption.
Qed.

Lemma holder_insert_ne (h : list Blob) (dm : list MapCell) (i k : nat)
    (v : MapCell) (r : addr) :
  i <> k -> holder h (<[k := v]> dm) i r <-> holder h dm i r.
Proof.
  intros Hne. unfold holder. rewrite list_lookup_insert_ne by congruence. tauto.
Qed.

Lemma holder_insert_eq (h : list Blob) (dm : list MapCell) (k : nat)
    (b r : addr) :
  (k < length dm)%nat -> holder h (<[k := Handle b]> dm) k r <-> owner h b r.
Proof.
  intros Hk. unfold holder. rewrite list_lookup_insert_eq by exact Hk. split.
  - intros (b' & [= <-] & Ho). exact Ho.
  - intros Ho. exists b. auto.
Qed.

Lemma holder_density (h : list Blob) (dm : list MapCell) (i : nat) (d : Z)
    (r : addr) :
  dm !! i = Some (Density d) -> holder h dm i r -> False.
Proof. intros Hd (b & Hb & _). congruence. Qed.

Lemma handle_in (Bth : Z) (DensityMap : list Z) (k : nat) (L : list addr)
    (dm : list MapCell) (i : nat) (b : addr) :
  marked Bth DensityMap k L dm -> (k <= length DensityMap)%nat -> (i < k)%nat ->
  dm !! i = Some (Handle b) -> b ∈ L.
Proof.
  intros Hm Hk Hi Hb.
  destruct (lookup_lt_is_Some_2 DensityMap i ltac:(lia)) as [d Hd].
  pose proof (Hm i d Hi Hd) as Hc. destruct (Bth <=? d).
  - destruct Hc as (b' & Hb' & HL). congruence.
  - congruence.
Qed.

Lemma holder_map (Bth : Z) (DensityMap : list Z) (k : nat) (L : list addr)
    (dm : list MapCell) (h h1 : list Blob) (f : addr -> addr) (i : nat)
    (x : addr) :
  marked Bth DensityMap k L dm -> (k <= length DensityMap)%nat ->
  (forall b x, b ∈ L -> owner h b x -> owner h1 b (f x)) ->
  (i < k)%nat -> holder h dm i x -> holder h1 dm i (f x).
Proof.
  intros Hm Hk Hf Hi (b & Hb & Ho). exists b. split; [exact Hb|].
  apply Hf; [|exact Ho]. eapply handle_in; eassumption.
Qed.

Lemma holder_back (Bth : Z) (DensityMap : list Z) (k : nat) (L : list addr)
    (dm : list MapCell) (h h1 : list Blob) (f : addr -> addr) (i : nat)
    (y : addr) :
  marked Bth DensityMap k L dm -> (k <= length DensityMap)%nat ->
  (forall b x, b ∈ L -> owner h b x -> owner h1 b (f x)) ->
  (forall b, b ∈ L -> exists x, owner h b x) ->
  (i < k)%nat -> holder h1 dm i y ->
  exists x, holder h dm i x /\ y = f x.
Proof.
  intros Hm Hk Hf Hex Hi (b & Hb & Ho).
  pose proof (handle_in _ _ _ _ _ _ _ Hm Hk Hi Hb) as HbL.
  destruct (Hex b HbL) as [x Hx]. exists x. split; [exists b; auto|].
  eapply owner_fun; [exact Ho|]. apply Hf; assumption.
Qed.

Lemma beside_lt (W i j : nat) : (0 < W)%nat -> beside W i j -> (i < j)%nat.
Proof. intros HW [[-> _]| ->]; lia. Qed.

Lemma shape_owner k h F L rb cbs (b : addr) :
  shape k h F L rb cbs -> b ∈ L -> exists x, owner h b x.
Proof.
  intros Hs Hb. destruct (shape_depth _ _ _ _ _ _ Hs b Hb) as (d & r & _ & Hr).
  exists r, (S d). exact Hr.
Qed.

(** *** The row blob before the position is added *)

(** The row blob or the column blob is kept. *)
Lemma staged_same (W : nat) (Bth : Z) (DensityMap : list Z) (k : nat)
    (h : list Blob) (L : list addr) (dm : list MapCell) (r : addr) (p : nat) :
  charted W Bth DensityMap k h L dm -> r ∈ L -> is_root h r ->
  (forall i x, beside W i k -> holder h dm i x -> x = r) ->
  beside W p k -> (p < k)%nat -> holder h dm p r ->
  staged W Bth DensityMap k h L dm r.
Proof.
  intros [Hcells Hroots Hag] Hr Hroot Hnear Hp Hpk Hhold. split; auto.
  destruct (Hroots r Hr Hroot) as (P & R & HR & Hmem & Hext & Hcon).
  destruct Hroot as (R0 & HR0 & HF). rewrite HR in HR0. injection HR0 as <-.
  exists P, R. split; [exact HR|]. split; [exact HF|]. split; [exact Hmem|].
  split; [left; exact Hext|].
  intros i Hi. exists p. assert (p ∈ P) by (apply Hmem; auto). auto.
Qed.

Lemma holder_agree (Bth : Z) (DensityMap : list Z) (k : nat) (L : list addr)
    (dm : list MapCell) (h h1 : list Blob) (i : nat) (x : addr) :
  marked Bth DensityMap k L dm -> (k <= length DensityMap)%nat ->
  closed h L -> (forall a, a ∈ L -> link h a = link h1 a) -> (i < k)%nat ->
  holder h dm i x <-> holder h1 dm i x.
Proof.
  intros Hm Hk Hc Hl Hi. split; intros (b & Hb & Ho); exists b; (split; [exact Hb|]);
    pose proof (handle_in _ _ _ _ _ _ _ Hm Hk Hi Hb) as HbL;
    apply (owner_agree h h1 L b x Hc Hl HbL); exact Ho.
Qed.

Lemma members_agree (h h1 : list Blob) (dm : list MapCell) (k : nat) (r : addr)
    (P : list nat) :
  (forall i, (i < k)%nat -> holder h dm i r <-> holder h1 dm i r) ->
  members h dm k r P -> members h1 dm k r P.
Proof.
  intros Hag [Hnd Hmem]. split; [exact Hnd|]. intros i. rewrite Hmem.
  split; intros [Hi Hh]; (split; [exact Hi|]); apply (Hag i Hi); exact Hh.
Qed.

(** A new blob becomes the row blob. *)
Lemma staged_new (W : nat) (Bth : Z) (DensityMap : list Z) (k k' : nat)
    (h h1 : list Blob) (F F1 L : list addr) (rb : option addr)
    (cbs : list (option addr)) (dm : list MapCell) (b : addr) (X Y : Z) :
  charted W Bth DensityMap k h L dm -> shape k' h F L rb cbs ->
  (k <= length DensityMap)%nat ->
  New_Blob X Y 0 (mkStore h F) = Some (b, mkStore h1 F1) ->
  (forall i x, beside W i k -> holder h dm i x -> False) -> (0 < W)%nat ->
  staged W Bth DensityMap k h1 (b :: L) dm b /\
  (forall b0 x, b0 ∈ L -> owner h b0 x -> owner h1 b0 x).
Proof.
  intros [Hcells Hroots Hag] Hs Hk Hnew Hnear HW.
  destruct (New_Blob_spec X Y _ _ _ _ _ _ Hs)
    as (b' & h' & F' & Hn & Hfresh & Hlb & Hlinks & _ & _).
  rewrite Hnew in Hn. injection Hn as <- <- <-.
  destruct (New_Blob_data _ _ _ _ _ _ Hnew) as [Hb Hold]. cbn [heap] in Hb, Hold.
  pose proof (shape_closed _ _ _ _ _ _ Hs) as Hclosed.
  assert (Hl : forall a, a ∈ L -> link h a = link h1 a)
    by (intros a Ha; symmetry; apply Hlinks, Ha).
  assert (Hhold : forall i x, (i < k)%nat -> holder h dm i x <-> holder h1 dm i x).
  { intros i x Hi. eapply holder_agree; eassumption. }
  assert (Hsame : forall a, a ∈ L -> h1 !! a = h !! a).
  { intros a Ha. apply Hold; [intros ->; contradiction|].
    eapply shape_valid; [exact Hs|]. apply elem_of_app. auto. }
  split; [split|].
  - intros i d Hi Hd. pose proof (Hcells i d Hi Hd) as Hc.
    destruct (Bth <=? d); [|exact Hc]. destruct Hc as (b0 & Hb0 & HL).
    exists b0. split; [exact Hb0|]. apply elem_of_cons. auto.
  - intros r' Hr' Hroot' Hne. apply elem_of_cons in Hr' as [->|Hr']; [congruence|].
    assert (Hroot : is_root h r').
    { destruct Hroot' as (R & HR & HF). exists R. rewrite <- (Hsame r' Hr'). auto. }
    destruct (Hroots r' Hr' Hroot) as (P & R & HR & Hmem & Hext & Hcon).
    exists P, R. split; [rewrite (Hsame r' Hr'); exact HR|].
    split; [|auto]. eapply members_agree; [|exact Hmem].
    intros i Hi. apply Hhold, Hi.
  - exists [], (mkBlob 0 0 0 0 0 0 0 0 X Y (-1) None).
    split; [exact Hb|]. split; [reflexivity|]. split.
    + split; [constructor|]. intros i. split.
      * intros Hi. apply elem_of_nil in Hi. destruct Hi.
      * intros [Hi Hh]. apply Hhold in Hh; [|exact Hi].
        destruct Hh as (b0 & Hb0 & Ho).
        pose proof (handle_in _ _ _ _ _ _ _ Hcells Hk Hi Hb0) as HbL.
        pose proof (owner_in h L b0 b Hclosed HbL Ho). contradiction.
    + split; [right; cbn; auto|].
      intros i Hi. apply elem_of_nil in Hi. destruct Hi.
  - intros i j ri rj Hj Hbes Hi' Hj'.
    pose proof (beside_lt W i j HW Hbes).
    apply Hhold in Hi'; [|lia]. apply Hhold in Hj'; [|lia]. eapply Hag; eassumption.
  - intros i x Hbes Hh. pose proof (beside_lt W i k HW Hbes) as Hi.
    apply Hhold in Hh; [|exact Hi]. destruct (Hnear i x Hbes Hh).
  - intros b0 x Hb0 Ho. apply (owner_agree h h1 L b0 x Hclosed Hl Hb0). exact Ho.
Qed.

(** The column blob is merged into the row blob. *)
Lemma staged_merge (W Hn : nat) (Bth : Z) (DensityMap : list Z) (k k' : nat)
    (h h1 : list Blob) (F L : list addr) (rb : option addr)
    (cbs : list (option addr)) (dm : list MapCell) (c r : addr) (e : Z)
    (pr pc : nat) :
  let M := Z.of_nat (W * Hn) in
  charted W Bth DensityMap k h L dm -> shape k' h F L rb cbs ->
  (k <= length DensityMap)%nat -> (k <= W * Hn)%nat -> (0 < W)%nat ->
  M * Z.of_nat W <= Int.max_int -> M * Z.of_nat Hn <= Int.max_int ->
  c ∈ L -> r ∈ L -> c <> r -> is_root h c -> is_root h r ->
  Merge_Blobs c r e h = Some h1 ->
  (forall i x, beside W i k -> holder h dm i x -> x = r \/ x = c) ->
  beside W pr k -> holder h dm pr r ->
  beside W pc k -> holder h dm pc c ->
  staged W Bth DensityMap k h1 L dm r /\
  (forall b x, b ∈ L -> owner h b x ->
     owner h1 b (if decide (x = c) then r else x)).
Proof.
  intros M [Hcells Hroots Hag] Hs Hk HkM HW HMW HMH Hc Hr Hne Hcroot Hrroot
    Hmerge Hnear Hpr Hhr Hpc Hhc.
  destruct (Hroots r Hr Hrroot) as (Pr & R & HR & [HndR HmemR] & HextR & HconR).
  destruct (Hroots c Hc Hcroot) as (Pc & C & HC & [HndC HmemC] & HextC & HconC).
  assert (HRF : FP R = None)
    by (destruct Hrroot as (R0 & HR0 & HF); congruence).
  assert (HCF : FP C = None)
    by (destruct Hcroot as (C0 & HC0 & HF); congruence).
  unfold Merge_Blobs in Hmerge. rewrite decide_False in Hmerge by exact Hne.
  rewrite HC, HR in Hmerge. injection Hmerge as <-.
  set (R' := mkBlob (ID R) _ _ _ _ _ _ _ _ _ _ _).
  set (C' := mkBlob (ID C) _ _ _ _ _ _ _ _ _ e (Some r)).
  set (h1 := <[c := C']> (<[r := R']> h)).
  assert (Hclen : (c < length h)%nat) by (eapply lookup_lt_Some, HC).
  assert (Hrlen : (r < length h)%nat) by (eapply lookup_lt_Some, HR).
  assert (Hh1c : h1 !! c = Some C').
  { unfold h1. apply list_lookup_insert_eq. rewrite length_insert. exact Hclen. }
  assert (Hh1r : h1 !! r = Some R').
  { unfold h1. rewrite list_lookup_insert_ne by congruence.
    apply list_lookup_insert_eq, Hrlen. }
  assert (Hh1o : forall a, a <> c -> a <> r -> h1 !! a = h !! a).
  { intros a Hac Har. unfold h1. rewrite !list_lookup_insert_ne by congruence.
    reflexivity. }
  set (f := fun x : addr => if decide (x = c) then r else x).
  assert (Hf : forall b x, b ∈ L -> owner h b x -> owner h1 b (f x)).
  { intros b x _. apply owner_merge; try assumption.
    - exists C'. auto.
    - intros a Hac. destruct (decide (a = r)) as [->|Har].
      + rewrite Hh1r, HR. reflexivity.
      + rewrite Hh1o by assumption. reflexivity. }
  assert (Hex : forall b, b ∈ L -> exists x, owner h b x)
    by (intros b Hb; eapply shape_owner; eassumption).
  assert (Hfr : f r = r) by (unfold f; rewrite decide_False by congruence; reflexivity).
  assert (Hfc : f c = r) by (unfold f; rewrite decide_True by reflexivity; reflexivity).
  assert (Hprk : (pr < k)%nat) by (eapply beside_lt; eassumption).
  assert (Hpck : (pc < k)%nat) by (eapply beside_lt; eassumption).
  split; [split|exact Hf].
  - exact Hcells.
  - intros r' Hr' Hroot' Hner.
    assert (Hnec : r' <> c).
    { intros ->. destruct Hroot' as (C0 & HC0 & HF0). rewrite Hh1c in HC0.
      injection HC0 as <-. discriminate. }
    assert (Hroot : is_root h r').
    { destruct Hroot' as (R0 & HR0 & HF0). exists R0.
      rewrite <- (Hh1o r') by assumption. auto. }
    destruct (Hroots r' Hr' Hroot) as (P & R0 & HR0 & [Hnd Hmem] & Hext & Hcon).
    exists P, R0. split; [rewrite Hh1o by assumption; exact HR0|].
    split; [|auto]. split; [exact Hnd|]. intros i. rewrite Hmem.
    split; intros [Hi Hh]; (split; [exact Hi|]).
    + replace r' with (f r') by (unfold f; rewrite decide_False by exact Hnec; reflexivity).
      eapply holder_map; eassumption.
    + destruct (holder_back _ _ _ _ _ _ _ f i r' Hcells Hk Hf Hex Hi Hh)
        as (x & Hx & Hfx).
      unfold f in Hfx. destruct (decide (x = c)); [congruence|]. subst x. exact Hx.
  - exists (Pr ++ Pc), R'. split; [exact Hh1r|]. split; [exact HRF|]. split.
    { split.
      - apply NoDup_app. split; [exact HndR|]. split; [|exact HndC].
        intros i Hi Hi'. apply HmemR in Hi as [_ Hi]. apply HmemC in Hi' as [_ Hi'].
        apply Hne. symmetry. eapply holder_fun; eassumption.
      - intros i. rewrite elem_of_app, HmemR, HmemC. split.
        + intros [[Hi Hh]|[Hi Hh]]; (split; [exact Hi|]).
          * rewrite <- Hfr. eapply holder_map; eassumption.
          * rewrite <- Hfc. eapply holder_map; eassumption.
        + intros [Hi Hh].
          destruct (holder_back _ _ _ _ _ _ _ f i r Hcells Hk Hf Hex Hi Hh)
            as (x & Hx & Hfx).
          unfold f in Hfx. destruct (decide (x = c)) as [->|]; [auto|].
          subst x. auto. }
    split.
    { left. apply (extent_merge W Hn Pr Pc R C R' M HextR HextC); try reflexivity.
      - exact HW.
      - intros i Hi. apply elem_of_app in Hi as [Hi|Hi];
          [apply HmemR in Hi as [Hi _]|apply HmemC in Hi as [Hi _]]; lia.
      - assert (length (Pr ++ Pc) <= k)%nat; [|unfold M; lia].
        apply NoDup_below.
        + apply NoDup_app. split; [exact HndR|]. split; [|exact HndC].
          intros i Hi Hi'. apply HmemR in Hi as [_ Hi]. apply HmemC in Hi' as [_ Hi'].
          apply Hne. symmetry. eapply holder_fun; eassumption.
        + intros i Hi. apply elem_of_app in Hi as [Hi|Hi];
            [apply HmemR in Hi as [Hi _]|apply HmemC in Hi as [Hi _]]; lia.
      - exact HMW.
      - exact HMH. }
    intros i Hi. apply elem_of_app in Hi as [Hi|Hi].
    + exists pr. assert (Hin : pr ∈ Pr) by (apply HmemR; auto).
      split; [apply elem_of_app; auto|]. split; [exact Hpr|].
      eapply joined_mono; [|apply HconR; eassumption].
      intros x Hx. apply elem_of_app. auto.
    + exists pc. assert (Hin : pc ∈ Pc) by (apply HmemC; auto).
      split; [apply elem_of_app; auto|]. split; [exact Hpc|].
      eapply joined_mono; [|apply HconC; eassumption].
      intros x Hx. apply elem_of_app. auto.
  - intros i j ri rj Hj Hbes Hi' Hj'.
    pose proof (beside_lt W i j HW Hbes).
    destruct (holder_back _ _ _ _ _ _ _ f i ri Hcells Hk Hf Hex ltac:(lia) Hi')
      as (xi & Hxi & ->).
    destruct (holder_back _ _ _ _ _ _ _ f j rj Hcells Hk Hf Hex Hj Hj')
      as (xj & Hxj & ->).
    f_equal. eapply Hag; eassumption.
  - intros i y Hbes Hh. pose proof (beside_lt W i k HW Hbes) as Hi.
    destruct (holder_back _ _ _ _ _ _ _ f i y Hcells Hk Hf Hex Hi Hh)
      as (x & Hx & ->).
    destruct (Hnear i x Hbes Hx) as [->| ->]; assumption.
Qed.

Lemma root_links (h h' : list Blob) (a : addr) :
  (forall a, link h a = link h' a) -> is_root h a -> is_root h' a.
Proof.
  intros Hl (B & HB & HF).
  destruct (link_inv h h' a B (Hl a) HB) as (B' & HB' & HF' & _).
  exists B'. split; [exact HB'|congruence].
Qed.

(** [Add_Position] and the map entry: position [k] joins the row blob. *)
Lemma staged_add (W Hn : nat) (Bth : Z) (DensityMap : list Z) (k : nat)
    (h1 h2 : list Blob) (L : list addr) (dm : list MapCell) (r : addr) (d : Z) :
  let M := Z.of_nat (W * Hn) in
  staged W Bth DensityMap k h1 L dm r -> r ∈ L ->
  (k < length dm)%nat -> DensityMap !! k = Some d -> Bth <= d ->
  (k < W * Hn)%nat -> (0 < W)%nat ->
  M * Z.of_nat W <= Int.max_int -> M * Z.of_nat Hn <= Int.max_int ->
  Add_Position r (column W k) (row W k) h1 = Some h2 ->
  charted W Bth DensityMap (S k) h2 L (<[k := Handle r]> dm) /\
  (forall a, link h1 a = link h2 a).
Proof.
  intros M [Hcells Hroots (P & R & HR & HRF & [Hnd Hmem] & Hext & Hjoin) Hag Hnear]
    Hr Hk Hd Hworthy HkM HW HMW HMH Hadd.
  assert (Hrlen : (r < length h1)%nat) by (eapply lookup_lt_Some, HR).
  destruct (Add_Position_links r (column W k) (row W k) h1 Hrlen)
    as (h' & Hadd' & Hlinks & _).
  rewrite Hadd in Hadd'. injection Hadd' as <-.
  split; [|exact Hlinks].
  unfold Add_Position in Hadd. rewrite HR in Hadd. injection Hadd as Hh2.
  set (R2 := mkBlob (ID R) _ _ _ _ _ _ _ _ _ _ _) in Hh2.
  assert (Hh2r : h2 !! r = Some R2)
    by (rewrite <- Hh2; apply list_lookup_insert_eq, Hrlen).
  assert (Hh2o : forall a, a <> r -> h2 !! a = h1 !! a)
    by (intros a Ha; rewrite <- Hh2; apply list_lookup_insert_ne; congruence).
  assert (Hown : forall b x, owner h2 b x <-> owner h1 b x).
  { intros b x. split; apply owner_links; [intros a; symmetry|]; apply Hlinks. }
  assert (Hroot2 : is_root h2 r) by (exists R2; auto).
  assert (Hhold : forall i x, i <> k ->
            holder h2 (<[k := Handle r]> dm) i x <-> holder h1 dm i x).
  { intros i x Hi. rewrite holder_insert_ne by exact Hi.
    split; intros (b & Hb & Ho); exists b; (split; [exact Hb|]); apply Hown, Ho. }
  assert (Hholdk : forall x, holder h2 (<[k := Handle r]> dm) k x <-> x = r).
  { intros x. rewrite holder_insert_eq by exact Hk. split.
    - apply owner_of_root, Hroot2.
    - intros ->. apply owner_self, Hroot2. }
  assert (Hkin : forall Q : list nat, k ∈ Q ++ [k])
    by (intros Q; apply elem_of_app; right; apply list_elem_of_singleton; reflexivity).
  assert (HndP : NoDup (P ++ [k])).
  { apply NoDup_app. split; [exact Hnd|]. split; [|apply NoDup_singleton].
    intros i Hi Hi'. apply list_elem_of_singleton in Hi'. subst i.
    apply Hmem in Hi as [Hi _]. lia. }
  assert (HltP : forall i, i ∈ P ++ [k] -> (i < S k)%nat).
  { intros i Hi. apply elem_of_app in Hi as [Hi|Hi].
    - apply Hmem in Hi as [Hi _]. lia.
    - apply list_elem_of_singleton in Hi. lia. }
  split.
  - intros i d' Hi Hd'. destruct (decide (i = k)) as [->|Hne].
    + rewrite Hd in Hd'. injection Hd' as <-.
      destruct (Z.leb_spec Bth d); [|lia]. exists r.
      split; [apply list_lookup_insert_eq, Hk|exact Hr].
    + rewrite list_lookup_insert_ne by congruence. apply Hcells; [lia|exact Hd'].
  - intros r' Hr' Hroot'. destruct (decide (r' = r)) as [->|Hne].
    + exists (P ++ [k]), R2. split; [exact Hh2r|]. split; [|split].
      * split; [exact HndP|]. intros i. split.
        -- intros Hi. split; [apply HltP, Hi|].
           apply elem_of_app in Hi as [Hi|Hi].
           ++ apply Hmem in Hi as [Hi Hh]. apply Hhold; [lia|exact Hh].
           ++ apply list_elem_of_singleton in Hi. subst i. apply Hholdk. reflexivity.
        -- intros [Hi Hh]. destruct (decide (i = k)) as [->|Hik]; [apply Hkin|].
           apply elem_of_app. left. apply Hmem. split; [lia|].
           apply Hhold in Hh; assumption.
      * apply (extent_add W Hn P R R2 k (column W k) (row W k) M Hext);
          try reflexivity; try assumption.
        -- intros i Hi. pose proof (HltP i Hi). lia.
        -- pose proof (NoDup_below (P ++ [k]) (S k) HndP HltP). unfold M. lia.
      * assert (Hall : forall i, i ∈ P ++ [k] ->
                  joined W (fun x => x ∈ P ++ [k]) k i).
        { intros i Hi. apply elem_of_app in Hi as [Hi|Hi].
          - destruct (Hjoin i Hi) as (p & Hp & Hbes & Hpi).
            eapply joined_trans.
            + apply joined_sym, joined_beside; [|apply Hkin|exact Hbes].
              apply elem_of_app. auto.
            + eapply joined_mono; [|exact Hpi]. intros x Hx. apply elem_of_app. auto.
          - apply list_elem_of_singleton in Hi. subst i. apply joined_refl, Hkin. }
        intros i j Hi Hj. eapply joined_trans; [apply joined_sym, Hall, Hi|apply Hall, Hj].
    + assert (Hroot1 : is_root h1 r').
      { eapply root_links; [|exact Hroot']. intros a. symmetry. apply Hlinks. }
      destruct (Hroots r' Hr' Hroot1 Hne) as (P' & R' & HR' & [Hnd' Hmem'] & Hext' & Hcon').
      exists P', R'. split; [rewrite Hh2o by exact Hne; exact HR'|].
      split; [|auto]. split; [exact Hnd'|]. intros i. rewrite Hmem'. split.
      * intros [Hi Hh]. split; [lia|]. apply Hhold; [lia|exact Hh].
      * intros [Hi Hh]. destruct (decide (i = k)) as [->|Hik].
        -- apply Hholdk in Hh. contradiction.
        -- split; [lia|]. apply Hhold in Hh; assumption.
  - intros i j ri rj Hj Hbes Hi' Hj'. pose proof (beside_lt W i j HW Hbes) as Hij.
    apply Hhold in Hi'; [|lia]. destruct (decide (j = k)) as [->|Hjk].
    + apply Hholdk in Hj'. subst rj. eapply Hnear; eassumption.
    + apply Hhold in Hj'; [|exact Hjk]. eapply Hag; [|eassumption..]. lia.
Qed.

(** *** One pixel of [Blob_Finder_Map] *)

Lemma resolve_owner (fuel : nat) (h : list Blob) (cb cb' : option addr) :
  resolve fuel h cb = Some cb' ->
  (cb = None -> cb' = None) /\
  (forall c, cb' = Some c -> exists c0, cb = Some c0 /\ owner h c0 c).
Proof.
  unfold resolve. destruct cb as [c0|]; [|intros [= <-]; split; [auto|discriminate]].
  destruct (h !! c0) as [B|] eqn:HB; [|discriminate].
  destruct (FP B) eqn:HF.
  - destruct (Reduce_FP fuel h c0) as [x|] eqn:Hx; [|discriminate].
    intros [= <-]. split; [discriminate|]. intros c [= <-].
    exists c0. split; [reflexivity|]. exists fuel. exact Hx.
  - intros [= <-]. split; [discriminate|]. intros c [= <-].
    exists c0. split; [reflexivity|]. apply owner_self. exists B. auto.
Qed.

Lemma beside_cases (W Y X i : nat) :
  (X < W)%nat -> beside W i (Y * W + X) ->
  ((0 < X)%nat /\ i = (Y * W + X - 1)%nat) \/
  ((0 < Y)%nat /\ i = ((Y - 1) * W + X)%nat).
Proof.
  intros HX [[Hi Hmod]|Hi].
  - left. rewrite Nat.add_comm, Nat.Div0.mod_add, Nat.mod_small in Hmod by lia. lia.
  - right. destruct Y; [lia|]. split; [lia|]. nia.
Qed.

Lemma beside_left (W Y X : nat) :
  (X < W)%nat -> (0 < X)%nat -> beside W (Y * W + X - 1) (Y * W + X).
Proof.
  intros HX H0. left. split; [lia|].
  rewrite Nat.add_comm, Nat.Div0.mod_add, Nat.mod_small by lia. lia.
Qed.

Lemma beside_up (W Y X : nat) :
  (0 < Y)%nat -> beside W ((Y - 1) * W + X) (Y * W + X).
Proof. intros HY. right. nia. Qed.

Lemma above_here (W Y X : nat) :
  above W Y X X = if (Y =? 0)%nat then None else Some ((Y - 1) * W + X)%nat.
Proof. unfold above. rewrite Nat.ltb_irrefl. reflexivity. Qed.

Lemma above_done (W Y X : nat) : above W Y (S X) X = Some (Y * W + X)%nat.
Proof.
  unfold above. destruct (Nat.ltb_spec X (S X)); [reflexivity|lia].
Qed.

Lemma above_other (W Y X x : nat) : x <> X -> above W Y (S X) x = above W Y X x.
Proof.
  intros Hne. unfold above.
  destruct (Nat.ltb_spec x (S X)), (Nat.ltb_spec x X); try reflexivity; lia.
Qed.

Lemma above_lt (W Y X x p : nat) :
  (x < W)%nat -> above W Y X x = Some p -> (p < Y * W + X)%nat.
Proof.
  intros Hx. unfold above. destruct (Nat.ltb_spec x X).
  - intros [= <-]. lia.
  - destruct (Nat.eqb_spec Y 0); [discriminate|]. intros [= <-]. nia.
Qed.

(** The blob-worthy branch. *)
Lemma touch_charted (Wn Hn : nat) (Bth : Z) (DensityMap : list Z) (Y X : nat)
    (s s0 : Scan) (d e : Z) (fuel : nat) (cb cb' : option addr) :
  let k := (Y * Wn + X)%nat in
  let M := Z.of_nat (Wn * Hn) in
  shape_of k s -> (X < Wn)%nat -> (Y < Hn)%nat ->
  length (ColBlobs s) = Wn -> (Wn * Hn <= length DensityMap)%nat ->
  M * Z.of_nat Wn <= Int.max_int -> M * Z.of_nat Hn <= Int.max_int ->
  DensityMap !! k = Some d -> Bth <= d -> (k < length (DMap s))%nat ->
  charted Wn Bth DensityMap k (heap (store s)) (Blobs s) (DMap s) ->
  tied Wn Y X s ->
  ColBlobs s !! X = Some cb ->
  resolve fuel (heap (store s)) cb = Some cb' ->
  (forall c, cb' = Some c -> c ∈ Blobs s /\ is_root (heap (store s)) c) ->
  touch e X Y cb' s = Some s0 ->
  exists r : addr,
    RowBlob s0 = Some r /\
    charted Wn Bth DensityMap (S k) (heap (store s0)) (Blobs s0)
      (<[k := Handle r]> (DMap s0)) /\
    tied Wn Y (S X)
      (mkScan (store s0) (Blobs s0) (RowBlob s0) (ColBlobs s0)
         (<[k := Handle r]> (DMap s0))).
Proof.
  intros k M. destruct s as [[h F] L rb cbs dm]. unfold shape_of.
  cbn [store heap FreeBlobs Blobs RowBlob ColBlobs DMap].
  intros Hs HX HY Hlen Hdm HMW HMH Hd Hworthy Hkdm Hch Htied Hcb Hres Hcb' Htouch.
  assert (HkM : (k < Wn * Hn)%nat) by (unfold k; nia).
  assert (HW : (0 < Wn)%nat) by lia.
  assert (Hk : (k <= length DensityMap)%nat) by lia.
  destruct (resolve_owner _ _ _ _ Hres) as [Hnone Hsome].
  destruct Htied as [Trow Trown Tcol Tcoln].
  cbn [store heap FreeBlobs Blobs RowBlob ColBlobs DMap] in Trow, Trown, Tcol, Tcoln.
  pose proof (charted_cells _ _ _ _ _ _ _ Hch) as Hcells.
  (* what the neighbours of the position refer to *)
  assert (Hleft : forall x, (0 < X)%nat -> holder h dm (k - 1) x ->
            rb = Some x /\ x ∈ L /\ is_root h x).
  { intros x H0 Hh. destruct rb as [r|].
    - destruct (Trow r eq_refl) as [_ Hr].
      destruct (shape_row _ _ _ _ _ _ Hs r eq_refl) as [HrL Hroot].
      destruct Hh as (b & Hb & Ho). fold k in Hr. rewrite Hr in Hb.
      injection Hb as <-. rewrite (owner_of_root h r x Hroot Ho). auto.
    - pose proof (Trown eq_refl H0) as Hz. fold k in Hz.
      destruct (holder_density _ _ _ _ _ Hz Hh). }
  assert (Hup : forall x, (0 < Y)%nat -> holder h dm ((Y - 1) * Wn + X) x ->
            cb' = Some x).
  { intros x H0 Hh. pose proof (above_here Wn Y X) as Hab.
    destruct (Nat.eqb_spec Y 0); [lia|]. destruct cb as [c0|].
    - destruct (Tcol X c0 Hcb) as (p & r0 & Hp & Hh0 & Ho0).
      rewrite Hab in Hp. injection Hp as <-.
      rewrite (holder_fun _ _ _ _ _ Hh Hh0).
      destruct cb' as [c|].
      + destruct (Hsome c eq_refl) as (c0' & [= <-] & Hoc).
        f_equal. eapply owner_fun; eassumption.
      + unfold resolve in Hres. destruct (h !! c0) as [B|]; [|discriminate].
        destruct (FP B); [|discriminate].
        destruct (Reduce_FP fuel h c0); discriminate.
    - pose proof (Tcoln X _ Hcb Hab) as Hz.
      destruct (holder_density _ _ _ _ _ Hz Hh). }
  assert (Hrow : forall r, rb = Some r ->
            (0 < X)%nat /\ holder h dm (k - 1) r /\ r ∈ L /\ is_root h r).
  { intros r ->. destruct (Trow r eq_refl) as [H0 Hr].
    destruct (shape_row _ _ _ _ _ _ Hs r eq_refl) as [HrL Hroot].
    split; [exact H0|]. split; [|auto]. exists r. split; [exact Hr|].
    apply owner_self, Hroot. }
  assert (Hcol : forall c, cb' = Some c ->
            (0 < Y)%nat /\ holder h dm ((Y - 1) * Wn + X) c).
  { intros c ->. destruct (Hsome c eq_refl) as (c0 & -> & Hoc).
    destruct (Tcol X c0 Hcb) as (p & r0 & Hp & Hh0 & Ho0).
    rewrite above_here in Hp. destruct (Nat.eqb_spec Y 0); [discriminate|].
    injection Hp as <-. split; [lia|].
    rewrite (owner_fun _ _ _ _ Hoc Ho0). exact Hh0. }
  (* the state in which the position is added *)
  assert (Hmid : exists r h1 F1 L1 (f : addr -> addr),
    match rb, cb' with
    | Some r, Some c =>
        match Merge_Blobs c r e h with
        | None => None
        | Some h => Some (r, mkStore h F, L)
        end
    | None, Some c => Some (c, mkStore h F, L)
    | None, None =>
        match New_Blob (Z.of_nat X) (Z.of_nat Y) 0 (mkStore h F) with
        | None => None
        | Some (b, st) => Some (b, st, b :: L)
        end
    | Some r, None => Some (r, mkStore h F, L)
    end = Some (r, mkStore h1 F1, L1) /\
    staged Wn Bth DensityMap k h1 L1 dm r /\ r ∈ L1 /\
    (forall b x, b ∈ L -> owner h b x -> owner h1 b (f x))).
  { unfold touch in Htouch.
    cbn [store heap FreeBlobs Blobs RowBlob ColBlobs DMap] in Htouch.
    destruct rb as [r|], cb' as [c|].
    - destruct (Hrow r eq_refl) as (H0 & Hhr & HrL & Hrroot).
      destruct (Hcol c eq_refl) as (HY0 & Hhc).
      destruct (Hcb' c eq_refl) as [HcL Hcroot].
      destruct (decide (c = r)) as [Heq|Hne].
      + subst c. rewrite Merge_Blobs_self in *.
        exists r, h, F, L, (fun x => x). split; [reflexivity|].
        split; [|auto].
        apply (staged_same Wn Bth DensityMap k h L dm r (k - 1)); auto.
        * intros i x Hbes Hh.
          destruct (beside_cases Wn Y X i HX Hbes) as [[Hx0 ->]|[Hy0 ->]].
          -- destruct (Hleft x Hx0 Hh) as [[= <-] _]. reflexivity.
          -- pose proof (Hup x Hy0 Hh) as [= <-]. reflexivity.
        * apply beside_left; assumption.
        * lia.
      + destruct (Merge_Blobs c r e h) as [h1|] eqn:Hmerge; [|discriminate].
        destruct (staged_merge Wn Hn Bth DensityMap k k h h1 F L (Some r) cbs dm
                    c r e (k - 1) ((Y - 1) * Wn + X) Hch Hs Hk ltac:(lia) HW
                    HMW HMH HcL HrL Hne Hcroot Hrroot Hmerge) as [Hst Hf].
        * intros i x Hbes Hh.
          destruct (beside_cases Wn Y X i HX Hbes) as [[Hx0 ->]|[Hy0 ->]].
          -- destruct (Hleft x Hx0 Hh) as [[= <-] _]. auto.
          -- pose proof (Hup x Hy0 Hh) as [= <-]. auto.
        * apply beside_left; assumption.
        * exact Hhr.
        * apply beside_up, HY0.
        * exact Hhc.
        * exists r, h1, F, L, (fun x => if decide (x = c) then r else x). auto.
    - destruct (Hrow r eq_refl) as (H0 & Hhr & HrL & Hrroot).
      exists r, h, F, L, (fun x => x). split; [reflexivity|]. split; [|auto].
      apply (staged_same Wn Bth DensityMap k h L dm r (k - 1)); auto.
      + intros i x Hbes Hh.
        destruct (beside_cases Wn Y X i HX Hbes) as [[Hx0 ->]|[Hy0 ->]].
        * destruct (Hleft x Hx0 Hh) as [[= <-] _]. reflexivity.
        * pose proof (Hup x Hy0 Hh). discriminate.
      + apply beside_left; assumption.
      + lia.
    - destruct (Hcol c eq_refl) as (HY0 & Hhc).
      destruct (Hcb' c eq_refl) as [HcL Hcroot].
      exists c, h, F, L, (fun x => x). split; [reflexivity|]. split; [|auto].
      apply (staged_same Wn Bth DensityMap k h L dm c ((Y - 1) * Wn + X)); auto.
      + intros i x Hbes Hh.
        destruct (beside_cases Wn Y X i HX Hbes) as [[Hx0 ->]|[Hy0 ->]].
        * destruct (Hleft x Hx0 Hh) as [? _]. discriminate.
        * pose proof (Hup x Hy0 Hh) as [= <-]. reflexivity.
      + apply beside_up, HY0.
      + unfold k. nia.
    - destruct (New_Blob (Z.of_nat X) (Z.of_nat Y) 0 (mkStore h F))
        as [[b [h1 F1]]|] eqn:Hnew; [|discriminate].
      destruct (staged_new Wn Bth DensityMap k k h h1 F F1 L None cbs dm b
                  (Z.of_nat X) (Z.of_nat Y) Hch Hs Hk Hnew) as [Hst Hf].
      + intros i x Hbes Hh.
        destruct (beside_cases Wn Y X i HX Hbes) as [[Hx0 ->]|[Hy0 ->]].
        * destruct (Hleft x Hx0 Hh) as [? _]. discriminate.
        * pose proof (Hup x Hy0 Hh). discriminate.
      + exact HW.
      + exists b, h1, F1, (b :: L), (fun x => x). split; [reflexivity|].
        split; [exact Hst|]. split; [apply elem_of_cons; auto|exact Hf]. }
  destruct Hmid as (r & h1 & F1 & L1 & f & Hchoice & Hst & HrL1 & Hf).
  unfold touch in Htouch.
  cbn [store heap FreeBlobs Blobs RowBlob ColBlobs DMap] in Htouch.
  rewrite Hchoice in Htouch. cbn [heap FreeBlobs] in Htouch.
  destruct (Add_Position r (Z.of_nat X) (Z.of_nat Y) h1) as [h2|] eqn:Hadd;
    [|discriminate].
  destruct (decide (X < length cbs)%nat); [|discriminate].
  injection Htouch as <-. cbn [store heap FreeBlobs Blobs RowBlob ColBlobs DMap].
  exists r. split; [reflexivity|].
  rewrite <- (column_at Wn Y X HX), <- (row_at Wn Y X HX) in Hadd. fold k in Hadd.
  destruct (staged_add Wn Hn Bth DensityMap k h1 h2 L1 dm r d Hst HrL1 Hkdm Hd
              Hworthy HkM HW HMW HMH Hadd) as [Hch2 Hlinks].
  split; [exact Hch2|].
  assert (Hroot2 : is_root h2 r).
  { apply (root_links h1 h2 r Hlinks).
    destruct (staged_row _ _ _ _ _ _ _ _ Hst) as (P & R & HR & HRF & _).
    exists R. auto. }
  split; cbn [store heap FreeBlobs Blobs RowBlob ColBlobs DMap].
  - intros r0 [= <-]. split; [lia|].
    replace (Y * Wn + S X - 1)%nat with k by (unfold k; lia).
    apply list_lookup_insert_eq, Hkdm.
  - discriminate.
  - intros x c Hx. destruct (decide (x = X)) as [->|Hne].
    + rewrite list_lookup_insert_eq in Hx by lia. injection Hx as <-.
      exists k, r. split; [apply above_done|].
      split; [apply holder_insert_eq; [exact Hkdm|]|]; apply owner_self, Hroot2.
    + rewrite list_lookup_insert_ne in Hx by congruence.
      destruct (Tcol x c Hx) as (p & r0 & Hp & Hh0 & Ho0).
      assert (Hxlen : (x < Wn)%nat) by (rewrite <- Hlen; eapply lookup_lt_Some, Hx).
      pose proof (above_lt Wn Y X x p Hxlen Hp) as Hpk. fold k in Hpk.
      exists p, (f r0). split; [rewrite above_other by exact Hne; exact Hp|].
      split.
      * apply holder_insert_ne; [lia|].
        destruct (holder_map _ _ _ _ _ h h1 f p r0 Hcells Hk Hf Hpk Hh0)
          as (b & Hb & Ho).
        exists b. split; [exact Hb|]. eapply owner_links; [exact Hlinks|exact Ho].
      * eapply owner_links; [exact Hlinks|]. apply Hf; [|exact Ho0].
        eapply shape_cols; [exact Hs|exact Hx].
  - intros x p Hx Hp. destruct (decide (x = X)) as [->|Hne].
    + rewrite list_lookup_insert_eq in Hx by lia. discriminate.
    + rewrite list_lookup_insert_ne in Hx by congruence.
      rewrite above_other in Hp by exact Hne.
      assert (Hxlen : (x < Wn)%nat) by (rewrite <- Hlen; eapply lookup_lt_Some, Hx).
      pose proof (above_lt Wn Y X x p Hxlen Hp) as Hpk. fold k in Hpk.
      rewrite list_lookup_insert_ne by lia. eapply Tcoln; eassumption.
Qed.

Lemma find_pixel_charted (Wn Hn : nat) (Bth : Z) (DensityMap : list Z)
    (Y X : nat) (s s' : Scan) (d : Z) :
  let k := (Y * Wn + X)%nat in
  let M := Z.of_nat (Wn * Hn) in
  shape_of k s -> (X < Wn)%nat -> (Y < Hn)%nat ->
  length (ColBlobs s) = Wn -> (Wn * Hn <= length DensityMap)%nat ->
  M * Z.of_nat Wn <= Int.max_int -> M * Z.of_nat Hn <= Int.max_int ->
  DensityMap !! k = Some d -> DMap s !! k = Some (Density d) ->
  charted Wn Bth DensityMap k (heap (store s)) (Blobs s) (DMap s) ->
  tied Wn Y X s ->
  find_pixel true (Wn * Hn) Wn Bth Y s X = Some s' ->
  charted Wn Bth DensityMap (S k) (heap (store s')) (Blobs s') (DMap s') /\
  tied Wn Y (S X) s'.
Proof.
  intros k M Hs HX HY Hlen Hdm HMW HMH Hd Hcell Hch Htied Hstep.
  assert (HkM : (k < Wn * Hn)%nat) by (unfold k; nia).
  assert (Hkdm : (k < length (DMap s))%nat) by (eapply lookup_lt_Some, Hcell).
  unfold find_pixel in Hstep. fold k in Hstep.
  destruct (lookup_lt_is_Some_2 (ColBlobs s) X ltac:(lia)) as [cb Hcb].
  rewrite Hcb, Hcell in Hstep.
  destruct (resolve_spec (Wn * Hn) k _ _ _ _ _ X cb Hs Hcb HkM) as (cb' & Hres & Hcb').
  rewrite Hres in Hstep. destruct (Z.leb_spec Bth d) as [Hworthy|Hlow].
  - destruct (touch 0 X Y cb' s) as [s0|] eqn:Htouch; [|discriminate].
    destruct (touch_charted Wn Hn Bth DensityMap Y X s s0 d 0 (Wn * Hn) cb cb'
                Hs HX HY Hlen Hdm HMW HMH Hd Hworthy Hkdm Hch Htied Hcb Hres Hcb'
                Htouch) as (r & Hr & Hch' & Htied').
    rewrite Hr in Hstep. injection Hstep as <-.
    cbn [store heap Blobs DMap]. rewrite Hr in Htied'. auto.
  - injection Hstep as <-. cbn [store heap Blobs DMap].
    destruct Hch as [Hcells Hroots Hag]. destruct Htied as [Trow Trown Tcol Tcoln].
    assert (Hhold : forall i x,
              holder (heap (store s)) (<[k := Density 0]> (DMap s)) i x <->
              i <> k /\ holder (heap (store s)) (DMap s) i x).
    { intros i x. destruct (decide (i = k)) as [->|Hne].
      - split; [|tauto]. intros Hh. exfalso.
        eapply holder_density; [|exact Hh]. apply list_lookup_insert_eq, Hkdm.
      - rewrite holder_insert_ne by exact Hne. tauto. }
    split; split; cbn [store heap FreeBlobs Blobs RowBlob ColBlobs DMap].
    + intros i d' Hi Hd'. destruct (decide (i = k)) as [->|Hne].
      * rewrite Hd in Hd'. injection Hd' as <-.
        destruct (Z.leb_spec Bth d); [lia|]. apply list_lookup_insert_eq, Hkdm.
      * rewrite list_lookup_insert_ne by congruence. apply Hcells; [lia|exact Hd'].
    + intros r Hr Hroot.
      destruct (Hroots r Hr Hroot) as (P & R & HR & [Hnd Hmem] & Hext & Hcon).
      exists P, R. split; [exact HR|]. split; [|auto]. split; [exact Hnd|].
      intros i. rewrite Hmem, Hhold. split; [intros [? ?]; repeat split; auto; lia|].
      intros [Hi [Hne Hh]]. split; [lia|exact Hh].
    + intros i j ri rj Hj Hbes Hi' Hj'. apply Hhold in Hi' as [_ Hi'].
      apply Hhold in Hj' as [Hjk Hj']. eapply Hag; [|eassumption..]. lia.
    + discriminate.
    + intros _ _. replace (Y * Wn + S X - 1)%nat with k by (unfold k; lia).
      apply list_lookup_insert_eq, Hkdm.
    + intros x c Hx. destruct (decide (x = X)) as [->|Hne].
      * rewrite list_lookup_insert_eq in Hx by lia. discriminate.
      * rewrite list_lookup_insert_ne in Hx by congruence.
        destruct (Tcol x c Hx) as (p & r0 & Hp & Hh0 & Ho0).
        assert (Hxlen : (x < Wn)%nat) by (rewrite <- Hlen; eapply lookup_lt_Some, Hx).
        pose proof (above_lt Wn Y X x p Hxlen Hp) as Hpk. fold k in Hpk.
        exists p, r0. split; [rewrite above_other by exact Hne; exact Hp|].
        split; [|exact Ho0]. apply Hhold. split; [lia|exact Hh0].
    + intros x p Hx Hp. destruct (decide (x = X)) as [->|Hne].
      * rewrite above_done in Hp. injection Hp as <-.
        apply list_lookup_insert_eq, Hkdm.
      * rewrite list_lookup_insert_ne in Hx by congruence.
        rewrite above_other in Hp by exact Hne.
        assert (Hxlen : (x < Wn)%nat) by (rewrite <- Hlen; eapply lookup_lt_Some, Hx).
        pose proof (above_lt Wn Y X x p Hxlen Hp) as Hpk. fold k in Hpk.
        rewrite list_lookup_insert_ne by lia. eapply Tcoln; eassumption.
Qed.

(** *** The rows of [Blob_Finder_Map] *)



(** *** Numbering and the ID map *)




Lemma worthy_in (Bth : Z) (DensityMap : list Z) (n i : nat) :
  i ∈ worthy Bth DensityMap n <->
  (i < n)%nat /\ exists d, DensityMap !! i = Some d /\ Bth <= d.
Proof.
  unfold worthy. rewrite list_elem_of_In, List.filter_In, <- list_elem_of_In, elem_of_seq.
  split.
  - intros [Hi Hd]. split; [lia|]. destruct (DensityMap !! i) as [d|]; [|discriminate].
    exists d. split; [reflexivity|]. apply Z.leb_le, Hd.
  - intros [Hi (d & -> & Hd)]. split; [lia|]. apply Z.leb_le, Hd.
Qed.



Lemma extent_Permutation (W : nat) (P Q : list nat) (R R' : Blob) :
  P ≡ₚ Q ->
  Count R' = Count R -> Xsum R' = Xsum R -> Ysum R' = Ysum R ->
  Xmin R' = Xmin R -> Ymin R' = Ymin R -> Xmax R' = Xmax R -> Ymax R' = Ymax R ->
  extent W P R -> extent W Q R'.
Proof.
  intros HPQ Hc Hx Hy Hx0 Hy0 Hx1 Hy1 [Hn Hxs Hys Hbox (l & Hl & Hl') (r & Hr & Hr')
    (t & Ht & Ht') (b & Hb & Hb')].
  split.
  - rewrite Hc, <- HPQ. exact Hn.
  - rewrite Hx, Hxs. apply sumZ_Permutation, fmap_Permutation, HPQ.
  - rewrite Hy, Hys. apply sumZ_Permutation, fmap_Permutation, HPQ.
  - intros i Hi. rewrite Hx0, Hy0, Hx1, Hy1. apply Hbox. rewrite HPQ. exact Hi.
  - exists l. rewrite Hx0, <- HPQ. auto.
  - exists r. rewrite Hx1, <- HPQ. auto.
  - exists t. rewrite Hy0, <- HPQ. auto.
  - exists b. rewrite Hy1, <- HPQ. auto.
Qed.

(** *** What [Blob_Finder_Map] returns *)






End MapFacts.

Module RegionFacts.
Import Rollers RollersFacts FinderFacts MapFacts.

(** *** A blob map beside the scan of [Blob_Finder] *)

Lemma touch_with_map (e : Z) (X Y : nat) (cb : option addr) (s : Scan)
    (dm : list MapCell) :
  touch e X Y cb (with_map dm s) = with_map dm <$> touch e X Y cb s.
Proof.
  unfold touch, with_map. cbn [store Blobs RowBlob ColBlobs DMap].
  destruct (match RowBlob s, cb with
            | Some r, Some c =>
                match Merge_Blobs c r e (heap (store s)) with
                | None => None
                | Some h => Some (r, mkStore h (FreeBlobs (store s)), Blobs s)
                end
            | None, Some c => Some (c, store s, Blobs s)
            | None, None =>
                match New_Blob (Z.of_nat X) (Z.of_nat Y) 0 (store s) with
                | None => None
                | Some (b, st) => Some (b, st, b :: Blobs s)
                end
            | Some r, None => Some (r, store s, Blobs s)
            end) as [[[r st] bs]|]; [|reflexivity].
  destruct (Add_Position r (Z.of_nat X) (Z.of_nat Y) (heap st)); [|reflexivity].
  destruct (decide (X < length (ColBlobs s))%nat); reflexivity.
Qed.

Lemma settle_exists (h : list Blob) (dm : list MapCell) :
  (forall i b, dm !! i = Some (Handle b) -> exists r, owner h b r) ->
  exists dm', settles h dm dm'.
Proof.
  induction dm as [|c dm IH]; intros Hown; [exists []; constructor|].
  destruct IH as [dm' Hdm']; [intros i b Hi; apply (Hown (S i) b Hi)|].
  destruct c as [d|b].
  - exists (Density d :: dm'). constructor; [reflexivity|exact Hdm'].
  - destruct (Hown 0%nat b eq_refl) as [r Hr].
    exists (Handle r :: dm'). constructor; [exists r; auto|exact Hdm'].
Qed.

Lemma holder_settled (h : list Blob) (dm dm' : list MapCell) (i : nat) (x : addr) :
  settles h dm dm' -> holder h dm' i x <-> holder h dm i x.
Proof.
  intros Hset. split.
  - intros (r & Hr & Ho).
    destruct (Forall2_lookup_r _ _ _ _ _ Hset Hr) as (c & Hc & Hcell).
    destruct c as [d|b]; cbn in Hcell; [discriminate|].
    destruct Hcell as (r' & [= <-] & Hb). exists b. split; [exact Hc|].
    rewrite (owner_of_root h r x (owner_root _ _ _ Hb) Ho). exact Hb.
  - intros (b & Hb & Ho).
    destruct (Forall2_lookup_l _ _ _ _ _ Hset Hb) as (c' & Hc' & Hcell).
    cbn in Hcell. destruct Hcell as (r & -> & Hr). exists r. split; [exact Hc'|].
    rewrite (owner_fun _ _ _ _ Ho Hr). apply owner_self. eapply owner_root, Hr.
Qed.

Lemma charted_settled (W : nat) (Bth : Z) (DensityMap : list Z) (k : nat)
    (h : list Blob) (L : list addr) (dm dm' : list MapCell) :
  closed h L -> settles h dm dm' ->
  charted W Bth DensityMap k h L dm -> charted W Bth DensityMap k h L dm'.
Proof.
  intros Hclosed Hset [Hcells Hroots Hag]. split.
  - intros i d Hi Hd. pose proof (Hcells i d Hi Hd) as Hc. destruct (Bth <=? d).
    + destruct Hc as (b & Hb & HbL).
      destruct (Forall2_lookup_l _ _ _ _ _ Hset Hb) as (c' & Hc' & Hcell).
      cbn in Hcell. destruct Hcell as (r & -> & Hr). exists r.
      split; [exact Hc'|]. eapply owner_in; eassumption.
    + destruct (Forall2_lookup_l _ _ _ _ _ Hset Hc) as (c' & Hc' & Hcell).
      cbn in Hcell. subst c'. exact Hc'.
  - intros r Hr Hroot.
    destruct (Hroots r Hr Hroot) as (P & R & HR & [Hnd Hmem] & Hext & Hcon).
    exists P, R. split; [exact HR|]. split; [|auto]. split; [exact Hnd|].
    intros i. rewrite Hmem, (holder_settled h dm dm' i r Hset). reflexivity.
  - intros i j ri rj Hj Hbes Hi' Hj'.
    apply (holder_settled h dm dm' i ri Hset) in Hi'.
    apply (holder_settled h dm dm' j rj Hset) in Hj'.
    eapply Hag; eassumption.
Qed.

Lemma tied_settled (W Y X : nat) (s : Scan) (dm dm' : list MapCell) :
  settles (heap (store s)) dm dm' ->
  (forall r, RowBlob s = Some r -> is_root (heap (store s)) r) ->
  tied W Y X (with_map dm s) -> tied W Y X (with_map dm' s).
Proof.
  intros Hset Hrow [Trow Trown Tcol Tcoln].
  cbn [with_map store heap Blobs RowBlob ColBlobs DMap] in *.
  split; cbn [with_map store heap Blobs RowBlob ColBlobs DMap].
  - intros r Hr. destruct (Trow r Hr) as [HX Hdm]. split; [exact HX|].
    destruct (Forall2_lookup_l _ _ _ _ _ Hset Hdm) as (c' & Hc' & Hcell).
    cbn in Hcell. destruct Hcell as (r' & -> & Hr').
    rewrite (owner_of_root _ r r' (Hrow r Hr) Hr') in Hc'. exact Hc'.
  - intros Hr HX. pose proof (Trown Hr HX) as Hdm.
    destruct (Forall2_lookup_l _ _ _ _ _ Hset Hdm) as (c' & Hc' & Hcell).
    cbn in Hcell. subst c'. exact Hc'.
  - intros x c Hx. destruct (Tcol x c Hx) as (p & r & Hp & Hh & Ho).
    exists p, r. split; [exact Hp|]. split; [|exact Ho].
    apply (holder_settled _ dm dm' p r Hset). exact Hh.
  - intros x p Hx Hp. pose proof (Tcoln x p Hx Hp) as Hdm.
    destruct (Forall2_lookup_l _ _ _ _ _ Hset Hdm) as (c' & Hc' & Hcell).
    cbn in Hcell. subst c'. exact Hc'.
Qed.

Lemma settled_roots (h : list Blob) (dm dm' : list MapCell) (i : nat) (b : addr) :
  settles h dm dm' -> dm' !! i = Some (Handle b) -> is_root h b.
Proof.
  intros Hset Hb.
  destruct (Forall2_lookup_r _ _ _ _ _ Hset Hb) as (c & Hc & Hcell).
  destruct c as [d|b0]; cbn in Hcell; [discriminate|].
  destruct Hcell as (r & [= <-] & Hr). eapply owner_root, Hr.
Qed.

Lemma settled_pending (h : list Blob) (DensityMap : list Z)
    (dm dm' : list MapCell) (k : nat) :
  settles h dm dm' -> pending DensityMap dm k -> pending DensityMap dm' k.
Proof.
  intros Hset Hpend i Hi. specialize (Hpend i Hi).
  destruct (DensityMap !! i) as [d|]; cbn in *.
  - destruct (Forall2_lookup_l _ _ _ _ _ Hset Hpend) as (c' & Hc' & Hcell).
    cbn in Hcell. subst c'. exact Hc'.
  - apply lookup_ge_None. rewrite <- (Forall2_length _ _ _ Hset).
    apply lookup_ge_None, Hpend.
Qed.

(** *** One pixel of [Blob_Finder] *)

Lemma find_pixel_surveyed (Wn Hn : nat) (Bth : Z) (DensityMap : list Z)
    (Y X : nat) (s s' : Scan) (d : Z) (dm : list MapCell) :
  let k := (Y * Wn + X)%nat in
  let M := Z.of_nat (Wn * Hn) in
  shape_of k s -> (X < Wn)%nat -> (Y < Hn)%nat ->
  length (ColBlobs s) = Wn -> (Wn * Hn <= length DensityMap)%nat ->
  M * Z.of_nat Wn <= Int.max_int -> M * Z.of_nat Hn <= Int.max_int ->
  DensityMap !! k = Some d -> DMap s !! k = Some (Density d) ->
  surveyed Wn Bth DensityMap Y X s dm ->
  find_pixel false (Wn * Hn) Wn Bth Y s X = Some s' ->
  exists dm', surveyed Wn Bth DensityMap Y (S X) s' dm'.
Proof.
  intros k M Hs HX HY Hlen Hdm HMW HMH Hd Hcell [Hch Htied Hroots Hrest] Hstep.
  fold k in Hch, Hrest.
  assert (HkM : (k < Wn * Hn)%nat) by (unfold k; nia).
  assert (Hgcell : dm !! k = Some (Density d)).
  { rewrite (Hrest k) by lia. rewrite Hd. reflexivity. }
  assert (Hkdm : (k < length dm)%nat) by (eapply lookup_lt_Some, Hgcell).
  assert (Hk1 : (Y * Wn + S X)%nat = S k) by (unfold k; lia).
  destruct (find_pixel_spec false (Wn * Hn) Wn Bth Y X k s d Hs HkM ltac:(lia) Hcell)
    as (s2 & Hstep2 & Hs2 & _).
  rewrite Hstep in Hstep2. injection Hstep2 as <-.
  unfold find_pixel in Hstep. fold k in Hstep.
  destruct (lookup_lt_is_Some_2 (ColBlobs s) X ltac:(lia)) as [cb Hcb].
  rewrite Hcb, Hcell in Hstep.
  destruct (resolve_spec (Wn * Hn) k _ _ _ _ _ X cb Hs Hcb HkM) as (cb' & Hres & Hcb').
  rewrite Hres in Hstep. destruct (Z.leb_spec Bth d) as [Hworthy|Hlow].
  - destruct (touch (Z.of_nat Y + 1) X Y cb' s) as [s0|] eqn:Htouch; [|discriminate].
    injection Hstep as <-.
    assert (Htouchg : touch (Z.of_nat Y + 1) X Y cb' (with_map dm s)
                      = Some (with_map dm s0))
      by (rewrite touch_with_map, Htouch; reflexivity).
    pose proof (touch_charted Wn Hn Bth DensityMap Y X (with_map dm s)
                  (with_map dm s0) d (Z.of_nat Y + 1) (Wn * Hn) cb cb' Hs HX HY
                  Hlen Hdm HMW HMH Hd Hworthy Hkdm Hch Htied Hcb Hres Hcb' Htouchg)
      as Hstepg.
    cbv zeta in Hstepg. destruct Hstepg as (r & Hr & Hch' & Htied').
    cbn [with_map store heap Blobs RowBlob ColBlobs DMap] in Hr, Hch', Htied'.
    fold k in Hch', Htied'.
    unfold shape_of in Hs2. cbn [store heap Blobs RowBlob ColBlobs DMap] in Hs2.
    pose proof (shape_closed _ _ _ _ _ _ Hs2) as Hclosed.
    set (dm1 := <[k := Handle r]> dm) in *.
    destruct (settle_exists (heap (store s0)) dm1) as [dm' Hset].
    { intros i b Hb. destruct (Nat.lt_ge_cases i (S k)) as [Hi|Hi].
      - eapply shape_owner; [exact Hs2|].
        eapply (handle_in Bth DensityMap (S k)); [apply Hch'|lia|exact Hi|exact Hb].
      - unfold dm1 in Hb. rewrite list_lookup_insert_ne in Hb by lia.
        rewrite (Hrest i) in Hb by lia. destruct (DensityMap !! i); discriminate. }
    exists dm'. split; cbn [store heap Blobs RowBlob ColBlobs DMap]; rewrite ?Hk1.
    + eapply charted_settled; eassumption.
    + apply (tied_settled Wn Y (S X)
               (mkScan (store s0) (Blobs s0) (RowBlob s0) (ColBlobs s0) (DMap s0))
               dm1 dm' Hset).
      * cbn [RowBlob store heap]. intros r0 Hr0.
        eapply shape_row; [exact Hs2|exact Hr0].
      * exact Htied'.
    + intros i b Hb. eapply settled_roots; eassumption.
    + eapply settled_pending; [exact Hset|].
      intros i Hi. unfold dm1. rewrite list_lookup_insert_ne by lia.
      apply Hrest. lia.
  - injection Hstep as <-.
    assert (Hg : find_pixel true (Wn * Hn) Wn Bth Y (with_map dm s) X =
                 Some (mkScan (store s) (Blobs s) None (<[X := None]> (ColBlobs s))
                         (<[k := Density 0]> dm))).
    { unfold find_pixel. cbn [with_map store heap Blobs RowBlob ColBlobs DMap].
      fold k. rewrite Hcb, Hgcell, Hres.
      destruct (Z.leb_spec Bth d); [lia|reflexivity]. }
    destruct (find_pixel_charted Wn Hn Bth DensityMap Y X (with_map dm s) _ d
                Hs HX HY Hlen Hdm HMW HMH Hd Hgcell Hch Htied Hg)
      as [Hch' Htied'].
    cbn [with_map store heap Blobs RowBlob ColBlobs DMap] in Hch', Htied'.
    fold k in Hch'.
    exists (<[k := Density 0]> dm).
    split; cbn [store heap Blobs RowBlob ColBlobs DMap]; rewrite ?Hk1.
    + exact Hch'.
    + exact Htied'.
    + intros i b Hb. destruct (decide (i = k)) as [->|Hne].
      * rewrite list_lookup_insert_eq in Hb by exact Hkdm. discriminate.
      * rewrite list_lookup_insert_ne in Hb by congruence. eapply Hroots, Hb.
    + intros i Hi. rewrite list_lookup_insert_ne by lia. apply Hrest. lia.
Qed.

(** *** The rows of [Blob_Finder] *)

Lemma find_row_prefix_surveyed (Wn Hn : nat) (Bth : Z) (DensityMap : list Z)
    (Y : nat) (s : Scan) (dm : list MapCell) :
  let M := Z.of_nat (Wn * Hn) in
  (Wn * Hn <= length DensityMap)%nat -> (Y < Hn)%nat ->
  M * Z.of_nat Wn <= Int.max_int -> M * Z.of_nat Hn <= Int.max_int ->
  shape_of (Y * Wn) s -> dated_of (Z.of_nat Y) 0 s ->
  length (ColBlobs s) = Wn ->
  tail_density (DMap s) (Y * Wn) (Wn * Hn) ->
  pending DensityMap (DMap s) 0 ->
  surveyed Wn Bth DensityMap Y 0 (row_start s) dm ->
  forall (n : nat) (s' : Scan),
  (n <= Wn)%nat ->
  find_row_prefix false (Wn * Hn) Wn Bth Y n s = Some s' ->
  exists dm', surveyed Wn Bth DensityMap Y n s' dm'.
Proof.
  intros M Hdm HY HMW HMH Hs Hd Hlen Htail Hpend Hsv.
  induction n as [|n IH]; intros s' Hle Hrun.
  - unfold find_row_prefix in Hrun. cbn in Hrun. injection Hrun as <-.
    exists dm. exact Hsv.
  - unfold find_row_prefix in Hrun. apply for_each_snoc in Hrun as (s1 & Hrun1 & Hstep).
    fold (find_row_prefix false (Wn * Hn) Wn Bth Y n s) in Hrun1.
    destruct (IH s1 ltac:(lia) Hrun1) as [dm1 Hsv1].
    destruct (find_row_prefix_spec false (Wn * Hn) Wn Bth Y n s ltac:(lia)
                ltac:(nia) Hs ltac:(intros _; exact Hd) Hlen Htail)
      as (s1' & Hrun1' & Hs1 & _ & Hlen1 & _ & Hmap).
    rewrite Hrun1 in Hrun1'. injection Hrun1' as <-.
    assert (Hin : (Y * Wn + n < Wn * Hn)%nat) by nia.
    destruct (lookup_lt_is_Some_2 DensityMap (Y * Wn + n) ltac:(lia)) as [d Hdn].
    assert (Hcell : DMap s1 !! (Y * Wn + n)%nat = Some (Density d)).
    { rewrite (Hmap eq_refl), Hpend by lia. rewrite Hdn. reflexivity. }
    eapply (find_pixel_surveyed Wn Hn Bth DensityMap Y n s1 s' d dm1);
      try eassumption; lia.
Qed.

Lemma find_rows_surveyed (Wn Hn : nat) (Bth : Z) (DensityMap : list Z)
    (st : Store) :
  let M := Z.of_nat (Wn * Hn) in
  store_ok st -> (Wn * Hn <= length DensityMap)%nat ->
  M * Z.of_nat Wn <= Int.max_int -> M * Z.of_nat Hn <= Int.max_int ->
  forall (n : nat) (s : Scan),
  (n <= Hn)%nat ->
  find_rows false Wn Hn Bth DensityMap st n = Some s ->
  pending DensityMap (DMap s) 0 /\
  exists dm, surveyed Wn Bth DensityMap n 0 (row_start s) dm.
Proof.
  intros M Hst Hdm HMW HMH. induction n as [|n IH]; intros s Hle Hrun.
  - unfold find_rows in Hrun. cbn in Hrun. injection Hrun as <-.
    cbn [scan_start DMap]. split; [intros i _; apply list_lookup_fmap|].
    exists (Density <$> DensityMap).
    split; cbn [row_start scan_start with_map store heap Blobs RowBlob ColBlobs DMap].
    + split.
      * intros i d Hi. lia.
      * intros r Hr. apply elem_of_nil in Hr. destruct Hr.
      * intros i j ri rj Hj. lia.
    + split; cbn [row_start scan_start with_map store heap Blobs RowBlob ColBlobs DMap].
      * discriminate.
      * lia.
      * intros x c Hx. apply lookup_replicate in Hx as [? _]. discriminate.
      * intros x p _ Hp. unfold above in Hp. cbn in Hp. discriminate.
    + intros i b Hb. rewrite list_lookup_fmap in Hb.
      destruct (DensityMap !! i); discriminate.
    + intros i _. apply list_lookup_fmap.
  - unfold find_rows in Hrun. apply for_each_snoc in Hrun as (s1 & Hrun1 & Hrow).
    fold (find_rows false Wn Hn Bth DensityMap st n) in Hrun1.
    destruct (IH s1 ltac:(lia) Hrun1) as (Hpend1 & dm1 & Hsv1).
    destruct (find_rows_spec false Wn Hn Bth DensityMap st n Hst Hdm ltac:(lia))
      as (s1' & Hrun1' & Hs1 & Hd1 & Hlen1 & Htail1).
    rewrite Hrun1 in Hrun1'. injection Hrun1' as <-. specialize (Hd1 eq_refl).
    unfold find_row in Hrow.
    destruct (find_row_prefix false (Wn * Hn) Wn Bth n Wn s1) as [s2|] eqn:Hpre;
      [|discriminate].
    destruct (find_row_prefix_surveyed Wn Hn Bth DensityMap n s1 dm1 Hdm
                ltac:(lia) HMW HMH Hs1 Hd1 Hlen1 Htail1 Hpend1 Hsv1
                Wn s2 ltac:(lia) Hpre) as [dm2 [Hch2 [Trow Trown Tcol Tcoln] Hroots2 Hrest2]].
    destruct (find_row_prefix_spec false (Wn * Hn) Wn Bth n Wn s1 ltac:(lia)
                ltac:(nia) Hs1 ltac:(intros _; exact Hd1) Hlen1 Htail1)
      as (s2' & Hpre' & Hs2 & Hd2 & Hlen2 & _ & Hmap2).
    rewrite Hpre in Hpre'. injection Hpre' as <-.
    specialize (Hd2 eq_refl). specialize (Hmap2 eq_refl).
    unfold shape_of in Hs2. unfold dated_of in Hd2.
    rewrite Reap_Expired_Blobs_eq in Hrow.
    2:{ intros b Hb. eapply shape_valid; [exact Hs2|]. apply elem_of_app. auto. }
    injection Hrow as <-. cbn [DMap]. split; [rewrite Hmap2; exact Hpend1|].
    exists dm2.
    assert (Hk : (S n * Wn + 0 = n * Wn + Wn)%nat) by lia.
    assert (Hab : forall x, (x < Wn)%nat -> above Wn (S n) 0 x = above Wn n Wn x).
    { intros x Hx. unfold above. destruct (Nat.ltb_spec x Wn); [|lia].
      cbn. rewrite Nat.sub_0_r. reflexivity. }
    cbn [with_map store heap Blobs RowBlob ColBlobs DMap] in Trow, Trown, Tcol, Tcoln.
    split; cbn [row_start with_map store heap Blobs RowBlob ColBlobs DMap];
      rewrite ?Hk.
    + destruct Hch2 as [Hcells Hroots Hag]. split.
      * intros i d Hi Hd. pose proof (Hcells i d Hi Hd) as Hc.
        destruct (Bth <=? d); [|exact Hc]. destruct Hc as (b & Hb & HbL).
        exists b. split; [exact Hb|].
        apply list_elem_of_In, List.filter_In. split; [apply list_elem_of_In, HbL|].
        destruct (Hroots2 i b Hb) as (B & HB & HF).
        pose proof (dated_root _ _ _ _ _ Hd2 b B HbL HB HF) as He.
        unfold expires. rewrite HB, He.
        destruct (Z.eqb_spec (Z.of_nat n) (-1)); [lia|reflexivity].
      * intros r Hr Hroot. apply Hroots; [|exact Hroot].
        apply list_elem_of_In, List.filter_In in Hr as [Hr _].
        apply list_elem_of_In, Hr.
      * exact Hag.
    + split; cbn [row_start with_map store heap Blobs RowBlob ColBlobs DMap].
      * discriminate.
      * lia.
      * intros x c Hx.
        assert (Hxlen : (x < Wn)%nat) by (rewrite <- Hlen2; eapply lookup_lt_Some, Hx).
        rewrite (Hab x Hxlen). apply Tcol, Hx.
      * intros x p Hx.
        assert (Hxlen : (x < Wn)%nat) by (rewrite <- Hlen2; eapply lookup_lt_Some, Hx).
        rewrite (Hab x Hxlen). apply Tcoln, Hx.
    + exact Hroots2.
    + exact Hrest2.
Qed.

(** *** The blobs [Blob_Finder] returns and the regions of the map *)

Lemma place_lookup (r : addr) (bs : list addr) :
  r ∈ bs -> bs !! place r bs = Some r.
Proof.
  induction bs as [|b bs IH]; intros Hr; [apply elem_of_nil in Hr; destruct Hr|].
  cbn [place]. destruct (decide (b = r)) as [->|Hne]; [reflexivity|].
  apply elem_of_cons in Hr as [->|Hr]; [congruence|]. apply IH, Hr.
Qed.

Lemma place_of_lookup (r : addr) (bs : list addr) (j : nat) :
  NoDup bs -> bs !! j = Some r -> place r bs = j.
Proof.
  intros Hnd Hj.
  apply (NoDup_lookup bs _ _ r Hnd); [|exact Hj].
  apply place_lookup. eapply list_elem_of_lookup_2, Hj.
Qed.

Lemma Blob_Finder_regions (DensityMap : list Z) (Width Height Bth : Z)
    (st : Store) :
  let Wn := Z.to_nat Width in
  let Hn := Z.to_nat Height in
  store_ok st -> (Wn * Hn <= length DensityMap)%nat ->
  Z.of_nat (Wn * Hn) * Z.of_nat Wn <= Int.max_int ->
  Z.of_nat (Wn * Hn) * Z.of_nat Hn <= Int.max_int ->
  exists (bs : list addr) (st' : Store) (h : list Blob) (L : list addr)
         (dm : list MapCell),
    Blob_Finder DensityMap Width Height Bth st = Some (bs, st') /\
    charted Wn Bth DensityMap (Wn * Hn) h L dm /\
    (forall i b, dm !! i = Some (Handle b) -> is_root h b) /\
    NoDup bs /\
    (forall r, r ∈ bs <-> r ∈ L /\ is_root h r) /\
    (forall (j : nat) (r : addr) (R : Blob),
       bs !! j = Some r -> h !! r = Some R ->
       heap st' !! r =
       Some (mkBlob (1 + Z.of_nat j) (Xsum R) (Ysum R) (Xmin R) (Ymin R) (Xmax R)
               (Ymax R) (Count R) (Xreg R) (Yreg R) (Expire R) (FP R))).
Proof.
  intros Wn Hn Hst Hdm HMW HMH. unfold Blob_Finder. fold Wn Hn.
  destruct (find_rows_spec false Wn Hn Bth DensityMap st Hn Hst Hdm ltac:(lia))
    as (s & Hrun & Hs & _).
  destruct (find_rows_surveyed Wn Hn Bth DensityMap st Hst Hdm HMW HMH Hn s
              ltac:(lia) Hrun) as (_ & dm & [Hch _ Hroots _]).
  destruct (find_rows_measured false Wn Hn Bth DensityMap st Hst Hdm HMW HMH
              Hn s ltac:(lia) Hrun) as [_ Hm].
  cbn [row_start store heap Blobs] in Hch, Hroots.
  rewrite Nat.add_0_r, (Nat.mul_comm Hn Wn) in Hch.
  rewrite (Nat.mul_comm Hn Wn) in Hm.
  rewrite Hrun. unfold shape_of in Hs.
  set (h := heap (store s)) in *. set (L := Blobs s) in *.
  assert (Hval : forall b, b ∈ L -> (b < length h)%nat).
  { intros b Hb. eapply shape_valid; [exact Hs|]. apply elem_of_app. auto. }
  rewrite Reap_FP_Blobs_eq by exact Hval.
  set (bs := List.filter (fun b => negb (forwarded h b)) L).
  assert (Hbs : forall r, r ∈ bs <-> r ∈ L /\ is_root h r).
  { intros b. unfold bs. rewrite list_elem_of_In, List.filter_In, <- list_elem_of_In.
    split; intros [Hb Hf]; (split; [exact Hb|]).
    - destruct (lookup_lt_is_Some_2 _ _ (Hval b Hb)) as [B HB].
      exists B. split; [exact HB|]. unfold forwarded in Hf. rewrite HB in Hf.
      destruct (FP B); [discriminate|reflexivity].
    - destruct Hf as (B & HB & HF). unfold forwarded. rewrite HB, HF. reflexivity. }
  assert (Hnd : NoDup bs).
  { unfold bs. apply NoDup_ListNoDup, List.NoDup_filter, NoDup_ListNoDup.
    pose proof (shape_nodup _ _ _ _ _ _ Hs) as Hnd.
    apply NoDup_app in Hnd as (Hnd & _). exact Hnd. }
  assert (Hlen : 1 + Z.of_nat (length bs) <= Int.max_int).
  { assert (Hmbs : measured (Z.of_nat Wn) (Z.of_nat Hn - 1)
                     (census_count Bth DensityMap (Wn * Hn))
                     (census_columns Bth DensityMap Wn (Wn * Hn))
                     (census_rows Bth DensityMap Wn (Wn * Hn)) h bs).
    { apply measured_filter; [|exact Hm].
      intros a B Ha Hga HB. unfold forwarded in Hga. rewrite HB in Hga.
      destruct (FP B); [discriminate|discriminate]. }
    destruct Hmbs as [Hbox HN _ _].
    assert (Z.of_nat (length bs) <= total Count h bs).
    { apply length_le_total. intros b Hb. destruct (proj1 (Hbs b) Hb) as [_ (B & HB & HF)].
      rewrite (share_root Count h b B HB HF).
      apply (boxed_count _ _ _ (Hbox b B Hb HB)). }
    pose proof (worthy_length Bth DensityMap (Wn * Hn)).
    unfold census_count in HN.
    pose proof (int_room (Z.of_nat Wn) (Z.of_nat Hn) ltac:(lia) ltac:(lia)
                  ltac:(rewrite <- Nat2Z.inj_mul; exact HMW)
                  ltac:(rewrite <- Nat2Z.inj_mul; exact HMH)).
    rewrite <- Nat2Z.inj_mul in *. lia. }
  destruct (Number_Blobs_roots bs 1 h Hnd ltac:(intros b Hb; apply Hbs, Hb)
              ltac:(lia) Hlen) as (h' & Hnum & Hout & Hin).
  rewrite Hnum. eexists bs, _, h, L, dm. split; [reflexivity|].
  split; [exact Hch|]. split; [exact Hroots|]. split; [exact Hnd|].
  split; [exact Hbs|]. exact Hin.
Qed.

(** Positions joined by a chain of blob-worthy neighbours refer to the same
    blob. *)
Lemma joined_holder (W : nat) (Bth : Z) (DensityMap : list Z) (k : nat)
    (h : list Blob) (L : list addr) (dm : list MapCell) (i j : nat) :
  charted W Bth DensityMap k h L dm ->
  (forall i b, dm !! i = Some (Handle b) -> is_root h b) ->
  joined W (fun x => x ∈ worthy Bth DensityMap k) i j ->
  forall r, holder h dm i r <-> holder h dm j r.
Proof.
  intros Hch Hroots Hj.
  assert (Hw : forall x, x ∈ worthy Bth DensityMap k ->
            exists b, dm !! x = Some (Handle b) /\ holder h dm x b).
  { intros x Hx. apply worthy_in in Hx as [Hx (d & Hd & Hle)].
    pose proof (charted_cells _ _ _ _ _ _ _ Hch x d Hx Hd) as Hc.
    destruct (Z.leb_spec Bth d); [|lia]. destruct Hc as (b & Hb & _).
    exists b. split; [exact Hb|]. exists b. split; [exact Hb|].
    apply owner_self. eapply Hroots, Hb. }
  induction Hj as [i _|i j Hi Hj Hbes|i j _ IH|i j l _ IH1 _ IH2]; intros r.
  - reflexivity.
  - destruct (Hw i Hi) as (bi & _ & Hhi). destruct (Hw j Hj) as (bj & _ & Hhj).
    apply worthy_in in Hj as [Hj _].
    pose proof (charted_beside _ _ _ _ _ _ _ Hch i j bi bj Hj Hbes Hhi Hhj) as Heq.
    subst bj. split; intros Hh.
    + rewrite (holder_fun _ _ _ _ _ Hh Hhi). exact Hhj.
    + rewrite (holder_fun _ _ _ _ _ Hh Hhj). exact Hhi.
  - symmetry. apply IH.
  - rewrite IH1. apply IH2.
Qed.

(** A blob that describes a set of positions made of two parts has the
    union of the boxes and the sums of the counts and coordinate sums of the
    blobs that describe the parts. *)
Lemma extent_union (W : nat) (P P1 P2 : list nat) (B B1 B2 : Blob) :
  P ≡ₚ P1 ++ P2 -> extent W P B -> extent W P1 B1 -> extent W P2 B2 ->
  Count B = Count B1 + Count B2 /\
  Xsum B = Xsum B1 + Xsum B2 /\ Ysum B = Ysum B1 + Ysum B2 /\
  Xmin B = Z.min (Xmin B1) (Xmin B2) /\ Ymin B = Z.min (Ymin B1) (Ymin B2) /\
  Xmax B = Z.max (Xmax B1) (Xmax B2) /\ Ymax B = Z.max (Ymax B1) (Ymax B2).
Proof.
  intros HP [Hc Hx Hy Hbox (l & Hl & Hl') (r & Hr & Hr') (t & Ht & Ht') (b & Hb & Hb')]
    [Hc1 Hx1 Hy1 Hbox1 (l1 & Hl1 & Hl1') (r1 & Hr1 & Hr1') (t1 & Ht1 & Ht1')
       (b1 & Hb1 & Hb1')]
    [Hc2 Hx2 Hy2 Hbox2 (l2 & Hl2 & Hl2') (r2 & Hr2 & Hr2') (t2 & Ht2 & Ht2')
       (b2 & Hb2 & Hb2')].
  assert (Hin1 : forall i, i ∈ P1 -> i ∈ P)
    by (intros i Hi; rewrite HP; apply elem_of_app; auto).
  assert (Hin2 : forall i, i ∈ P2 -> i ∈ P)
    by (intros i Hi; rewrite HP; apply elem_of_app; auto).
  assert (Hcase : forall i, i ∈ P -> i ∈ P1 \/ i ∈ P2)
    by (intros i Hi; rewrite HP in Hi; apply elem_of_app in Hi; exact Hi).
  split; [rewrite Hc, Hc1, Hc2, HP, length_app; lia|].
  assert (Hpx : sumZ (map (column W) P) = sumZ (map (column W) (P1 ++ P2)))
    by (apply sumZ_Permutation, fmap_Permutation, HP).
  assert (Hpy : sumZ (map (row W) P) = sumZ (map (row W) (P1 ++ P2)))
    by (apply sumZ_Permutation, fmap_Permutation, HP).
  split; [rewrite Hx, Hx1, Hx2, Hpx, map_app, sumZ_app; reflexivity|].
  split; [rewrite Hy, Hy1, Hy2, Hpy, map_app, sumZ_app; reflexivity|].
  pose proof (Hbox l1 (Hin1 l1 Hl1)). pose proof (Hbox l2 (Hin2 l2 Hl2)).
  pose proof (Hbox r1 (Hin1 r1 Hr1)). pose proof (Hbox r2 (Hin2 r2 Hr2)).
  pose proof (Hbox t1 (Hin1 t1 Ht1)). pose proof (Hbox t2 (Hin2 t2 Ht2)).
  pose proof (Hbox b1 (Hin1 b1 Hb1)). pose proof (Hbox b2 (Hin2 b2 Hb2)).
  split; [|split; [|split]].
  - destruct (Hcase l Hl) as [Hi|Hi];
      [pose proof (Hbox1 l Hi)|pose proof (Hbox2 l Hi)]; lia.
  - destruct (Hcase t Ht) as [Hi|Hi];
      [pose proof (Hbox1 t Hi)|pose proof (Hbox2 t Hi)]; lia.
  - destruct (Hcase r Hr) as [Hi|Hi];
      [pose proof (Hbox1 r Hi)|pose proof (Hbox2 r Hi)]; lia.
  - destruct (Hcase b Hb) as [Hi|Hi];
      [pose proof (Hbox1 b Hi)|pose proof (Hbox2 b Hi)]; lia.
Qed.

(** C7: [Merge_Blobs] of two distinct blobs leaves in the second one the
    component-wise union of the two bounding boxes and the sums of the two
    counts and of the centre-of-mass sums, and turns the first one into a
    stub forwarding to the second; where the row blob of [Blob_Finder] meets a
    different column blob on a blob-worthy pixel, the step is that merge of
    the column blob into the row blob followed by [Add_Position]; and
    [Blob_Finder] returns a list of distinct blobs none of which is
    forwarded, so a merged-away blob is never returned.

    From end to end, when the coordinate sums fit an int: the blobs
    [Blob_Finder] returns are the regions of the map.  Each blob-worthy
    position [i] has one returned blob, at place [lab i] of the list; that
    blob is not forwarded and describes exactly the region of [i], the
    positions joined to [i] by a chain of blob-worthy neighbours: its
    [Count] is their number, its sums are the sums of their columns and
    rows, its box is the tight box around them.  So whatever two parts the
    region is made of, such as two blobs that started apart and touch in a
    later row, the returned blob has the union of the boxes and the sums of
    the counts and coordinate sums of the blobs that describe the parts.
    Two positions have the same blob exactly when they are joined, and every
    returned blob is the blob of some position: no blob is returned for a
    part of a region. *)
Theorem touching_blobs_merge (DensityMap : list Z) (Width Height Bth : Z)
    (st : Store) :
  store_ok st ->
  (Z.to_nat Width * Z.to_nat Height <= length DensityMap)%nat ->
  (forall (h : list Blob) (Blob1 Blob2 : addr) (e : Z) (B1 B2 : Blob),
     Blob1 <> Blob2 -> h !! Blob1 = Some B1 -> h !! Blob2 = Some B2 ->
     exists (h' : list Blob) (B1' B2' : Blob),
       Merge_Blobs Blob1 Blob2 e h = Some h' /\
       h' !! Blob1 = Some B1' /\ h' !! Blob2 = Some B2' /\
       FP B1' = Some Blob2 /\ FP B2' = FP B2 /\
       Xmin B2' = Z.min (Xmin B1) (Xmin B2) /\
       Ymin B2' = Z.min (Ymin B1) (Ymin B2) /\
       Xmax B2' = Z.max (Xmax B1) (Xmax B2) /\
       Ymax B2' = Z.max (Ymax B1) (Ymax B2) /\
       Count B2' = Int.add (Count B2) (Count B1) /\
       Xsum B2' = Int.add (Xsum B2) (Xsum B1) /\
       Ysum B2' = Int.add (Ysum B2) (Ysum B1)) /\
  (forall (fuel W Y X : nat) (s s' : Scan) (d : Z) (cb : option addr)
          (c r : addr),
     find_pixel false fuel W Bth Y s X = Some s' ->
     ColBlobs s !! X = Some cb ->
     DMap s !! (Y * W + X)%nat = Some (Density d) -> Bth <= d ->
     resolve fuel (heap (store s)) cb = Some (Some c) ->
     RowBlob s = Some r -> c <> r ->
     exists hm : list Blob,
       Merge_Blobs c r (Z.of_nat Y + 1) (heap (store s)) = Some hm /\
       Add_Position r (Z.of_nat X) (Z.of_nat Y) hm = Some (heap (store s')) /\
       RowBlob s' = Some r /\ Blobs s' = Blobs s /\
       ColBlobs s' !! X = Some (Some r)) /\
  (exists (bs : list addr) (st' : Store),
     Blob_Finder DensityMap Width Height Bth st = Some (bs, st') /\
     NoDup bs /\
     forall b, b ∈ bs -> is_root (heap st') b) /\
  (let Wn := Z.to_nat Width in
   let Hn := Z.to_nat Height in
   let region := fun i x : nat =>
     joined Wn (fun y => y ∈ worthy Bth DensityMap (Wn * Hn)) i x in
   Z.of_nat (Wn * Hn) * Z.of_nat Wn <= Int.max_int ->
   Z.of_nat (Wn * Hn) * Z.of_nat Hn <= Int.max_int ->
   exists (Bs : list Blob) (lab : nat -> nat),
     blobs_of (Blob_Finder DensityMap Width Height Bth st) = Some Bs /\
     (forall i : nat,
        i ∈ worthy Bth DensityMap (Wn * Hn) ->
        exists (B : Blob) (P : list nat),
          Bs !! lab i = Some B /\ FP B = None /\
          ID B = Z.of_nat (lab i) + 1 /\
          NoDup P /\ (forall x : nat, x ∈ P <-> region i x) /\
          extent Wn P B /\
          forall (P1 P2 : list nat) (B1 B2 : Blob),
            P ≡ₚ P1 ++ P2 -> extent Wn P1 B1 -> extent Wn P2 B2 ->
            Count B = Count B1 + Count B2 /\
            Xsum B = Xsum B1 + Xsum B2 /\ Ysum B = Ysum B1 + Ysum B2 /\
            Xmin B = Z.min (Xmin B1) (Xmin B2) /\
            Ymin B = Z.min (Ymin B1) (Ymin B2) /\
            Xmax B = Z.max (Xmax B1) (Xmax B2) /\
            Ymax B = Z.max (Ymax B1) (Ymax B2)) /\
     (forall i i' : nat,
        i ∈ worthy Bth DensityMap (Wn * Hn) ->
        i' ∈ worthy Bth DensityMap (Wn * Hn) ->
        (lab i = lab i' <-> region i i')) /\
     (forall (v : nat) (B : Blob),
        Bs !! v = Some B ->
        exists i : nat, i ∈ worthy Bth DensityMap (Wn * Hn) /\ lab i = v)).
Proof.
  intros Hst Hdm. split; [|split; [|split]].
  - intros h Blob1 Blob2 e B1 B2 Hne H1 H2. unfold Merge_Blobs.
    rewrite decide_False by exact Hne. rewrite H1, H2.
    pose proof (lookup_lt_Some _ _ _ H1) as Hlt1.
    pose proof (lookup_lt_Some _ _ _ H2) as Hlt2.
    eexists _, _, _. split; [reflexivity|].
    split; [apply list_lookup_insert_eq; rewrite length_insert; exact Hlt1|].
    split.
    { rewrite list_lookup_insert_ne by exact Hne.
      apply list_lookup_insert_eq. exact Hlt2. }
    cbn [FP Xmin Ymin Xmax Ymax Count Xsum Ysum].
    repeat split.
    + destruct (Z.ltb_spec (Xmin B1) (Xmin B2)); lia.
    + destruct (Z.ltb_spec (Ymin B1) (Ymin B2)); lia.
    + destruct (Z.ltb_spec (Xmax B2) (Xmax B1)); lia.
    + destruct (Z.ltb_spec (Ymax B2) (Ymax B1)); lia.
  - intros fuel W Y X s s' d cb c r Hrun Hcb Hd Hworthy Hres Hrb Hne.
    unfold find_pixel in Hrun. rewrite Hcb, Hd, Hres in Hrun.
    destruct (Z.leb_spec Bth d); [|lia].
    destruct (touch (Z.of_nat Y + 1) X Y (Some c) s) as [s1|] eqn:Ht;
      [|discriminate].
    injection Hrun as <-. cbn [store Blobs RowBlob ColBlobs].
    unfold touch in Ht. rewrite Hrb in Ht.
    destruct (Merge_Blobs c r (Z.of_nat Y + 1) (heap (store s))) as [hm|] eqn:Hm;
      [|discriminate].
    cbn [heap FreeBlobs] in Ht.
    destruct (Add_Position r (Z.of_nat X) (Z.of_nat Y) hm) as [h2|] eqn:Ha;
      [|discriminate].
    destruct (decide (X < length (ColBlobs s))%nat) as [HX|]; [|discriminate].
    injection Ht as <-. cbn [store heap Blobs RowBlob ColBlobs].
    exists hm. split; [reflexivity|]. split; [exact Ha|].
    split; [reflexivity|]. split; [reflexivity|].
    apply list_lookup_insert_eq, HX.
  - destruct (Blob_Finder_returns DensityMap Width Height Bth st Hst Hdm)
      as (bs & st' & Hrun & Hnd & Hroots & _).
    exists bs, st'. auto.
  - intros Wn Hn region HMW HMH.
    destruct (Blob_Finder_regions DensityMap Width Height Bth st Hst Hdm HMW HMH)
      as (bs & st' & h & L & dm & Hrun & Hch & Hroots & Hnd & Hbs & Hin).
    fold Wn Hn in Hch.
    assert (Hroot' : forall b, b ∈ bs -> is_root (heap st') b).
    { intros b Hb. destruct (proj1 (Hbs b) Hb) as [_ (R & HR & HF)].
      apply list_elem_of_lookup_1 in Hb as [j Hj].
      eexists. split; [apply (Hin j b R Hj HR)|exact HF]. }
    destruct (Forall2_roots (heap st') bs Hroot') as [Bs HBs].
    exists Bs, (label dm bs). rewrite Hrun. unfold blobs_of.
    rewrite (proj2 (total_roots Count _ _ _ HBs)). split; [reflexivity|].
    (* the blob of a position *)
    assert (Hw : forall i, i ∈ worthy Bth DensityMap (Wn * Hn) ->
              exists b, dm !! i = Some (Handle b) /\ holder h dm i b /\
                        b ∈ bs /\ label dm bs i = place b bs /\
                        (i < Wn * Hn)%nat).
    { intros i Hi. apply worthy_in in Hi as [Hi (d & Hd & Hle)].
      pose proof (charted_cells _ _ _ _ _ _ _ Hch i d Hi Hd) as Hc.
      destruct (Z.leb_spec Bth d); [|lia]. destruct Hc as (b & Hb & HbL).
      pose proof (Hroots i b Hb) as Hroot.
      exists b. split; [exact Hb|]. split; [exists b; split; [exact Hb|]|].
      { apply owner_self, Hroot. }
      split; [apply Hbs; auto|]. split; [|exact Hi].
      unfold label. rewrite Hb. reflexivity. }
    assert (Hsub : forall (b : addr) (P : list nat),
              members h dm (Wn * Hn) b P ->
              forall x, x ∈ P -> x ∈ worthy Bth DensityMap (Wn * Hn)).
    { intros b P [_ Hmem] x Hx. apply Hmem in Hx as [Hx Hh]. apply worthy_in.
      split; [exact Hx|].
      destruct (lookup_lt_is_Some_2 DensityMap x ltac:(lia)) as [d Hd].
      exists d. split; [exact Hd|].
      pose proof (charted_cells _ _ _ _ _ _ _ Hch x d Hx Hd) as Hc.
      destruct (Z.leb_spec Bth d); [assumption|].
      destruct (holder_density _ _ _ _ _ Hc Hh). }
    split; [|split].
    + intros i Hi. destruct (Hw i Hi) as (b & Hb & Hh & Hbbs & Hlab & Hik).
      destruct (proj1 (Hbs b) Hbbs) as [HbL Hroot].
      destruct (charted_roots _ _ _ _ _ _ _ Hch b HbL Hroot)
        as (P & R & HR & Hmem & Hext & Hcon).
      assert (HRF : FP R = None) by (destruct Hroot as (R0 & HR0 & HF); congruence).
      pose proof (place_lookup b bs Hbbs) as Hj.
      destruct (Forall2_lookup_l _ _ _ _ _ HBs Hj) as (B & HB & HB' & HBF).
      rewrite (Hin _ b R Hj HR) in HB'. injection HB' as HBeq.
      assert (Hext' : extent Wn P B).
      { apply (extent_Permutation Wn P P R B (Permutation_refl P));
          try (subst B; reflexivity). exact Hext. }
      exists B, P. rewrite Hlab. split; [exact HB|]. split; [exact HBF|].
      split; [subst B; cbn [ID]; lia|]. split; [apply Hmem|].
      split; [|split; [exact Hext'|]].
      * intros x. split.
        -- intros Hx. eapply joined_mono; [apply (Hsub b P Hmem)|].
           apply Hcon; [apply Hmem; auto|exact Hx].
        -- intros Hjoin. destruct (joined_in _ _ _ _ Hjoin) as [_ Hx].
           apply worthy_in in Hx as [Hx _]. apply Hmem. split; [exact Hx|].
           apply (joined_holder Wn Bth DensityMap (Wn * Hn) h L dm i x Hch Hroots
                    Hjoin b). exact Hh.
      * intros P1 P2 B1 B2 HP H1 H2.
        apply (extent_union Wn P P1 P2 B B1 B2 HP Hext' H1 H2).
    + intros i i' Hi Hi'. destruct (Hw i Hi) as (b & Hb & Hh & Hbbs & Hlab & Hik).
      destruct (Hw i' Hi') as (b' & Hb' & Hh' & Hbbs' & Hlab' & Hik').
      rewrite Hlab, Hlab'. split.
      * intros Heq.
        assert (b = b').
        { pose proof (place_lookup b bs Hbbs) as H1.
          pose proof (place_lookup b' bs Hbbs') as H2.
          rewrite Heq in H1. congruence. }
        subst b'. destruct (proj1 (Hbs b) Hbbs) as [HbL Hroot].
        destruct (charted_roots _ _ _ _ _ _ _ Hch b HbL Hroot)
          as (P & R & HR & Hmem & Hext & Hcon).
        eapply joined_mono; [apply (Hsub b P Hmem)|].
        apply Hcon; apply Hmem; auto.
      * intros Hjoin.
        pose proof (proj1 (joined_holder Wn Bth DensityMap (Wn * Hn) h L dm i i'
                            Hch Hroots Hjoin b) Hh) as Hh2.
        rewrite (holder_fun _ _ _ _ _ Hh2 Hh'). reflexivity.
    + intros v B HB.
      destruct (Forall2_lookup_r _ _ _ _ _ HBs HB) as (r & Hv & _).
      destruct (proj1 (Hbs r) (list_elem_of_lookup_2 _ _ _ Hv)) as [HrL Hroot].
      destruct (charted_roots _ _ _ _ _ _ _ Hch r HrL Hroot)
        as (P & R & HR & Hmem & Hext & Hcon).
      destruct (extent_left _ _ _ Hext) as (i & Hi & _).
      exists i. split; [apply (Hsub r P Hmem i Hi)|].
      apply Hmem in Hi as [Hi (b & Hb & Ho)].
      pose proof (owner_of_root h b r (Hroots i b Hb) Ho) as Heq. subst r.
      unfold label. rewrite Hb. apply place_of_lookup; assumption.
Qed.

Lemma touching_blobs_merge_witness :
  (exists (bs : list addr) (st' : Store),
     Blob_Finder [1; 0; 1;
                  1; 1; 1] 3 2 1 empty_store = Some (bs, st') /\
     NoDup bs /\
     forall b, b ∈ bs -> is_root (heap st') b) /\
  (exists (Bs : list Blob) (lab : nat -> nat),
     blobs_of (Blob_Finder [1; 0; 1;
                            1; 1; 1] 3 2 1 empty_store) = Some Bs /\
     (forall i i' : nat,
        i ∈ worthy 1 [1; 0; 1; 1; 1; 1] 6 ->
        i' ∈ worthy 1 [1; 0; 1; 1; 1; 1] 6 ->
        (lab i = lab i' <->
         joined 3 (fun y => y ∈ worthy 1 [1; 0; 1; 1; 1; 1] 6) i i')) /\
     (forall (v : nat) (B : Blob),
        Bs !! v = Some B ->
        exists i : nat, i ∈ worthy 1 [1; 0; 1; 1; 1; 1] 6 /\ lab i = v)) /\
  blobs_of (Blob_Finder [1; 0; 1;
                         1; 1; 1] 3 2 1 empty_store) =
    Some [mkBlob 1 5 3 0 0 2 1 5 0 0 (-1) None].
Proof.
  destruct (touching_blobs_merge [1; 0; 1; 1; 1; 1] 3 2 1 empty_store
              empty_store_ok ltac:(simpl; lia)) as (_ & _ & Hret & Hreg).
  split; [exact Hret|]. split; [|reflexivity].
  destruct (Hreg ltac:(vm_compute; discriminate) ltac:(vm_compute; discriminate))
    as (Bs & lab & HBs & _ & Hsame & Hall).
  exists Bs, lab. auto.
Defined.

End RegionFacts.
